(** * FilterExpressionParser: executor and AST-builder properties

    A shallow embedding of
    [Source/Libraries/TimeSeriesPlatformLibrary/Transport/FilterExpressions/FilterExpressionParser.cpp]
    (GSF time-series platform library).  The parser object is a record,
    its methods are functions in a state-and-exception monad that keeps
    the parser state at the point of a [throw], and the ANTLR listener
    callbacks are functions over the parts of the rule contexts they read;
    the listeners of the WHERE subtree are functions over its parse tree,
    in a monad that also tells a call without defined behaviour. *)

From Stdlib Require Import ZArith QArith Ascii String List Bool Lia.
From Stdlib Require Import Permutation Sorted OrdersEx.
From stdpp Require Import base option list strings pretty gmap.

Open Scope Z_scope.

(** ** Common string helpers *)

Module Common.

(** ASCII case folding, as [boost::to_upper] does for the classic locale. *)
Definition ToUpperChar (c : ascii) : ascii :=
  let n := N_of_ascii c in
  if ((97 <=? n) && (n <=? 122))%N then ascii_of_N (n - 32) else c.

Fixpoint ToUpper (s : string) : string :=
  match s with
  | EmptyString => EmptyString
  | String c r => String (ToUpperChar c) (ToUpper r)
  end.

Definition CharEquals (ignoreCase : bool) (a b : ascii) : bool :=
  if ignoreCase then bool_decide (ToUpperChar a = ToUpperChar b)
  else bool_decide (a = b).

(** Modelled from the spec: [IsEqual], [StartsWith] and [Compare] are
    declared in the library's common header and defined in its common
    source file, neither of which is part of the parser source.  The spec
    has keywords, identifiers and function names match
    case-insensitively, and the parser passes [false] explicitly wherever
    it compares operator symbols, so the third argument [ignoreCase]
    defaults to [true]; a call that omits it in the source is written
    here with [true]. *)
Fixpoint IsEqual (left right : string) (ignoreCase : bool) : bool :=
  match left, right with
  | EmptyString, EmptyString => true
  | String a l, String b r => CharEquals ignoreCase a b && IsEqual l r ignoreCase
  | _, _ => false
  end.

(** Modelled from the spec: see [IsEqual]. *)
Fixpoint StartsWith (value findValue : string) (ignoreCase : bool)
    {struct findValue} : bool :=
  match findValue, value with
  | EmptyString, _ => true
  | String b r, String a l => CharEquals ignoreCase a b && StartsWith l r ignoreCase
  | String _ _, EmptyString => false
  end.

(** Modelled from the spec: see [IsEqual].  The result is negative, zero
    or positive; strings are compared lexicographically after folding. *)
Definition Compare (leftValue rightValue : string) (ignoreCase : bool) : Z :=
  let l := if ignoreCase then ToUpper leftValue else leftValue in
  let r := if ignoreCase then ToUpper rightValue else rightValue in
  match String.compare l r with
  | Lt => -1
  | Eq => 0
  | Gt => 1
  end.

(** A text between double quotes, as the exception messages show names. *)
Definition quoted (s : string) : string :=
  String "034"%char (s +:+ String "034"%char EmptyString).

End Common.

Import Common.

(** ** Exceptions *)

(** The outcome of a call that reads no parser state: a value, or a
    thrown exception with its message. *)
Inductive Except (A : Type) :=
| Returns (a : A)
| Throws (message : string).
Arguments Returns {A} a.
Arguments Throws {A} message.

(** ** The data set (GSF::Data) *)

(** The data-set classes ([DataSet], [DataTable], [DataColumn], [DataRow])
    are external collaborators of the parser: it calls
    [dataSet.Table(name)], [table.Name()], [table.RowCount()],
    [table.Row(i)], [table.Column(name)], [column.Index()],
    [column.Type()] and the typed nullable row accessors.  Their source is
    not part of the parser source. *)

Module DataType.
(** Modelled from the spec: the closed set of column data types. *)
Inductive t :=
| String | Boolean | DateTime | Single | Double | Decimal | Guid
| Int8 | Int16 | Int32 | Int64 | UInt8 | UInt16 | UInt32 | UInt64.
End DataType.

(** A signal identifier: the 128 bits of the GUID read as one number.
    [Empty::Guid] is the all-zeros GUID. *)
Definition guid := N.

Module Empty.
(** Modelled from the spec: [Empty::Guid], the all-zeros GUID. *)
Definition Guid : guid := 0%N.
End Empty.

(** Modelled from the spec: a value of a floating-point column
    ([float32_t], [float64_t]) or of a decimal column ([decimal_t], a
    decimal floating-point number): a number, carried as the rational it
    denotes, an infinity or a NaN. *)
Inductive Floating :=
| Finite (q : Q)
| PositiveInfinity
| NegativeInfinity
| NaN.

(** Modelled from the spec: a non-null cell holds a value of the column's
    type. *)
Inductive CellValue :=
| CString (s : string)
| CBoolean (b : bool)
| CDateTime (t : Z)
| CSingle (f : Floating)
| CDouble (f : Floating)
| CDecimal (f : Floating)
| CGuid (g : guid)
| CInt8 (z : Z) | CInt16 (z : Z) | CInt32 (z : Z) | CInt64 (z : Z)
| CUInt8 (z : Z) | CUInt16 (z : Z) | CUInt32 (z : Z) | CUInt64 (z : Z).

(** Modelled from the spec: a row is a tuple of nullable cells accessible
    by column index. *)
Definition DataRow := list (option CellValue).

(** Modelled from the spec: a column has a name, a zero-based index within
    the table and a data type. *)
Record DataColumn := {
  Column_Name : string;
  Column_Index : Z;
  Column_Type : DataType.t
}.

(** Modelled from the spec: a table is a named ordered sequence of rows
    plus an ordered schema of columns; [table.Row(i)] may be a null
    pointer. *)
Record DataTable := {
  Table_Name : string;
  Table_Columns : list DataColumn;
  Table_Rows : list (option DataRow)
}.

(** Modelled from the spec: a data set maps table names, compared without
    regard to case, to tables. *)
Definition DataSet := list DataTable.

(** Modelled from the spec: each typed accessor of a row returns an
    optional of the column's type, or nothing when the cell is null. *)
Definition Cell (row : DataRow) (columnIndex : Z) : option CellValue :=
  if columnIndex <? 0 then None else mjoin (row !! Z.to_nat columnIndex).

Definition ValueAsString (row : DataRow) (i : Z) : option string :=
  match Cell row i with Some (CString s) => Some s | _ => None end.
Definition ValueAsBoolean (row : DataRow) (i : Z) : option bool :=
  match Cell row i with Some (CBoolean b) => Some b | _ => None end.
Definition ValueAsDateTime (row : DataRow) (i : Z) : option Z :=
  match Cell row i with Some (CDateTime t) => Some t | _ => None end.
Definition ValueAsSingle (row : DataRow) (i : Z) : option Floating :=
  match Cell row i with Some (CSingle f) => Some f | _ => None end.
Definition ValueAsDouble (row : DataRow) (i : Z) : option Floating :=
  match Cell row i with Some (CDouble f) => Some f | _ => None end.
Definition ValueAsDecimal (row : DataRow) (i : Z) : option Floating :=
  match Cell row i with Some (CDecimal f) => Some f | _ => None end.
Definition ValueAsGuid (row : DataRow) (i : Z) : option guid :=
  match Cell row i with Some (CGuid g) => Some g | _ => None end.
Definition ValueAsInt8 (row : DataRow) (i : Z) : option Z :=
  match Cell row i with Some (CInt8 z) => Some z | _ => None end.
Definition ValueAsInt16 (row : DataRow) (i : Z) : option Z :=
  match Cell row i with Some (CInt16 z) => Some z | _ => None end.
Definition ValueAsInt32 (row : DataRow) (i : Z) : option Z :=
  match Cell row i with Some (CInt32 z) => Some z | _ => None end.
Definition ValueAsInt64 (row : DataRow) (i : Z) : option Z :=
  match Cell row i with Some (CInt64 z) => Some z | _ => None end.
Definition ValueAsUInt8 (row : DataRow) (i : Z) : option Z :=
  match Cell row i with Some (CUInt8 z) => Some z | _ => None end.
Definition ValueAsUInt16 (row : DataRow) (i : Z) : option Z :=
  match Cell row i with Some (CUInt16 z) => Some z | _ => None end.
Definition ValueAsUInt32 (row : DataRow) (i : Z) : option Z :=
  match Cell row i with Some (CUInt32 z) => Some z | _ => None end.
Definition ValueAsUInt64 (row : DataRow) (i : Z) : option Z :=
  match Cell row i with Some (CUInt64 z) => Some z | _ => None end.

(** Modelled from the spec: [table.Column(name)], lookup by column name
    without regard to case; null when there is no such column. *)
Definition DataTable_Column (table : DataTable) (columnName : string)
  : option DataColumn :=
  find (fun column => IsEqual (Column_Name column) columnName true)
       (Table_Columns table).

(** Modelled from the spec: [dataSet.Table(name)], lookup by table name
    without regard to case; null when there is no such table. *)
Definition DataSet_Table (dataSet : DataSet) (tableName : string)
  : option DataTable :=
  find (fun table => IsEqual (Table_Name table) tableName true) dataSet.

(** The per-table triple of column names: signal ID (a GUID), measurement
    key and point tag. *)
Record MeasurementTableIDFields := {
  SignalIDFieldName : string;
  MeasurementKeyFieldName : string;
  PointTagFieldName : string
}.

(** ** Expression model *)

(** The expression classes are declared with the expression tree, outside
    the parser source; the parser constructs them and reads [ValueType],
    [TopLimit], [OrderByTerms], [Root] and [Measurements]. *)

Module ExpressionValueType.
(** Modelled from the spec: the type tags of a value. *)
Inductive t :=
| Boolean | Int32 | Int64 | Decimal | Single | Double
| String | Guid | DateTime | Undefined.

Definition eqb (a b : t) : bool :=
  match a, b with
  | Boolean, Boolean | Int32, Int32 | Int64, Int64 | Decimal, Decimal
  | Single, Single | Double, Double | String, String | Guid, Guid
  | DateTime, DateTime | Undefined, Undefined => true
  | _, _ => false
  end.
End ExpressionValueType.

Module ExpressionUnaryType.
(** Modelled from the spec: the unary operators. *)
Inductive t := Plus | Minus | Not.
End ExpressionUnaryType.

Module ExpressionFunctionType.
(** Modelled from the spec: the built-in functions. *)
Inductive t :=
| Coalesce | Convert | IIf | IsRegExMatch | Len | RegExVal | SubString | Trim.
End ExpressionFunctionType.

Module ExpressionOperatorType.
(** Modelled from the spec: the binary operators. *)
Inductive t :=
| Multiply | Divide | Modulus | Add | Subtract
| BitShiftLeft | BitShiftRight | BitwiseAnd | BitwiseOr
| LessThan | LessThanOrEqual | GreaterThan | GreaterThanOrEqual
| Equal | NotEqual | IsNull | IsNotNull | Like | NotLike | And | Or.
End ExpressionOperatorType.

(** Modelled from the spec: the payload of a value, of the type named by
    the tag. *)
Inductive Payload :=
| PBoolean (b : bool)
| PInt32 (z : Z)
| PInt64 (z : Z)
| PDecimal (q : Q)
| PSingle (q : Q)
| PDouble (q : Q)
| PString (s : string)
| PGuid (g : guid)
| PDateTime (t : Z).

(** Modelled from the spec: a value is a tagged union of a type and a
    payload; [Value = None] is the null value of that type. *)
Record ValueExpression := NewValueExpression {
  ValueType : ExpressionValueType.t;
  Value : option Payload
}.

(** [ExpressionTree::NullValue], [ExpressionTree::True] and
    [ExpressionTree::False]. *)
Definition ExpressionTree_NullValue (t : ExpressionValueType.t) : ValueExpression :=
  NewValueExpression t None.
Definition ExpressionTree_True : ValueExpression :=
  NewValueExpression ExpressionValueType.Boolean (Some (PBoolean true)).
Definition ExpressionTree_False : ValueExpression :=
  NewValueExpression ExpressionValueType.Boolean (Some (PBoolean false)).

(** The value carries no payload. *)
Definition IsNull (v : ValueExpression) : bool :=
  match Value v with None => true | Some _ => false end.

(** Modelled from the spec: [ValueExpression::ValueAsBoolean] belongs to
    the expression-tree source, which is not part of the parser source.
    The parser calls it only on a value of type Boolean; a null at the
    root is treated as false. *)
Definition ValueExpression_ValueAsBoolean (v : ValueExpression) : bool :=
  match Value v with
  | Some (PBoolean b) => b
  | _ => false
  end.

(** Modelled from the spec: the expression node, with the arguments the
    parser passes to the constructors of [ValueExpression],
    [UnaryExpression], [ColumnExpression], [InListExpression],
    [FunctionExpression] and [OperatorExpression] (whose right operand is
    null for IS NULL). *)
#[warnings="-register-all"]
Inductive Expression :=
| ValueExpr (value : ValueExpression)
| UnaryExpr (unaryType : ExpressionUnaryType.t) (value : Expression)
| ColumnExpr (dataColumn : DataColumn)
| InListExpr (value : Expression) (arguments : list Expression) (notInList : bool)
| FunctionExpr (functionType : ExpressionFunctionType.t) (arguments : list Expression)
| OperatorExpr (operatorType : ExpressionOperatorType.t)
               (leftValue : Expression) (rightValue : option Expression).

(** Modelled from the spec: one expression tree per filter statement.
    [TopLimit] is [-1] when the statement has no TOP clause; an order-by
    term pairs a column with its ascending flag. *)
Record ExpressionTree := {
  Measurements : DataTable;
  TopLimit : Z;
  OrderByTerms : list (DataColumn * bool);
  Root : option Expression
}.

(** The tree that [enterFilterStatement] creates for a table. *)
Definition NewExpressionTree (measurements : DataTable) : ExpressionTree :=
  {| Measurements := measurements; TopLimit := -1; OrderByTerms := []; Root := None |}.

(** ** Literal helpers *)

(** [s.erase(s.size() - 1)] on a text that is not empty.  The literal
    helpers call it on what follows an opening delimiter; the lexer gives
    them tokens that end with the delimiter they start with, so that text
    is never empty.  On a lone delimiter, which no token is, [erase]
    throws [std::out_of_range]; [dropLast] returns the empty text
    there. *)
Definition dropLast (s : string) : string :=
  String.substring 0 (String.length s - 1) s.

(** Removes the surrounding single quotes, if any. *)
Definition ParseStringLiteral (stringLiteral : string) : string :=
  match stringLiteral with
  | String "'"%char rest => dropLast rest
  | _ => stringLiteral
  end.

(** Removes the surrounding double quotes, if any. *)
Definition ParsePointTagLiteral (pointTagLiteral : string) : string :=
  match pointTagLiteral with
  | String "034"%char rest => dropLast rest
  | _ => pointTagLiteral
  end.

(** ** Function-name lowering (exitFunctionExpression) *)

(** The first part of [exitFunctionExpression]: the chain of tests that
    selects the function type from the text of the [functionName] rule. *)
Definition exitFunctionExpression_functionType (functionName : string)
  : Except ExpressionFunctionType.t :=
  if IsEqual functionName "COALESCE" true || IsEqual functionName "ISNULL" true then
    Returns ExpressionFunctionType.Coalesce
  else if IsEqual functionName "CONVERT" true then
    Returns ExpressionFunctionType.Convert
  else if IsEqual functionName "IIF" true then
    Returns ExpressionFunctionType.IIf
  else if IsEqual functionName "ISREGEXMATCH" true then
    Returns ExpressionFunctionType.IsRegExMatch
  else if IsEqual functionName "LEN" true then
    Returns ExpressionFunctionType.Len
  else if IsEqual functionName "REGEXVAL" true then
    Returns ExpressionFunctionType.RegExVal
  else if StartsWith functionName "SUBSTR" true then
    Returns ExpressionFunctionType.SubString
  else if IsEqual functionName "TRIM" true then
    Returns ExpressionFunctionType.Trim
  else Throws ("Unexpected function type " +:+ quoted functionName).

(** The second part: collect the expressions already built for the
    children of the expression list.  Each argument is given by its text
    and by what [TryGetExpr] finds for it. *)
Fixpoint exitFunctionExpression_arguments (functionName : string) (i : nat)
    (children : list (string * option Expression)) : Except (list Expression) :=
  match children with
  | [] => Returns []
  | (text, Some argument) :: rest =>
      match exitFunctionExpression_arguments functionName (S i) rest with
      | Returns arguments => Returns (argument :: arguments)
      | Throws message => Throws message
      end
  | (text, None) :: _ =>
      Throws ("Failed to find argument expression " +:+ pretty i +:+ " "
              +:+ quoted text +:+ " for function " +:+ quoted functionName)
  end.

Definition exitFunctionExpression (functionName : string)
    (children : list (string * option Expression)) : Except Expression :=
  match exitFunctionExpression_functionType functionName with
  | Throws message => Throws message
  | Returns functionType =>
      match exitFunctionExpression_arguments functionName 0 children with
      | Throws message => Throws message
      | Returns arguments => Returns (FunctionExpr functionType arguments)
      end
  end.

(** ** Integer literal lowering (exitLiteralValue) *)

Module Int32.
(** Modelled from the spec: [Int32::MaxValue], an integer constant of the
    common header. *)
Definition MaxValue : Z := 2147483647.
End Int32.

Module Int64.
(** Modelled from the spec: [Int64::MaxValue], an integer constant of the
    common header. *)
Definition MaxValue : Z := 9223372036854775807.
End Int64.

(** The binary64 number nearest to the natural number [n] (ties to even):
    a 53-bit significand scaled by a power of two.  The result is again an
    integer, so a [double_t] that holds the value of an integer literal is
    carried as that integer. *)
Definition RoundToDouble (n : Z) : Z :=
  if n <? 2 ^ 53 then n
  else
    let e := Z.log2 n - 52 in
    let q := n / 2 ^ e in
    let r := n mod 2 ^ e in
    let half := 2 ^ (e - 1) in
    let q' := if r <? half then q
              else if half <? r then q + 1
              else if Z.even q then q else q + 1 in
    q' * 2 ^ e.

(** The largest finite binary64 number. *)
Definition DBL_MAX : Z := (2 ^ 53 - 1) * 2 ^ 971.

Definition DigitValue (c : ascii) : option Z :=
  let n := Z.of_N (N_of_ascii c) in
  if (48 <=? n) && (n <=? 57) then Some (n - 48) else None.

Fixpoint ParseDigits (s : string) (acc : Z) : option Z :=
  match s with
  | EmptyString => Some acc
  | String c r =>
      match DigitValue c with
      | Some d => ParseDigits r (10 * acc + d)
      | None => None
      end
  end.

(** [std::stod] on the lexeme of an INTEGER_LITERAL token, a non-empty run
    of decimal digits: the nearest binary64 number, or [std::out_of_range]
    when it is not finite.  Other texts do not reach this call.  The
    exceptions of the standard library have the name of the function as
    their message. *)
Definition stod (lexeme : string) : Except Z :=
  match lexeme with
  | EmptyString => Throws "stod"
  | _ =>
      match ParseDigits lexeme 0 with
      | None => Throws "stod"
      | Some n =>
          let value := RoundToDouble n in
          if DBL_MAX <? value then Throws "stod" else Returns value
      end
  end.

(** The white space that [strtol] skips, in the classic locale: the
    blank and the characters from tab to carriage return. *)
Definition isspace (c : ascii) : bool :=
  let n := N_of_ascii c in
  ((n =? 32) || ((9 <=? n) && (n <=? 13)))%N.

Fixpoint SkipSpaces (s : string) : string :=
  match s with
  | EmptyString => EmptyString
  | String c r => if isspace c then SkipSpaces r else s
  end.

(** The number that the longest run of decimal digits at the head of [s]
    spells, after the digits read so far; nothing when no digit was
    read. *)
Fixpoint LeadingDigits (s : string) (acc : option Z) : option Z :=
  match s with
  | EmptyString => acc
  | String c r =>
      match DigitValue c with
      | Some d => LeadingDigits r (Some (10 * default 0 acc + d))
      | None => acc
      end
  end.

(** The bounds of [int]. *)
Definition INT_MIN : Z := -2147483648.
Definition INT_MAX : Z := 2147483647.

(** [std::stoi] with its default base 10, which reads the text as
    [strtol] does: leading white space is skipped, one sign is taken, the
    longest run of digits that follows is the number, and what comes after
    it is ignored.  It throws [std::invalid_argument] when there is no
    digit to read and [std::out_of_range] when the number is not an
    [int]; both have the name of the function as their message. *)
Definition stoi (lexeme : string) : Except Z :=
  let text := SkipSpaces lexeme in
  let signed :=
    match text with
    | String "-"%char digits => (true, digits)
    | String "+"%char digits => (false, digits)
    | _ => (false, text)
    end in
  match LeadingDigits (snd signed) None with
  | None => Throws "stoi"
  | Some n =>
      let value := if fst signed then - n else n in
      if (value <? INT_MIN) || (INT_MAX <? value) then Throws "stoi"
      else Returns value
  end.

(** [static_cast] of a non-negative integral [double_t] to a signed
    integer type with the given largest value: defined only when the value
    fits. *)
Definition static_cast_signed (MaxValue : Z) (value : Z) : option Z :=
  if value <=? MaxValue then Some value else None.

(** What the INTEGER_LITERAL branch of [exitLiteralValue] leaves: a value
    expression, an exception out of [stod], or a conversion for which the
    language defines no result (the type that was selected is kept). *)
Inductive LiteralOutcome :=
| LiteralValue (result : ValueExpression)
| LiteralThrows (message : string)
| LiteralUndefined (selected : ExpressionValueType.t).

(** The INTEGER_LITERAL branch of [exitLiteralValue].  Both comparisons
    are between a [double_t] and an integer constant, so the constant is
    converted to [double_t] first. *)
Definition exitLiteralValue_INTEGER_LITERAL (lexeme : string) : LiteralOutcome :=
  match stod lexeme with
  | Throws message => LiteralThrows message
  | Returns value =>
      if RoundToDouble Int64.MaxValue <? value then
        LiteralValue (NewValueExpression ExpressionValueType.Double
                        (Some (PDouble (inject_Z value))))
      else if RoundToDouble Int32.MaxValue <? value then
        match static_cast_signed Int64.MaxValue value with
        | Some v => LiteralValue (NewValueExpression ExpressionValueType.Int64
                                    (Some (PInt64 v)))
        | None => LiteralUndefined ExpressionValueType.Int64
        end
      else
        match static_cast_signed Int32.MaxValue value with
        | Some v => LiteralValue (NewValueExpression ExpressionValueType.Int32
                                    (Some (PInt32 v)))
        | None => LiteralUndefined ExpressionValueType.Int32
        end
  end.

(** ** Parse tree *)

(** [orderingTerm : columnName ( K_ASC | K_DESC )?] *)
Record OrderingTermContext := {
  orderByColumnName : string;
  K_DESC : bool
}.

(** [filterStatement].  [topLimit] is the text of the [topLimit] rule
    after K_TOP, when the clause is present
    ([context->topLimit()->getText()]); [enterFilterStatement] reads it
    with [std::stoi], whatever the grammar lets it be.  The WHERE subtree
    is given by
    what the [exit...] listeners make of it when the walker visits it
    against the table that [enterFilterStatement] resolved: the expression
    that the last [AddExpr] leaves as root, or the exception raised on the
    way (an unresolved column, an unknown function, a malformed rule). *)
Record FilterStatementContext := {
  tableName : string;
  K_TOP : bool;
  topLimit : string;
  K_ORDER : bool;
  K_BY : bool;
  orderingTerm : list OrderingTermContext;
  expression : DataTable -> Except Expression
}.

(** [identifierStatement : GUID_LITERAL | MEASUREMENT_KEY_LITERAL |
    POINT_TAG_LITERAL], each terminal by its text when present. *)
Record IdentifierStatementContext := {
  GUID_LITERAL : option string;
  MEASUREMENT_KEY_LITERAL : option string;
  POINT_TAG_LITERAL : option string
}.

Inductive StatementContext :=
| FilterStatement (context : FilterStatementContext)
| IdentifierStatement (context : IdentifierStatementContext).

(** ** Collaborators outside the parser source *)

(** The generated ANTLR parser ([m_parser->parse()] on the input text),
    the GUID reader of the common library and the evaluator of an
    expression tree against a row are used by the parser but defined
    elsewhere; the development is parametric in them. *)
Class External := {
  parse : string -> list StatementContext;
  ParseGuid : string -> guid;
  ExpressionTree_Evaluate : ExpressionTree -> DataRow -> Except ValueExpression
}.

(** A comparator induces a strict weak ordering on the values that
    satisfy [P], the requirement [std::sort] puts on the comparator for the
    values of the range: it is irreflexive and transitive, and so is
    being equivalent (neither value ordered before the other). *)
Record StrictWeakOrdering {A : Type} (P : A -> Prop) (comp : A -> A -> bool) : Prop := {
  swo_irreflexive : forall a, P a -> comp a a = false;
  swo_transitive : forall a b c, P a -> P b -> P c ->
    comp a b = true -> comp b c = true -> comp a c = true;
  swo_incomparable : forall a b c, P a -> P b -> P c ->
    comp a b = false -> comp b a = false ->
    comp b c = false -> comp c b = false ->
    comp a c = false /\ comp c a = false
}.

(** A sequence is sorted with respect to [comp] when no element is
    ordered before one that precedes it. *)
Definition SortedBy {A : Type} (comp : A -> A -> bool) (l : list A) : Prop :=
  StronglySorted (fun a b => comp b a = false) l.

(** [std::sort] by what it does to the range: it exchanges and moves the
    elements of the range among its positions, so the range is rearranged
    into a permutation of itself, and when the comparator induces a strict
    weak ordering on the values of the range, the permutation is sorted
    with respect to the comparator.  Nothing else is promised: the order of
    equivalent elements is left to the implementation, and so is the
    order of all elements when the comparator is no strict weak ordering
    on the values of the range.  The implementation of GCC's libstdc++ is
    [Libstdcxx.sort] below. *)
Class StdSort := {
  std_sort : (DataRow -> DataRow -> bool) -> list DataRow -> list DataRow;
  std_sort_permutation : forall comp l, Permutation l (std_sort comp l);
  std_sort_sorted : forall comp l,
    StrictWeakOrdering (fun a => a ∈ l) comp -> SortedBy comp (std_sort comp l)
}.

(** ** Parser state *)

(** The fields of [FilterExpressionParser] that the methods below read or
    write.  [m_inputStream] is the text the parser was constructed with;
    the lexer, token stream and generated parser built from it are
    represented by [parse] applied to that text.  The memo [m_expressions]
    from rule contexts to expressions is internal to the [exit...]
    listeners of the WHERE subtree and has no field here. *)
Record FilterExpressionParser := {
  m_inputStream : string;
  m_dataSet : option DataSet;
  m_trackFilteredSignalIDs : bool;
  m_trackFilteredRows : bool;
  m_primaryMeasurementTableName : string;
  m_measurementTableIDFields : gmap string MeasurementTableIDFields;
  m_filteredSignalIDSet : gset guid;
  m_filteredSignalIDs : list guid;
  m_filteredRows : list DataRow;
  m_expressionTrees : list ExpressionTree;
  m_activeExpressionTree : option ExpressionTree
}.

Definition with_dataSet (v : option DataSet) (p : FilterExpressionParser) :=
  {| m_inputStream := m_inputStream p; m_dataSet := v;
     m_trackFilteredSignalIDs := m_trackFilteredSignalIDs p;
     m_trackFilteredRows := m_trackFilteredRows p;
     m_primaryMeasurementTableName := m_primaryMeasurementTableName p;
     m_measurementTableIDFields := m_measurementTableIDFields p;
     m_filteredSignalIDSet := m_filteredSignalIDSet p;
     m_filteredSignalIDs := m_filteredSignalIDs p;
     m_filteredRows := m_filteredRows p;
     m_expressionTrees := m_expressionTrees p;
     m_activeExpressionTree := m_activeExpressionTree p |}.

Definition with_trackFilteredSignalIDs (v : bool) (p : FilterExpressionParser) :=
  {| m_inputStream := m_inputStream p; m_dataSet := m_dataSet p;
     m_trackFilteredSignalIDs := v;
     m_trackFilteredRows := m_trackFilteredRows p;
     m_primaryMeasurementTableName := m_primaryMeasurementTableName p;
     m_measurementTableIDFields := m_measurementTableIDFields p;
     m_filteredSignalIDSet := m_filteredSignalIDSet p;
     m_filteredSignalIDs := m_filteredSignalIDs p;
     m_filteredRows := m_filteredRows p;
     m_expressionTrees := m_expressionTrees p;
     m_activeExpressionTree := m_activeExpressionTree p |}.

Definition with_trackFilteredRows (v : bool) (p : FilterExpressionParser) :=
  {| m_inputStream := m_inputStream p; m_dataSet := m_dataSet p;
     m_trackFilteredSignalIDs := m_trackFilteredSignalIDs p;
     m_trackFilteredRows := v;
     m_primaryMeasurementTableName := m_primaryMeasurementTableName p;
     m_measurementTableIDFields := m_measurementTableIDFields p;
     m_filteredSignalIDSet := m_filteredSignalIDSet p;
     m_filteredSignalIDs := m_filteredSignalIDs p;
     m_filteredRows := m_filteredRows p;
     m_expressionTrees := m_expressionTrees p;
     m_activeExpressionTree := m_activeExpressionTree p |}.

Definition with_primaryMeasurementTableName (v : string) (p : FilterExpressionParser) :=
  {| m_inputStream := m_inputStream p; m_dataSet := m_dataSet p;
     m_trackFilteredSignalIDs := m_trackFilteredSignalIDs p;
     m_trackFilteredRows := m_trackFilteredRows p;
     m_primaryMeasurementTableName := v;
     m_measurementTableIDFields := m_measurementTableIDFields p;
     m_filteredSignalIDSet := m_filteredSignalIDSet p;
     m_filteredSignalIDs := m_filteredSignalIDs p;
     m_filteredRows := m_filteredRows p;
     m_expressionTrees := m_expressionTrees p;
     m_activeExpressionTree := m_activeExpressionTree p |}.

Definition with_measurementTableIDFields
    (v : gmap string MeasurementTableIDFields) (p : FilterExpressionParser) :=
  {| m_inputStream := m_inputStream p; m_dataSet := m_dataSet p;
     m_trackFilteredSignalIDs := m_trackFilteredSignalIDs p;
     m_trackFilteredRows := m_trackFilteredRows p;
     m_primaryMeasurementTableName := m_primaryMeasurementTableName p;
     m_measurementTableIDFields := v;
     m_filteredSignalIDSet := m_filteredSignalIDSet p;
     m_filteredSignalIDs := m_filteredSignalIDs p;
     m_filteredRows := m_filteredRows p;
     m_expressionTrees := m_expressionTrees p;
     m_activeExpressionTree := m_activeExpressionTree p |}.

Definition with_filteredSignalIDSet (v : gset guid) (p : FilterExpressionParser) :=
  {| m_inputStream := m_inputStream p; m_dataSet := m_dataSet p;
     m_trackFilteredSignalIDs := m_trackFilteredSignalIDs p;
     m_trackFilteredRows := m_trackFilteredRows p;
     m_primaryMeasurementTableName := m_primaryMeasurementTableName p;
     m_measurementTableIDFields := m_measurementTableIDFields p;
     m_filteredSignalIDSet := v;
     m_filteredSignalIDs := m_filteredSignalIDs p;
     m_filteredRows := m_filteredRows p;
     m_expressionTrees := m_expressionTrees p;
     m_activeExpressionTree := m_activeExpressionTree p |}.

Definition with_filteredSignalIDs (v : list guid) (p : FilterExpressionParser) :=
  {| m_inputStream := m_inputStream p; m_dataSet := m_dataSet p;
     m_trackFilteredSignalIDs := m_trackFilteredSignalIDs p;
     m_trackFilteredRows := m_trackFilteredRows p;
     m_primaryMeasurementTableName := m_primaryMeasurementTableName p;
     m_measurementTableIDFields := m_measurementTableIDFields p;
     m_filteredSignalIDSet := m_filteredSignalIDSet p;
     m_filteredSignalIDs := v;
     m_filteredRows := m_filteredRows p;
     m_expressionTrees := m_expressionTrees p;
     m_activeExpressionTree := m_activeExpressionTree p |}.

Definition with_filteredRows (v : list DataRow) (p : FilterExpressionParser) :=
  {| m_inputStream := m_inputStream p; m_dataSet := m_dataSet p;
     m_trackFilteredSignalIDs := m_trackFilteredSignalIDs p;
     m_trackFilteredRows := m_trackFilteredRows p;
     m_primaryMeasurementTableName := m_primaryMeasurementTableName p;
     m_measurementTableIDFields := m_measurementTableIDFields p;
     m_filteredSignalIDSet := m_filteredSignalIDSet p;
     m_filteredSignalIDs := m_filteredSignalIDs p;
     m_filteredRows := v;
     m_expressionTrees := m_expressionTrees p;
     m_activeExpressionTree := m_activeExpressionTree p |}.

(** [m_activeExpressionTree] is a shared pointer to the tree that was
    pushed last on [m_expressionTrees]; both are written together. *)
Definition with_expressionTrees
    (trees : list ExpressionTree) (active : option ExpressionTree)
    (p : FilterExpressionParser) :=
  {| m_inputStream := m_inputStream p; m_dataSet := m_dataSet p;
     m_trackFilteredSignalIDs := m_trackFilteredSignalIDs p;
     m_trackFilteredRows := m_trackFilteredRows p;
     m_primaryMeasurementTableName := m_primaryMeasurementTableName p;
     m_measurementTableIDFields := m_measurementTableIDFields p;
     m_filteredSignalIDSet := m_filteredSignalIDSet p;
     m_filteredSignalIDs := m_filteredSignalIDs p;
     m_filteredRows := m_filteredRows p;
     m_expressionTrees := trees;
     m_activeExpressionTree := active |}.

(** ** The state-and-exception monad of the parser methods *)

Inductive Result (A : Type) :=
| Ok (a : A) (p : FilterExpressionParser)
| Throw (message : string) (p : FilterExpressionParser).
Arguments Ok {A} a p.
Arguments Throw {A} message p.

Definition M (A : Type) : Type := FilterExpressionParser -> Result A.

#[global] Instance M_ret : MRet M := fun A a p => Ok a p.
#[global] Instance M_bind : MBind M := fun A B f m p =>
  match m p with
  | Ok a p' => f a p'
  | Throw message p' => Throw message p'
  end.

Definition throw {A : Type} (message : string) : M A := fun p => Throw message p.
Definition gets {A : Type} (f : FilterExpressionParser -> A) : M A := fun p => Ok (f p) p.
Definition modify (f : FilterExpressionParser -> FilterExpressionParser) : M unit :=
  fun p => Ok tt (f p).
Definition lift {A : Type} (e : Except A) : M A :=
  match e with
  | Returns a => mret a
  | Throws message => throw message
  end.

(** The parser state a call ends in, whether it returned or threw. *)
Definition finalState {A : Type} (r : Result A) : FilterExpressionParser :=
  match r with
  | Ok _ p => p
  | Throw _ p => p
  end.

Definition succeeded {A : Type} (r : Result A) : bool :=
  match r with
  | Ok _ _ => true
  | Throw _ _ => false
  end.

(** ** The order-by comparator *)

(** [CompareValues<T>], with [lt] for the type's [operator<]
    ([leftValue > rightValue] is [lt rightValue leftValue]). *)
Definition CompareValues {T : Type} (lt : T -> T -> bool)
    (leftNullable rightNullable : option T) : Z :=
  match leftNullable, rightNullable with
  | Some leftValue, Some rightValue =>
      if lt leftValue rightValue then -1
      else if lt rightValue leftValue then 1 else 0
  | None, None => 0
  | Some _, None => 1
  | None, Some _ => -1
  end.

Definition bool_lt (a b : bool) : bool := negb a && b.
Definition Q_lt (a b : Q) : bool := negb (Qle_bool b a).

(** [operator<] of a floating-point type: a NaN is neither less nor
    greater than any value. *)
Definition Floating_lt (a b : Floating) : bool :=
  match a, b with
  | NaN, _ => false
  | _, NaN => false
  | Finite x, Finite y => Q_lt x y
  | Finite _, PositiveInfinity => true
  | Finite _, NegativeInfinity => false
  | NegativeInfinity, NegativeInfinity => false
  | NegativeInfinity, _ => true
  | PositiveInfinity, _ => false
  end.

(** One round of the loop in the comparator that [Evaluate] hands to
    [std::sort]: the comparison result for one order-by term. *)
Definition compareOrderByTerm (orderByTerm : DataColumn * bool)
    (leftMatchedRow rightMatchedRow : DataRow) : Z :=
  let orderByColumn := fst orderByTerm in
  let columnIndex := Column_Index orderByColumn in
  let ascending := snd orderByTerm in
  let leftRow := if ascending then leftMatchedRow else rightMatchedRow in
  let rightRow := if ascending then rightMatchedRow else leftMatchedRow in
  match Column_Type orderByColumn with
  | DataType.String =>
      match ValueAsString leftRow columnIndex, ValueAsString rightRow columnIndex with
      | Some l, Some r => Compare l r true
      | None, None => 0
      | Some _, None => 1
      | None, Some _ => -1
      end
  | DataType.Boolean =>
      CompareValues bool_lt (ValueAsBoolean leftRow columnIndex) (ValueAsBoolean rightRow columnIndex)
  | DataType.DateTime =>
      CompareValues Z.ltb (ValueAsDateTime leftRow columnIndex) (ValueAsDateTime rightRow columnIndex)
  | DataType.Single =>
      CompareValues Floating_lt (ValueAsSingle leftRow columnIndex)
        (ValueAsSingle rightRow columnIndex)
  | DataType.Double =>
      CompareValues Floating_lt (ValueAsDouble leftRow columnIndex)
        (ValueAsDouble rightRow columnIndex)
  | DataType.Decimal =>
      CompareValues Floating_lt (ValueAsDecimal leftRow columnIndex)
        (ValueAsDecimal rightRow columnIndex)
  | DataType.Guid =>
      CompareValues N.ltb (ValueAsGuid leftRow columnIndex) (ValueAsGuid rightRow columnIndex)
  | DataType.Int8 =>
      CompareValues Z.ltb (ValueAsInt8 leftRow columnIndex) (ValueAsInt8 rightRow columnIndex)
  | DataType.Int16 =>
      CompareValues Z.ltb (ValueAsInt16 leftRow columnIndex) (ValueAsInt16 rightRow columnIndex)
  | DataType.Int32 =>
      CompareValues Z.ltb (ValueAsInt32 leftRow columnIndex) (ValueAsInt32 rightRow columnIndex)
  | DataType.Int64 =>
      CompareValues Z.ltb (ValueAsInt64 leftRow columnIndex) (ValueAsInt64 rightRow columnIndex)
  | DataType.UInt8 =>
      CompareValues Z.ltb (ValueAsUInt8 leftRow columnIndex) (ValueAsUInt8 rightRow columnIndex)
  | DataType.UInt16 =>
      CompareValues Z.ltb (ValueAsUInt16 leftRow columnIndex) (ValueAsUInt16 rightRow columnIndex)
  | DataType.UInt32 =>
      CompareValues Z.ltb (ValueAsUInt32 leftRow columnIndex) (ValueAsUInt32 rightRow columnIndex)
  | DataType.UInt64 =>
      CompareValues Z.ltb (ValueAsUInt64 leftRow columnIndex) (ValueAsUInt64 rightRow columnIndex)
  end.

(** The comparator itself: the first term whose result is not zero
    decides; when every term is equal the answer is [false]. *)
Fixpoint orderByComparator (orderByTerms : list (DataColumn * bool))
    (leftMatchedRow rightMatchedRow : DataRow) : bool :=
  match orderByTerms with
  | [] => false
  | orderByTerm :: rest =>
      let result := compareOrderByTerm orderByTerm leftMatchedRow rightMatchedRow in
      if result <? 0 then true
      else if 0 <? result then false
      else orderByComparator rest leftMatchedRow rightMatchedRow
  end.

(** Two rows tie when neither is ordered before the other. *)
Definition tied (orderByTerms : list (DataColumn * bool)) (a b : DataRow) : bool :=
  negb (orderByComparator orderByTerms a b) && negb (orderByComparator orderByTerms b a).

(** ** Parser methods *)

Definition EnumName (valueType : ExpressionValueType.t) : string :=
  match valueType with
  | ExpressionValueType.Boolean => "Boolean"
  | ExpressionValueType.Int32 => "Int32"
  | ExpressionValueType.Int64 => "Int64"
  | ExpressionValueType.Decimal => "Decimal"
  | ExpressionValueType.Single => "Single"
  | ExpressionValueType.Double => "Double"
  | ExpressionValueType.String => "String"
  | ExpressionValueType.Guid => "Guid"
  | ExpressionValueType.DateTime => "DateTime"
  | ExpressionValueType.Undefined => "Undefined"
  end.

Definition NewFilterExpressionParser (filterExpression : string)
  : FilterExpressionParser :=
  {| m_inputStream := filterExpression;
     m_dataSet := None;
     m_trackFilteredSignalIDs := true;
     m_trackFilteredRows := false;
     m_primaryMeasurementTableName := "ActiveMeasurements";
     m_measurementTableIDFields :=
       {[ "ActiveMeasurements"%string :=
            {| SignalIDFieldName := "SignalID";
               MeasurementKeyFieldName := "ID";
               PointTagFieldName := "PointTag" |} ]};
     m_filteredSignalIDSet := ∅;
     m_filteredSignalIDs := [];
     m_filteredRows := [];
     m_expressionTrees := [];
     m_activeExpressionTree := None |}.

Definition SetDataSet (dataSet : option DataSet) := with_dataSet dataSet.
Definition SetPrimaryMeasurementTableName (tableName : string) :=
  with_primaryMeasurementTableName tableName.
Definition SetTrackFilteredSignalIDs (v : bool) := with_trackFilteredSignalIDs v.
Definition SetTrackFilteredRows (v : bool) := with_trackFilteredRows v.
Definition SetMeasurementTableIDFields (measurementTableName : string)
    (fields : MeasurementTableIDFields) (p : FilterExpressionParser) :=
  with_measurementTableIDFields
    (<[measurementTableName := fields]> (m_measurementTableIDFields p)) p.
Definition GetMeasurementTableIDFields (measurementTableName : string)
    (p : FilterExpressionParser) : option MeasurementTableIDFields :=
  m_measurementTableIDFields p !! measurementTableName.
Definition FilteredSignalIDs := m_filteredSignalIDs.
Definition FilteredSignalIDSet := m_filteredSignalIDSet.
Definition FilteredRows := m_filteredRows.

(** [m_filteredSignalIDSet.insert(signalID).second] *)
Definition insertSignalID (signalID : guid) : M bool := fun p =>
  if bool_decide (signalID ∈ m_filteredSignalIDSet p) then Ok false p
  else Ok true (with_filteredSignalIDSet ({[signalID]} ∪ m_filteredSignalIDSet p) p).

Definition push_filteredSignalID (signalID : guid) : M unit :=
  modify (fun p => with_filteredSignalIDs (m_filteredSignalIDs p ++ [signalID]) p).

Definition push_filteredRow (row : DataRow) : M unit :=
  modify (fun p => with_filteredRows (m_filteredRows p ++ [row]) p).

(** Write through [m_activeExpressionTree]: the tree is the one pushed
    last on [m_expressionTrees]. *)
Definition updateActiveExpressionTree (f : ExpressionTree -> ExpressionTree) : M unit :=
  fun p =>
    match m_activeExpressionTree p with
    | Some tree =>
        Ok tt (with_expressionTrees
                 (removelast (m_expressionTrees p) ++ [f tree]) (Some (f tree)) p)
    | None => Throw "null expression tree" p
    end.

Definition AddExpr (expression : Expression) : M unit :=
  updateActiveExpressionTree (fun tree =>
    {| Measurements := Measurements tree; TopLimit := TopLimit tree;
       OrderByTerms := OrderByTerms tree; Root := Some expression |}).

(** The body of the loop of [MapMeasurement] for a non-null row; the
    result tells whether the method returned from inside the loop. *)
Definition MapMeasurement_row (signalIDColumnIndex columnIndex : Z)
    (mappingValue : string) (row : DataRow) : M bool :=
  match ValueAsString row columnIndex with
  | Some field =>
      if IsEqual mappingValue field true then
        trackFilteredSignalIDs ← gets m_trackFilteredSignalIDs;
        trackFilteredRows ← gets m_trackFilteredRows;
        if (trackFilteredSignalIDs : bool) then
          match ValueAsGuid row signalIDColumnIndex with
          | Some signalID =>
              if bool_decide (signalID ≠ Empty.Guid) then
                inserted ← insertSignalID signalID;
                if (inserted : bool) then
                  push_filteredSignalID signalID;;
                  (if (trackFilteredRows : bool) then push_filteredRow row else mret tt);;
                  mret true
                else mret false
              else mret false
          | None => mret false
          end
        else if (trackFilteredRows : bool) then
          push_filteredRow row;; mret false
        else mret false
      else mret false
  | None => mret false
  end.

Fixpoint MapMeasurement_rows (signalIDColumnIndex columnIndex : Z)
    (mappingValue : string) (rows : list (option DataRow)) : M unit :=
  match rows with
  | [] => mret tt
  | None :: rest =>
      MapMeasurement_rows signalIDColumnIndex columnIndex mappingValue rest
  | Some row :: rest =>
      returned ← MapMeasurement_row signalIDColumnIndex columnIndex mappingValue row;
      if (returned : bool) then mret tt
      else MapMeasurement_rows signalIDColumnIndex columnIndex mappingValue rest
  end.

Definition MapMeasurement (measurements : DataTable) (signalIDColumnIndex : Z)
    (columnName mappingValue : string) : M unit :=
  match DataTable_Column measurements columnName with
  | None => mret tt
  | Some column =>
      MapMeasurement_rows signalIDColumnIndex (Column_Index column) mappingValue
                          (Table_Rows measurements)
  end.

(** The row loop of [exitIdentifierStatement] for a GUID literal. *)
Fixpoint exitIdentifierStatement_rows (signalIDColumnIndex : Z) (signalID : guid)
    (rows : list (option DataRow)) : M unit :=
  match rows with
  | [] => mret tt
  | None :: rest => exitIdentifierStatement_rows signalIDColumnIndex signalID rest
  | Some row :: rest =>
      match ValueAsGuid row signalIDColumnIndex with
      | Some signalIDField =>
          if bool_decide (signalIDField = signalID) then push_filteredRow row
          else exitIdentifierStatement_rows signalIDColumnIndex signalID rest
      | None => exitIdentifierStatement_rows signalIDColumnIndex signalID rest
      end
  end.

(** [enterFilterStatement], the loop over the ordering terms. *)
Fixpoint enterFilterStatement_orderingTerms (measurements : DataTable)
    (terms : list OrderingTermContext) : M unit :=
  match terms with
  | [] => mret tt
  | orderingTermContext :: rest =>
      match DataTable_Column measurements (orderByColumnName orderingTermContext) with
      | None =>
          throw ("Failed to find order by field "
                 +:+ quoted (orderByColumnName orderingTermContext)
                 +:+ " for measurement table " +:+ quoted (Table_Name measurements))
      | Some orderByColumn =>
          updateActiveExpressionTree (fun tree =>
            {| Measurements := Measurements tree; TopLimit := TopLimit tree;
               OrderByTerms := OrderByTerms tree
                                 ++ [(orderByColumn, negb (K_DESC orderingTermContext))];
               Root := Root tree |});;
          enterFilterStatement_orderingTerms measurements rest
      end
  end.

(** A call through a null [m_dataSet] has no defined behaviour; the walk
    is stopped there. *)
Definition enterFilterStatement (context : FilterStatementContext) : M unit :=
  dataSet ← gets m_dataSet;
  match dataSet with
  | None => throw "null data set"
  | Some dataSet =>
      match DataSet_Table dataSet (tableName context) with
      | None =>
          throw ("Failed to find measurement table " +:+ quoted (tableName context))
      | Some measurements =>
          modify (fun p =>
            with_expressionTrees
              (m_expressionTrees p ++ [NewExpressionTree measurements])
              (Some (NewExpressionTree measurements)) p);;
          (if K_TOP context then
             limit ← lift (stoi (topLimit context));
             updateActiveExpressionTree (fun tree =>
               {| Measurements := Measurements tree; TopLimit := limit;
                  OrderByTerms := OrderByTerms tree; Root := Root tree |})
           else mret tt);;
          (if K_ORDER context && K_BY context then
             enterFilterStatement_orderingTerms measurements (orderingTerm context)
           else mret tt)
      end
  end.

Section Parser.

Context {external : External} {sorting : StdSort}.

Definition ParseGuidLiteral (guidLiteral : string) : guid :=
  match guidLiteral with
  | String "'"%char rest => ParseGuid (dropLast rest)
  | _ => ParseGuid guidLiteral
  end.

(** [exitIdentifierStatement] from the lookup of the primary measurement
    table on; [signalID] is the GUID of the statement, or the empty GUID
    when the statement is not a GUID literal. *)
Definition exitIdentifierStatement_lookup (context : IdentifierStatementContext)
    (signalID : guid) : M unit :=
trackFilteredRows ← gets m_trackFilteredRows;
dataSet ← gets m_dataSet;
primaryMeasurementTableName ← gets m_primaryMeasurementTableName;
match dataSet with
| None => throw "null data set"
| Some dataSet =>
    match DataSet_Table dataSet primaryMeasurementTableName with
    | None => mret tt
    | Some measurements =>
        measurementTableIDFields ←
          gets (GetMeasurementTableIDFields primaryMeasurementTableName);
        match measurementTableIDFields with
        | None => mret tt
        | Some measurementTableIDFields =>
            match DataTable_Column measurements
                    (SignalIDFieldName measurementTableIDFields) with
            | None => mret tt
            | Some signalIDColumn =>
                let signalIDColumnIndex := Column_Index signalIDColumn in
                if (trackFilteredRows : bool) && bool_decide (signalID ≠ Empty.Guid) then
                  exitIdentifierStatement_rows signalIDColumnIndex signalID
                                               (Table_Rows measurements)
                else
                  match MEASUREMENT_KEY_LITERAL context with
                  | Some text =>
                      MapMeasurement measurements signalIDColumnIndex
                        (MeasurementKeyFieldName measurementTableIDFields) text
                  | None =>
                      match POINT_TAG_LITERAL context with
                      | Some text =>
                          MapMeasurement measurements signalIDColumnIndex
                            (PointTagFieldName measurementTableIDFields)
                            (ParsePointTagLiteral text)
                      | None => mret tt
                      end
                  end
            end
        end
    end
end.

(** [exitIdentifierStatement] up to the lookup: the branch for a GUID
    literal. *)
Definition exitIdentifierStatement_guid (signalID : guid) : M unit :=
trackFilteredSignalIDs ← gets m_trackFilteredSignalIDs;
if (trackFilteredSignalIDs : bool) && bool_decide (signalID ≠ Empty.Guid) then
  inserted ← insertSignalID signalID;
  if (inserted : bool) then push_filteredSignalID signalID else mret tt
else mret tt.

Definition exitIdentifierStatement (context : IdentifierStatementContext) : M unit :=
match GUID_LITERAL context with
| Some text =>
    let signalID := ParseGuidLiteral text in
    exitIdentifierStatement_guid signalID;;
    trackFilteredRows ← gets m_trackFilteredRows;
    if negb trackFilteredRows then mret tt
    else exitIdentifierStatement_lookup context signalID
| None => exitIdentifierStatement_lookup context Empty.Guid
end.

(** The walk below a filter statement: the listeners leave the WHERE
    expression as the root of the active tree. *)
Definition walk_expression (context : FilterStatementContext) : M unit :=
  active ← gets m_activeExpressionTree;
  match active with
  | None => throw "null expression tree"
  | Some tree =>
      root ← lift (expression context (Measurements tree));
      AddExpr root
  end.

Definition walk_statement (statement : StatementContext) : M unit :=
  match statement with
  | FilterStatement context => enterFilterStatement context;; walk_expression context
  | IdentifierStatement context => exitIdentifierStatement context
  end.

(** [ParseTreeWalker::walk] over the statements of the parse tree. *)
Fixpoint walk (parseTree : list StatementContext) : M unit :=
  match parseTree with
  | [] => mret tt
  | statement :: rest => walk_statement statement;; walk rest
  end.

(** [Evaluate], a row whose root expression evaluated to true. *)
Definition Evaluate_matched (signalIDColumnIndex : Z) (row : DataRow)
    (matchedRows : list DataRow) : M (list DataRow) :=
  trackFilteredSignalIDs ← gets m_trackFilteredSignalIDs;
  if (trackFilteredSignalIDs : bool) then
    match ValueAsGuid row signalIDColumnIndex with
    | Some signalID =>
        if bool_decide (signalID ≠ Empty.Guid) then
          inserted ← insertSignalID signalID;
          mret (if (inserted : bool) then matchedRows ++ [row] else matchedRows)
        else mret matchedRows
    | None => mret matchedRows
    end
  else mret (matchedRows ++ [row]).

(** [Evaluate], the body of the row loop for a non-null row. *)
Definition Evaluate_row (expressionTree : ExpressionTree) (signalIDColumnIndex : Z)
    (row : DataRow) (matchedRows : list DataRow) : M (list DataRow) :=
  resultExpression ← lift (ExpressionTree_Evaluate expressionTree row);
  if negb (ExpressionValueType.eqb (ValueType resultExpression)
                                   ExpressionValueType.Boolean) then
    throw ("Final expression tree evaluation did not result in a boolean value, result data type is "
           +:+ quoted (EnumName (ValueType resultExpression)))
  else if ValueExpression_ValueAsBoolean resultExpression then
    Evaluate_matched signalIDColumnIndex row matchedRows
  else mret matchedRows.

(** [Evaluate], the row loop: [rows] are the rows from index [y] on.  The
    number of matched rows is at most the row count of the table, an
    [int32_t], so its cast to [int32_t] is the number itself. *)
Fixpoint Evaluate_rows (expressionTree : ExpressionTree) (signalIDColumnIndex : Z)
    (rows : list (option DataRow)) (matchedRows : list DataRow) : M (list DataRow) :=
  match rows with
  | [] => mret matchedRows
  | row :: rest =>
      if (-1 <? TopLimit expressionTree)
         && (TopLimit expressionTree <=? Z.of_nat (length matchedRows)) then
        mret matchedRows
      else
        match row with
        | None => Evaluate_rows expressionTree signalIDColumnIndex rest matchedRows
        | Some row =>
            matchedRows' ← Evaluate_row expressionTree signalIDColumnIndex row matchedRows;
            Evaluate_rows expressionTree signalIDColumnIndex rest matchedRows'
        end
  end.

(** [Evaluate], the sort of the matched rows. *)
Definition Evaluate_sort (expressionTree : ExpressionTree)
    (matchedRows : list DataRow) : list DataRow :=
  match OrderByTerms expressionTree with
  | [] => matchedRows
  | _ :: _ => std_sort (orderByComparator (OrderByTerms expressionTree)) matchedRows
  end.

(** [Evaluate], the final loop that fills the accumulators. *)
Fixpoint Evaluate_push (signalIDColumnIndex : Z) (matchedRows : list DataRow) : M unit :=
  match matchedRows with
  | [] => mret tt
  | row :: rest =>
      trackFilteredSignalIDs ← gets m_trackFilteredSignalIDs;
      trackFilteredRows ← gets m_trackFilteredRows;
      (if (trackFilteredSignalIDs : bool) then
         push_filteredSignalID (default Empty.Guid (ValueAsGuid row signalIDColumnIndex))
       else mret tt);;
      (if (trackFilteredRows : bool) then push_filteredRow row else mret tt);;
      Evaluate_push signalIDColumnIndex rest
  end.

(** [Evaluate], the resolution of the signal ID column. *)
Definition Evaluate_signalIDColumnIndex (measurements : DataTable) : M Z :=
  trackFilteredSignalIDs ← gets m_trackFilteredSignalIDs;
  if (trackFilteredSignalIDs : bool) then
    measurementTableIDFields ←
      gets (GetMeasurementTableIDFields (Table_Name measurements));
    match measurementTableIDFields with
    | None =>
        throw ("Failed to find ID fields record for measurement table "
               +:+ quoted (Table_Name measurements))
    | Some measurementTableIDFields =>
        match DataTable_Column measurements
                (SignalIDFieldName measurementTableIDFields) with
        | None =>
            throw ("Failed to find signal ID field "
                   +:+ quoted (SignalIDFieldName measurementTableIDFields)
                   +:+ " for measurement table " +:+ quoted (Table_Name measurements))
        | Some signalIDColumn => mret (Column_Index signalIDColumn)
        end
    end
  else mret (-1).

(** [Evaluate], the body of the loop over the expression trees. *)
Definition Evaluate_tree (expressionTree : ExpressionTree) : M unit :=
  let measurements := Measurements expressionTree in
  signalIDColumnIndex ← Evaluate_signalIDColumnIndex measurements;
  matchedRows ← Evaluate_rows expressionTree signalIDColumnIndex
                              (Table_Rows measurements) [];
  match matchedRows with
  | [] => mret tt
  | _ :: _ =>
      Evaluate_push signalIDColumnIndex (Evaluate_sort expressionTree matchedRows)
  end.

Fixpoint Evaluate_trees (expressionTrees : list ExpressionTree) : M unit :=
  match expressionTrees with
  | [] => mret tt
  | expressionTree :: rest => Evaluate_tree expressionTree;; Evaluate_trees rest
  end.

Definition clearResults (p : FilterExpressionParser) : FilterExpressionParser :=
  with_expressionTrees [] (m_activeExpressionTree p)
    (with_filteredRows []
       (with_filteredSignalIDs []
          (with_filteredSignalIDSet ∅ p))).

Definition Evaluate : M unit := fun p =>
  match m_dataSet p with
  | None => Throw "Cannot evaluate filter expression, no dataset has been defined" p
  | Some _ =>
      (modify clearResults;;
       walk (parse (m_inputStream p));;
       expressionTrees ← gets m_expressionTrees;
       Evaluate_trees expressionTrees) p
  end.

(** The parser object that [GenerateExpressionTree] sets up before it
    walks the parse tree.  [parent] is [dataTable->Parent()]. *)
Definition GenerateExpressionTree_parser (parent : option DataSet)
    (dataTable : DataTable) (filterExpression : string) : FilterExpressionParser :=
  let parser := NewFilterExpressionParser
    (if StartsWith filterExpression "FILTER " true then filterExpression
     else "FITLER " +:+ Table_Name dataTable +:+ " WHERE " +:+ filterExpression) in
  SetPrimaryMeasurementTableName (Table_Name dataTable) (SetDataSet parent parser).

Definition GenerateExpressionTree (parent : option DataSet)
    (dataTable : DataTable) (filterExpression : string)
  : Except (option ExpressionTree) :=
  let parser := GenerateExpressionTree_parser parent dataTable filterExpression in
  match walk (parse (m_inputStream parser)) parser with
  | Ok _ parser' => Returns (m_activeExpressionTree parser')
  | Throw message _ => Throws message
  end.

(** The parser object that [Select] sets up before it calls
    [Evaluate]. *)
Definition Select_parser (parent : option DataSet)
    (dataTable : DataTable) (filterExpression : string) : FilterExpressionParser :=
  let parser := NewFilterExpressionParser
    (if StartsWith filterExpression "FILTER " true then filterExpression
     else "FITLER " +:+ Table_Name dataTable +:+ " WHERE " +:+ filterExpression) in
  SetTrackFilteredRows true
    (SetTrackFilteredSignalIDs false
       (SetPrimaryMeasurementTableName (Table_Name dataTable)
          (SetDataSet parent parser))).

Definition Select (parent : option DataSet)
    (dataTable : DataTable) (filterExpression : string) : Except (list DataRow) :=
  match Evaluate (Select_parser parent dataTable filterExpression) with
  | Ok _ parser' => Returns (FilteredRows parser')
  | Throw message _ => Throws message
  end.

End Parser.

(** ** The listeners of the WHERE subtree *)

(** The [exit...] methods that the walker calls below a filter statement,
    over parse trees as the ANTLR runtime presents them, with the memo
    [m_expressions] from rule contexts to the expressions built for them.
    What they make of the WHERE subtree of a statement is what the field
    [expression] of [FilterStatementContext] stands for. *)

(** Modelled from the spec: [Contains] is declared in the library's
    common header; like [IsEqual] it compares without regard to case
    unless told otherwise. *)
Fixpoint Contains (value findValue : string) (ignoreCase : bool) : bool :=
  StartsWith value findValue ignoreCase
  || match value with
     | EmptyString => false
     | String _ rest => Contains rest findValue ignoreCase
     end.

Module Rule.
(** The rules of the grammar below [filterStatement] whose contexts the
    listeners meet. *)
Inductive t :=
| expression | predicateExpression | valueExpression | literalValue | columnName
| functionExpression | functionName | expressionList
| notOperator | logicalOperator | comparisonOperator | unaryOperator
| mathOperator | bitwiseOperator.

Definition index (ruleIndex : t) : nat :=
  match ruleIndex with
  | expression => 0 | predicateExpression => 1 | valueExpression => 2
  | literalValue => 3 | columnName => 4 | functionExpression => 5
  | functionName => 6 | expressionList => 7 | notOperator => 8
  | logicalOperator => 9 | comparisonOperator => 10 | unaryOperator => 11
  | mathOperator => 12 | bitwiseOperator => 13
  end%nat.

Definition eqb (a b : t) : bool := Nat.eqb (index a) (index b).
End Rule.

Module Token.
(** The token types that the listeners ask a context for; [Other] stands
    for every other token (punctuation, operator spellings, function
    names and the remaining keywords). *)
Inductive t :=
| K_IN | K_NOT | K_IS | K_NULL | K_LIKE
| INTEGER_LITERAL | NUMERIC_LITERAL | STRING_LITERAL | DATETIME_LITERAL
| GUID_LITERAL | BOOLEAN_LITERAL | IDENTIFIER | Other.

Definition index (symbol : t) : nat :=
  match symbol with
  | K_IN => 0 | K_NOT => 1 | K_IS => 2 | K_NULL => 3 | K_LIKE => 4
  | INTEGER_LITERAL => 5 | NUMERIC_LITERAL => 6 | STRING_LITERAL => 7
  | DATETIME_LITERAL => 8 | GUID_LITERAL => 9 | BOOLEAN_LITERAL => 10
  | IDENTIFIER => 11 | Other => 12
  end%nat.

Definition eqb (a b : t) : bool := Nat.eqb (index a) (index b).
End Token.

(** Modelled from the spec: a parse tree of the ANTLR runtime, a terminal
    node with its token type and text or a rule context with its
    children. *)
#[warnings="-register-all"]
Inductive ParseTree :=
| TerminalNode (symbol : Token.t) (text : string)
| RuleContext (ruleIndex : Rule.t) (children : list ParseTree).

(** [getText]: the texts of the terminals below the node, joined. *)
Fixpoint getText (t : ParseTree) : string :=
  match t with
  | TerminalNode _ text => text
  | RuleContext _ children =>
      (fix join (children : list ParseTree) : string :=
         match children with
         | [] => EmptyString
         | child :: rest => getText child +:+ join rest
         end) children
  end.

(** A pointer to a node of the parse tree: the node together with its
    position, the path of child indices that leads to it from the root of
    the walk.  Two pointers are equal when the positions are. *)
Record ParserRuleContext := {
  address : list nat;
  node : ParseTree
}.

(** Modelled from the spec: the accessors that the generated contexts
    build on, [getRuleContexts<T>()], [getRuleContext<T>(i)] and
    [getToken(type, i)] of the ANTLR runtime; they look at the children of
    the context only. *)
Fixpoint contextsFrom (address : list nat) (i : nat) (children : list ParseTree)
  : list ParserRuleContext :=
  match children with
  | [] => []
  | child :: rest =>
      {| address := address ++ [i]; node := child |} :: contextsFrom address (S i) rest
  end.

Definition childContexts (context : ParserRuleContext) : list ParserRuleContext :=
  match node context with
  | TerminalNode _ _ => []
  | RuleContext _ children => contextsFrom (address context) 0 children
  end.

Definition isRule (ruleIndex : Rule.t) (context : ParserRuleContext) : bool :=
  match node context with
  | RuleContext r _ => Rule.eqb r ruleIndex
  | TerminalNode _ _ => false
  end.

Definition isToken (symbol : Token.t) (context : ParserRuleContext) : bool :=
  match node context with
  | TerminalNode s _ => Token.eqb s symbol
  | RuleContext _ _ => false
  end.

Definition getRuleContexts (ruleIndex : Rule.t) (context : ParserRuleContext)
  : list ParserRuleContext :=
  List.filter (isRule ruleIndex) (childContexts context).

Definition getRuleContext (ruleIndex : Rule.t) (i : nat) (context : ParserRuleContext)
  : option ParserRuleContext :=
  getRuleContexts ruleIndex context !! i.

Definition getToken (symbol : Token.t) (i : nat) (context : ParserRuleContext)
  : option ParserRuleContext :=
  List.filter (isToken symbol) (childContexts context) !! i.

Definition contextText (context : ParserRuleContext) : string := getText (node context).

(** The readers of literals that the common library provides:
    [ParseTimestamp], the constructor of [decimal_t] from a text (nothing
    when it raises [std::runtime_error]) and [std::stod] on the text of a
    NUMERIC_LITERAL. *)
Class LiteralReaders := {
  ParseTimestamp : string -> Except Z;
  decimal_t : string -> option Q;
  stod_NUMERIC_LITERAL : string -> Except Q
}.

(** *** Operator spellings *)

(** [exitExpression], the chain of tests on the text of the logical
    operator. *)
Definition exitExpression_operatorType (operatorSymbol : string)
  : Except ExpressionOperatorType.t :=
  if IsEqual operatorSymbol "AND" true || IsEqual operatorSymbol "&&" false then
    Returns ExpressionOperatorType.And
  else if IsEqual operatorSymbol "OR" true || IsEqual operatorSymbol "||" false then
    Returns ExpressionOperatorType.Or
  else Throws ("Unexpected logical operator " +:+ quoted operatorSymbol).

(** [exitPredicateExpression], the chain of tests on the text of the
    comparison operator. *)
Definition exitPredicateExpression_operatorType (operatorSymbol : string)
  : Except ExpressionOperatorType.t :=
  if IsEqual operatorSymbol "<" false then Returns ExpressionOperatorType.LessThan
  else if IsEqual operatorSymbol "<=" false then
    Returns ExpressionOperatorType.LessThanOrEqual
  else if IsEqual operatorSymbol ">" false then Returns ExpressionOperatorType.GreaterThan
  else if IsEqual operatorSymbol ">=" false then
    Returns ExpressionOperatorType.GreaterThanOrEqual
  else if IsEqual operatorSymbol "=" false || IsEqual operatorSymbol "==" false then
    Returns ExpressionOperatorType.Equal
  else if IsEqual operatorSymbol "<>" false || IsEqual operatorSymbol "!=" false then
    Returns ExpressionOperatorType.NotEqual
  else Throws ("Unexpected comparison operator " +:+ quoted operatorSymbol).

(** [exitValueExpression], the chain of tests on the text of the unary
    operator. *)
Definition exitValueExpression_unaryType (unaryOperator : string)
  : Except ExpressionUnaryType.t :=
  if IsEqual unaryOperator "+" false then Returns ExpressionUnaryType.Plus
  else if IsEqual unaryOperator "-" false then Returns ExpressionUnaryType.Minus
  else if IsEqual unaryOperator "~" false || IsEqual unaryOperator "!" false
          || IsEqual unaryOperator "NOT" true then
    Returns ExpressionUnaryType.Not
  else Throws ("Unexpected unary operator type " +:+ quoted unaryOperator).

(** [exitValueExpression], the chain of tests on the text of the math
    operator. *)
Definition exitValueExpression_mathOperatorType (operatorSymbol : string)
  : Except ExpressionOperatorType.t :=
  if IsEqual operatorSymbol "*" false then Returns ExpressionOperatorType.Multiply
  else if IsEqual operatorSymbol "/" false then Returns ExpressionOperatorType.Divide
  else if IsEqual operatorSymbol "%" false then Returns ExpressionOperatorType.Modulus
  else if IsEqual operatorSymbol "+" false then Returns ExpressionOperatorType.Add
  else if IsEqual operatorSymbol "-" false then Returns ExpressionOperatorType.Subtract
  else Throws ("Unexpected math operator " +:+ quoted operatorSymbol).

(** [exitValueExpression], the chain of tests on the text of the bitwise
    operator. *)
Definition exitValueExpression_bitwiseOperatorType (operatorSymbol : string)
  : Except ExpressionOperatorType.t :=
  if IsEqual operatorSymbol "<<" false then Returns ExpressionOperatorType.BitShiftLeft
  else if IsEqual operatorSymbol ">>" false then Returns ExpressionOperatorType.BitShiftRight
  else if IsEqual operatorSymbol "&" false then Returns ExpressionOperatorType.BitwiseAnd
  else if IsEqual operatorSymbol "|" false then Returns ExpressionOperatorType.BitwiseOr
  else Throws ("Unexpected bitwise operator " +:+ quoted operatorSymbol).

(** [exitPredicateExpression], the loop that collects the expressions of
    the IN list; each argument is given by its text and by what
    [TryGetExpr] finds for it. *)
Fixpoint exitPredicateExpression_arguments (i : nat)
    (children : list (string * option Expression)) : Except (list Expression) :=
  match children with
  | [] => Returns []
  | (text, Some argument) :: rest =>
      match exitPredicateExpression_arguments (S i) rest with
      | Returns arguments => Returns (argument :: arguments)
      | Throws message => Throws message
      end
  | (text, None) :: _ =>
      Throws ("Failed to find argument expression " +:+ pretty i +:+ " "
              +:+ quoted text +:+ " for " +:+ quoted "IN" +:+ " operation")
  end.

(** [exitColumnName], the lookup of the column in the table of the active
    expression tree. *)
Definition exitColumnName_dataColumn (measurements : DataTable) (columnName : string)
  : Except DataColumn :=
  match DataTable_Column measurements columnName with
  | None =>
      Throws ("Failed to find column " +:+ quoted columnName +:+ " in table "
              +:+ quoted (Table_Name measurements))
  | Some dataColumn => Returns dataColumn
  end.

Module Listener.

(** The part of the parser that the [exit...] listeners of the WHERE
    subtree read and write: the memo [m_expressions] from rule contexts to
    the expressions built for them and the active expression tree, which
    [enterFilterStatement] has created before the subtree is walked. *)
Record State := {
  m_expressions : gmap (list nat) Expression;
  m_activeExpressionTree : ExpressionTree
}.

(** The outcome of a listener: it returns, it throws, or it does
    something for which the language defines no behaviour (a call through
    a null pointer, a conversion out of range). *)
Inductive Outcome (A : Type) :=
| Done (a : A) (s : State)
| Raised (message : string) (s : State)
| Undefined.
Arguments Done {A} a s.
Arguments Raised {A} message s.
Arguments Undefined {A}.

Definition L (A : Type) : Type := State -> Outcome A.

#[global] Instance L_ret : MRet L := fun A a s => Done a s.
#[global] Instance L_bind : MBind L := fun A B f m s =>
  match m s with
  | Done a s' => f a s'
  | Raised message s' => Raised message s'
  | Undefined => Undefined
  end.

Definition throw {A : Type} (message : string) : L A := fun s => Raised message s.
Definition undefined {A : Type} : L A := fun _ => Undefined.
Definition gets {A : Type} (f : State -> A) : L A := fun s => Done (f s) s.
Definition modify (f : State -> State) : L unit := fun s => Done tt (f s).
Definition lift {A : Type} (e : Except A) : L A :=
  match e with
  | Returns a => mret a
  | Throws message => throw message
  end.

(** [TryGetExpr]: the expression recorded for the context, if any. *)
Definition TryGetExpr (context : ParserRuleContext) : L (option Expression) :=
  gets (fun s => m_expressions s !! address context).

(** [AddExpr]: [std::map::insert] keeps the entry of a key that is
    present; the root of the active expression tree is overwritten in
    either case. *)
Definition AddExpr (context : ParserRuleContext) (expression : Expression) : L unit :=
  modify (fun s =>
    {| m_expressions :=
         match m_expressions s !! address context with
         | Some _ => m_expressions s
         | None => <[address context := expression]> (m_expressions s)
         end;
       m_activeExpressionTree :=
         {| Measurements := Measurements (m_activeExpressionTree s);
            TopLimit := TopLimit (m_activeExpressionTree s);
            OrderByTerms := OrderByTerms (m_activeExpressionTree s);
            Root := Some expression |} |}).

(** What [TryGetExpr] finds for each context of a list, with the text of
    the context. *)
Definition TryGetExprs (contexts : list ParserRuleContext)
  : L (list (string * option Expression)) :=
  gets (fun s => map (fun context => (contextText context,
                                       m_expressions s !! address context)) contexts).

Definition exitExpression (context : ParserRuleContext) : L unit :=
  match getRuleContext Rule.predicateExpression 0 context with
  | Some predicateExpressionContext =>
      value ← TryGetExpr predicateExpressionContext;
      match value with
      | Some value => AddExpr context value
      | None =>
          throw ("Failed to find predicate expression "
                 +:+ quoted (contextText predicateExpressionContext))
      end
  | None =>
  match getRuleContext Rule.notOperator 0 context with
  | Some notOperatorContext =>
      match getRuleContexts Rule.expression context with
      | [expressionContext] =>
          value ← TryGetExpr expressionContext;
          match value with
          | None =>
              throw ("Failed to find not operator expression "
                     +:+ quoted (contextText context))
          | Some value => AddExpr context (UnaryExpr ExpressionUnaryType.Not value)
          end
      | _ =>
          throw ("Not operator expression is malformed: " +:+ quoted (contextText context))
      end
  | None =>
  match getRuleContext Rule.logicalOperator 0 context with
  | Some logicalOperatorContext =>
      match getRuleContexts Rule.expression context with
      | [leftContext; rightContext] =>
          leftValue ← TryGetExpr leftContext;
          match leftValue with
          | None =>
              throw ("Failed to find left operator expression "
                     +:+ quoted (contextText leftContext))
          | Some leftValue =>
              rightValue ← TryGetExpr rightContext;
              match rightValue with
              | None =>
                  throw ("Failed to find right operator expression "
                         +:+ quoted (contextText rightContext))
              | Some rightValue =>
                  operatorType ← lift (exitExpression_operatorType
                                         (contextText logicalOperatorContext));
                  AddExpr context (OperatorExpr operatorType leftValue (Some rightValue))
              end
          end
      | _ =>
          throw ("Operator expression, in logical operator expression context, is malformed: "
                 +:+ quoted (contextText context))
      end
  | None => throw ("Unexpected expression " +:+ quoted (contextText context))
  end end end.

Definition exitPredicateExpression (context : ParserRuleContext) : L unit :=
  match getRuleContext Rule.valueExpression 0 context with
  | Some valueExpressionContext =>
      value ← TryGetExpr valueExpressionContext;
      match value with
      | Some value => AddExpr context value
      | None =>
          throw ("Failed to find value expression "
                 +:+ quoted (contextText valueExpressionContext))
      end
  | None =>
  let inKeywordContext := getToken Token.K_IN 0 context in
  let notKeywordContext := getToken Token.K_NOT 0 context in
  match inKeywordContext with
  | Some _ =>
      match getRuleContexts Rule.predicateExpression context with
      | [predicateExpressionContext] =>
          value ← TryGetExpr predicateExpressionContext;
          match value with
          | None =>
              throw ("Failed to find " +:+ quoted "IN" +:+ " predicate expression "
                     +:+ quoted (contextText predicateExpressionContext))
          | Some value =>
              match getRuleContext Rule.expressionList 0 context with
              | None => undefined
              | Some expressionList =>
                  let expressions := getRuleContexts Rule.expression expressionList in
                  if (Z.of_nat (length expressions) <? 1) then
                    throw ("Not enough expressions found for " +:+ quoted "IN"
                           +:+ " operation")
                  else
                    found ← TryGetExprs expressions;
                    arguments ← lift (exitPredicateExpression_arguments 0 found);
                    AddExpr context
                      (InListExpr value arguments
                                  (bool_decide (is_Some notKeywordContext)))
              end
          end
      | _ =>
          throw (quoted "IN" +:+ " expression is malformed: "
                 +:+ quoted (contextText context))
      end
  | None =>
  let isKeywordContext := getToken Token.K_IS 0 context in
  let nullKeywordContext := getToken Token.K_NULL 0 context in
  if bool_decide (is_Some isKeywordContext) && bool_decide (is_Some nullKeywordContext) then
    let operatorType :=
      match notKeywordContext with
      | None => ExpressionOperatorType.IsNull
      | Some _ => ExpressionOperatorType.IsNotNull
      end in
    match getRuleContexts Rule.predicateExpression context with
    | [predicateExpressionContext] =>
        value ← TryGetExpr predicateExpressionContext;
        match value with
        | Some value => AddExpr context (OperatorExpr operatorType value None)
        | None =>
            throw ("Failed to find " +:+ quoted "IS NULL" +:+ " predicate expression "
                   +:+ quoted (contextText predicateExpressionContext))
        end
    | _ =>
        throw (quoted "IS NULL" +:+ " expression is malformed: "
               +:+ quoted (contextText context))
    end
  else
    match getRuleContexts Rule.predicateExpression context with
    | [leftContext; rightContext] =>
        leftValue ← TryGetExpr leftContext;
        match leftValue with
        | None =>
            throw ("Failed to find left operator predicate expression "
                   +:+ quoted (contextText leftContext))
        | Some leftValue =>
            rightValue ← TryGetExpr rightContext;
            match rightValue with
            | None =>
                throw ("Failed to find right operator predicate expression "
                       +:+ quoted (contextText rightContext))
            | Some rightValue =>
                match getRuleContext Rule.comparisonOperator 0 context with
                | Some comparisonOperatorContext =>
                    operatorType ← lift (exitPredicateExpression_operatorType
                                           (contextText comparisonOperatorContext));
                    AddExpr context
                      (OperatorExpr operatorType leftValue (Some rightValue))
                | None =>
                    match getToken Token.K_LIKE 0 context with
                    | Some _ =>
                        let operatorType :=
                          match notKeywordContext with
                          | None => ExpressionOperatorType.Like
                          | Some _ => ExpressionOperatorType.NotLike
                          end in
                        AddExpr context
                          (OperatorExpr operatorType leftValue (Some rightValue))
                    | None =>
                        throw ("Unexpected predicate expression "
                               +:+ quoted (contextText context))
                    end
                end
            end
        end
    | _ =>
        throw ("Operator expression, in predicate expression context, is malformed: "
               +:+ quoted (contextText context))
    end
  end end.

(** The four places of [exitValueExpression] that hand on the expression
    of a child. *)
Definition exitValueExpression_child (context child : ParserRuleContext)
    (what : string) : L unit :=
  value ← TryGetExpr child;
  match value with
  | Some value => AddExpr context value
  | None => throw ("Failed to find " +:+ what +:+ " " +:+ quoted (contextText child))
  end.

Definition exitValueExpression (context : ParserRuleContext) : L unit :=
  match getRuleContext Rule.literalValue 0 context with
  | Some literalValueContext =>
      exitValueExpression_child context literalValueContext "literal value"
  | None =>
  match getRuleContext Rule.columnName 0 context with
  | Some columnNameContext =>
      exitValueExpression_child context columnNameContext "column name"
  | None =>
  match getRuleContext Rule.functionExpression 0 context with
  | Some functionExpressionContext =>
      exitValueExpression_child context functionExpressionContext "function expression"
  | None =>
  match getRuleContext Rule.unaryOperator 0 context with
  | Some unaryOperatorContext =>
      match getRuleContexts Rule.valueExpression context with
      | [valueExpressionContext] =>
          value ← TryGetExpr valueExpressionContext;
          match value with
          | Some value =>
              unaryType ← lift (exitValueExpression_unaryType
                                  (contextText unaryOperatorContext));
              AddExpr context (UnaryExpr unaryType value)
          | None =>
              throw ("Failed to find unary operator value expression "
                     +:+ quoted (contextText context))
          end
      | _ => throw "Unary operator value expression is undefined"
      end
  | None =>
  match getRuleContext Rule.expression 0 context with
  | Some expressionContext =>
      exitValueExpression_child context expressionContext "sub-expression"
  | None =>
  match getRuleContexts Rule.valueExpression context with
  | [leftContext; rightContext] =>
      leftValue ← TryGetExpr leftContext;
      match leftValue with
      | None =>
          throw ("Failed to find left operator value expression "
                 +:+ quoted (contextText leftContext))
      | Some leftValue =>
          rightValue ← TryGetExpr rightContext;
          match rightValue with
          | None =>
              throw ("Failed to find right operator value expression "
                     +:+ quoted (contextText rightContext))
          | Some rightValue =>
              match getRuleContext Rule.mathOperator 0 context with
              | Some mathOperatorContext =>
                  operatorType ← lift (exitValueExpression_mathOperatorType
                                         (contextText mathOperatorContext));
                  AddExpr context (OperatorExpr operatorType leftValue (Some rightValue))
              | None =>
                  match getRuleContext Rule.bitwiseOperator 0 context with
                  | Some bitwiseOperatorContext =>
                      operatorType ← lift (exitValueExpression_bitwiseOperatorType
                                             (contextText bitwiseOperatorContext));
                      AddExpr context
                        (OperatorExpr operatorType leftValue (Some rightValue))
                  | None =>
                      throw ("Unexpected value expression "
                             +:+ quoted (contextText context))
                  end
              end
          end
      end
  | _ =>
      throw ("Operator expression, in value expression context, is malformed: "
             +:+ quoted (contextText context))
  end end end end end end.

Section Literals.

Context {external : External} {readers : LiteralReaders}.

Definition ParseDateTimeLiteral (time : string) : Except Z :=
  match time with
  | String "#"%char rest => ParseTimestamp (dropLast rest)
  | _ => ParseTimestamp time
  end.

(** [exitLiteralValue], the branch of a NUMERIC_LITERAL. *)
Definition exitLiteralValue_NUMERIC_LITERAL (literal : string) : Except ValueExpression :=
  let asDouble :=
    match stod_NUMERIC_LITERAL literal with
    | Returns value =>
        Returns (NewValueExpression ExpressionValueType.Double (Some (PDouble value)))
    | Throws message => Throws message
    end in
  if Contains literal "E" true then asDouble
  else
    match decimal_t literal with
    | Some value =>
        Returns (NewValueExpression ExpressionValueType.Decimal (Some (PDecimal value)))
    | None => asDouble
    end.

Definition exitLiteralValue (context : ParserRuleContext) : L unit :=
  result ←
    match getToken Token.INTEGER_LITERAL 0 context with
    | Some terminal =>
        match exitLiteralValue_INTEGER_LITERAL (contextText terminal) with
        | LiteralValue result => mret (Some result)
        | LiteralThrows message => throw message
        | LiteralUndefined _ => undefined
        end
    | None =>
    match getToken Token.NUMERIC_LITERAL 0 context with
    | Some terminal =>
        result ← lift (exitLiteralValue_NUMERIC_LITERAL (contextText terminal));
        mret (Some result)
    | None =>
    match getToken Token.STRING_LITERAL 0 context with
    | Some terminal =>
        mret (Some (NewValueExpression ExpressionValueType.String
                      (Some (PString (ParseStringLiteral (contextText terminal))))))
    | None =>
    match getToken Token.DATETIME_LITERAL 0 context with
    | Some terminal =>
        value ← lift (ParseDateTimeLiteral (contextText terminal));
        mret (Some (NewValueExpression ExpressionValueType.DateTime
                      (Some (PDateTime value))))
    | None =>
    match getToken Token.GUID_LITERAL 0 context with
    | Some terminal =>
        mret (Some (NewValueExpression ExpressionValueType.Guid
                      (Some (PGuid (ParseGuidLiteral (contextText terminal))))))
    | None =>
    match getToken Token.BOOLEAN_LITERAL 0 context with
    | Some terminal =>
        mret (Some (if IsEqual (contextText terminal) "true" true
                    then ExpressionTree_True else ExpressionTree_False))
    | None =>
    match getToken Token.K_NULL 0 context with
    | Some _ => mret (Some (ExpressionTree_NullValue ExpressionValueType.Undefined))
    | None => mret None
    end end end end end end end;
  match result with
  | Some result => AddExpr context (ValueExpr result)
  | None => mret tt
  end.

Definition exitColumnName (context : ParserRuleContext) : L unit :=
  match getToken Token.IDENTIFIER 0 context with
  | None => undefined
  | Some identifier =>
      measurements ← gets (fun s => Measurements (m_activeExpressionTree s));
      dataColumn ← lift (exitColumnName_dataColumn measurements (contextText identifier));
      AddExpr context (ColumnExpr dataColumn)
  end.

Definition exitFunctionExpression (context : ParserRuleContext) : L unit :=
  match getRuleContext Rule.functionName 0 context with
  | None => undefined
  | Some functionNameContext =>
      let functionName := contextText functionNameContext in
      functionType ← lift (exitFunctionExpression_functionType functionName);
      match getRuleContext Rule.expressionList 0 context with
      | None => undefined
      | Some expressionList =>
          found ← TryGetExprs (getRuleContexts Rule.expression expressionList);
          arguments ← lift (exitFunctionExpression_arguments functionName 0 found);
          AddExpr context (FunctionExpr functionType arguments)
      end
  end.

(** [exitRule]: the listener method of the context's rule; the rules
    without a method of their own do nothing. *)
Definition exitRule (context : ParserRuleContext) : L unit :=
  match node context with
  | RuleContext Rule.expression _ => exitExpression context
  | RuleContext Rule.predicateExpression _ => exitPredicateExpression context
  | RuleContext Rule.valueExpression _ => exitValueExpression context
  | RuleContext Rule.literalValue _ => exitLiteralValue context
  | RuleContext Rule.columnName _ => exitColumnName context
  | RuleContext Rule.functionExpression _ => exitFunctionExpression context
  | _ => mret tt
  end.

(** [ParseTreeWalker::walk] below a filter statement: the children in
    order, then the exit method of the node. *)
Fixpoint walk (address : list nat) (t : ParseTree) : L unit :=
  match t with
  | TerminalNode _ _ => mret tt
  | RuleContext _ children =>
      (fix walkChildren (i : nat) (children : list ParseTree) : L unit :=
         match children with
         | [] => mret tt
         | child :: rest => walk (address ++ [i]) child;; walkChildren (S i) rest
         end) 0%nat children;;
      exitRule {| address := address; node := t |}
  end.

End Literals.

End Listener.

(** ** The grammar below a filter statement *)

(** The kinds of literal, one for each terminal of [literalValue]. *)
Inductive LiteralKind :=
| IntegerLiteral | NumericLiteral | StringLiteral | DateTimeLiteral
| GuidLiteral | BooleanLiteral | NullLiteral.

Definition literalToken (kind : LiteralKind) : Token.t :=
  match kind with
  | IntegerLiteral => Token.INTEGER_LITERAL
  | NumericLiteral => Token.NUMERIC_LITERAL
  | StringLiteral => Token.STRING_LITERAL
  | DateTimeLiteral => Token.DATETIME_LITERAL
  | GuidLiteral => Token.GUID_LITERAL
  | BooleanLiteral => Token.BOOLEAN_LITERAL
  | NullLiteral => Token.K_NULL
  end.

(** The sentences of the rules [expression], [predicateExpression],
    [valueExpression] and [expressionList], one constructor for each
    alternative named in the source; operators and names are given by
    their text as written. *)
Inductive ExpressionSyntax :=
| SyntaxNot (notOperator : string) (operand : ExpressionSyntax)
| SyntaxLogical (leftOperand : ExpressionSyntax) (logicalOperator : string)
                (rightOperand : ExpressionSyntax)
| SyntaxPredicate (predicate : PredicateSyntax)
with PredicateSyntax :=
| SyntaxIn (value : PredicateSyntax) (negated : bool) (list : ExpressionListSyntax)
| SyntaxIsNull (value : PredicateSyntax) (negated : bool)
| SyntaxComparison (leftOperand : PredicateSyntax) (comparisonOperator : string)
                   (rightOperand : PredicateSyntax)
| SyntaxLike (leftOperand : PredicateSyntax) (negated : bool)
             (rightOperand : PredicateSyntax)
| SyntaxValue (value : ValueSyntax)
with ValueSyntax :=
| SyntaxLiteral (kind : LiteralKind) (text : string)
| SyntaxColumn (identifier : string)
| SyntaxFunction (functionName : string) (arguments : ExpressionListSyntax)
| SyntaxFunctionWithoutList (functionName : string)
| SyntaxUnary (unaryOperator : string) (operand : ValueSyntax)
| SyntaxParenthesized (inner : ExpressionSyntax)
| SyntaxMath (leftOperand : ValueSyntax) (mathOperator : string)
             (rightOperand : ValueSyntax)
| SyntaxBitwise (leftOperand : ValueSyntax) (bitwiseOperator : string)
                (rightOperand : ValueSyntax)
with ExpressionListSyntax :=
| SyntaxLast (expression : ExpressionSyntax)
| SyntaxMore (expression : ExpressionSyntax) (rest : ExpressionListSyntax).

Scheme ExpressionSyntax_mutual := Induction for ExpressionSyntax Sort Prop
with PredicateSyntax_mutual := Induction for PredicateSyntax Sort Prop
with ValueSyntax_mutual := Induction for ValueSyntax Sort Prop
with ExpressionListSyntax_mutual := Induction for ExpressionListSyntax Sort Prop.

Combined Scheme Syntax_mutual from ExpressionSyntax_mutual, PredicateSyntax_mutual,
  ValueSyntax_mutual, ExpressionListSyntax_mutual.

(** A terminal that no listener asks for. *)
Definition symbolNode (text : string) : ParseTree := TerminalNode Token.Other text.

(** The NOT keyword where a rule has [K_NOT?]. *)
Definition optionalNot (negated : bool) : list ParseTree :=
  if negated then [TerminalNode Token.K_NOT "NOT"] else [].

(** The children of the rule context of a sentence, and the parse trees
    of the expressions of a list with the commas between them. *)
Fixpoint expressionChildren (e : ExpressionSyntax) : list ParseTree :=
  match e with
  | SyntaxNot notOperator operand =>
      [RuleContext Rule.notOperator [symbolNode notOperator];
       RuleContext Rule.expression (expressionChildren operand)]
  | SyntaxLogical leftOperand logicalOperator rightOperand =>
      [RuleContext Rule.expression (expressionChildren leftOperand);
       RuleContext Rule.logicalOperator [symbolNode logicalOperator];
       RuleContext Rule.expression (expressionChildren rightOperand)]
  | SyntaxPredicate predicate =>
      [RuleContext Rule.predicateExpression (predicateChildren predicate)]
  end
with predicateChildren (p : PredicateSyntax) : list ParseTree :=
  match p with
  | SyntaxIn value negated list =>
      RuleContext Rule.predicateExpression (predicateChildren value)
      :: optionalNot negated
      ++ [TerminalNode Token.K_IN "IN"; symbolNode "(";
          RuleContext Rule.expressionList (expressionListParseTrees list);
          symbolNode ")"]
  | SyntaxIsNull value negated =>
      RuleContext Rule.predicateExpression (predicateChildren value)
      :: TerminalNode Token.K_IS "IS"
      :: optionalNot negated ++ [TerminalNode Token.K_NULL "NULL"]
  | SyntaxComparison leftOperand comparisonOperator rightOperand =>
      [RuleContext Rule.predicateExpression (predicateChildren leftOperand);
       RuleContext Rule.comparisonOperator [symbolNode comparisonOperator];
       RuleContext Rule.predicateExpression (predicateChildren rightOperand)]
  | SyntaxLike leftOperand negated rightOperand =>
      RuleContext Rule.predicateExpression (predicateChildren leftOperand)
      :: optionalNot negated
      ++ [TerminalNode Token.K_LIKE "LIKE";
          RuleContext Rule.predicateExpression (predicateChildren rightOperand)]
  | SyntaxValue value =>
      [RuleContext Rule.valueExpression (valueChildren value)]
  end
with valueChildren (v : ValueSyntax) : list ParseTree :=
  match v with
  | SyntaxLiteral kind text =>
      [RuleContext Rule.literalValue [TerminalNode (literalToken kind) text]]
  | SyntaxColumn identifier =>
      [RuleContext Rule.columnName [TerminalNode Token.IDENTIFIER identifier]]
  | SyntaxFunction functionName arguments =>
      [RuleContext Rule.functionExpression
         [RuleContext Rule.functionName [symbolNode functionName]; symbolNode "(";
          RuleContext Rule.expressionList (expressionListParseTrees arguments);
          symbolNode ")"]]
  | SyntaxFunctionWithoutList functionName =>
      [RuleContext Rule.functionExpression
         [RuleContext Rule.functionName [symbolNode functionName]; symbolNode "(";
          symbolNode ")"]]
  | SyntaxUnary unaryOperator operand =>
      [RuleContext Rule.unaryOperator [symbolNode unaryOperator];
       RuleContext Rule.valueExpression (valueChildren operand)]
  | SyntaxParenthesized inner =>
      [symbolNode "("; RuleContext Rule.expression (expressionChildren inner);
       symbolNode ")"]
  | SyntaxMath leftOperand mathOperator rightOperand =>
      [RuleContext Rule.valueExpression (valueChildren leftOperand);
       RuleContext Rule.mathOperator [symbolNode mathOperator];
       RuleContext Rule.valueExpression (valueChildren rightOperand)]
  | SyntaxBitwise leftOperand bitwiseOperator rightOperand =>
      [RuleContext Rule.valueExpression (valueChildren leftOperand);
       RuleContext Rule.bitwiseOperator [symbolNode bitwiseOperator];
       RuleContext Rule.valueExpression (valueChildren rightOperand)]
  end
with expressionListParseTrees (l : ExpressionListSyntax) : list ParseTree :=
  match l with
  | SyntaxLast expression => [RuleContext Rule.expression (expressionChildren expression)]
  | SyntaxMore expression rest =>
      RuleContext Rule.expression (expressionChildren expression)
      :: symbolNode "," :: expressionListParseTrees rest
  end.

(** The parse tree of a sentence. *)
Definition expressionParseTree (e : ExpressionSyntax) : ParseTree :=
  RuleContext Rule.expression (expressionChildren e).
Definition predicateParseTree (p : PredicateSyntax) : ParseTree :=
  RuleContext Rule.predicateExpression (predicateChildren p).
Definition valueParseTree (v : ValueSyntax) : ParseTree :=
  RuleContext Rule.valueExpression (valueChildren v).

(** The outcome of lowering a sentence: an expression, an exception, or
    nothing that the language defines. *)
Inductive Lowered (A : Type) :=
| Built (a : A)
| Fails (message : string)
| Unspecified.
Arguments Built {A} a.
Arguments Fails {A} message.
Arguments Unspecified {A}.

Definition andThen {A B : Type} (r : Lowered A) (f : A -> Lowered B) : Lowered B :=
  match r with
  | Built a => f a
  | Fails message => Fails message
  | Unspecified => Unspecified
  end.

Definition ofExcept {A : Type} (e : Except A) : Lowered A :=
  match e with
  | Returns a => Built a
  | Throws message => Fails message
  end.

Section Lowering.

Context {external : External} {readers : LiteralReaders}.

(** The value that a literal denotes. *)
Definition lowerLiteral (kind : LiteralKind) (text : string) : Lowered ValueExpression :=
  match kind with
  | IntegerLiteral =>
      match exitLiteralValue_INTEGER_LITERAL text with
      | LiteralValue result => Built result
      | LiteralThrows message => Fails message
      | LiteralUndefined _ => Unspecified
      end
  | NumericLiteral => ofExcept (Listener.exitLiteralValue_NUMERIC_LITERAL text)
  | StringLiteral =>
      Built (NewValueExpression ExpressionValueType.String
               (Some (PString (ParseStringLiteral text))))
  | DateTimeLiteral =>
      andThen (ofExcept (Listener.ParseDateTimeLiteral text)) (fun value =>
        Built (NewValueExpression ExpressionValueType.DateTime (Some (PDateTime value))))
  | GuidLiteral =>
      Built (NewValueExpression ExpressionValueType.Guid
               (Some (PGuid (ParseGuidLiteral text))))
  | BooleanLiteral =>
      Built (if IsEqual text "true" true then ExpressionTree_True else ExpressionTree_False)
  | NullLiteral => Built (ExpressionTree_NullValue ExpressionValueType.Undefined)
  end.

(** The expression that a sentence denotes against the table of the
    filter statement: operands before operators, left before right. *)
Fixpoint lowerExpression (measurements : DataTable) (e : ExpressionSyntax)
  : Lowered Expression :=
  match e with
  | SyntaxNot _ operand =>
      andThen (lowerExpression measurements operand) (fun value =>
        Built (UnaryExpr ExpressionUnaryType.Not value))
  | SyntaxLogical leftOperand logicalOperator rightOperand =>
      andThen (lowerExpression measurements leftOperand) (fun leftValue =>
      andThen (lowerExpression measurements rightOperand) (fun rightValue =>
      andThen (ofExcept (exitExpression_operatorType logicalOperator)) (fun operatorType =>
        Built (OperatorExpr operatorType leftValue (Some rightValue)))))
  | SyntaxPredicate predicate => lowerPredicate measurements predicate
  end
with lowerPredicate (measurements : DataTable) (p : PredicateSyntax)
  : Lowered Expression :=
  match p with
  | SyntaxIn value negated list =>
      andThen (lowerPredicate measurements value) (fun value =>
      andThen (lowerExpressionList measurements list) (fun arguments =>
        Built (InListExpr value arguments negated)))
  | SyntaxIsNull value negated =>
      andThen (lowerPredicate measurements value) (fun value =>
        Built (OperatorExpr (if negated then ExpressionOperatorType.IsNotNull
                             else ExpressionOperatorType.IsNull) value None))
  | SyntaxComparison leftOperand comparisonOperator rightOperand =>
      andThen (lowerPredicate measurements leftOperand) (fun leftValue =>
      andThen (lowerPredicate measurements rightOperand) (fun rightValue =>
      andThen (ofExcept (exitPredicateExpression_operatorType comparisonOperator))
              (fun operatorType =>
        Built (OperatorExpr operatorType leftValue (Some rightValue)))))
  | SyntaxLike leftOperand negated rightOperand =>
      andThen (lowerPredicate measurements leftOperand) (fun leftValue =>
      andThen (lowerPredicate measurements rightOperand) (fun rightValue =>
        Built (OperatorExpr (if negated then ExpressionOperatorType.NotLike
                             else ExpressionOperatorType.Like)
                            leftValue (Some rightValue))))
  | SyntaxValue value => lowerValue measurements value
  end
with lowerValue (measurements : DataTable) (v : ValueSyntax) : Lowered Expression :=
  match v with
  | SyntaxLiteral kind text =>
      andThen (lowerLiteral kind text) (fun value => Built (ValueExpr value))
  | SyntaxColumn identifier =>
      andThen (ofExcept (exitColumnName_dataColumn measurements identifier))
              (fun dataColumn => Built (ColumnExpr dataColumn))
  | SyntaxFunction functionName arguments =>
      andThen (lowerExpressionList measurements arguments) (fun arguments =>
      andThen (ofExcept (exitFunctionExpression_functionType functionName))
              (fun functionType =>
        Built (FunctionExpr functionType arguments)))
  | SyntaxFunctionWithoutList functionName =>
      andThen (ofExcept (exitFunctionExpression_functionType functionName))
              (fun _ => Unspecified)
  | SyntaxUnary unaryOperator operand =>
      andThen (lowerValue measurements operand) (fun value =>
      andThen (ofExcept (exitValueExpression_unaryType unaryOperator)) (fun unaryType =>
        Built (UnaryExpr unaryType value)))
  | SyntaxParenthesized inner => lowerExpression measurements inner
  | SyntaxMath leftOperand mathOperator rightOperand =>
      andThen (lowerValue measurements leftOperand) (fun leftValue =>
      andThen (lowerValue measurements rightOperand) (fun rightValue =>
      andThen (ofExcept (exitValueExpression_mathOperatorType mathOperator))
              (fun operatorType =>
        Built (OperatorExpr operatorType leftValue (Some rightValue)))))
  | SyntaxBitwise leftOperand bitwiseOperator rightOperand =>
      andThen (lowerValue measurements leftOperand) (fun leftValue =>
      andThen (lowerValue measurements rightOperand) (fun rightValue =>
      andThen (ofExcept (exitValueExpression_bitwiseOperatorType bitwiseOperator))
              (fun operatorType =>
        Built (OperatorExpr operatorType leftValue (Some rightValue)))))
  end
with lowerExpressionList (measurements : DataTable) (l : ExpressionListSyntax)
  : Lowered (list Expression) :=
  match l with
  | SyntaxLast expression =>
      andThen (lowerExpression measurements expression) (fun value => Built [value])
  | SyntaxMore expression rest =>
      andThen (lowerExpression measurements expression) (fun value =>
      andThen (lowerExpressionList measurements rest) (fun values =>
        Built (value :: values)))
  end.

(** The state in which the listeners start on the WHERE subtree of a
    statement over [measurements]. *)
Definition startState (measurements : DataTable) : Listener.State :=
  {| Listener.m_expressions := ∅;
     Listener.m_activeExpressionTree := NewExpressionTree measurements |}.

(** What the walk of a tree leaves as root of the active expression
    tree. *)
Definition walkRoot (measurements : DataTable) (t : ParseTree)
  : Lowered (option Expression) :=
  match Listener.walk [] t (startState measurements) with
  | Listener.Done _ s => Built (Root (Listener.m_activeExpressionTree s))
  | Listener.Raised message _ => Fails message
  | Listener.Undefined => Unspecified
  end.

End Lowering.

(** ** Sample collaborators

    Concrete stand-ins for the collaborators, used to run the parser on
    concrete tables. *)

Module Sample.

(** Insertion sort that keeps tied elements in their input order. *)
Fixpoint insert_sorted {A : Type} (comp : A -> A -> bool) (x : A) (l : list A) : list A :=
  match l with
  | [] => [x]
  | y :: rest => if comp y x then y :: insert_sorted comp x rest else x :: y :: rest
  end.

Fixpoint insertion_sort {A : Type} (comp : A -> A -> bool) (l : list A) : list A :=
  match l with
  | [] => []
  | x :: rest => insert_sorted comp x (insertion_sort comp rest)
  end.

Definition HexValue (c : ascii) : option N :=
  let n := N_of_ascii c in
  if ((48 <=? n) && (n <=? 57))%N then Some (n - 48)%N
  else if ((65 <=? n) && (n <=? 70))%N then Some (n - 55)%N
  else if ((97 <=? n) && (n <=? 102))%N then Some (n - 87)%N
  else None.

(** Reads the hexadecimal digits of a GUID text, skipping braces and
    dashes. *)
Fixpoint ParseGuid_from (s : string) (acc : N) : guid :=
  match s with
  | EmptyString => acc
  | String c r =>
      match HexValue c with
      | Some d => ParseGuid_from r (16 * acc + d)%N
      | None => ParseGuid_from r acc
      end
  end.

Definition ParseGuidText (s : string) : guid := ParseGuid_from s 0%N.

(** The value of a cell as a value expression; a null cell is the null
    value of the column's type. *)
Definition columnValue (column : DataColumn) (row : DataRow) : Except ValueExpression :=
  let i := Column_Index column in
  match Column_Type column with
  | DataType.String =>
      Returns (NewValueExpression ExpressionValueType.String
                 (PString <$> ValueAsString row i))
  | DataType.Boolean =>
      Returns (NewValueExpression ExpressionValueType.Boolean
                 (PBoolean <$> ValueAsBoolean row i))
  | DataType.Int32 =>
      Returns (NewValueExpression ExpressionValueType.Int32
                 (PInt32 <$> ValueAsInt32 row i))
  | DataType.Guid =>
      Returns (NewValueExpression ExpressionValueType.Guid
                 (PGuid <$> ValueAsGuid row i))
  | _ => Throws "column type outside the sample evaluator"
  end.

(** Modelled from the spec: the evaluator belongs to the expression-tree
    source.  This stand-in covers literals (the stored value), columns
    (the cell at the column's index, typed by the column, null
    preserving) and [Coalesce] of literals and columns (the first
    non-null argument, or null). *)
Definition evaluateLeaf (e : Expression) (row : DataRow) : Except ValueExpression :=
  match e with
  | ValueExpr value => Returns value
  | ColumnExpr column => columnValue column row
  | _ => Throws "expression outside the sample evaluator"
  end.

Fixpoint Coalesce (arguments : list Expression) (row : DataRow) : Except ValueExpression :=
  match arguments with
  | [] => Throws "Coalesce needs an argument"
  | [argument] => evaluateLeaf argument row
  | argument :: rest =>
      match evaluateLeaf argument row with
      | Returns value => if IsNull value then Coalesce rest row else Returns value
      | Throws message => Throws message
      end
  end.

Definition Evaluate_root (tree : ExpressionTree) (row : DataRow) : Except ValueExpression :=
  match Root tree with
  | None => Throws "null root"
  | Some (FunctionExpr ExpressionFunctionType.Coalesce arguments) => Coalesce arguments row
  | Some e => evaluateLeaf e row
  end.

(** Collaborators for a parser whose input text parses to [parseTree]. *)
Definition external (parseTree : list StatementContext) : External :=
  {| parse := fun _ => parseTree;
     ParseGuid := ParseGuidText;
     ExpressionTree_Evaluate := Evaluate_root |}.

End Sample.

(** ** [std::sort] of libstdc++

    The sort that a build with GCC runs: [std::sort] of libstdc++
    ([bits/stl_algo.h], [bits/stl_heap.h]), an introsort.  A range
    [[first, last)] is the list of its elements and an iterator is an
    index into it; [comp] is the comparator.  The loops that the library
    leaves unguarded, relying on the strict weak ordering to stop them
    within the range, stop at the ends of the range here. *)

Module Libstdcxx.

Local Open Scope nat_scope.

Section Sort.

Context {A : Type} (comp : A -> A -> bool).

(** [_S_threshold] *)
Definition S_threshold : nat := 16.

(** [comp(first + i, first + j)] *)
Definition comp_iter (l : list A) (i j : nat) : bool :=
  match l !! i, l !! j with
  | Some x, Some y => comp x y
  | _, _ => false
  end.

(** [std::iter_swap(first + i, first + j)] *)
Definition iter_swap (i j : nat) (l : list A) : list A :=
  match l !! i, l !! j with
  | Some x, Some y => <[i := y]> (<[j := x]> l)
  | _, _ => l
  end.

(** [__move_median_to_first(result, a, b, c, comp)] *)
Definition move_median_to_first (result a b c : nat) (l : list A) : list A :=
  if comp_iter l a b then
    if comp_iter l b c then iter_swap result b l
    else if comp_iter l a c then iter_swap result c l
    else iter_swap result a l
  else if comp_iter l a c then iter_swap result a l
  else if comp_iter l b c then iter_swap result c l
  else iter_swap result b l.

(** [while (comp(first, pivot)) ++first;] with [rest] the range from
    [first] on. *)
Fixpoint scan_up (pivot : A) (rest : list A) (first : nat) : nat :=
  match rest with
  | x :: rest => if comp x pivot then scan_up pivot rest (S first) else first
  | [] => first
  end.

(** [while (comp(pivot, last)) --last;] *)
Fixpoint scan_down (pivot : A) (l : list A) (last : nat) : nat :=
  match last with
  | 0 => 0
  | S before =>
      match l !! last with
      | Some x => if comp pivot x then scan_down pivot l before else last
      | None => last
      end
  end.

(** [__unguarded_partition(first, last, pivot, comp)]: the cut and the
    range.  [last] decreases with every round of the loop, so [fuel]
    rounds suffice when [last <= fuel]. *)
Fixpoint unguarded_partition (fuel first last pivot : nat) (l : list A) : nat * list A :=
  match l !! pivot with
  | None => (first, l)
  | Some p =>
      let first := scan_up p (drop first l) first in
      let last := scan_down p l (last - 1) in
      if first <? last then
        match fuel with
        | 0 => (first, l)
        | S fuel => unguarded_partition fuel (S first) last pivot (iter_swap first last l)
        end
      else (first, l)
  end.

(** [__unguarded_partition_pivot(first, last, comp)] *)
Definition unguarded_partition_pivot (l : list A) : nat * list A :=
  let mid := length l / 2 in
  let l := move_median_to_first 0 1 mid (length l - 1) l in
  unguarded_partition (length l) 1 (length l) 0 l.

(** [__push_heap(first, holeIndex, topIndex, value, comp)].  The hole
    moves towards the top with every round of the loop, so [fuel] rounds
    suffice when [holeIndex <= fuel]. *)
Fixpoint push_heap (fuel holeIndex topIndex : nat) (value : A) (l : list A) : list A :=
  let parent := (holeIndex - 1) / 2 in
  match fuel, l !! parent with
  | S fuel, Some p =>
      if (topIndex <? holeIndex) && comp p value
      then push_heap fuel parent topIndex value (<[holeIndex := p]> l)
      else <[holeIndex := value]> l
  | _, _ => <[holeIndex := value]> l
  end.

(** The first loop of [__adjust_heap]: the hole, [secondChild] and the
    range when it ends.  [secondChild] grows with every round, so [fuel]
    rounds suffice when [len <= fuel]. *)
Fixpoint adjust_heap_loop (fuel holeIndex secondChild len : nat) (l : list A)
    : nat * nat * list A :=
  match fuel with
  | 0 => (holeIndex, secondChild, l)
  | S fuel =>
      if secondChild <? (len - 1) / 2 then
        let secondChild := 2 * (secondChild + 1) in
        let secondChild :=
          if comp_iter l secondChild (secondChild - 1) then secondChild - 1
          else secondChild in
        match l !! secondChild with
        | Some x => adjust_heap_loop fuel secondChild secondChild len (<[holeIndex := x]> l)
        | None => (holeIndex, secondChild, l)
        end
      else (holeIndex, secondChild, l)
  end.

(** [__adjust_heap(first, holeIndex, len, value, comp)] *)
Definition adjust_heap (holeIndex len : nat) (value : A) (l : list A) : list A :=
  let topIndex := holeIndex in
  let '(holeIndex, secondChild, l) := adjust_heap_loop len holeIndex holeIndex len l in
  let '(holeIndex, l) :=
    if Nat.even len && (secondChild =? (len - 2) / 2) then
      let secondChild := 2 * (secondChild + 1) in
      match l !! (secondChild - 1) with
      | Some x => (secondChild - 1, <[holeIndex := x]> l)
      | None => (holeIndex, l)
      end
    else (holeIndex, l) in
  push_heap holeIndex holeIndex topIndex value l.

(** [__pop_heap(first, first + last, first + result, comp)] *)
Definition pop_heap (last result : nat) (l : list A) : list A :=
  match l !! result, l !! 0 with
  | Some value, Some top => adjust_heap 0 last value (<[result := top]> l)
  | _, _ => l
  end.

(** The loop of [__make_heap], from [parent] down to the top. *)
Fixpoint make_heap_loop (parent len : nat) (l : list A) : list A :=
  let l :=
    match l !! parent with
    | Some value => adjust_heap parent len value l
    | None => l
    end in
  match parent with
  | 0 => l
  | S parent => make_heap_loop parent len l
  end.

(** [__make_heap(first, last, comp)] *)
Definition make_heap (l : list A) : list A :=
  if length l <? 2 then l else make_heap_loop ((length l - 2) / 2) (length l) l.

(** [__sort_heap(first, first + last, comp)] *)
Fixpoint sort_heap (last : nat) (l : list A) : list A :=
  match last with
  | S (S _ as last) => sort_heap last (pop_heap last last l)
  | _ => l
  end.

(** [__partial_sort(first, last, last, comp)], the call of
    [__introsort_loop]: with [middle = last] the loop of [__heap_select]
    over [[middle, last)] is empty and what remains is [__make_heap]
    followed by [__sort_heap]. *)
Definition partial_sort (l : list A) : list A :=
  sort_heap (length l) (make_heap l).

(** [__unguarded_linear_insert(first + last, comp)] with [val] the element
    that it takes out of the range at [last]. *)
Fixpoint unguarded_linear_insert (val : A) (last : nat) (l : list A) : list A :=
  match last with
  | 0 => <[0 := val]> l
  | S next =>
      match l !! next with
      | Some x =>
          if comp val x then unguarded_linear_insert val next (<[last := x]> l)
          else <[last := val]> l
      | None => <[last := val]> l
      end
  end.

(** One round of the loop of [__insertion_sort]: an element that is
    ordered before the first one is moved to the front, any other is
    inserted linearly. *)
Definition insertion_step (l : list A) (i : nat) : list A :=
  match l !! i, l !! 0 with
  | Some val, Some front =>
      if comp val front then val :: take i l ++ drop (S i) l
      else unguarded_linear_insert val i l
  | _, _ => l
  end.

(** [__insertion_sort(first, first + last, comp)] *)
Definition insertion_sort (last : nat) (l : list A) : list A :=
  foldl insertion_step l (seq 1 (last - 1)).

(** One round of the loop of [__unguarded_insertion_sort]. *)
Definition unguarded_insertion_step (l : list A) (i : nat) : list A :=
  match l !! i with
  | Some val => unguarded_linear_insert val i l
  | None => l
  end.

(** [__unguarded_insertion_sort(first + first', first + last, comp)] *)
Definition unguarded_insertion_sort (first last : nat) (l : list A) : list A :=
  foldl unguarded_insertion_step l (seq first (last - first)).

(** [__final_insertion_sort(first, last, comp)] *)
Definition final_insertion_sort (l : list A) : list A :=
  if S_threshold <? length l then
    unguarded_insertion_sort S_threshold (length l) (insertion_sort S_threshold l)
  else insertion_sort (length l) l.

(** [__introsort_loop(first, last, depth_limit, comp)].  Each round of the
    loop partitions the range, sorts [[cut, last)] by a recursive call and
    goes on with [[first, cut)] and the same decremented depth limit,
    which is the recursive call on [[first, cut)]. *)
Fixpoint introsort_loop (depth_limit : nat) (l : list A) : list A :=
  if S_threshold <? length l then
    match depth_limit with
    | 0 => partial_sort l
    | S depth_limit =>
        let '(cut, l) := unguarded_partition_pivot l in
        introsort_loop depth_limit (take cut l) ++ introsort_loop depth_limit (drop cut l)
    end
  else l.

(** [std::sort(first, last, comp)]; [std::__lg] is the binary logarithm
    rounded down. *)
Definition sort (l : list A) : list A :=
  match l with
  | [] => []
  | _ => final_insertion_sort (introsort_loop (2 * Nat.log2 (length l)) l)
  end.

End Sort.

End Libstdcxx.

(** * Vocabulary of the properties and sample data *)

(** A three-way comparison whose sign is antisymmetric and behaves like
    that of a total preorder on the values that satisfy [P]. *)
Record SignOrder {A : Type} (P : A -> Prop) (c : A -> A -> Z) : Prop := {
  sign_anti : forall a b, c a b < 0 <-> 0 < c b a;
  sign_trans : forall a b d, P a -> P b -> P d -> c a b <= 0 -> c b d <= 0 -> c a d <= 0
}.

(** The requirements on [operator<] of a cell type, the last one on the
    values that satisfy [P]. *)
Record StrictLess {T : Type} (P : T -> Prop) (lt : T -> T -> bool) : Prop := {
  less_irreflexive : forall a, lt a a = false;
  less_transitive : forall a b c, lt a b = true -> lt b c = true -> lt a c = true;
  less_negative : forall a b c, P a -> P b -> P c ->
    lt a b = false -> lt b c = false -> lt a c = false
}.

(** [std::isnan] *)
Definition isnan (f : Floating) : bool :=
  match f with
  | NaN => true
  | _ => false
  end.

(** The cell of a row in a column is a NaN. *)
Definition IsNaN (column : DataColumn) (row : DataRow) : bool :=
  match Cell row (Column_Index column) with
  | Some (CSingle f) | Some (CDouble f) | Some (CDecimal f) => isnan f
  | _ => false
  end.

(** No cell of a row in the columns of the order-by terms is a NaN. *)
Definition NaNFree (orderByTerms : list (DataColumn * bool)) (row : DataRow) : bool :=
  forallb (fun orderByTerm => negb (IsNaN (fst orderByTerm) row)) orderByTerms.

(** A Double column [Value], a row of a table that has this column only,
    an Int32 column [Count] that another table has behind [Value], and the
    expression tree of a statement that orders the first table by
    [Value]. *)
Definition valueColumn : DataColumn :=
  {| Column_Name := "Value"; Column_Index := 0; Column_Type := DataType.Double |}.
Definition valueRow (value : Floating) : DataRow := [Some (CDouble value)].
Definition countColumn : DataColumn :=
  {| Column_Name := "Count"; Column_Index := 1; Column_Type := DataType.Int32 |}.
Definition valueTree : ExpressionTree :=
  {| Measurements := {| Table_Name := "T"; Table_Columns := [valueColumn];
                        Table_Rows := [] |};
     TopLimit := -1;
     OrderByTerms := [(valueColumn, true)];
     Root := None |}.

(** The range with [val] put behind the last element that [val] is not
    ordered before: what [__unguarded_linear_insert] makes of the sorted
    run before the element it inserts. *)
Fixpoint linear_insert {A : Type} (comp : A -> A -> bool) (val : A) (range : list A)
    : list A :=
  match range with
  | [] => [val]
  | x :: rest =>
      if forallb (comp val) range then val :: range
      else x :: linear_insert comp val rest
  end.

(** The comparison of two rows on one column, left to right. *)
Definition columnCompare (column : DataColumn) (l r : DataRow) : Z :=
  compareOrderByTerm (column, true) l r.

(** The three-way form of the comparator: the sign of the first term that
    is not equal. *)
Fixpoint lexCompare (orderByTerms : list (DataColumn * bool)) (a b : DataRow) : Z :=
  match orderByTerms with
  | [] => 0
  | orderByTerm :: rest =>
      let result := compareOrderByTerm orderByTerm a b in
      if result <? 0 then -1
      else if 0 <? result then 1
      else lexCompare rest a b
  end.

(** A row of a table with an Int32 column [Rank] and a String column
    [Name]. *)
Definition rankColumn : DataColumn :=
  {| Column_Name := "Rank"; Column_Index := 0; Column_Type := DataType.Int32 |}.
Definition tiedRowA : DataRow := [Some (CInt32 1); Some (CString "A")].

(** The three result accumulators of two parser states agree. *)
Definition sameResults (p q : FilterExpressionParser) : Prop :=
  m_filteredSignalIDs p = m_filteredSignalIDs q
  /\ m_filteredSignalIDSet p = m_filteredSignalIDSet q
  /\ m_filteredRows p = m_filteredRows q.

(** A data set with the table ActiveMeasurements of four measurements. *)
Definition sampleColumns : list DataColumn :=
  [ {| Column_Name := "SignalID"; Column_Index := 0; Column_Type := DataType.Guid |};
    {| Column_Name := "ID"; Column_Index := 1; Column_Type := DataType.String |};
    {| Column_Name := "PointTag"; Column_Index := 2; Column_Type := DataType.String |};
    {| Column_Name := "Enabled"; Column_Index := 3; Column_Type := DataType.Boolean |};
    {| Column_Name := "Rank"; Column_Index := 4; Column_Type := DataType.Int32 |} ].

(** A row of that table. *)
Definition sampleRow (signalID : option guid) (id pointTag : string)
    (enabled : option bool) (rank : Z) : DataRow :=
  [CGuid <$> signalID; Some (CString id); Some (CString pointTag);
   CBoolean <$> enabled; Some (CInt32 rank)].

Definition sampleTable : DataTable :=
  {| Table_Name := "ActiveMeasurements";
     Table_Columns := sampleColumns;
     Table_Rows :=
       [ Some (sampleRow (Some 1%N) "PPA:1" "GPA_SHELBY:FREQ" (Some true) 3);
         Some (sampleRow (Some 2%N) "PPA:2" "GPA_SHELBY:VPHM" None 1);
         Some (sampleRow (Some 3%N) "PPA:3" "GPA_TVA:FREQ" (Some true) 2);
         Some (sampleRow (Some 4%N) "PPA:4" "GPA_TVA:VPHM" (Some false) 1) ] |}.

(** The data set of that table. *)
Definition sampleDataSet : DataSet := [sampleTable].

(** The identifier statement ['00000000-0000-0000-0000-000000000004']. *)
Definition guidStatement : StatementContext :=
  IdentifierStatement
    {| GUID_LITERAL := Some "'00000000-0000-0000-0000-000000000004'";
       MEASUREMENT_KEY_LITERAL := None;
       POINT_TAG_LITERAL := None |}.

(** A parser with the sample data set. *)
Definition sampleParser : FilterExpressionParser :=
  SetDataSet (Some sampleDataSet) (NewFilterExpressionParser "").

(** The test at the head of the row loop of [Evaluate]: there is a TOP
    limit and the matched rows have reached it. *)
Definition topLimitReached (expressionTree : ExpressionTree)
    (matchedRows : list DataRow) : bool :=
  (-1 <? TopLimit expressionTree)
  && (TopLimit expressionTree <=? Z.of_nat (length matchedRows)).

(** During the call [Evaluate] on [p], the row loop of [expressionTree]
    comes to the non-null row [row] with the rows [matchedRows] matched so
    far, in parser state [p']: the walk and the trees before this one
    went through, the signal ID column was resolved to
    [signalIDColumnIndex], the rows before this one were scanned, and the
    TOP limit has not been reached. *)
Definition EvaluateReachesRow (external : External) (sorting : StdSort)
    (p : FilterExpressionParser) (expressionTree : ExpressionTree)
    (signalIDColumnIndex : Z) (row : DataRow) (matchedRows : list DataRow)
    (p' : FilterExpressionParser) : Prop :=
  exists walked done rest before pre post,
    m_dataSet p <> None
    /\ walk (parse (m_inputStream p)) (clearResults p) = Ok tt walked
    /\ m_expressionTrees walked = done ++ expressionTree :: rest
    /\ Evaluate_trees done walked = Ok tt before
    /\ Evaluate_signalIDColumnIndex (Measurements expressionTree) before
       = Ok signalIDColumnIndex before
    /\ Table_Rows (Measurements expressionTree) = pre ++ Some row :: post
    /\ Evaluate_rows expressionTree signalIDColumnIndex pre [] before
       = Ok matchedRows p'
    /\ topLimitReached expressionTree matchedRows = false.

(** The Int32 value 1. *)
Definition int32One : ValueExpression :=
  NewValueExpression ExpressionValueType.Int32 (Some (PInt32 1)).

(** [FILTER ActiveMeasurements WHERE Coalesce(Enabled, 1)] *)
Definition coalesceStatement : StatementContext :=
  FilterStatement
    {| tableName := "ActiveMeasurements";
       K_TOP := false; topLimit := "";
       K_ORDER := false; K_BY := false; orderingTerm := [];
       expression := fun table =>
         match DataTable_Column table "Enabled" with
         | Some column =>
             Returns (FunctionExpr ExpressionFunctionType.Coalesce
                        [ColumnExpr column; ValueExpr int32One])
         | None => Throws "Failed to find column"
         end |}.

(** The expression tree of that statement. *)
Definition coalesceTree : ExpressionTree :=
  {| Measurements := sampleTable;
     TopLimit := -1;
     OrderByTerms := [];
     Root := Some (FunctionExpr ExpressionFunctionType.Coalesce
                     [ColumnExpr {| Column_Name := "Enabled"; Column_Index := 3;
                                    Column_Type := DataType.Boolean |};
                      ValueExpr int32One]) |}.

(** The first two rows of the sample table. *)
Definition sampleRow0 : DataRow :=
  sampleRow (Some 1%N) "PPA:1" "GPA_SHELBY:FREQ" (Some true) 3.
Definition sampleRow1 : DataRow :=
  sampleRow (Some 2%N) "PPA:2" "GPA_SHELBY:VPHM" None 1.

(** The expression tree of [FILTER ActiveMeasurements WHERE NULL]: the
    literal NULL is the null value of type Undefined. *)
Definition nullTree : ExpressionTree :=
  {| Measurements := sampleTable;
     TopLimit := -1;
     OrderByTerms := [];
     Root := Some (ValueExpr (ExpressionTree_NullValue ExpressionValueType.Undefined)) |}.

(** The parser state after the GUID branch of [exitIdentifierStatement]:
    the GUID is recorded when signal IDs are tracked, it is not the empty
    GUID and it is not in the set yet. *)
Definition guidContribution (p : FilterExpressionParser) (signalID : guid)
  : FilterExpressionParser :=
  if m_trackFilteredSignalIDs p && bool_decide (signalID ≠ Empty.Guid)
     && negb (bool_decide (signalID ∈ m_filteredSignalIDSet p))
  then with_filteredSignalIDs (m_filteredSignalIDs p ++ [signalID])
         (with_filteredSignalIDSet ({[signalID]} ∪ m_filteredSignalIDSet p) p)
  else p.

(** The primary measurement table is missing from the data set, or there
    is no ID fields record for it, or its signal ID column is missing. *)
Definition primaryTableUnresolved (p : FilterExpressionParser) (dataSet : DataSet) : Prop :=
  match DataSet_Table dataSet (m_primaryMeasurementTableName p) with
  | None => True
  | Some measurements =>
      match GetMeasurementTableIDFields (m_primaryMeasurementTableName p) p with
      | None => True
      | Some fields => DataTable_Column measurements (SignalIDFieldName fields) = None
      end
  end.

(** The column of an ordering term is missing from the table. *)
Definition orderingTermUnresolved (measurements : DataTable)
    (term : OrderingTermContext) : Prop :=
  DataTable_Column measurements (orderByColumnName term) = None.

(** The identifier statement ["GPA_TVA:VPHM"], a point tag. *)
Definition pointTagContext : IdentifierStatementContext :=
  {| GUID_LITERAL := None;
     MEASUREMENT_KEY_LITERAL := None;
     POINT_TAG_LITERAL := Some (quoted "GPA_TVA:VPHM") |}.

(** A parser whose data set has no table. *)
Definition emptyDataSetParser : FilterExpressionParser :=
  SetDataSet (Some []) (NewFilterExpressionParser "").

(** The statement [FILTER ActiveMeasurements WHERE Enabled ORDER BY Phase];
    the sample table has no column [Phase]. *)
Definition unknownOrderByContext : FilterStatementContext :=
  {| tableName := "ActiveMeasurements";
     K_TOP := false; topLimit := "";
     K_ORDER := true; K_BY := true;
     orderingTerm := [ {| orderByColumnName := "Phase"; K_DESC := false |} ];
     expression := fun table =>
       match DataTable_Column table "Enabled" with
       | Some column => Returns (ColumnExpr column)
       | None => Throws "Failed to find column"
       end |}.

(** The row is not null and its field in the mapped column equals the
    mapping value. *)
Definition rowMatches (columnIndex : Z) (mappingValue : string)
    (row : option DataRow) : bool :=
  match row with
  | Some row =>
      match ValueAsString row columnIndex with
      | Some field => IsEqual mappingValue field true
      | None => false
      end
  | None => false
  end.

(** The signal ID that a matching row yields for parser state [p]: the row
    has one, it is not the empty GUID, and it is not in the set yet. *)
Definition newSignalID (signalIDColumnIndex columnIndex : Z) (mappingValue : string)
    (p : FilterExpressionParser) (row : option DataRow) : option guid :=
  match row with
  | Some r =>
      if rowMatches columnIndex mappingValue row then
        match ValueAsGuid r signalIDColumnIndex with
        | Some signalID =>
            if bool_decide (signalID ≠ Empty.Guid)
               && negb (bool_decide (signalID ∈ m_filteredSignalIDSet p))
            then Some signalID else None
        | None => None
        end
      else None
  | None => None
  end.

(** The parser state after [MapMeasurement] recorded [signalID] for
    [row]. *)
Definition recordMeasurement (p : FilterExpressionParser) (signalID : guid)
    (row : DataRow) : FilterExpressionParser :=
  let p1 := with_filteredSignalIDs (m_filteredSignalIDs p ++ [signalID])
              (with_filteredSignalIDSet ({[signalID]} ∪ m_filteredSignalIDSet p) p) in
  if m_trackFilteredRows p then with_filteredRows (m_filteredRows p ++ [row]) p1 else p1.

(** What one call added to the accumulators: [signalIDs] behind the
    signal IDs and [rows] behind the rows. *)
Definition added (p p' : FilterExpressionParser) (signalIDs : list guid)
    (rows : list DataRow) : Prop :=
  m_filteredSignalIDs p' = m_filteredSignalIDs p ++ signalIDs
  /\ m_filteredRows p' = m_filteredRows p ++ rows.

(** The sample table with other rows. *)
Definition tableOf (rows : list (option DataRow)) : DataTable :=
  {| Table_Name := "ActiveMeasurements";
     Table_Columns := sampleColumns;
     Table_Rows := rows |}.

(** The measurement key column of the sample table. *)
Definition keyColumn : DataColumn :=
  {| Column_Name := "ID"; Column_Index := 1; Column_Type := DataType.String |}.

(** Two measurements with the key PPA:1; the first has no signal ID. *)
Definition unidentifiedRow : DataRow :=
  sampleRow None "PPA:1" "GPA_SHELBY:FREQ" (Some true) 3.
Definition identifiedRow : DataRow :=
  sampleRow (Some 2%N) "PPA:1" "GPA_SHELBY:FREQ2" (Some true) 1.

(** The row loop of [Evaluate] without the test of the TOP limit: every
    row is taken in turn. *)
Fixpoint scanEvery (external : External) (expressionTree : ExpressionTree)
    (signalIDColumnIndex : Z) (rows : list (option DataRow))
    (matchedRows : list DataRow) : M (list DataRow) :=
  match rows with
  | [] => mret matchedRows
  | None :: rest => scanEvery external expressionTree signalIDColumnIndex rest matchedRows
  | Some row :: rest =>
      matchedRows' ← Evaluate_row expressionTree signalIDColumnIndex row matchedRows;
      scanEvery external expressionTree signalIDColumnIndex rest matchedRows'
  end.

(** Two columns of the sample table, for the statement
    [FILTER TOP 1 ActiveMeasurements WHERE Enabled ORDER BY Rank]. *)
Definition enabledColumn : DataColumn :=
  {| Column_Name := "Enabled"; Column_Index := 3; Column_Type := DataType.Boolean |}.
Definition sampleRankColumn : DataColumn :=
  {| Column_Name := "Rank"; Column_Index := 4; Column_Type := DataType.Int32 |}.

(** The expression tree of that statement. *)
Definition topOneTree : ExpressionTree :=
  {| Measurements := sampleTable;
     TopLimit := 1;
     OrderByTerms := [(sampleRankColumn, true)];
     Root := Some (ColumnExpr enabledColumn) |}.

(** Seventeen enabled measurements with the signal IDs 1 to 17, all of
    rank 1, and a parser with the data set of their table. *)
Definition tiedMeasurements : list DataRow :=
  (fun n => sampleRow (Some (N.of_nat n)) "PPA:1" "GPA_SHELBY:FREQ" (Some true) 1)
    <$> seq 1 17.
Definition tiedParser : FilterExpressionParser :=
  SetDataSet (Some [tableOf (Some <$> tiedMeasurements)]) (NewFilterExpressionParser "").

(** The expression tree of [FILTER ActiveMeasurements WHERE Enabled ORDER
    BY Rank] over them. *)
Definition tiedTree : ExpressionTree :=
  {| Measurements := tableOf (Some <$> tiedMeasurements);
     TopLimit := -1;
     OrderByTerms := [(sampleRankColumn, true)];
     Root := Some (ColumnExpr enabledColumn) |}.

(** The sequence of signal IDs has no duplicates and not the empty GUID,
    and holds exactly the GUIDs of the set. *)
Definition Exact (p : FilterExpressionParser) : Prop :=
  NoDup (m_filteredSignalIDs p)
  /\ (Empty.Guid ∉ m_filteredSignalIDs p)
  /\ forall g, g ∈ m_filteredSignalIDSet p <-> g ∈ m_filteredSignalIDs p.

(** The same, except that the set may hold GUIDs that are not in the
    sequence. *)
Definition Consistent (p : FilterExpressionParser) : Prop :=
  NoDup (m_filteredSignalIDs p)
  /\ (Empty.Guid ∉ m_filteredSignalIDs p)
  /\ (Empty.Guid ∉ m_filteredSignalIDSet p)
  /\ forall g, g ∈ m_filteredSignalIDs p -> g ∈ m_filteredSignalIDSet p.

(** The signal IDs that the final loop of [Evaluate] reads off the
    matched rows. *)
Definition signalIDsOf (signalIDColumnIndex : Z) (matchedRows : list DataRow) : list guid :=
  map (fun row => default Empty.Guid (ValueAsGuid row signalIDColumnIndex)) matchedRows.

(** During the row loop the set is ahead of the sequence by the signal
    IDs of the rows matched so far, which are appended after the sort. *)
Definition pending (signalIDColumnIndex : Z) (matchedRows : list DataRow)
    (p : FilterExpressionParser) : list guid :=
  if m_trackFilteredSignalIDs p then signalIDsOf signalIDColumnIndex matchedRows else [].

(** The invariant of the row loop: sequence and pending signal IDs
    together have no duplicates and not the empty GUID, and are exactly the
    GUIDs of the set. *)
Definition Pending (signalIDColumnIndex : Z) (matchedRows : list DataRow)
    (p : FilterExpressionParser) : Prop :=
  NoDup (m_filteredSignalIDs p ++ pending signalIDColumnIndex matchedRows p)
  /\ (Empty.Guid ∉ m_filteredSignalIDs p ++ pending signalIDColumnIndex matchedRows p)
  /\ forall g, g ∈ m_filteredSignalIDSet p
               <-> g ∈ (m_filteredSignalIDs p ++ pending signalIDColumnIndex matchedRows p).

(** The root expression of the tree evaluates to the Boolean true on the
    row. *)
Definition rowSelected (external : External) (expressionTree : ExpressionTree)
    (row : DataRow) : bool :=
  match ExpressionTree_Evaluate expressionTree row with
  | Returns value =>
      ExpressionValueType.eqb (ValueType value) ExpressionValueType.Boolean
      && ValueExpression_ValueAsBoolean value
  | Throws _ => false
  end.

(** What the evaluation of the expression trees reads of the parser and
    never writes: the trees, the tracking of signal IDs and the ID fields
    of the measurement tables. *)
Definition evaluationSettings (p : FilterExpressionParser) :=
  (m_expressionTrees p, m_trackFilteredSignalIDs p, m_measurementTableIDFields p).

(** A step of the parser that leaves them as they are, whether it returns
    or throws. *)
Definition keepsSettings {A : Type} (m : M A) : Prop :=
  forall p, evaluationSettings (finalState (m p)) = evaluationSettings p.

(** The set is ahead of the sequence by the signal IDs of rows that one
    statement matched: sequence and set hold the same GUIDs, or there are
    an expression tree of the parser and rows of its table on which its
    root is true, in table order, such that the set holds the GUIDs of the
    sequence and the signal IDs of these rows, read in the signal ID
    column of that table, and no other GUID. *)
Definition Ahead (external : External) (p : FilterExpressionParser) : Prop :=
  Exact p
  \/ exists expressionTree signalIDColumnIndex matchedRows,
       expressionTree ∈ m_expressionTrees p
       /\ Evaluate_signalIDColumnIndex (Measurements expressionTree) p
          = Ok signalIDColumnIndex p
       /\ matchedRows `sublist_of`
            List.filter (rowSelected external expressionTree)
                        (omap id (Table_Rows (Measurements expressionTree)))
       /\ Pending signalIDColumnIndex matchedRows p.

(** A step of the parser that leaves the signal ID accumulators exact,
    whether it returns or throws. *)
Definition keepsExact {A : Type} (m : M A) : Prop :=
  forall p, Exact p -> Exact (finalState (m p)).

(** The statement [FILTER (TOP n)? ActiveMeasurements WHERE Enabled
    (ORDER BY ...)?]. *)
Definition enabledStatement (top : option string)
    (orderBy : list OrderingTermContext) : StatementContext :=
  FilterStatement
    {| tableName := "ActiveMeasurements";
       K_TOP := bool_decide (is_Some top); topLimit := default EmptyString top;
       K_ORDER := bool_decide (orderBy ≠ []); K_BY := bool_decide (orderBy ≠ []);
       orderingTerm := orderBy;
       expression := fun table =>
         match DataTable_Column table "Enabled" with
         | Some column => Returns (ColumnExpr column)
         | None => Throws "Failed to find column"
         end |}.

(** ** Vocabulary of the further properties *)

Module SampleReaders.

(** Readers for literals that are runs of digits with at most one
    point. *)
Definition readers : LiteralReaders :=
  {| ParseTimestamp := fun text =>
       match ParseDigits text 0 with
       | Some t => Returns t
       | None => Throws "ParseTimestamp: invalid"
       end;
     decimal_t := fun text =>
       match ParseDigits text 0 with
       | Some n => Some (inject_Z n)
       | None => None
       end;
     stod_NUMERIC_LITERAL := fun text =>
       match ParseDigits text 0 with
       | Some n => Returns (inject_Z n)
       | None => Throws "stod"
       end |}.

End SampleReaders.

(** A column and a literal as expressions. *)
Definition columnSentence (identifier : string) : ExpressionSyntax :=
  SyntaxPredicate (SyntaxValue (SyntaxColumn identifier)).
Definition literalSentence (kind : LiteralKind) (text : string) : ExpressionSyntax :=
  SyntaxPredicate (SyntaxValue (SyntaxLiteral kind text)).

(** [Enabled AND (Rank >= 2 or PointTag LIKE '%FREQ%')
     && id NOT IN ('PPA:1', isnull(PointTag, -15))] *)
Definition sampleSentence : ExpressionSyntax :=
  SyntaxLogical
    (SyntaxLogical
       (columnSentence "Enabled")
       "AND"
       (SyntaxPredicate (SyntaxValue (SyntaxParenthesized
          (SyntaxLogical
             (SyntaxPredicate
                (SyntaxComparison (SyntaxValue (SyntaxColumn "Rank")) ">="
                                  (SyntaxValue (SyntaxLiteral IntegerLiteral "2"))))
             "or"
             (SyntaxPredicate
                (SyntaxLike (SyntaxValue (SyntaxColumn "PointTag")) false
                            (SyntaxValue (SyntaxLiteral StringLiteral "'%FREQ%'")))))))))
    "&&"
    (SyntaxPredicate
       (SyntaxIn (SyntaxValue (SyntaxColumn "id")) true
          (SyntaxMore (literalSentence StringLiteral "'PPA:1'")
             (SyntaxLast
                (SyntaxPredicate (SyntaxValue
                   (SyntaxFunction "isnull"
                      (SyntaxMore (columnSentence "PointTag")
                         (SyntaxLast (SyntaxPredicate (SyntaxValue
                            (SyntaxUnary "-" (SyntaxLiteral NumericLiteral "15"))))))))))))).

Definition HasValue (column : DataColumn) (row : DataRow) : bool :=
  let columnIndex := Column_Index column in
  match Column_Type column with
  | DataType.String => bool_decide (is_Some (ValueAsString row columnIndex))
  | DataType.Boolean => bool_decide (is_Some (ValueAsBoolean row columnIndex))
  | DataType.DateTime => bool_decide (is_Some (ValueAsDateTime row columnIndex))
  | DataType.Single => bool_decide (is_Some (ValueAsSingle row columnIndex))
  | DataType.Double => bool_decide (is_Some (ValueAsDouble row columnIndex))
  | DataType.Decimal => bool_decide (is_Some (ValueAsDecimal row columnIndex))
  | DataType.Guid => bool_decide (is_Some (ValueAsGuid row columnIndex))
  | DataType.Int8 => bool_decide (is_Some (ValueAsInt8 row columnIndex))
  | DataType.Int16 => bool_decide (is_Some (ValueAsInt16 row columnIndex))
  | DataType.Int32 => bool_decide (is_Some (ValueAsInt32 row columnIndex))
  | DataType.Int64 => bool_decide (is_Some (ValueAsInt64 row columnIndex))
  | DataType.UInt8 => bool_decide (is_Some (ValueAsUInt8 row columnIndex))
  | DataType.UInt16 => bool_decide (is_Some (ValueAsUInt16 row columnIndex))
  | DataType.UInt32 => bool_decide (is_Some (ValueAsUInt32 row columnIndex))
  | DataType.UInt64 => bool_decide (is_Some (ValueAsUInt64 row columnIndex))
  end.

(** The TOP limit that a filter statement asks for: the number that
    [std::stoi] reads in the text after TOP, negative when the text has a
    minus sign, or [-1] without the clause. *)
Definition statementLimit (context : FilterStatementContext) : Except Z :=
  if K_TOP context then stoi (topLimit context) else Returns (-1).

(** The ordering terms of a filter statement, read when both ORDER and BY
    are present. *)
Definition statementOrderingTerms (context : FilterStatementContext)
  : list OrderingTermContext :=
  if K_ORDER context && K_BY context then orderingTerm context else [].

(** The order-by terms that ordering terms denote against a table: each
    column resolved by name, ascending unless DESC is given; nothing when
    a column is missing. *)
Fixpoint resolveOrderingTerms (measurements : DataTable)
    (terms : list OrderingTermContext) : option (list (DataColumn * bool)) :=
  match terms with
  | [] => Some []
  | term :: rest =>
      match DataTable_Column measurements (orderByColumnName term) with
      | None => None
      | Some column =>
          match resolveOrderingTerms measurements rest with
          | None => None
          | Some resolved => Some ((column, negb (K_DESC term)) :: resolved)
          end
      end
  end.

(** An expression tree with further order-by terms. *)
Definition addOrderByTerms (tree : ExpressionTree) (terms : list (DataColumn * bool))
  : ExpressionTree :=
  {| Measurements := Measurements tree; TopLimit := TopLimit tree;
     OrderByTerms := OrderByTerms tree ++ terms; Root := Root tree |}.

(** The parser state with [tree] pushed as the active expression tree. *)
Definition pushExpressionTree (tree : ExpressionTree) (p : FilterExpressionParser)
  : FilterExpressionParser :=
  with_expressionTrees (m_expressionTrees p ++ [tree]) (Some tree) p.

(** The expression tree of a filter statement: its table, TOP limit and
    order-by terms resolved against the data set, and the expression of its
    WHERE clause as root. *)
Definition statementExpressionTree (dataSet : DataSet) (context : FilterStatementContext)
    (tree : ExpressionTree) : Prop :=
  DataSet_Table dataSet (tableName context) = Some (Measurements tree)
  /\ statementLimit context = Returns (TopLimit tree)
  /\ resolveOrderingTerms (Measurements tree) (statementOrderingTerms context)
     = Some (OrderByTerms tree)
  /\ exists root, expression context (Measurements tree) = Returns root
                  /\ Root tree = Some root.

(** The filter statements of a parse tree, in text order. *)
Definition filterStatements (parseTree : list StatementContext)
  : list FilterStatementContext :=
  omap (fun statement => match statement with
                         | FilterStatement context => Some context
                         | IdentifierStatement _ => None
                         end) parseTree.

(** The identifier statements of a parse tree, in text order. *)
Definition identifierStatements (parseTree : list StatementContext)
  : list StatementContext :=
  List.filter (fun statement => match statement with
                                | FilterStatement _ => false
                                | IdentifierStatement _ => true
                                end) parseTree.

(** The outcome of a call with the final parser state changed by [f]. *)
Definition mapState {A : Type} (f : FilterExpressionParser -> FilterExpressionParser)
    (r : Result A) : Result A :=
  match r with
  | Ok a p => Ok a (f p)
  | Throw message p => Throw message (f p)
  end.

(** The settings of a parser: what the statements read and do not
    write. *)
Definition settings (p : FilterExpressionParser) :=
  (m_inputStream p, m_dataSet p, m_trackFilteredSignalIDs p, m_trackFilteredRows p,
   m_primaryMeasurementTableName p, m_measurementTableIDFields p).

(** A step that neither reads nor writes the expression trees, and leaves
    the settings as they are. *)
Definition treeBlind {A : Type} (m : M A) : Prop :=
  forall p,
    settings (finalState (m p)) = settings p
    /\ forall trees active,
         m (with_expressionTrees trees active p)
         = mapState (with_expressionTrees trees active) (m p).

(** The rows and signal IDs that the final loop of [Evaluate] appends for
    the sorted matched rows, by the mode flags. *)
Definition pushed (signalIDColumnIndex : Z) (sorted : list DataRow)
    (p : FilterExpressionParser) : FilterExpressionParser :=
  with_filteredRows
    (m_filteredRows p ++ (if m_trackFilteredRows p then sorted else []))
    (with_filteredSignalIDs
       (m_filteredSignalIDs p
        ++ (if m_trackFilteredSignalIDs p then signalIDsOf signalIDColumnIndex sorted
            else []))
       p).

(** The first [limit] rows when there is a TOP limit, every row when
    there is none. *)
Definition takeTop (limit : Z) (rows : list DataRow) : list DataRow :=
  if -1 <? limit then take (Z.to_nat limit) rows else rows.

(** The rows of a table that are not null. *)
Definition tableRows (measurements : DataTable) : list DataRow :=
  omap id (Table_Rows measurements).

(** The rows that a filter statement selects when signal IDs are not
    tracked: the rows of its table on which the root is true, in table
    order, cut at the TOP limit. *)
Definition selectedRows (external : External) (expressionTree : ExpressionTree)
  : list DataRow :=
  takeTop (TopLimit expressionTree)
    (List.filter (rowSelected external expressionTree)
                 (tableRows (Measurements expressionTree))).

(** [FILTER ActiveMeasurements WHERE Enabled] followed by the identifier
    statement of GUID 4. *)
Definition filterThenGuid : list StatementContext :=
  [enabledStatement None []; guidStatement].

(** The first row of a table whose signal ID is [signalID]. *)
Definition firstRowOfSignalID (signalIDColumnIndex : Z) (signalID : guid)
    (measurements : DataTable) : option DataRow :=
  find (fun row => bool_decide (ValueAsGuid row signalIDColumnIndex = Some signalID))
       (tableRows measurements).

(** The table of the statement has an ID fields record in the parser, and
    the signal ID field of the record is a column of the table. *)
Definition signalIDColumnResolved (dataSet : DataSet) (p : FilterExpressionParser)
    (context : FilterStatementContext) : Prop :=
  exists measurements fields signalIDColumn,
    DataSet_Table dataSet (tableName context) = Some measurements
    /\ GetMeasurementTableIDFields (Table_Name measurements) p = Some fields
    /\ DataTable_Column measurements (SignalIDFieldName fields) = Some signalIDColumn.

(** ** Vocabulary of the walk of the WHERE subtree *)

Section WalkVocabulary.

Context {external : External} {readers : LiteralReaders}.

Variable measurements : DataTable.

(** The loop of the walker over the children of the node at [address],
    from the child of index [i] on. *)
Definition walkChildren (address : list nat) : nat -> list ParseTree -> Listener.L unit :=
  fix walkChildren (i : nat) (children : list ParseTree) : Listener.L unit :=
    match children with
    | [] => mret tt
    | child :: rest => Listener.walk (address ++ [i]) child;; walkChildren (S i) rest
    end.

(** No expression is recorded for the node at [address] or for a node
    below it. *)
Definition Fresh (address : list nat) (s : Listener.State) : Prop :=
  forall k, address `prefix_of` k -> Listener.m_expressions s !! k = None.

(** The state [s'] differs from [s] at most in the expressions recorded
    for the node at [address] and the nodes below it, and in the root of
    the active expression tree. *)
Definition Kept (s s' : Listener.State) : Prop :=
  Measurements (Listener.m_activeExpressionTree s')
  = Measurements (Listener.m_activeExpressionTree s)
  /\ TopLimit (Listener.m_activeExpressionTree s')
     = TopLimit (Listener.m_activeExpressionTree s)
  /\ OrderByTerms (Listener.m_activeExpressionTree s')
     = OrderByTerms (Listener.m_activeExpressionTree s).

Definition Below (address : list nat) (s s' : Listener.State) : Prop :=
  (forall k, ~ address `prefix_of` k ->
             Listener.m_expressions s' !! k = Listener.m_expressions s !! k)
  /\ Kept s s'.

(** The outcome of a walk from state [s] that lowers the node at
    [address] as [r] says: the expression is recorded for the node and is
    the root of the active expression tree. *)
Definition LowersTo (address : list nat) (s : Listener.State) (r : Lowered Expression)
    (outcome : Listener.Outcome unit) : Prop :=
  match r with
  | Built e =>
      exists s', outcome = Listener.Done tt s'
                 /\ Below address s s'
                 /\ Listener.m_expressions s' !! address = Some e
                 /\ Root (Listener.m_activeExpressionTree s') = Some e
  | Fails message => exists s', outcome = Listener.Raised message s'
  | Unspecified => outcome = Listener.Undefined
  end.

(** The state has [measurements] as the table of the active tree. *)
Definition Over (s : Listener.State) : Prop :=
  Measurements (Listener.m_activeExpressionTree s) = measurements.

(** The rules whose exit method is the empty one of the base listener. *)
Definition inertRule (ruleIndex : Rule.t) : bool :=
  match ruleIndex with
  | Rule.functionName | Rule.expressionList | Rule.notOperator | Rule.logicalOperator
  | Rule.comparisonOperator | Rule.unaryOperator | Rule.mathOperator
  | Rule.bitwiseOperator => true
  | _ => false
  end.

(** The walk of the parse tree of a sentence lowers it, whatever the
    position of the tree and the state without entries for its nodes. *)
Definition LowersExpression (e : ExpressionSyntax) : Prop :=
  forall a s, Fresh a s -> Over s ->
    LowersTo a s (lowerExpression measurements e)
             (Listener.walk a (expressionParseTree e) s).

Definition LowersPredicate (p : PredicateSyntax) : Prop :=
  forall a s, Fresh a s -> Over s ->
    LowersTo a s (lowerPredicate measurements p)
             (Listener.walk a (predicateParseTree p) s).

Definition LowersValue (v : ValueSyntax) : Prop :=
  forall a s, Fresh a s -> Over s ->
    LowersTo a s (lowerValue measurements v)
             (Listener.walk a (valueParseTree v) s).

(** The walk of the children of an expression list from the child of
    index [i] on: the expressions are recorded for the expression children
    in order, and nothing changes but below these children. *)
Definition ListLowersTo (b : list nat) (i : nat) (s : Listener.State)
    (trees : list ParseTree) (r : Lowered (list Expression))
    (outcome : Listener.Outcome unit) : Prop :=
  match r with
  | Built es =>
      exists s', outcome = Listener.Done tt s'
                 /\ (forall k, (forall j, (i <= j)%nat -> ~ (b ++ [j]) `prefix_of` k) ->
                               Listener.m_expressions s' !! k
                               = Listener.m_expressions s !! k)
                 /\ Kept s s'
                 /\ Forall2 (fun context e =>
                               Listener.m_expressions s' !! address context = Some e)
                      (List.filter (isRule Rule.expression) (contextsFrom b i trees)) es
  | Fails message => exists s', outcome = Listener.Raised message s'
  | Unspecified => outcome = Listener.Undefined
  end.

Definition LowersExpressionList (l : ExpressionListSyntax) : Prop :=
  forall b i s, (forall j, (i <= j)%nat -> Fresh (b ++ [j]) s) -> Over s ->
    ListLowersTo b i s (expressionListParseTrees l)
                 (lowerExpressionList measurements l)
                 (walkChildren b i (expressionListParseTrees l) s).

(** The walk of an expression list node, from what the walk of its
    children does. *)
Definition ListNodeLowersTo (b : list nat) (s : Listener.State)
    (l : ExpressionListSyntax) (r : Lowered (list Expression))
    (outcome : Listener.Outcome unit) : Prop :=
  match r with
  | Built es =>
      exists s' found,
        outcome = Listener.Done tt s'
        /\ Below b s s'
        /\ Listener.m_expressions s' !! b = Listener.m_expressions s !! b
        /\ Listener.TryGetExprs
             (getRuleContexts Rule.expression
                {| address := b;
                   node := RuleContext Rule.expressionList (expressionListParseTrees l) |})
             s' = Listener.Done found s'
        /\ Forall2 (fun f e => f.2 = Some e) found es
        /\ (1 <= length (getRuleContexts Rule.expression
                           {| address := b;
                              node := RuleContext Rule.expressionList
                                        (expressionListParseTrees l) |}))%nat
  | Fails message => exists s', outcome = Listener.Raised message s'
  | Unspecified => outcome = Listener.Undefined
  end.

End WalkVocabulary.

(** The state in which the walk of the sample sentence leaves the
    listeners. *)
Definition sampleWalked : Listener.State :=
  match @Listener.walk (Sample.external []) SampleReaders.readers []
          (expressionParseTree sampleSentence) (startState sampleTable) with
  | Listener.Done _ s => s
  | _ => startState sampleTable
  end.

(** [FILTER TOP 1 ActiveMeasurements WHERE Enabled ORDER BY Rank]. *)
Definition topOneContext : FilterStatementContext :=
  {| tableName := "ActiveMeasurements";
     K_TOP := true; topLimit := "1";
     K_ORDER := true; K_BY := true;
     orderingTerm := [ {| orderByColumnName := "Rank"; K_DESC := false |} ];
     expression := fun table =>
       match DataTable_Column table "Enabled" with
       | Some column => Returns (ColumnExpr column)
       | None => Throws "Failed to find column"
       end |}.

(** [FILTER TOP -5 ActiveMeasurements WHERE Enabled]. *)
Definition negativeTopContext : FilterStatementContext :=
  {| tableName := "ActiveMeasurements";
     K_TOP := true; topLimit := "-5";
     K_ORDER := false; K_BY := false;
     orderingTerm := [];
     expression := fun table =>
       match DataTable_Column table "Enabled" with
       | Some column => Returns (ColumnExpr column)
       | None => Throws "Failed to find column"
       end |}.

(** The columns that an expression reads. *)
Fixpoint columnsOf (e : Expression) : list DataColumn :=
  match e with
  | ValueExpr _ => []
  | UnaryExpr _ value => columnsOf value
  | ColumnExpr dataColumn => [dataColumn]
  | InListExpr value arguments _ => columnsOf value ++ flat_map columnsOf arguments
  | FunctionExpr _ arguments => flat_map columnsOf arguments
  | OperatorExpr _ leftValue rightValue =>
      columnsOf leftValue
      ++ match rightValue with
         | Some rightValue => columnsOf rightValue
         | None => []
         end
  end.

(** The columns are columns of the table. *)
Definition ofTable (measurements : DataTable) (columns : list DataColumn) : Prop :=
  Forall (fun dataColumn => In dataColumn (Table_Columns measurements)) columns.

(** The expression that the walk of the sample sentence leaves as root. *)
Definition sampleRoot : Expression :=
  match @walkRoot (Sample.external []) SampleReaders.readers sampleTable
          (expressionParseTree sampleSentence) with
  | Built (Some root) => root
  | _ => ValueExpr ExpressionTree_False
  end.

(** * Properties *)

(** ** Case-insensitive comparison *)

Lemma CharEquals_eqb (a b : ascii) :
  CharEquals true a b = Ascii.eqb (ToUpperChar a) (ToUpperChar b).
Proof.
  unfold CharEquals.
  destruct (Ascii.eqb_spec (ToUpperChar a) (ToUpperChar b)) as [E | E].
  - now apply bool_decide_eq_true.
  - now apply bool_decide_eq_false.
Qed.

Lemma IsEqual_ToUpper (a b : string) :
  IsEqual a b true = String.eqb (ToUpper a) (ToUpper b).
Proof.
  revert b; induction a as [| x a IH]; intros [| y b];
    cbn [IsEqual ToUpper String.eqb]; try reflexivity.
  rewrite CharEquals_eqb, IH.
  now destruct (Ascii.eqb (ToUpperChar x) (ToUpperChar y)).
Qed.

Lemma StartsWith_ToUpper (value findValue : string) :
  StartsWith value findValue true = true <->
  exists rest, ToUpper value = (ToUpper findValue +:+ rest)%string.
Proof.
  revert value; induction findValue as [| y b IH]; intros value;
    cbn [StartsWith ToUpper String.append].
  - split; [intros _; now exists (ToUpper value) | reflexivity].
  - destruct value as [| x a]; cbn [StartsWith ToUpper String.append].
    + split; [discriminate | intros [rest E]; discriminate].
    + rewrite CharEquals_eqb, andb_true_iff, IH, Ascii.eqb_eq. split.
      * intros [-> [rest ->]]. now exists rest.
      * intros [rest E]. injection E as -> E. split; [reflexivity | now exists rest].
Qed.

Lemma StartsWith_false (value findValue : string) :
  StartsWith value findValue true = false <->
  ~ exists rest, ToUpper value = (ToUpper findValue +:+ rest)%string.
Proof.
  rewrite <- StartsWith_ToUpper. now destruct (StartsWith value findValue true).
Qed.

(** ** Function-name lowering *)

(** C9. [exitFunctionExpression] reads the function name without regard to
    case: COALESCE and ISNULL both give [Coalesce], every name that starts
    with SUBSTR gives [SubString], each of CONVERT, IIF, ISREGEXMATCH, LEN,
    REGEXVAL and TRIM gives the function of the same name, and every other
    name raises the exception. *)
Theorem exitFunctionExpression_functionType_spec (functionName : string) :
  let name := ToUpper functionName in
  let result := exitFunctionExpression_functionType functionName in
  (name = "COALESCE"%string \/ name = "ISNULL"%string ->
     result = Returns ExpressionFunctionType.Coalesce) /\
  ((exists rest, name = ("SUBSTR" +:+ rest)%string) ->
     result = Returns ExpressionFunctionType.SubString) /\
  (name = "CONVERT"%string -> result = Returns ExpressionFunctionType.Convert) /\
  (name = "IIF"%string -> result = Returns ExpressionFunctionType.IIf) /\
  (name = "ISREGEXMATCH"%string -> result = Returns ExpressionFunctionType.IsRegExMatch) /\
  (name = "LEN"%string -> result = Returns ExpressionFunctionType.Len) /\
  (name = "REGEXVAL"%string -> result = Returns ExpressionFunctionType.RegExVal) /\
  (name = "TRIM"%string -> result = Returns ExpressionFunctionType.Trim) /\
  (~ (name = "COALESCE"%string \/ name = "ISNULL"%string
      \/ (exists rest, name = ("SUBSTR" +:+ rest)%string)
      \/ name = "CONVERT"%string \/ name = "IIF"%string
      \/ name = "ISREGEXMATCH"%string \/ name = "LEN"%string
      \/ name = "REGEXVAL"%string \/ name = "TRIM"%string) ->
     exists message, result = Throws message).
Proof.
  intros name result. subst result. unfold exitFunctionExpression_functionType.
  rewrite !IsEqual_ToUpper. fold name.
  change (ToUpper "COALESCE") with "COALESCE"%string.
  change (ToUpper "ISNULL") with "ISNULL"%string.
  change (ToUpper "CONVERT") with "CONVERT"%string.
  change (ToUpper "IIF") with "IIF"%string.
  change (ToUpper "ISREGEXMATCH") with "ISREGEXMATCH"%string.
  change (ToUpper "LEN") with "LEN"%string.
  change (ToUpper "REGEXVAL") with "REGEXVAL"%string.
  change (ToUpper "TRIM") with "TRIM"%string.
  destruct (StartsWith functionName "SUBSTR" true) eqn:S.
  - apply StartsWith_ToUpper in S. fold name in S.
    change (ToUpper "SUBSTR") with "SUBSTR"%string in S.
    destruct S as [rest S].
    repeat split; try (intros E; rewrite E in S; discriminate S).
    + intros [E | E]; rewrite E in S; discriminate S.
    + intros _. rewrite S. reflexivity.
    + intros N. exfalso. apply N. right; right; left. now exists rest.
  - apply StartsWith_false in S. fold name in S.
    change (ToUpper "SUBSTR") with "SUBSTR"%string in S.
    repeat split; try (intros ->; reflexivity).
    + intros [-> | ->]; reflexivity.
    + intros E. now destruct S.
    + intros N.
      assert (forall k : string, name <> k -> String.eqb name k = false) as F
        by (intros k; apply String.eqb_neq).
      rewrite !F by (intros E; apply N; tauto).
      simpl. eexists. reflexivity.
Qed.

(** ** Integer literals *)

(** Helper: a literal up to 2^53 is parsed exactly. *)
Lemma RoundToDouble_exact (n : Z) : n < 2 ^ 53 -> RoundToDouble n = n.
Proof.
  intros L. unfold RoundToDouble.
  destruct (Z.ltb_spec n (2 ^ 53)); [reflexivity | lia].
Qed.

Lemma DBL_MAX_large : 2 ^ 53 <= DBL_MAX.
Proof. vm_compute. discriminate. Qed.

Lemma RoundToDouble_Int64_MaxValue : RoundToDouble Int64.MaxValue = 2 ^ 63.
Proof. vm_compute. reflexivity. Qed.

Lemma RoundToDouble_Int32_MaxValue : RoundToDouble Int32.MaxValue = 2147483647.
Proof. vm_compute. reflexivity. Qed.

(** Helper: [stod] is exact on literals below 2^53. *)
Lemma stod_exact (c : ascii) (rest : string) (n : Z) :
  ParseDigits (String c rest) 0 = Some n -> n < 2 ^ 53 ->
  stod (String c rest) = Returns n.
Proof.
  intros P L. unfold stod. rewrite P, RoundToDouble_exact by exact L.
  pose proof DBL_MAX_large as D.
  destruct (Z.ltb_spec DBL_MAX n); [lia | reflexivity].
Qed.

(** Helper: literals that fit [int32_t] are lowered to Int32 values. *)
Lemma exitLiteralValue_INTEGER_LITERAL_Int32 (c : ascii) (rest : string) (n : Z) :
  ParseDigits (String c rest) 0 = Some n -> n <= 2147483647 ->
  exitLiteralValue_INTEGER_LITERAL (String c rest)
  = LiteralValue (NewValueExpression ExpressionValueType.Int32 (Some (PInt32 n))).
Proof.
  intros P U. unfold exitLiteralValue_INTEGER_LITERAL.
  rewrite (stod_exact c rest n P) by lia.
  rewrite RoundToDouble_Int64_MaxValue, RoundToDouble_Int32_MaxValue.
  destruct (Z.ltb_spec (2 ^ 63) n); [lia |].
  destruct (Z.ltb_spec 2147483647 n); [lia |].
  unfold static_cast_signed, Int32.MaxValue.
  destruct (Z.leb_spec n 2147483647); [reflexivity | lia].
Qed.

(** Helper: literals above [Int32::MaxValue] and below 2^53 are lowered to
    Int64 values. *)
Lemma exitLiteralValue_INTEGER_LITERAL_Int64 (c : ascii) (rest : string) (n : Z) :
  ParseDigits (String c rest) 0 = Some n -> 2147483647 < n < 2 ^ 53 ->
  exitLiteralValue_INTEGER_LITERAL (String c rest)
  = LiteralValue (NewValueExpression ExpressionValueType.Int64 (Some (PInt64 n))).
Proof.
  intros P [L U]. unfold exitLiteralValue_INTEGER_LITERAL.
  rewrite (stod_exact c rest n P) by lia.
  rewrite RoundToDouble_Int64_MaxValue, RoundToDouble_Int32_MaxValue.
  destruct (Z.ltb_spec (2 ^ 63) n); [lia |].
  destruct (Z.ltb_spec 2147483647 n); [| lia].
  unfold static_cast_signed, Int64.MaxValue.
  destruct (Z.leb_spec n 9223372036854775807); [reflexivity | lia].
Qed.

(** Helper: the outcome for every INTEGER_LITERAL lexeme, by the
    [double_t] that [stod] returns for it.  The three-way split by
    [Int64::MaxValue] and [Int32::MaxValue] holds except when that
    [double_t] is exactly 2^63. *)
Lemma exitLiteralValue_INTEGER_LITERAL_cases (c : ascii) (rest : string) (n : Z) :
  ParseDigits (String c rest) 0 = Some n ->
  let value := RoundToDouble n in
  exitLiteralValue_INTEGER_LITERAL (String c rest)
  = if DBL_MAX <? value then LiteralThrows "stod"
    else if 2 ^ 63 <? value then
      LiteralValue (NewValueExpression ExpressionValueType.Double
                      (Some (PDouble (inject_Z value))))
    else if 2147483647 <? value then
      if value <? 2 ^ 63 then
        LiteralValue (NewValueExpression ExpressionValueType.Int64 (Some (PInt64 value)))
      else LiteralUndefined ExpressionValueType.Int64
    else LiteralValue (NewValueExpression ExpressionValueType.Int32 (Some (PInt32 value))).
Proof.
  intros P value. unfold exitLiteralValue_INTEGER_LITERAL, stod. rewrite P.
  fold value. destruct (DBL_MAX <? value); [reflexivity |].
  rewrite RoundToDouble_Int64_MaxValue, RoundToDouble_Int32_MaxValue.
  destruct (Z.ltb_spec (2 ^ 63) value); [reflexivity |].
  unfold static_cast_signed, Int64.MaxValue, Int32.MaxValue.
  destruct (Z.ltb_spec 2147483647 value).
  - destruct (Z.leb_spec value 9223372036854775807), (Z.ltb_spec value (2 ^ 63));
      (reflexivity || lia).
  - destruct (Z.leb_spec value 2147483647); [reflexivity | lia].
Qed.

(** C8. The literal 9223372036854775808 is one more than [Int64::MaxValue].
    [stod] returns 2^63 for it; the test against [Int64::MaxValue] is made
    in [double_t], where the constant is 2^63 as well, so the literal is not
    lowered to a Double value: the Int64 branch is taken and its conversion
    is out of range.  The same happens for [Int64::MaxValue] itself, whose
    nearest [double_t] is 2^63. *)
Theorem exitLiteralValue_INTEGER_LITERAL_above_Int64_MaxValue :
  ParseDigits "9223372036854775808" 0 = Some (Int64.MaxValue + 1)
  /\ stod "9223372036854775808" = Returns (Int64.MaxValue + 1)
  /\ exitLiteralValue_INTEGER_LITERAL "9223372036854775808"
     = LiteralUndefined ExpressionValueType.Int64
  /\ exitLiteralValue_INTEGER_LITERAL "9223372036854775807"
     = LiteralUndefined ExpressionValueType.Int64.
Proof. repeat split; vm_compute; reflexivity. Qed.

(** ** The statement text of GenerateExpressionTree and Select *)

(** Helper: a text that starts with FILTER and a blank is used as it is. *)
Lemma Select_parser_verbatim parent dataTable filterExpression :
  StartsWith filterExpression "FILTER " true = true ->
  m_inputStream (Select_parser parent dataTable filterExpression) = filterExpression
  /\ m_inputStream (GenerateExpressionTree_parser parent dataTable filterExpression)
     = filterExpression.
Proof.
  intros S. unfold Select_parser, GenerateExpressionTree_parser. rewrite S.
  split; reflexivity.
Qed.

(** Helper: any other text is put behind the table name, and the word in
    front of it is spelled FITLER. *)
Lemma Select_parser_wrapped parent dataTable filterExpression :
  StartsWith filterExpression "FILTER " true = false ->
  m_inputStream (Select_parser parent dataTable filterExpression)
  = ("FITLER " +:+ Table_Name dataTable +:+ " WHERE " +:+ filterExpression)%string
  /\ m_inputStream (GenerateExpressionTree_parser parent dataTable filterExpression)
     = ("FITLER " +:+ Table_Name dataTable +:+ " WHERE " +:+ filterExpression)%string.
Proof.
  intros S. unfold Select_parser, GenerateExpressionTree_parser. rewrite S.
  split; reflexivity.
Qed.

(** C1. For the table ActiveMeasurements and the text [Frequency > 60],
    which does not start with FILTER, both [Select] and
    [GenerateExpressionTree] hand the parser a statement that begins with
    the misspelled word FITLER, not the statement
    [FILTER ActiveMeasurements WHERE Frequency > 60]. *)
Theorem Select_statement_text_misspelled :
  let dataTable := {| Table_Name := "ActiveMeasurements";
                      Table_Columns := []; Table_Rows := [] |} in
  m_inputStream (Select_parser (Some [dataTable]) dataTable "Frequency > 60")
  = "FITLER ActiveMeasurements WHERE Frequency > 60"%string
  /\ m_inputStream (GenerateExpressionTree_parser (Some [dataTable]) dataTable "Frequency > 60")
     = "FITLER ActiveMeasurements WHERE Frequency > 60"%string
  /\ m_inputStream (Select_parser (Some [dataTable]) dataTable "Frequency > 60")
     <> "FILTER ActiveMeasurements WHERE Frequency > 60"%string.
Proof. repeat split; try reflexivity. vm_compute. discriminate. Qed.

(** ** The order-by comparator is a strict weak ordering where no cell is a NaN *)

Lemma SignOrder_refl {A : Type} (P : A -> Prop) (c : A -> A -> Z) (a : A) :
  SignOrder P c -> c a a = 0.
Proof. intros [anti _]. pose proof (anti a a). lia. Qed.

Lemma SignOrder_zero_sym {A : Type} (P : A -> Prop) (c : A -> A -> Z) (a b : A) :
  SignOrder P c -> c a b = 0 -> c b a = 0.
Proof. intros [anti _] E. pose proof (anti a b). pose proof (anti b a). lia. Qed.

Lemma SignOrder_trans_lt {A : Type} (P : A -> Prop) (c : A -> A -> Z) (a b d : A) :
  SignOrder P c -> P a -> P b -> P d ->
  c a b <= 0 -> c b d <= 0 -> c a b < 0 \/ c b d < 0 -> c a d < 0.
Proof.
  intros [anti trans] Pa Pb Pd L1 L2 S.
  pose proof (anti a b). pose proof (anti b a).
  pose proof (anti a d). pose proof (anti d a).
  pose proof (anti b d). pose proof (anti d b).
  pose proof (trans a b d Pa Pb Pd). pose proof (trans d a b Pd Pa Pb).
  pose proof (trans b d a Pb Pd Pa).
  lia.
Qed.

Lemma SignOrder_StrictWeakOrdering {A : Type} (P : A -> Prop) (c : A -> A -> Z) :
  SignOrder P c -> StrictWeakOrdering P (fun a b => c a b <? 0).
Proof.
  intros SO. split.
  - intros a _. rewrite (SignOrder_refl P c a SO). reflexivity.
  - intros a b d Pa Pb Pd L1 L2. apply Z.ltb_lt in L1, L2. apply Z.ltb_lt.
    apply (SignOrder_trans_lt P c a b d SO); auto; lia.
  - intros a b d Pa Pb Pd L1 L2 L3 L4. apply Z.ltb_ge in L1, L2, L3, L4.
    destruct SO as [anti trans].
    pose proof (anti a b). pose proof (anti b a).
    pose proof (anti b d). pose proof (anti d b).
    pose proof (anti a d). pose proof (anti d a).
    pose proof (trans a b d Pa Pb Pd). pose proof (trans d b a Pd Pb Pa).
    split; apply Z.ltb_ge; lia.
Qed.

Lemma SignOrder_flip {A : Type} (P : A -> Prop) (c : A -> A -> Z) :
  SignOrder P c -> SignOrder P (fun a b => c b a).
Proof.
  intros [anti trans]. split.
  - intros a b. apply anti.
  - intros a b d Pa Pb Pd L1 L2. now apply (trans d b a).
Qed.

Lemma SignOrder_on {A B : Type} (f : B -> A) (P : A -> Prop) (c : A -> A -> Z) :
  SignOrder P c -> SignOrder (fun b => P (f b)) (fun a b => c (f a) (f b)).
Proof.
  intros [anti trans]. split.
  - intros a b. apply anti.
  - intros a b d. apply trans.
Qed.

Lemma SignOrder_weaken {A : Type} (P Q : A -> Prop) (c : A -> A -> Z) :
  (forall a, Q a -> P a) -> SignOrder P c -> SignOrder Q c.
Proof.
  intros I [anti trans]. split.
  - exact anti.
  - intros a b d Qa Qb Qd. apply trans; now apply I.
Qed.

Lemma StrictLess_asymmetric {T : Type} (P : T -> Prop) (lt : T -> T -> bool) (a b : T) :
  StrictLess P lt -> lt a b = true -> lt b a = false.
Proof.
  intros [irr trans _] L. destruct (lt b a) eqn:E; [| reflexivity].
  rewrite <- (irr a). symmetry. now apply (trans a b a).
Qed.

Lemma SignOrder_CompareValues {T : Type} (P : T -> Prop) (lt : T -> T -> bool) :
  StrictLess P lt ->
  SignOrder (fun nullable => match nullable with Some value => P value | None => True end)
            (CompareValues lt).
Proof.
  intros SL. split.
  - intros [a |] [b |]; simpl; try lia.
    pose proof (StrictLess_asymmetric P lt a b SL).
    pose proof (StrictLess_asymmetric P lt b a SL).
    destruct (lt a b), (lt b a); intuition (try lia; try discriminate).
  - intros [a |] [b |] [d |]; simpl; try lia. intros Pa Pb Pd.
    pose proof (StrictLess_asymmetric P lt a b SL).
    pose proof (StrictLess_asymmetric P lt b d SL).
    pose proof (StrictLess_asymmetric P lt a d SL).
    pose proof (less_negative P lt SL d b a Pd Pb Pa).
    destruct (lt a b), (lt b a), (lt b d), (lt d b), (lt a d), (lt d a);
      intuition (try lia; try discriminate).
Qed.

Lemma StrictLess_Z : StrictLess (fun _ => True) Z.ltb.
Proof.
  split.
  - apply Z.ltb_irrefl.
  - intros a b c L1 L2. apply Z.ltb_lt in L1, L2. apply Z.ltb_lt. lia.
  - intros a b c _ _ _ L1 L2. apply Z.ltb_ge in L1, L2. apply Z.ltb_ge. lia.
Qed.

Lemma StrictLess_N : StrictLess (fun _ => True) N.ltb.
Proof.
  split.
  - apply N.ltb_irrefl.
  - intros a b c L1 L2. apply N.ltb_lt in L1, L2. apply N.ltb_lt. lia.
  - intros a b c _ _ _ L1 L2. apply N.ltb_ge in L1, L2. apply N.ltb_ge. lia.
Qed.

Lemma StrictLess_bool : StrictLess (fun _ => True) bool_lt.
Proof.
  split.
  - now intros [|].
  - intros [|] [|] [|]; unfold bool_lt; simpl; congruence.
  - intros [|] [|] [|] _ _ _; unfold bool_lt; simpl; congruence.
Qed.

Lemma Q_lt_true (a b : Q) : Q_lt a b = true <-> (a < b)%Q.
Proof.
  unfold Q_lt. rewrite negb_true_iff. split.
  - intros E. apply Qnot_le_lt. intros L. apply Qle_bool_iff in L. congruence.
  - intros L. destruct (Qle_bool b a) eqn:E; [| reflexivity].
    apply Qle_bool_iff in E. now apply Qlt_not_le in L.
Qed.

Lemma Q_lt_false (a b : Q) : Q_lt a b = false <-> (b <= a)%Q.
Proof.
  unfold Q_lt. rewrite negb_false_iff. apply Qle_bool_iff.
Qed.

Lemma Q_lt_irreflexive (a : Q) : Q_lt a a = false.
Proof. apply Q_lt_false, Qle_refl. Qed.

Lemma Q_lt_transitive (a b c : Q) : Q_lt a b = true -> Q_lt b c = true -> Q_lt a c = true.
Proof.
  intros L1 L2. apply Q_lt_true in L1, L2. apply Q_lt_true. now apply Qlt_trans with b.
Qed.

Lemma Q_lt_negative (a b c : Q) : Q_lt a b = false -> Q_lt b c = false -> Q_lt a c = false.
Proof.
  intros L1 L2. apply Q_lt_false in L1, L2. apply Q_lt_false. now apply Qle_trans with b.
Qed.

(** [operator<] of a floating-point type is irreflexive and transitive;
    among values that are not NaN, not being less is transitive as
    well. *)
Lemma StrictLess_Floating : StrictLess (fun f => isnan f = false) Floating_lt.
Proof.
  split.
  - intros [a | | |]; cbn; [apply Q_lt_irreflexive | reflexivity ..].
  - intros [a | | |] [b | | |] [c | | |]; cbn; try congruence. apply Q_lt_transitive.
  - intros [a | | |] [b | | |] [c | | |]; cbn; try congruence.
    intros _ _ _. apply Q_lt_negative.
Qed.

Lemma String_compare_Lt_trans (x y z : string) :
  String.compare x y = Lt -> String.compare y z = Lt -> String.compare x z = Lt.
Proof.
  intros L1 L2.
  pose proof (String_as_OT.compare_spec x y) as S1.
  pose proof (String_as_OT.compare_spec y z) as S2.
  pose proof (String_as_OT.compare_spec x z) as S3.
  change (String_as_OT.compare x y) with (String.compare x y) in S1.
  change (String_as_OT.compare y z) with (String.compare y z) in S2.
  change (String_as_OT.compare x z) with (String.compare x z) in S3.
  rewrite L1 in S1. rewrite L2 in S2. inversion S1 as [| L | ]. inversion S2 as [| L' | ].
  pose proof String_as_OT.lt_strorder as [irr trans].
  pose proof (trans x y z L L') as Lxz.
  inversion S3 as [E | | G]; [| reflexivity |].
  - unfold String_as_OT.eq in E. subst z. now destruct (irr x).
  - now destruct (irr x (trans _ _ _ Lxz G)).
Qed.

Lemma String_compare_refl (x : string) : String.compare x x = Eq.
Proof.
  pose proof (String.compare_antisym x x) as E.
  destruct (String.compare x x); simpl in E; congruence.
Qed.

Lemma SignOrder_Compare : SignOrder (fun _ => True) (fun l r => Compare l r true).
Proof.
  split.
  - intros a b. unfold Compare.
    rewrite (String.compare_antisym (ToUpper a) (ToUpper b)).
    destruct (String.compare (ToUpper b) (ToUpper a)); simpl; lia.
  - intros a b d _ _ _. unfold Compare.
    destruct (String.compare (ToUpper a) (ToUpper b)) eqn:E1; try lia;
      destruct (String.compare (ToUpper b) (ToUpper d)) eqn:E2; try lia; intros _ _.
    + apply String.compare_eq_iff in E1, E2. rewrite E1, E2.
      now rewrite String_compare_refl.
    + apply String.compare_eq_iff in E1. rewrite E1, E2. lia.
    + apply String.compare_eq_iff in E2. rewrite <- E2, E1. lia.
    + rewrite (String_compare_Lt_trans _ _ _ E1 E2). lia.
Qed.

Lemma SignOrder_nullable {T : Type} (c : T -> T -> Z) :
  SignOrder (fun _ => True) c ->
  SignOrder (fun _ => True)
            (fun l r : option T =>
               match l, r with
               | Some a, Some b => c a b
               | None, None => 0
               | Some _, None => 1
               | None, Some _ => -1
               end).
Proof.
  intros [anti trans]. split.
  - intros [a |] [b |]; try lia. apply anti.
  - intros [a |] [b |] [d |] _ _ _; try lia. now apply trans.
Qed.

Lemma compareOrderByTerm_columnCompare column ascending a b :
  compareOrderByTerm (column, ascending) a b
  = if ascending then columnCompare column a b else columnCompare column b a.
Proof. destruct ascending; reflexivity. Qed.

Ltac cell_not_NaN column :=
  let row := fresh "row" in
  let N := fresh "N" in
  intros row N;
  unfold IsNaN, ValueAsString, ValueAsBoolean, ValueAsDateTime, ValueAsSingle,
    ValueAsDouble, ValueAsDecimal, ValueAsGuid, ValueAsInt8, ValueAsInt16, ValueAsInt32,
    ValueAsInt64, ValueAsUInt8, ValueAsUInt16, ValueAsUInt32, ValueAsUInt64 in *;
  destruct (Cell row (Column_Index column)) as [[] |]; auto.

(** The comparison of two rows on one column behaves like a total
    preorder on the rows whose cell in the column is not a NaN. *)
Lemma SignOrder_columnCompare (column : DataColumn) :
  SignOrder (fun row => IsNaN column row = false) (columnCompare column).
Proof.
  unfold columnCompare, compareOrderByTerm. cbn [fst snd].
  pose proof (SignOrder_CompareValues _ _ StrictLess_Z) as SZ.
  pose proof (SignOrder_CompareValues _ _ StrictLess_N) as SN.
  pose proof (SignOrder_CompareValues _ _ StrictLess_Floating) as SF.
  pose proof (SignOrder_CompareValues _ _ StrictLess_bool) as SB.
  pose proof (SignOrder_nullable _ SignOrder_Compare) as SS.
  destruct (Column_Type column).
  - refine (SignOrder_weaken _ _ _ _
              (SignOrder_on (fun row => ValueAsString row (Column_Index column)) _ _ SS));
      cell_not_NaN column.
  - refine (SignOrder_weaken _ _ _ _
              (SignOrder_on (fun row => ValueAsBoolean row (Column_Index column)) _ _ SB));
      cell_not_NaN column.
  - refine (SignOrder_weaken _ _ _ _
              (SignOrder_on (fun row => ValueAsDateTime row (Column_Index column)) _ _ SZ));
      cell_not_NaN column.
  - refine (SignOrder_weaken _ _ _ _
              (SignOrder_on (fun row => ValueAsSingle row (Column_Index column)) _ _ SF));
      cell_not_NaN column.
  - refine (SignOrder_weaken _ _ _ _
              (SignOrder_on (fun row => ValueAsDouble row (Column_Index column)) _ _ SF));
      cell_not_NaN column.
  - refine (SignOrder_weaken _ _ _ _
              (SignOrder_on (fun row => ValueAsDecimal row (Column_Index column)) _ _ SF));
      cell_not_NaN column.
  - refine (SignOrder_weaken _ _ _ _
              (SignOrder_on (fun row => ValueAsGuid row (Column_Index column)) _ _ SN));
      cell_not_NaN column.
  - refine (SignOrder_weaken _ _ _ _
              (SignOrder_on (fun row => ValueAsInt8 row (Column_Index column)) _ _ SZ));
      cell_not_NaN column.
  - refine (SignOrder_weaken _ _ _ _
              (SignOrder_on (fun row => ValueAsInt16 row (Column_Index column)) _ _ SZ));
      cell_not_NaN column.
  - refine (SignOrder_weaken _ _ _ _
              (SignOrder_on (fun row => ValueAsInt32 row (Column_Index column)) _ _ SZ));
      cell_not_NaN column.
  - refine (SignOrder_weaken _ _ _ _
              (SignOrder_on (fun row => ValueAsInt64 row (Column_Index column)) _ _ SZ));
      cell_not_NaN column.
  - refine (SignOrder_weaken _ _ _ _
              (SignOrder_on (fun row => ValueAsUInt8 row (Column_Index column)) _ _ SZ));
      cell_not_NaN column.
  - refine (SignOrder_weaken _ _ _ _
              (SignOrder_on (fun row => ValueAsUInt16 row (Column_Index column)) _ _ SZ));
      cell_not_NaN column.
  - refine (SignOrder_weaken _ _ _ _
              (SignOrder_on (fun row => ValueAsUInt32 row (Column_Index column)) _ _ SZ));
      cell_not_NaN column.
  - refine (SignOrder_weaken _ _ _ _
              (SignOrder_on (fun row => ValueAsUInt64 row (Column_Index column)) _ _ SZ));
      cell_not_NaN column.
Qed.

Lemma SignOrder_compareOrderByTerm (orderByTerm : DataColumn * bool) :
  SignOrder (fun row => IsNaN (fst orderByTerm) row = false)
            (compareOrderByTerm orderByTerm).
Proof.
  destruct orderByTerm as [column ascending].
  pose proof (SignOrder_columnCompare column) as SO.
  destruct ascending.
  - exact SO.
  - exact (SignOrder_flip _ _ SO).
Qed.

Lemma orderByComparator_lexCompare orderByTerms a b :
  orderByComparator orderByTerms a b = (lexCompare orderByTerms a b <? 0).
Proof.
  induction orderByTerms as [| t rest IH]; simpl; [reflexivity |].
  destruct (compareOrderByTerm t a b <? 0); [reflexivity |].
  destruct (0 <? compareOrderByTerm t a b); [reflexivity | exact IH].
Qed.

Lemma NaNFree_cons orderByTerm rest row :
  NaNFree (orderByTerm :: rest) row = true ->
  IsNaN (fst orderByTerm) row = false /\ NaNFree rest row = true.
Proof.
  unfold NaNFree. cbn [forallb]. rewrite andb_true_iff, negb_true_iff. tauto.
Qed.

Lemma SignOrder_lexCompare orderByTerms :
  SignOrder (fun row => NaNFree orderByTerms row = true) (lexCompare orderByTerms).
Proof.
  induction orderByTerms as [| t rest [anti trans]]; simpl.
  - split; intros; lia.
  - pose proof (SignOrder_compareOrderByTerm t) as SO.
    split.
    + intros a b.
      pose proof (sign_anti _ _ SO a b). pose proof (sign_anti _ _ SO b a).
      pose proof (anti a b).
      destruct (Z.ltb_spec (compareOrderByTerm t a b) 0),
               (Z.ltb_spec 0 (compareOrderByTerm t a b)),
               (Z.ltb_spec (compareOrderByTerm t b a) 0),
               (Z.ltb_spec 0 (compareOrderByTerm t b a)); lia.
    + intros a b d Pa Pb Pd.
      apply NaNFree_cons in Pa as [Na Ra], Pb as [Nb Rb], Pd as [Nd Rd].
      pose proof (sign_anti _ _ SO a b). pose proof (sign_anti _ _ SO b a).
      pose proof (sign_anti _ _ SO b d). pose proof (sign_anti _ _ SO d b).
      pose proof (sign_anti _ _ SO a d). pose proof (sign_anti _ _ SO d a).
      pose proof (sign_trans _ _ SO a b d Na Nb Nd).
      pose proof (sign_trans _ _ SO d b a Nd Nb Na).
      pose proof (SignOrder_trans_lt _ _ a b d SO Na Nb Nd).
      pose proof (trans a b d Ra Rb Rd).
      destruct (Z.ltb_spec (compareOrderByTerm t a b) 0),
               (Z.ltb_spec 0 (compareOrderByTerm t a b)),
               (Z.ltb_spec (compareOrderByTerm t b d) 0),
               (Z.ltb_spec 0 (compareOrderByTerm t b d)),
               (Z.ltb_spec (compareOrderByTerm t a d) 0),
               (Z.ltb_spec 0 (compareOrderByTerm t a d)); lia.
Qed.

Lemma StrictWeakOrdering_ext {A : Type} (P : A -> Prop) (f g : A -> A -> bool) :
  (forall a b, g a b = f a b) -> StrictWeakOrdering P f -> StrictWeakOrdering P g.
Proof.
  intros E [irr trans inc]. split.
  - intros a. rewrite E. apply irr.
  - intros a b c. rewrite !E. apply trans.
  - intros a b c. rewrite !E. apply inc.
Qed.

Lemma StrictWeakOrdering_weaken {A : Type} (P Q : A -> Prop) (comp : A -> A -> bool) :
  (forall a, Q a -> P a) -> StrictWeakOrdering P comp -> StrictWeakOrdering Q comp.
Proof.
  intros I [irr trans inc]. split.
  - intros a Qa. now apply irr, I.
  - intros a b c Qa Qb Qc. apply trans; now apply I.
  - intros a b c Qa Qb Qc. apply inc; now apply I.
Qed.

(** The comparator of [Evaluate] meets the requirement of [std::sort] on
    the rows that have no NaN in the columns of the order-by terms,
    whatever the terms are. *)
Lemma orderByComparator_StrictWeakOrdering orderByTerms :
  StrictWeakOrdering (fun row => NaNFree orderByTerms row = true)
                     (orderByComparator orderByTerms).
Proof.
  apply (StrictWeakOrdering_ext _ (fun a b => lexCompare orderByTerms a b <? 0)).
  - apply orderByComparator_lexCompare.
  - apply SignOrder_StrictWeakOrdering, SignOrder_lexCompare.
Qed.

(** On all rows it is irreflexive and asymmetric. *)
Lemma orderByComparator_irreflexive orderByTerms a :
  orderByComparator orderByTerms a a = false.
Proof.
  rewrite orderByComparator_lexCompare.
  now rewrite (SignOrder_refl _ _ a (SignOrder_lexCompare orderByTerms)).
Qed.

Lemma orderByComparator_asymmetric orderByTerms a b :
  orderByComparator orderByTerms a b = true -> orderByComparator orderByTerms b a = false.
Proof.
  rewrite !orderByComparator_lexCompare. intros L.
  apply Z.ltb_lt in L. apply Z.ltb_ge.
  pose proof (sign_anti _ _ (SignOrder_lexCompare orderByTerms) a b). lia.
Qed.

(** The sort of the matched rows is within the contract of [std::sort]
    when no order-by cell of the rows is a NaN. *)
Lemma orderByComparator_StrictWeakOrdering_range orderByTerms (matchedRows : list DataRow) :
  Forall (fun row => NaNFree orderByTerms row = true) matchedRows ->
  StrictWeakOrdering (fun row => row ∈ matchedRows) (orderByComparator orderByTerms).
Proof.
  intros F.
  apply (StrictWeakOrdering_weaken (fun row => NaNFree orderByTerms row = true)).
  - rewrite Forall_forall in F. exact F.
  - apply orderByComparator_StrictWeakOrdering.
Qed.

(** ** The sample sort meets the contract of std::sort *)

Lemma StrictWeakOrdering_asymmetric {A : Type} (P : A -> Prop) (comp : A -> A -> bool)
    (a b : A) :
  StrictWeakOrdering P comp -> P a -> P b -> comp a b = true -> comp b a = false.
Proof.
  intros [irr trans _] Pa Pb L. destruct (comp b a) eqn:E; [| reflexivity].
  rewrite <- (irr a Pa). symmetry. now apply (trans a b a).
Qed.

Lemma StrictWeakOrdering_negative {A : Type} (P : A -> Prop) (comp : A -> A -> bool)
    (a b c : A) :
  StrictWeakOrdering P comp -> P a -> P b -> P c ->
  comp a b = false -> comp b c = false -> comp a c = false.
Proof.
  intros [irr trans inc] Pa Pb Pc L1 L2.
  destruct (comp a c) eqn:E; [| reflexivity].
  destruct (comp b a) eqn:E1.
  - rewrite <- L2. symmetry. now apply (trans b a c).
  - destruct (comp c b) eqn:E2.
    + rewrite <- L1. symmetry. now apply (trans a c b).
    + destruct (inc a b c Pa Pb Pc L1 E1 L2 E2) as [F _]. congruence.
Qed.

Lemma insert_sorted_Permutation {A : Type} (comp : A -> A -> bool) (x : A) (l : list A) :
  Permutation (x :: l) (Sample.insert_sorted comp x l).
Proof.
  induction l as [| y rest IH]; simpl; [reflexivity |].
  destruct (comp y x); [| reflexivity].
  etransitivity; [apply perm_swap | now apply perm_skip].
Qed.

Lemma insertion_sort_Permutation {A : Type} (comp : A -> A -> bool) (l : list A) :
  Permutation l (Sample.insertion_sort comp l).
Proof.
  induction l as [| x rest IH]; simpl; [reflexivity |].
  etransitivity; [apply perm_skip, IH | apply insert_sorted_Permutation].
Qed.

Lemma insert_sorted_SortedBy {A : Type} (P : A -> Prop) (comp : A -> A -> bool)
    (x : A) (l : list A) :
  StrictWeakOrdering P comp -> P x -> Forall P l -> SortedBy comp l ->
  SortedBy comp (Sample.insert_sorted comp x l).
Proof.
  intros SWO Px F St. unfold SortedBy in *.
  induction St as [| y rest St IH L]; simpl.
  - repeat constructor.
  - apply Forall_cons in F as [Py F]. specialize (IH F).
    destruct (comp y x) eqn:E.
    + constructor; [exact IH |].
      apply (Permutation_Forall (insert_sorted_Permutation comp x rest)).
      constructor; [| exact L].
      now apply (StrictWeakOrdering_asymmetric P comp y x SWO).
    + constructor; [now constructor |].
      constructor; [exact E |].
      rewrite Forall_forall in L, F |- *. intros b I.
      apply (StrictWeakOrdering_negative P comp b y x SWO); auto.
Qed.

Lemma insertion_sort_SortedBy {A : Type} (P : A -> Prop) (comp : A -> A -> bool)
    (l : list A) :
  StrictWeakOrdering P comp -> Forall P l -> SortedBy comp (Sample.insertion_sort comp l).
Proof.
  intros SWO F. induction l as [| x rest IH]; simpl.
  - constructor.
  - apply Forall_cons in F as [Px F]. apply (insert_sorted_SortedBy P); auto.
    now apply (Permutation_Forall (insertion_sort_Permutation comp rest)).
Qed.

Lemma Forall_elem_of {A : Type} (l : list A) : Forall (fun a => a ∈ l) l.
Proof. apply Forall_forall. auto. Qed.

(** A [std::sort] that keeps ties in input order. *)
Definition stableSort : StdSort :=
  {| std_sort := Sample.insertion_sort;
     std_sort_permutation := fun comp l => insertion_sort_Permutation comp l;
     std_sort_sorted := fun comp l SWO =>
       insertion_sort_SortedBy _ comp l SWO (Forall_elem_of l) |}.

(** ** The loops of libstdc++'s sort end before their fuel does *)

Section Fuel.

Local Open Scope nat_scope.

Context {A : Type} (comp : A -> A -> bool).

Lemma scan_down_le (pivot : A) (l : list A) (last : nat) :
  Libstdcxx.scan_down comp pivot l last <= last.
Proof.
  induction last as [| before IH]; cbn [Libstdcxx.scan_down]; [lia |].
  destruct (l !! S before); [| lia]. destruct (comp pivot a); lia.
Qed.

(** The fuel of the partitioning loop does not run out. *)
Lemma unguarded_partition_fuel (fuel fuel' first last pivot : nat) (l : list A) :
  last <= fuel -> last <= fuel' ->
  Libstdcxx.unguarded_partition comp fuel first last pivot l
  = Libstdcxx.unguarded_partition comp fuel' first last pivot l.
Proof.
  revert fuel' first last l.
  induction fuel as [| fuel IH]; intros [| fuel'] first last l H H';
    cbn [Libstdcxx.unguarded_partition]; try reflexivity;
    destruct (l !! pivot) as [p |]; try reflexivity;
    pose proof (scan_down_le p l (last - 1));
    destruct (Nat.ltb_spec (Libstdcxx.scan_up comp p (drop first l) first)
                (Libstdcxx.scan_down comp p l (last - 1))); try reflexivity; try lia.
  apply IH; lia.
Qed.

(** The fuel of the loop of [__push_heap] does not run out. *)
Lemma push_heap_fuel (fuel fuel' holeIndex topIndex : nat) (value : A) (l : list A) :
  holeIndex <= fuel -> holeIndex <= fuel' ->
  Libstdcxx.push_heap comp fuel holeIndex topIndex value l
  = Libstdcxx.push_heap comp fuel' holeIndex topIndex value l.
Proof.
  revert fuel' holeIndex l.
  induction fuel as [| fuel IH]; intros [| fuel'] holeIndex l H H';
    cbn [Libstdcxx.push_heap]; try reflexivity;
    destruct (l !! ((holeIndex - 1) / 2)) as [p |]; try reflexivity;
    destruct (Nat.ltb_spec topIndex holeIndex); cbn [andb]; try reflexivity; try lia.
  destruct (comp p value); [| reflexivity].
  assert ((holeIndex - 1) / 2 <= holeIndex - 1) by (apply Nat.Div0.div_le_upper_bound; lia).
  apply IH; lia.
Qed.

(** The fuel of the first loop of [__adjust_heap] does not run out. *)
Lemma adjust_heap_loop_fuel (fuel fuel' holeIndex secondChild len : nat) (l : list A) :
  (len - 1) / 2 - secondChild <= fuel -> (len - 1) / 2 - secondChild <= fuel' ->
  Libstdcxx.adjust_heap_loop comp fuel holeIndex secondChild len l
  = Libstdcxx.adjust_heap_loop comp fuel' holeIndex secondChild len l.
Proof.
  revert fuel' holeIndex secondChild l.
  induction fuel as [| fuel IH]; intros [| fuel'] holeIndex secondChild l H H';
    cbn [Libstdcxx.adjust_heap_loop]; try reflexivity;
    destruct (Nat.ltb_spec secondChild ((len - 1) / 2)); try reflexivity; try lia.
  destruct (Libstdcxx.comp_iter comp l (2 * (secondChild + 1)) (2 * (secondChild + 1) - 1)).
  - destruct (l !! (2 * (secondChild + 1) - 1)); [| reflexivity]. apply IH; lia.
  - destruct (l !! (2 * (secondChild + 1))); [| reflexivity]. apply IH; lia.
Qed.

End Fuel.

(** ** The sort of libstdc++ rearranges the range *)

Ltac branch :=
  match goal with
  | |- context [if ?t then _ else _] => destruct t
  end.

Section Rearrangement.

Local Open Scope nat_scope.

Context {A : Type} (comp : A -> A -> bool).

Lemma insert_cons_Permutation (l : list A) (j : nat) (x y : A) :
  l !! j = Some y -> Permutation (y :: <[j := x]> l) (x :: l).
Proof.
  revert j. induction l as [| a l IH]; intros [| j] E; try discriminate.
  - cbn in E. injection E as ->. apply perm_swap.
  - cbn in E |- *. etransitivity; [apply perm_swap |].
    etransitivity; [apply perm_skip, (IH j E) |]. apply perm_swap.
Qed.

Lemma insert_swap_Permutation (l : list A) (i j : nat) (x y : A) :
  l !! i = Some x -> l !! j = Some y -> Permutation (<[i := y]> (<[j := x]> l)) l.
Proof.
  revert i j. induction l as [| a l IH]; intros [| i] [| j] Ei Ej; try discriminate;
    cbn in Ei, Ej |- *.
  - injection Ei as ->. injection Ej as ->. reflexivity.
  - injection Ei as ->. now apply insert_cons_Permutation.
  - injection Ej as ->. now apply insert_cons_Permutation.
  - apply perm_skip. now apply IH.
Qed.

(** Moving the hole: the element at [c] goes into the hole at [h], and
    [c] is the hole from then on. *)
Lemma hole_move_Permutation (l : list A) (h c : nat) (x v : A) :
  l !! c = Some x -> h < length l ->
  Permutation (<[c := v]> (<[h := x]> l)) (<[h := v]> l).
Proof.
  intros E H. destruct (decide (c = h)) as [-> | N].
  - now rewrite list_insert_insert_eq.
  - rewrite <- (list_insert_insert_eq l h x v).
    apply insert_swap_Permutation.
    + rewrite list_lookup_insert_ne by congruence. exact E.
    + apply list_lookup_insert_eq. exact H.
Qed.

Lemma iter_swap_Permutation (i j : nat) (l : list A) :
  Permutation l (Libstdcxx.iter_swap i j l).
Proof.
  unfold Libstdcxx.iter_swap.
  destruct (l !! i) as [x |] eqn:Ei; [| reflexivity].
  destruct (l !! j) as [y |] eqn:Ej; [| reflexivity].
  symmetry. now apply insert_swap_Permutation.
Qed.

Lemma move_median_to_first_Permutation (result a b c : nat) (l : list A) :
  Permutation l (Libstdcxx.move_median_to_first comp result a b c l).
Proof.
  unfold Libstdcxx.move_median_to_first.
  repeat match goal with
         | |- context [if ?t then _ else _] => destruct t
         end; apply iter_swap_Permutation.
Qed.

Lemma unguarded_partition_Permutation (fuel first last pivot : nat) (l : list A) :
  Permutation l (Libstdcxx.unguarded_partition comp fuel first last pivot l).2.
Proof.
  revert first last l. induction fuel as [| fuel IH]; intros first last l;
    cbn [Libstdcxx.unguarded_partition].
  - destruct (l !! pivot); [| reflexivity].
    branch; reflexivity.
  - destruct (l !! pivot) as [p |]; [| reflexivity].
    branch; [| reflexivity].
    etransitivity; [| apply IH]. apply iter_swap_Permutation.
Qed.

Lemma unguarded_partition_pivot_Permutation (l : list A) :
  Permutation l (Libstdcxx.unguarded_partition_pivot comp l).2.
Proof.
  unfold Libstdcxx.unguarded_partition_pivot.
  etransitivity; [| apply unguarded_partition_Permutation].
  apply move_median_to_first_Permutation.
Qed.

Lemma push_heap_Permutation (fuel holeIndex topIndex : nat) (value : A) (l : list A) :
  holeIndex < length l ->
  Permutation (<[holeIndex := value]> l)
              (Libstdcxx.push_heap comp fuel holeIndex topIndex value l).
Proof.
  revert holeIndex l. induction fuel as [| fuel IH]; intros holeIndex l H;
    cbn [Libstdcxx.push_heap].
  - destruct (l !! ((holeIndex - 1) / 2)); reflexivity.
  - destruct (l !! ((holeIndex - 1) / 2)) as [p |] eqn:E; [| reflexivity].
    branch; [| reflexivity].
    etransitivity; [| apply IH].
    + symmetry. now apply hole_move_Permutation.
    + rewrite length_insert. now apply lookup_lt_Some in E.
Qed.

Lemma adjust_heap_loop_Permutation (fuel holeIndex secondChild len : nat) (l : list A) :
  holeIndex < length l ->
  match Libstdcxx.adjust_heap_loop comp fuel holeIndex secondChild len l with
  | (holeIndex', _, l') =>
      holeIndex' < length l'
      /\ forall value, Permutation (<[holeIndex := value]> l) (<[holeIndex' := value]> l')
  end.
Proof.
  revert holeIndex secondChild l.
  induction fuel as [| fuel IH]; intros holeIndex secondChild l H;
    cbn [Libstdcxx.adjust_heap_loop].
  - now split.
  - branch; [| now split].
    match goal with
    | |- context [l !! ?c] => destruct (l !! c) as [x |] eqn:E; [| now split]
    end.
    match type of E with
    | l !! ?c = _ =>
        specialize (IH c c (<[holeIndex := x]> l));
        destruct (Libstdcxx.adjust_heap_loop comp fuel c c len (<[holeIndex := x]> l))
          as [[holeIndex' secondChild'] l']
    end.
    destruct IH as [H' P].
    { rewrite length_insert. now apply lookup_lt_Some in E. }
    split; [exact H' |]. intros value.
    etransitivity; [| apply P]. symmetry. now apply hole_move_Permutation.
Qed.

Lemma adjust_heap_Permutation (holeIndex len : nat) (value : A) (l : list A) :
  holeIndex < length l ->
  Permutation (<[holeIndex := value]> l) (Libstdcxx.adjust_heap comp holeIndex len value l).
Proof.
  intros H. unfold Libstdcxx.adjust_heap.
  pose proof (adjust_heap_loop_Permutation len holeIndex holeIndex len l H) as L.
  destruct (Libstdcxx.adjust_heap_loop comp len holeIndex holeIndex len l)
    as [[holeIndex1 secondChild] l1].
  destruct L as [H1 P1].
  destruct (Nat.even len && (secondChild =? (len - 2) / 2)).
  - destruct (l1 !! (2 * (secondChild + 1) - 1)) as [x |] eqn:E.
    + etransitivity; [apply P1 |].
      etransitivity; [| apply push_heap_Permutation].
      * symmetry. now apply hole_move_Permutation.
      * rewrite length_insert. now apply lookup_lt_Some in E.
    + etransitivity; [apply P1 |]. now apply push_heap_Permutation.
  - etransitivity; [apply P1 |]. now apply push_heap_Permutation.
Qed.

Lemma pop_heap_Permutation (last result : nat) (l : list A) :
  Permutation l (Libstdcxx.pop_heap comp last result l).
Proof.
  unfold Libstdcxx.pop_heap.
  destruct (l !! result) as [value |] eqn:Er; [| reflexivity].
  destruct (l !! 0) as [top |] eqn:E0; [| reflexivity].
  etransitivity; [| apply adjust_heap_Permutation].
  - symmetry. now apply insert_swap_Permutation.
  - rewrite length_insert. now apply lookup_lt_Some in E0.
Qed.

Lemma make_heap_loop_Permutation (parent len : nat) (l : list A) :
  Permutation l (Libstdcxx.make_heap_loop comp parent len l).
Proof.
  revert l. induction parent as [| parent IH]; intros l;
    cbn [Libstdcxx.make_heap_loop].
  - destruct (l !! 0) as [value |] eqn:E; [| reflexivity].
    etransitivity; [| apply adjust_heap_Permutation].
    + now rewrite list_insert_id.
    + now apply lookup_lt_Some in E.
  - etransitivity; [| apply IH].
    destruct (l !! S parent) as [value |] eqn:E; [| reflexivity].
    etransitivity; [| apply adjust_heap_Permutation].
    + now rewrite list_insert_id.
    + now apply lookup_lt_Some in E.
Qed.

Lemma sort_heap_Permutation (last : nat) (l : list A) :
  Permutation l (Libstdcxx.sort_heap comp last l).
Proof.
  revert l. induction last as [| last IH]; intros l; [reflexivity |].
  destruct last as [| last]; [reflexivity |].
  change (Permutation l (Libstdcxx.sort_heap comp (S last)
                           (Libstdcxx.pop_heap comp (S last) (S last) l))).
  etransitivity; [| apply IH]. apply pop_heap_Permutation.
Qed.

Lemma partial_sort_Permutation (l : list A) :
  Permutation l (Libstdcxx.partial_sort comp l).
Proof.
  unfold Libstdcxx.partial_sort, Libstdcxx.make_heap.
  etransitivity; [| apply sort_heap_Permutation].
  branch; [reflexivity | apply make_heap_loop_Permutation].
Qed.

Lemma introsort_loop_Permutation (depth_limit : nat) (l : list A) :
  Permutation l (Libstdcxx.introsort_loop comp depth_limit l).
Proof.
  revert l. induction depth_limit as [| depth_limit IH]; intros l;
    cbn [Libstdcxx.introsort_loop].
  - branch; [apply partial_sort_Permutation | reflexivity].
  - branch; [| reflexivity].
    pose proof (unguarded_partition_pivot_Permutation l) as P.
    destruct (Libstdcxx.unguarded_partition_pivot comp l) as [cut l']. cbn in P.
    etransitivity; [exact P |].
    rewrite <- (take_drop cut l') at 1.
    apply Permutation_app; apply IH.
Qed.

Lemma unguarded_linear_insert_Permutation (val : A) (last : nat) (l : list A) :
  last < length l ->
  Permutation (<[last := val]> l) (Libstdcxx.unguarded_linear_insert comp val last l).
Proof.
  revert l. induction last as [| next IH]; intros l H;
    cbn [Libstdcxx.unguarded_linear_insert]; [reflexivity |].
  destruct (l !! next) as [x |] eqn:E; [| reflexivity].
  destruct (comp val x); [| reflexivity].
  etransitivity; [| apply IH].
  - symmetry. now apply hole_move_Permutation.
  - rewrite length_insert. lia.
Qed.

Lemma unguarded_insertion_step_Permutation (l : list A) (i : nat) :
  Permutation l (Libstdcxx.unguarded_insertion_step comp l i).
Proof.
  unfold Libstdcxx.unguarded_insertion_step.
  destruct (l !! i) as [val |] eqn:E; [| reflexivity].
  etransitivity; [| apply unguarded_linear_insert_Permutation].
  - now rewrite list_insert_id.
  - now apply lookup_lt_Some in E.
Qed.

Lemma insertion_step_Permutation (l : list A) (i : nat) :
  Permutation l (Libstdcxx.insertion_step comp l i).
Proof.
  unfold Libstdcxx.insertion_step.
  destruct (l !! i) as [val |] eqn:E; [| reflexivity].
  destruct (l !! 0) as [front |]; [| reflexivity].
  destruct (comp val front).
  - rewrite <- (take_drop_middle l i val E) at 1.
    symmetry. apply Permutation_middle.
  - etransitivity; [| apply unguarded_linear_insert_Permutation].
    + now rewrite list_insert_id.
    + now apply lookup_lt_Some in E.
Qed.

Lemma foldl_Permutation (step : list A -> nat -> list A) (indices : list nat) (l : list A) :
  (forall l i, Permutation l (step l i)) -> Permutation l (foldl step l indices).
Proof.
  intros S. revert l. induction indices as [| i indices IH]; intros l; cbn; [reflexivity |].
  etransitivity; [apply (S l i) | apply IH].
Qed.

Lemma final_insertion_sort_Permutation (l : list A) :
  Permutation l (Libstdcxx.final_insertion_sort comp l).
Proof.
  unfold Libstdcxx.final_insertion_sort, Libstdcxx.unguarded_insertion_sort,
    Libstdcxx.insertion_sort.
  branch.
  - etransitivity; apply foldl_Permutation; intros;
      [apply insertion_step_Permutation | apply unguarded_insertion_step_Permutation].
  - apply foldl_Permutation, insertion_step_Permutation.
Qed.

Lemma Libstdcxx_sort_Permutation (l : list A) : Permutation l (Libstdcxx.sort comp l).
Proof.
  unfold Libstdcxx.sort. destruct l as [| x l]; [reflexivity |].
  etransitivity; [apply introsort_loop_Permutation | apply final_insertion_sort_Permutation].
Qed.

End Rearrangement.

(** ** The sort of libstdc++ sorts

    Whatever the partitioning has done, the final insertion sort inserts
    every element of the range into the sorted run before it. *)

Section Sortedness.

Local Open Scope nat_scope.

Context {A : Type} (comp : A -> A -> bool).

Lemma linear_insert_snoc (val y : A) (range : list A) :
  linear_insert comp val (range ++ [y])
  = if comp val y then linear_insert comp val range ++ [y] else range ++ [y; val].
Proof.
  induction range as [| x range IH].
  - cbn. rewrite andb_true_r. now destruct (comp val y).
  - cbn [app linear_insert]. rewrite IH.
    change (forallb (comp val) (x :: range ++ [y]))
      with (comp val x && forallb (comp val) (range ++ [y])).
    change (forallb (comp val) (x :: range))
      with (comp val x && forallb (comp val) range).
    rewrite forallb_app. cbn [forallb]. rewrite andb_true_r.
    destruct (comp val y).
    + rewrite andb_true_r. now destruct (comp val x && forallb (comp val) range).
    + rewrite !andb_false_r. reflexivity.
Qed.

Lemma unguarded_linear_insert_linear_insert (val x : A) (range rest : list A) :
  Libstdcxx.unguarded_linear_insert comp val (length range) (range ++ x :: rest)
  = linear_insert comp val range ++ rest.
Proof.
  revert x rest. induction range as [| y range IH] using rev_ind; intros x rest.
  - reflexivity.
  - rewrite length_app, Nat.add_1_r. cbn [Libstdcxx.unguarded_linear_insert].
    rewrite <- app_assoc. cbn [app].
    rewrite list_lookup_middle by reflexivity.
    rewrite linear_insert_snoc.
    replace (S (length range)) with (length range + 1) by lia.
    rewrite !insert_app_r. cbn.
    destruct (comp val y).
    + rewrite IH, <- app_assoc. reflexivity.
    + rewrite <- app_assoc. reflexivity.
Qed.

Lemma linear_insert_Permutation (val : A) (range : list A) :
  Permutation (val :: range) (linear_insert comp val range).
Proof.
  induction range as [| x range IH]; [reflexivity |].
  cbn [linear_insert]. destruct (forallb (comp val) (x :: range)); [reflexivity |].
  etransitivity; [apply perm_swap | now apply perm_skip].
Qed.

Context (P : A -> Prop) (SWO : StrictWeakOrdering P comp).

Lemma linear_insert_SortedBy (val : A) (range : list A) :
  P val -> Forall P range -> SortedBy comp range ->
  SortedBy comp (linear_insert comp val range).
Proof.
  intros Pv F S. unfold SortedBy in *.
  induction S as [| x range S IH L]; [repeat constructor |].
  apply Forall_cons in F as [Px F]. specialize (IH F).
  cbn [linear_insert]. destruct (forallb (comp val) (x :: range)) eqn:E.
  - constructor; [now constructor |].
    rewrite forallb_forall in E. apply Forall_forall. intros b I.
    apply (StrictWeakOrdering_asymmetric P comp val b SWO Pv).
    + rewrite Forall_forall in F. apply elem_of_cons in I as [-> | I];
        [exact Px | now apply F].
    + now apply E, list_elem_of_In.
  - constructor; [exact IH |].
    apply (Permutation_Forall (linear_insert_Permutation val range)).
    constructor; [| exact L].
    apply not_true_iff_false in E. destruct (comp val x) eqn:C; [| reflexivity].
    exfalso. apply E. apply forallb_forall. intros y I.
    apply list_elem_of_In, elem_of_cons in I as [-> | I]; [exact C |].
    destruct (comp val y) eqn:D; [reflexivity |]. exfalso.
    rewrite Forall_forall in L, F.
    pose proof (StrictWeakOrdering_negative P comp val y x SWO Pv (F y I) Px D (L y I)).
    congruence.
Qed.

Lemma insertion_step_SortedBy (l : list A) (i : nat) :
  Forall P l -> S i < length l -> SortedBy comp (take (S i) l) ->
  SortedBy comp (take (S (S i)) (Libstdcxx.insertion_step comp l (S i))).
Proof.
  intros F H St. unfold Libstdcxx.insertion_step.
  destruct (lookup_lt_is_Some_2 l (S i) H) as [val E]. rewrite E.
  destruct l as [| front l]; [cbn in H; lia |]. cbn [lookup list_lookup].
  change ((front :: l) !! 0) with (Some front).
  assert (P val) as Pv.
  { rewrite Forall_forall in F. apply F. now apply list_elem_of_lookup_2 in E. }
  assert (Forall P (take (S i) (front :: l))) as Fp.
  { rewrite Forall_forall in F |- *. intros b I. apply F.
    apply (subseteq_take (S i)). exact I. }
  assert (length (take (S i) (front :: l)) = S i) as Lp
      by (rewrite length_take; lia).
  destruct (comp val front) eqn:C.
  - change (take (S (S i)) (val :: take (S i) (front :: l) ++ drop (S (S i)) (front :: l)))
      with (val :: take (S i) (take (S i) (front :: l) ++ drop (S (S i)) (front :: l))).
    rewrite take_app_length' by (symmetry; exact Lp).
    constructor; [exact St |].
    apply Forall_forall. intros b I.
    assert (P b) as Pb by (rewrite Forall_forall in Fp; now apply Fp).
    assert (P front) as Pf by (now apply Forall_cons in F as [Pf _]).
    apply (StrictWeakOrdering_negative P comp b front val SWO Pb Pf Pv).
    + cbn [take] in St, I. apply StronglySorted_inv in St as [_ L].
      apply elem_of_cons in I as [-> | I].
      * now apply (swo_irreflexive P comp SWO).
      * rewrite Forall_forall in L. now apply L.
    + now apply (StrictWeakOrdering_asymmetric P comp val front SWO).
  - rewrite <- (take_drop_middle (front :: l) (S i) val E).
    rewrite <- Lp at 2.
    rewrite unguarded_linear_insert_linear_insert.
    rewrite take_app_length'.
    + now apply linear_insert_SortedBy.
    + rewrite <- (Permutation_length (linear_insert_Permutation val _)).
      cbn [length]. now rewrite Lp.
Qed.

Lemma unguarded_insertion_step_SortedBy (l : list A) (i : nat) :
  Forall P l -> i < length l -> SortedBy comp (take i l) ->
  SortedBy comp (take (S i) (Libstdcxx.unguarded_insertion_step comp l i)).
Proof.
  intros F H St. unfold Libstdcxx.unguarded_insertion_step.
  destruct (lookup_lt_is_Some_2 l i H) as [val E]. rewrite E.
  assert (P val) as Pv.
  { rewrite Forall_forall in F. apply F. now apply list_elem_of_lookup_2 in E. }
  assert (Forall P (take i l)) as Fp.
  { rewrite Forall_forall in F |- *. intros b I. apply F.
    apply (subseteq_take i). exact I. }
  assert (length (take i l) = i) as Lp by (rewrite length_take; lia).
  rewrite <- (take_drop_middle l i val E).
  rewrite <- Lp at 2.
  rewrite unguarded_linear_insert_linear_insert.
  rewrite take_app_length'.
  - now apply linear_insert_SortedBy.
  - rewrite <- (Permutation_length (linear_insert_Permutation val _)).
      cbn [length]. now rewrite Lp.
Qed.

Lemma insertion_sort_S (last : nat) (l : list A) :
  Libstdcxx.insertion_sort comp (S (S last)) l
  = Libstdcxx.insertion_step comp (Libstdcxx.insertion_sort comp (S last) l) (S last).
Proof.
  unfold Libstdcxx.insertion_sort.
  replace (S (S last) - 1) with (S (S last - 1)) by lia.
  rewrite seq_S, foldl_app. cbn [foldl]. do 2 f_equal. lia.
Qed.

Lemma Libstdcxx_insertion_sort_Permutation (last : nat) (l : list A) :
  Permutation l (Libstdcxx.insertion_sort comp last l).
Proof. apply foldl_Permutation, insertion_step_Permutation. Qed.

Lemma Libstdcxx_insertion_sort_SortedBy (last : nat) (l : list A) :
  Forall P l -> last <= length l ->
  SortedBy comp (take last (Libstdcxx.insertion_sort comp last l)).
Proof.
  intros F. induction last as [| last IH]; intros H; [constructor |].
  destruct last as [| last].
  - unfold Libstdcxx.insertion_sort. cbn [seq foldl Nat.sub].
    destruct l as [| x l]; repeat constructor.
  - rewrite insertion_sort_S.
    pose proof (Libstdcxx_insertion_sort_Permutation (S last) l) as Q.
    apply insertion_step_SortedBy.
    + now apply (Permutation_Forall Q).
    + rewrite <- (Permutation_length Q). lia.
    + apply IH. lia.
Qed.

Lemma unguarded_insertion_sort_S (first count : nat) (l : list A) :
  Libstdcxx.unguarded_insertion_sort comp first (first + S count) l
  = Libstdcxx.unguarded_insertion_step comp
      (Libstdcxx.unguarded_insertion_sort comp first (first + count) l) (first + count).
Proof.
  unfold Libstdcxx.unguarded_insertion_sort.
  replace (first + S count - first) with (S count) by lia.
  replace (first + count - first) with count by lia.
  now rewrite seq_S, foldl_app.
Qed.

Lemma unguarded_insertion_sort_Permutation (first last : nat) (l : list A) :
  Permutation l (Libstdcxx.unguarded_insertion_sort comp first last l).
Proof. apply foldl_Permutation, unguarded_insertion_step_Permutation. Qed.

Lemma unguarded_insertion_sort_SortedBy (first count : nat) (l : list A) :
  Forall P l -> first + count <= length l -> SortedBy comp (take first l) ->
  SortedBy comp
    (take (first + count) (Libstdcxx.unguarded_insertion_sort comp first (first + count) l)).
Proof.
  intros F. induction count as [| count IH]; intros H St.
  - unfold Libstdcxx.unguarded_insertion_sort.
    replace (first + 0 - first) with 0 by lia. cbn [seq foldl].
    now rewrite Nat.add_0_r.
  - rewrite unguarded_insertion_sort_S.
    replace (first + S count) with (S (first + count)) by lia.
    pose proof (unguarded_insertion_sort_Permutation first (first + count) l) as Q.
    apply unguarded_insertion_step_SortedBy.
    + now apply (Permutation_Forall Q).
    + rewrite <- (Permutation_length Q). lia.
    + apply IH; [lia | exact St].
Qed.

Lemma final_insertion_sort_SortedBy (l : list A) :
  Forall P l -> SortedBy comp (Libstdcxx.final_insertion_sort comp l).
Proof.
  intros F. unfold Libstdcxx.final_insertion_sort.
  destruct (Nat.ltb_spec Libstdcxx.S_threshold (length l)) as [H | H].
  - pose proof (Libstdcxx_insertion_sort_Permutation Libstdcxx.S_threshold l) as Q.
    pose proof (unguarded_insertion_sort_SortedBy Libstdcxx.S_threshold
                  (length l - Libstdcxx.S_threshold)
                  (Libstdcxx.insertion_sort comp Libstdcxx.S_threshold l)) as U.
    replace (Libstdcxx.S_threshold + (length l - Libstdcxx.S_threshold))
      with (length l) in U by lia.
    assert (SortedBy comp
              (take (length l)
                 (Libstdcxx.unguarded_insertion_sort comp Libstdcxx.S_threshold (length l)
                    (Libstdcxx.insertion_sort comp Libstdcxx.S_threshold l)))) as St.
    { apply U.
      - now apply (Permutation_Forall Q).
      - rewrite <- (Permutation_length Q). lia.
      - apply Libstdcxx_insertion_sort_SortedBy; [exact F | lia]. }
    rewrite take_ge in St; [exact St |].
    rewrite <- (Permutation_length (unguarded_insertion_sort_Permutation _ _ _)).
    now rewrite <- (Permutation_length Q).
  - pose proof (Libstdcxx_insertion_sort_SortedBy (length l) l F (le_n _)) as St.
    rewrite take_ge in St; [exact St |].
    now rewrite <- (Permutation_length (Libstdcxx_insertion_sort_Permutation _ _)).
Qed.

End Sortedness.

Lemma Libstdcxx_sort_SortedBy {A : Type} (comp : A -> A -> bool) (l : list A) :
  StrictWeakOrdering (fun a => a ∈ l) comp -> SortedBy comp (Libstdcxx.sort comp l).
Proof.
  intros SWO. unfold Libstdcxx.sort. destruct l as [| x l]; [constructor |].
  apply (final_insertion_sort_SortedBy comp _ SWO).
  apply (Permutation_Forall (introsort_loop_Permutation comp _ (x :: l))).
  apply Forall_forall. intros a I. exact I.
Qed.

(** [std::sort] as libstdc++ implements it. *)
Definition libstdcxxSort : StdSort :=
  {| std_sort := Libstdcxx.sort;
     std_sort_permutation := fun comp l => Libstdcxx_sort_Permutation comp l;
     std_sort_sorted := fun comp l SWO => Libstdcxx_sort_SortedBy comp l SWO |}.

(** ** The sort of the matched rows *)

Lemma Permutation_filter_bool {A : Type} (f : A -> bool) (l l' : list A) :
  Permutation l l' -> Permutation (List.filter f l) (List.filter f l').
Proof.
  induction 1 as [| x l l' P IH | x y l | l l' l'' P1 IH1 P2 IH2]; simpl.
  - constructor.
  - destruct (f x); [now constructor | exact IH].
  - destruct (f x), (f y); try reflexivity. apply perm_swap.
  - now transitivity (List.filter f l').
Qed.

(** Helper: the sort of the matched rows rearranges them. *)
Lemma Evaluate_sort_Permutation (sorting : StdSort)
    (expressionTree : ExpressionTree) (matchedRows : list DataRow) :
  Permutation matchedRows (Evaluate_sort expressionTree matchedRows).
Proof.
  unfold Evaluate_sort. destruct (OrderByTerms expressionTree) as [| t rest] eqn:E.
  - reflexivity.
  - apply std_sort_permutation.
Qed.

(** Helper: the sort of matched rows without a NaN in the columns of the
    order-by terms sorts them. *)
Lemma Evaluate_sort_SortedBy (sorting : StdSort)
    (expressionTree : ExpressionTree) (matchedRows : list DataRow) :
  Forall (fun row => NaNFree (OrderByTerms expressionTree) row = true) matchedRows ->
  SortedBy (orderByComparator (OrderByTerms expressionTree))
           (Evaluate_sort expressionTree matchedRows).
Proof.
  intros F. unfold Evaluate_sort.
  destruct (OrderByTerms expressionTree) as [| t rest] eqn:E.
  - unfold SortedBy. clear F. induction matchedRows as [| x l IH]; constructor.
    + exact IH.
    + apply Forall_forall. intros; reflexivity.
  - now apply std_sort_sorted, orderByComparator_StrictWeakOrdering_range.
Qed.

(** C2, as amended.  Whatever [std::sort] is used, the sort of the matched
    rows returns a permutation of them, and the rows that tie with any
    given row are the same rows as before the sort, in some order.  When
    no cell of the matched rows in the columns of the order-by terms is a
    NaN, no row of the result is ordered before a row that precedes
    it. *)
Theorem Evaluate_sort_sorted_permutation (sorting : StdSort)
    (expressionTree : ExpressionTree) (matchedRows : list DataRow) :
  Permutation matchedRows (Evaluate_sort expressionTree matchedRows)
  /\ (Forall (fun row => NaNFree (OrderByTerms expressionTree) row = true) matchedRows ->
      SortedBy (orderByComparator (OrderByTerms expressionTree))
               (Evaluate_sort expressionTree matchedRows))
  /\ forall row,
       Permutation
         (List.filter (tied (OrderByTerms expressionTree) row) matchedRows)
         (List.filter (tied (OrderByTerms expressionTree) row)
                      (Evaluate_sort expressionTree matchedRows)).
Proof.
  pose proof (Evaluate_sort_Permutation sorting expressionTree matchedRows) as P.
  split; [exact P | split].
  - apply Evaluate_sort_SortedBy.
  - intros row. now apply Permutation_filter_bool.
Qed.

Lemma Evaluate_sort_sorted_permutation_witness :
  SortedBy (orderByComparator [(valueColumn, true)])
           (@Evaluate_sort libstdcxxSort valueTree
              [valueRow (Finite 3); valueRow PositiveInfinity; valueRow (Finite 1);
               valueRow NegativeInfinity; valueRow (Finite 2)]).
Proof.
  apply (proj1 (proj2 (Evaluate_sort_sorted_permutation libstdcxxSort valueTree
                         [valueRow (Finite 3); valueRow PositiveInfinity;
                          valueRow (Finite 1); valueRow NegativeInfinity;
                          valueRow (Finite 2)]))).
  repeat constructor.
Defined.

(** What the [std::sort] of libstdc++ makes of the seventeen measurements
    that tie on [Rank]: the ninth comes first, then the last eight from
    the back, then the first, then the others of the first eight from the
    back.  Sixteen tied measurements stay as they are. *)
Lemma Evaluate_sort_libstdcxx_ties :
  signalIDsOf 0 (@Evaluate_sort libstdcxxSort tiedTree tiedMeasurements)
  = [9; 17; 16; 15; 14; 13; 12; 11; 10; 1; 8; 7; 6; 5; 4; 3; 2]%N
  /\ @Evaluate_sort libstdcxxSort tiedTree (take 16 tiedMeasurements)
     = take 16 tiedMeasurements.
Proof. split; vm_compute; reflexivity. Qed.

(** The same through [Evaluate]: for [FILTER ActiveMeasurements WHERE
    Enabled ORDER BY Rank] over the seventeen measurements, a parser built
    with libstdc++ returns the signal IDs in that order, not in table
    order. *)
Lemma Evaluate_libstdcxx_ties :
  let external :=
    Sample.external
      [enabledStatement None [{| orderByColumnName := "Rank"; K_DESC := false |}]] in
  m_expressionTrees (finalState (@Evaluate external libstdcxxSort tiedParser)) = [tiedTree]
  /\ m_filteredSignalIDs (finalState (@Evaluate external libstdcxxSort tiedParser))
     = [9; 17; 16; 15; 14; 13; 12; 11; 10; 1; 8; 7; 6; 5; 4; 3; 2]%N.
Proof. split; vm_compute; reflexivity. Qed.

(** C2, counterexample.  The claim says that the sort of the matched rows
    leaves rows that tie on all order-by terms in their input order.  The
    sort is [std::sort], and the [std::sort] of libstdc++ does not: of
    seventeen measurements that tie on the only order-by column [Rank] it
    returns the ninth first. *)
Lemma Evaluate_sort_not_stable :
  ~ (forall (sorting : StdSort) (expressionTree : ExpressionTree)
            (matchedRows : list DataRow) (row : DataRow),
        OrderByTerms expressionTree <> [] ->
        List.filter (tied (OrderByTerms expressionTree) row)
                    (Evaluate_sort expressionTree matchedRows)
        = List.filter (tied (OrderByTerms expressionTree) row) matchedRows).
Proof.
  intros stable.
  specialize (stable libstdcxxSort tiedTree tiedMeasurements
                (sampleRow (Some 1%N) "PPA:1" "GPA_SHELBY:FREQ" (Some true) 1)).
  assert (OrderByTerms tiedTree <> []) as N by discriminate.
  specialize (stable N). vm_compute in stable. discriminate stable.
Qed.

(** A NaN takes the sort out of the contract: the [std::sort] of
    libstdc++ leaves the values 1, 3, NaN, 2 of a Double column as they
    are, with 3 before 2. *)
Lemma Evaluate_sort_libstdcxx_NaN :
  @Evaluate_sort libstdcxxSort valueTree
    [valueRow (Finite 1); valueRow (Finite 3); valueRow NaN; valueRow (Finite 2)]
  = [valueRow (Finite 1); valueRow (Finite 3); valueRow NaN; valueRow (Finite 2)]
  /\ orderByComparator (OrderByTerms valueTree) (valueRow (Finite 2)) (valueRow (Finite 3))
     = true.
Proof. split; vm_compute; reflexivity. Qed.

(** ** Reasoning in the parser monad *)

Lemma bind_run {A B : Type} (m : M A) (f : A -> M B) (p : FilterExpressionParser) :
  (m ≫= f) p = match m p with
               | Ok a p' => f a p'
               | Throw message p' => Throw message p'
               end.
Proof. reflexivity. Qed.

Lemma bind_Ok {A B : Type} (m : M A) (f : A -> M B) p a p' :
  m p = Ok a p' -> (m ≫= f) p = f a p'.
Proof. intros E. rewrite bind_run, E. reflexivity. Qed.

Lemma bind_Throw {A B : Type} (m : M A) (f : A -> M B) p message p' :
  m p = Throw message p' -> (m ≫= f) p = Throw message p'.
Proof. intros E. rewrite bind_run, E. reflexivity. Qed.

Lemma lift_Returns {A : Type} (a : A) p : lift (Returns a) p = Ok a p.
Proof. reflexivity. Qed.

Lemma lift_Throws {A : Type} message p : @lift A (Throws message) p = Throw message p.
Proof. reflexivity. Qed.

Lemma ret_run {A : Type} (a : A) p : (mret a : M A) p = Ok a p.
Proof. reflexivity. Qed.

Lemma gets_run {A : Type} (f : FilterExpressionParser -> A) p : gets f p = Ok (f p) p.
Proof. reflexivity. Qed.

Lemma modify_run f p : modify f p = Ok tt (f p).
Proof. reflexivity. Qed.

Lemma throw_run {A : Type} message p : @throw A message p = Throw message p.
Proof. reflexivity. Qed.

(** Runs the monadic steps that stand at the head of the goal. *)
Ltac run :=
  repeat first
    [ rewrite bind_run | rewrite gets_run | rewrite modify_run | rewrite ret_run
    | rewrite throw_run | rewrite lift_Returns | rewrite lift_Throws
    | progress cbv beta iota ].

(** ** Evaluate on the sample table *)

(** The GUID of the fourth measurement and the point tag of the second
    are recorded in statement order. *)
Example Evaluate_identifier_statements :
  FilteredSignalIDs
    (finalState (@Evaluate (Sample.external
                              [guidStatement; IdentifierStatement
                                 {| GUID_LITERAL := None;
                                    MEASUREMENT_KEY_LITERAL := None;
                                    POINT_TAG_LITERAL := Some (quoted "gpa_shelby:vphm") |}])
                   stableSort sampleParser))
  = [4%N; 2%N].
Proof. vm_compute. reflexivity. Qed.

(** [FILTER ActiveMeasurements WHERE Enabled ORDER BY Rank]: the first and
    the third measurement match and are ordered by rank. *)
Example Evaluate_order_by :
  FilteredSignalIDs
    (finalState (@Evaluate (Sample.external
                              [enabledStatement None
                                 [ {| orderByColumnName := "Rank"; K_DESC := false |} ]])
                   stableSort sampleParser))
  = [3%N; 1%N].
Proof. vm_compute. reflexivity. Qed.

(** [FILTER TOP 1 ActiveMeasurements WHERE Enabled ORDER BY Rank]: the scan
    stops at the first match, which is not the match of lowest rank. *)
Example Evaluate_top_before_order_by :
  FilteredSignalIDs
    (finalState (@Evaluate (Sample.external
                              [enabledStatement (Some "1"%string)
                                 [ {| orderByColumnName := "Rank"; K_DESC := false |} ]])
                   stableSort sampleParser))
  = [1%N].
Proof. vm_compute. reflexivity. Qed.

(** [Select] reads the rows of a statement that starts with FILTER. *)
Example Select_rows :
  @Select (Sample.external
             [enabledStatement None
                [ {| orderByColumnName := "Rank"; K_DESC := true |} ]])
          stableSort (Some sampleDataSet) sampleTable
          "FILTER ActiveMeasurements WHERE Enabled ORDER BY Rank DESC"
  = Returns [sampleRow0; sampleRow (Some 3%N) "PPA:3" "GPA_TVA:FREQ" (Some true) 2].
Proof. vm_compute. reflexivity. Qed.

(** ** Evaluate: the entry *)

Lemma clearResults_idempotent p : clearResults (clearResults p) = clearResults p.
Proof. reflexivity. Qed.

(** Helper: with a data set, [Evaluate] is the walk and the loop over the
    expression trees, run from the cleared parser. *)
Lemma Evaluate_with_dataSet (external : External) (sorting : StdSort)
    (p : FilterExpressionParser) :
  m_dataSet p <> None ->
  Evaluate p
  = (walk (parse (m_inputStream p));;
     expressionTrees ← gets m_expressionTrees;
     Evaluate_trees expressionTrees) (clearResults p).
Proof.
  intros N. unfold Evaluate. destruct (m_dataSet p); [reflexivity | congruence].
Qed.

(** C7, as amended.  A call to [Evaluate] on a parser without data set
    fails and leaves the parser, accumulators included, as it was.  A call
    on a parser with a data set empties the three accumulators before the
    parse tree is walked, so that its outcome does not depend on what they
    held before. *)
Theorem Evaluate_entry (external : External) (sorting : StdSort)
    (p : FilterExpressionParser) :
  (m_dataSet p = None -> exists message, Evaluate p = Throw message p)
  /\ (m_dataSet p <> None ->
        Evaluate p
        = (walk (parse (m_inputStream p));;
           expressionTrees ← gets m_expressionTrees;
           Evaluate_trees expressionTrees) (clearResults p)
        /\ m_filteredSignalIDs (clearResults p) = []
        /\ m_filteredSignalIDSet (clearResults p) = ∅
        /\ m_filteredRows (clearResults p) = []
        /\ Evaluate p = Evaluate (clearResults p)).
Proof.
  split.
  - intros E. unfold Evaluate. rewrite E. eexists. reflexivity.
  - intros N. repeat split.
    + now apply Evaluate_with_dataSet.
    + rewrite (Evaluate_with_dataSet external sorting p N).
      now rewrite (Evaluate_with_dataSet external sorting (clearResults p)).
Qed.

Lemma Evaluate_entry_witness :
  (exists message,
      @Evaluate (Sample.external [guidStatement]) stableSort (NewFilterExpressionParser "")
      = Throw message (NewFilterExpressionParser ""))
  /\ @Evaluate (Sample.external [guidStatement]) stableSort sampleParser
     = @Evaluate (Sample.external [guidStatement]) stableSort (clearResults sampleParser).
Proof.
  split.
  - apply (Evaluate_entry (Sample.external [guidStatement]) stableSort
             (NewFilterExpressionParser "")).
    reflexivity.
  - apply (Evaluate_entry (Sample.external [guidStatement]) stableSort sampleParser).
    discriminate.
Defined.

(** C7, counterexample.  The claim has every call empty the accumulators
    on entry.  A parser that has evaluated the statement of one GUID holds
    that GUID; when its data set is then taken away, the next call fails
    before anything is cleared and the GUID is still there, whereas a call
    that had cleared on entry would leave nothing. *)
Lemma Evaluate_without_dataSet_keeps_results :
  ~ (forall (external : External) (sorting : StdSort) (p : FilterExpressionParser),
        sameResults (finalState (Evaluate p)) (finalState (Evaluate (clearResults p)))).
Proof.
  intros clears.
  pose (external := Sample.external [guidStatement]).
  pose (evaluated := finalState (@Evaluate external stableSort sampleParser)).
  specialize (clears external stableSort (SetDataSet None evaluated)).
  destruct clears as [ids _]. vm_compute in ids. discriminate ids.
Qed.

(** ** Evaluate: the value of the root expression *)

Lemma Evaluate_rows_reached (external : External) expressionTree signalIDColumnIndex
    rows matchedRows p :
  topLimitReached expressionTree matchedRows = true ->
  Evaluate_rows expressionTree signalIDColumnIndex rows matchedRows p = Ok matchedRows p.
Proof.
  intros R. destruct rows as [| row rest]; simpl; [reflexivity |].
  unfold topLimitReached in R. rewrite R. reflexivity.
Qed.

Lemma Evaluate_rows_cons (external : External) expressionTree signalIDColumnIndex
    row rest matchedRows p :
  topLimitReached expressionTree matchedRows = false ->
  Evaluate_rows expressionTree signalIDColumnIndex (row :: rest) matchedRows p
  = match row with
    | None => Evaluate_rows expressionTree signalIDColumnIndex rest matchedRows p
    | Some row =>
        match Evaluate_row expressionTree signalIDColumnIndex row matchedRows p with
        | Ok matchedRows' p' =>
            Evaluate_rows expressionTree signalIDColumnIndex rest matchedRows' p'
        | Throw message p' => Throw message p'
        end
    end.
Proof.
  intros R. simpl. unfold topLimitReached in R. rewrite R.
  destruct row; reflexivity.
Qed.

Lemma Evaluate_rows_app (external : External) expressionTree signalIDColumnIndex
    pre post matchedRows p :
  Evaluate_rows expressionTree signalIDColumnIndex (pre ++ post) matchedRows p
  = match Evaluate_rows expressionTree signalIDColumnIndex pre matchedRows p with
    | Ok matchedRows' p' =>
        Evaluate_rows expressionTree signalIDColumnIndex post matchedRows' p'
    | Throw message p' => Throw message p'
    end.
Proof.
  revert matchedRows p. induction pre as [| row pre IH]; intros matchedRows p.
  - reflexivity.
  - destruct (topLimitReached expressionTree matchedRows) eqn:R.
    + rewrite (Evaluate_rows_reached _ _ _ ((row :: pre) ++ post)) by exact R.
      rewrite (Evaluate_rows_reached _ _ _ (row :: pre)) by exact R.
      symmetry. now apply Evaluate_rows_reached.
    + change ((row :: pre) ++ post) with (row :: (pre ++ post)).
      rewrite !Evaluate_rows_cons by exact R.
      destruct row as [row |]; [| apply IH].
      destruct (Evaluate_row expressionTree signalIDColumnIndex row matchedRows p);
        [apply IH | reflexivity].
Qed.

Lemma Evaluate_trees_app (external : External) (sorting : StdSort) done rest p :
  Evaluate_trees (done ++ rest) p
  = match Evaluate_trees done p with
    | Ok _ p' => Evaluate_trees rest p'
    | Throw message p' => Throw message p'
    end.
Proof.
  revert p. induction done as [| tree done IH]; intros p; [reflexivity |].
  simpl. rewrite !bind_run.
  destruct (Evaluate_tree tree p) as [[] p' | message p']; [apply IH | reflexivity].
Qed.

Lemma Evaluate_throws_at_row (external : External) (sorting : StdSort)
    p expressionTree signalIDColumnIndex row matchedRows p' message p'' :
  EvaluateReachesRow external sorting p expressionTree signalIDColumnIndex
                     row matchedRows p' ->
  Evaluate_row expressionTree signalIDColumnIndex row matchedRows p'
  = Throw message p'' ->
  Evaluate p = Throw message p''.
Proof.
  intros (walked & done & rest & before & pre & post
          & D & W & T & B & C & R & S & L) E.
  unfold Evaluate. destruct (m_dataSet p); [| congruence].
  rewrite bind_run. change (modify clearResults p) with (Ok tt (clearResults p)).
  cbv beta iota. rewrite bind_run, W. cbv beta iota.
  rewrite bind_run. change (gets m_expressionTrees walked)
    with (Ok (m_expressionTrees walked) walked).
  cbv beta iota. rewrite T, Evaluate_trees_app, B.
  cbn [Evaluate_trees]. rewrite bind_run.
  unfold Evaluate_tree. rewrite bind_run, C. cbv beta iota.
  rewrite bind_run, R, Evaluate_rows_app, S.
  rewrite Evaluate_rows_cons by exact L. rewrite E. reflexivity.
Qed.

(** C6, as amended.  For a row whose root expression evaluates to [value]:
    a Boolean true makes the row a match, a Boolean false or a null of type
    Boolean makes it a non-match without error, and a value of any other
    type, null or not, raises the exception, with which the whole call of
    [Evaluate] that came to this row fails. *)
Theorem Evaluate_row_root_value (external : External) (sorting : StdSort)
    (expressionTree : ExpressionTree) (signalIDColumnIndex : Z) (row : DataRow)
    (matchedRows : list DataRow) (p : FilterExpressionParser)
    (value : ValueExpression) :
  ExpressionTree_Evaluate expressionTree row = Returns value ->
  (ValueType value = ExpressionValueType.Boolean ->
   Value value = Some (PBoolean true) ->
   Evaluate_row expressionTree signalIDColumnIndex row matchedRows p
   = Evaluate_matched signalIDColumnIndex row matchedRows p)
  /\ (ValueType value = ExpressionValueType.Boolean ->
      Value value = Some (PBoolean false) \/ Value value = None ->
      Evaluate_row expressionTree signalIDColumnIndex row matchedRows p
      = Ok matchedRows p)
  /\ (ValueType value <> ExpressionValueType.Boolean ->
      exists message,
        Evaluate_row expressionTree signalIDColumnIndex row matchedRows p
        = Throw message p
        /\ forall p0,
             EvaluateReachesRow external sorting p0 expressionTree
                                signalIDColumnIndex row matchedRows p ->
             Evaluate p0 = Throw message p).
Proof.
  intros E. unfold Evaluate_row. rewrite bind_run, E, lift_Returns.
  repeat split.
  - intros T V. rewrite T. cbn.
    unfold ValueExpression_ValueAsBoolean. rewrite V. reflexivity.
  - intros T V. rewrite T. cbn.
    unfold ValueExpression_ValueAsBoolean. destruct V as [-> | ->]; reflexivity.
  - intros T.
    assert (ExpressionValueType.eqb (ValueType value) ExpressionValueType.Boolean = false)
      as F by (destruct (ValueType value); try reflexivity; congruence).
    eexists. split.
    + rewrite F. reflexivity.
    + intros p0 R. apply (Evaluate_throws_at_row external sorting _ _ _ _ _ _ _ _ R).
      unfold Evaluate_row. rewrite bind_run, E, lift_Returns.
      rewrite F. reflexivity.
Qed.

Lemma Evaluate_row_root_value_witness :
  exists message p',
    @Evaluate (Sample.external [coalesceStatement]) stableSort sampleParser
    = Throw message p'
    /\ m_filteredSignalIDs p' = [].
Proof.
  pose (external := Sample.external [coalesceStatement]).
  pose (walked := finalState (@walk external [coalesceStatement]
                                (clearResults sampleParser))).
  pose (here := finalState (@Evaluate_rows external coalesceTree 0
                              [Some sampleRow0] [] walked)).
  destruct (Evaluate_row_root_value external stableSort coalesceTree 0 sampleRow1
              [sampleRow0] here int32One eq_refl) as (_ & _ & T).
  destruct T as [message [_ T]]; [discriminate |].
  exists message, here. split; [| reflexivity].
  apply T.
  exists walked, [], [], walked, [Some sampleRow0],
    [Some (sampleRow (Some 3%N) "PPA:3" "GPA_TVA:FREQ" (Some true) 2);
     Some (sampleRow (Some 4%N) "PPA:4" "GPA_TVA:VPHM" (Some false) 1)].
  repeat split; try discriminate; vm_compute; reflexivity.
Defined.

(** C6, counterexample.  The claim has every null at the root treated as
    a non-match without error.  The root NULL evaluates to the null of
    type Undefined, and the type test comes first: the row raises the
    exception. *)
Lemma Evaluate_row_null_of_other_type_throws :
  ~ (forall (external : External) (expressionTree : ExpressionTree)
            (signalIDColumnIndex : Z) (row : DataRow) (matchedRows : list DataRow)
            (p : FilterExpressionParser) (value : ValueExpression),
        ExpressionTree_Evaluate expressionTree row = Returns value ->
        (forall b, ValueType value = ExpressionValueType.Boolean ->
                   Value value = Some (PBoolean b) ->
                   Evaluate_row expressionTree signalIDColumnIndex row matchedRows p
                   = if b then Evaluate_matched signalIDColumnIndex row matchedRows p
                     else Ok matchedRows p)
        /\ (Value value = None ->
            Evaluate_row expressionTree signalIDColumnIndex row matchedRows p
            = Ok matchedRows p)
        /\ (ValueType value <> ExpressionValueType.Boolean ->
            Value value <> None ->
            exists message p',
              Evaluate_row expressionTree signalIDColumnIndex row matchedRows p
              = Throw message p')).
Proof.
  intros claim.
  destruct (claim (Sample.external []) nullTree 0 sampleRow0 [] sampleParser
              (ExpressionTree_NullValue ExpressionValueType.Undefined) eq_refl)
    as (_ & N & _).
  specialize (N eq_refl). vm_compute in N. discriminate N.
Qed.

(** ** Identifier statements against an unresolved primary table *)

Lemma exitIdentifierStatement_guid_run signalID p :
  exitIdentifierStatement_guid signalID p = Ok tt (guidContribution p signalID).
Proof.
  unfold exitIdentifierStatement_guid, guidContribution.
  run.
  destruct (m_trackFilteredSignalIDs p); [| reflexivity].
  destruct (bool_decide (signalID ≠ Empty.Guid)); [| reflexivity].
  cbn [andb]. run. unfold insertSignalID.
  destruct (bool_decide (signalID ∈ m_filteredSignalIDSet p)); reflexivity.
Qed.

Lemma guidContribution_frame p signalID :
  m_dataSet (guidContribution p signalID) = m_dataSet p
  /\ m_primaryMeasurementTableName (guidContribution p signalID)
     = m_primaryMeasurementTableName p
  /\ m_measurementTableIDFields (guidContribution p signalID)
     = m_measurementTableIDFields p
  /\ m_trackFilteredRows (guidContribution p signalID) = m_trackFilteredRows p
  /\ m_filteredRows (guidContribution p signalID) = m_filteredRows p.
Proof.
  unfold guidContribution.
  destruct (m_trackFilteredSignalIDs p && bool_decide (signalID ≠ Empty.Guid)
            && negb (bool_decide (signalID ∈ m_filteredSignalIDSet p)));
    repeat split; reflexivity.
Qed.

Lemma exitIdentifierStatement_lookup_unresolved context signalID p dataSet :
  m_dataSet p = Some dataSet ->
  primaryTableUnresolved p dataSet ->
  exitIdentifierStatement_lookup context signalID p = Ok tt p.
Proof.
  intros D U. unfold primaryTableUnresolved in U.
  unfold exitIdentifierStatement_lookup.
  run. rewrite D.
  destruct (DataSet_Table dataSet (m_primaryMeasurementTableName p)); [| reflexivity].
  run.
  destruct (GetMeasurementTableIDFields (m_primaryMeasurementTableName p) p);
    [| reflexivity].
  rewrite U. reflexivity.
Qed.

Lemma enterFilterStatement_orderingTerms_unresolved measurements terms p :
  Exists (orderingTermUnresolved measurements) terms ->
  exists message p', enterFilterStatement_orderingTerms measurements terms p
                     = Throw message p'.
Proof.
  intros E. revert p. induction E as [term rest U | term rest E IH]; intros p; simpl.
  - unfold orderingTermUnresolved in U. rewrite U. eexists _, _. reflexivity.
  - destruct (DataTable_Column measurements (orderByColumnName term)).
    + rewrite bind_run.
      match goal with |- context [updateActiveExpressionTree ?f p] =>
        destruct (updateActiveExpressionTree f p) as [[] p1 | message p1] end.
      * apply IH.
      * eexists _, _. reflexivity.
    + eexists _, _. reflexivity.
Qed.

(** C10, as amended.  When the primary measurement table, its ID fields
    record or its signal ID column cannot be resolved, an identifier
    statement raises no error and adds no row; a measurement key or a point
    tag leaves the parser as it was, and a GUID literal still records its
    GUID as the GUID branch does.  A filter statement whose table, or one
    of whose order-by columns, cannot be resolved raises the exception. *)
Theorem exitIdentifierStatement_unresolved (external : External)
    (context : IdentifierStatementContext) (p : FilterExpressionParser)
    (dataSet : DataSet) :
  m_dataSet p = Some dataSet ->
  (primaryTableUnresolved p dataSet ->
   exists p',
     exitIdentifierStatement context p = Ok tt p'
     /\ m_filteredRows p' = m_filteredRows p
     /\ (GUID_LITERAL context = None -> p' = p)
     /\ (forall text, GUID_LITERAL context = Some text ->
           p' = guidContribution p (ParseGuidLiteral text)))
  /\ (forall filterContext,
        DataSet_Table dataSet (tableName filterContext) = None ->
        exists message, enterFilterStatement filterContext p = Throw message p)
  /\ (forall filterContext measurements,
        DataSet_Table dataSet (tableName filterContext) = Some measurements ->
        K_ORDER filterContext = true -> K_BY filterContext = true ->
        Exists (orderingTermUnresolved measurements) (orderingTerm filterContext) ->
        exists message p', enterFilterStatement filterContext p = Throw message p').
Proof.
  intros D. split; [intros U | split].
  - unfold exitIdentifierStatement. destruct (GUID_LITERAL context) as [text |].
    + exists (guidContribution p (ParseGuidLiteral text)).
      destruct (guidContribution_frame p (ParseGuidLiteral text))
        as (FD & FN & FF & FT & FR).
      rewrite bind_run, exitIdentifierStatement_guid_run. run.
      repeat split; try congruence.
      destruct (m_trackFilteredRows (guidContribution p (ParseGuidLiteral text)));
        [| reflexivity].
      apply (exitIdentifierStatement_lookup_unresolved _ _ _ dataSet); [congruence |].
      unfold primaryTableUnresolved, GetMeasurementTableIDFields in *.
      now rewrite FN, FF.
    + exists p. repeat split; try congruence.
      now apply (exitIdentifierStatement_lookup_unresolved _ _ _ dataSet).
  - intros filterContext T. unfold enterFilterStatement.
    run. rewrite D, T. eexists. reflexivity.
  - intros filterContext measurements T O B E. unfold enterFilterStatement.
    run. rewrite D, T. run. rewrite O, B. cbn [andb].
    match goal with |- context [match ?m ?q with Ok _ _ => _ | Throw _ _ => _ end] =>
      destruct (m q) as [[] p1 | message p1] end.
    + now apply enterFilterStatement_orderingTerms_unresolved.
    + eexists _, _. reflexivity.
Qed.

Lemma exitIdentifierStatement_unresolved_witness :
  @exitIdentifierStatement (Sample.external []) pointTagContext emptyDataSetParser
  = Ok tt emptyDataSetParser
  /\ (exists message,
         enterFilterStatement unknownOrderByContext emptyDataSetParser
         = Throw message emptyDataSetParser)
  /\ (exists message p',
         enterFilterStatement unknownOrderByContext sampleParser = Throw message p').
Proof.
  split; [| split].
  - destruct (proj1 (exitIdentifierStatement_unresolved (Sample.external [])
                       pointTagContext emptyDataSetParser [] eq_refl) I)
      as (p' & E & _ & N & _).
    rewrite E, (N eq_refl). reflexivity.
  - apply (proj1 (proj2 (exitIdentifierStatement_unresolved (Sample.external [])
                           pointTagContext emptyDataSetParser [] eq_refl))).
    reflexivity.
  - apply (proj2 (proj2 (exitIdentifierStatement_unresolved (Sample.external [])
                           pointTagContext sampleParser sampleDataSet eq_refl))
             unknownOrderByContext sampleTable eq_refl eq_refl eq_refl).
    constructor. reflexivity.
Defined.

(** C10, counterexample.  The claim has every identifier statement leave
    the accumulators alone when the primary table is missing.  A GUID
    literal is recorded before the table is looked up: against a data set
    without tables the statement of GUID 4 leaves that GUID in the
    accumulators. *)
Lemma exitIdentifierStatement_guid_recorded_without_table :
  ~ (forall (external : External) (context : IdentifierStatementContext)
            (p : FilterExpressionParser) (dataSet : DataSet),
        m_dataSet p = Some dataSet ->
        primaryTableUnresolved p dataSet ->
        exitIdentifierStatement context p = Ok tt p).
Proof.
  intros claim.
  specialize (claim (Sample.external [])
                {| GUID_LITERAL := Some "'00000000-0000-0000-0000-000000000004'";
                   MEASUREMENT_KEY_LITERAL := None;
                   POINT_TAG_LITERAL := None |}
                emptyDataSetParser [] eq_refl I).
  vm_compute in claim. discriminate claim.
Qed.

(** ** MapMeasurement: the scan of the primary table *)

Lemma MapMeasurement_row_new signalIDColumnIndex columnIndex mappingValue row p signalID :
  m_trackFilteredSignalIDs p = true ->
  newSignalID signalIDColumnIndex columnIndex mappingValue p (Some row) = Some signalID ->
  MapMeasurement_row signalIDColumnIndex columnIndex mappingValue row p
  = Ok true (recordMeasurement p signalID row).
Proof.
  intros T N. unfold newSignalID, rowMatches in N. unfold MapMeasurement_row.
  destruct (ValueAsString row columnIndex) as [field |]; [| discriminate].
  destruct (IsEqual mappingValue field true); [| discriminate].
  run. rewrite T.
  destruct (ValueAsGuid row signalIDColumnIndex) as [g |]; [| discriminate].
  destruct (bool_decide (g ≠ Empty.Guid)); [| discriminate].
  cbn [andb] in N. run. unfold insertSignalID.
  destruct (bool_decide (g ∈ m_filteredSignalIDSet p)); [discriminate |].
  injection N as <-. run. unfold recordMeasurement, push_filteredSignalID, push_filteredRow.
  run. cbn. destruct (m_trackFilteredRows p); reflexivity.
Qed.

Lemma MapMeasurement_row_none signalIDColumnIndex columnIndex mappingValue row p :
  m_trackFilteredSignalIDs p = true ->
  newSignalID signalIDColumnIndex columnIndex mappingValue p (Some row) = None ->
  MapMeasurement_row signalIDColumnIndex columnIndex mappingValue row p = Ok false p.
Proof.
  intros T N. unfold newSignalID, rowMatches in N. unfold MapMeasurement_row.
  destruct (ValueAsString row columnIndex) as [field |]; [| reflexivity].
  destruct (IsEqual mappingValue field true); [| reflexivity].
  run. rewrite T.
  destruct (ValueAsGuid row signalIDColumnIndex) as [g |]; [| reflexivity].
  destruct (bool_decide (g ≠ Empty.Guid)); [| reflexivity].
  cbn [andb] in N. run. unfold insertSignalID.
  destruct (bool_decide (g ∈ m_filteredSignalIDSet p)); [reflexivity | discriminate].
Qed.

Lemma MapMeasurement_rows_stops signalIDColumnIndex columnIndex mappingValue
    pre row post p signalID :
  m_trackFilteredSignalIDs p = true ->
  Forall (fun x => newSignalID signalIDColumnIndex columnIndex mappingValue p x = None) pre ->
  newSignalID signalIDColumnIndex columnIndex mappingValue p (Some row) = Some signalID ->
  MapMeasurement_rows signalIDColumnIndex columnIndex mappingValue
                      (pre ++ Some row :: post) p
  = Ok tt (recordMeasurement p signalID row).
Proof.
  intros T F N. induction F as [| x pre X F IH]; simpl.
  - run. rewrite (MapMeasurement_row_new _ _ _ _ _ _ T N). reflexivity.
  - destruct x as [r |]; [| exact IH].
    run. rewrite (MapMeasurement_row_none _ _ _ _ _ T X). exact IH.
Qed.

Lemma MapMeasurement_rows_nothing signalIDColumnIndex columnIndex mappingValue rows p :
  m_trackFilteredSignalIDs p = true ->
  Forall (fun x => newSignalID signalIDColumnIndex columnIndex mappingValue p x = None) rows ->
  MapMeasurement_rows signalIDColumnIndex columnIndex mappingValue rows p = Ok tt p.
Proof.
  intros T F. induction F as [| x rows X F IH]; simpl; [reflexivity |].
  destruct x as [r |]; [| exact IH].
  run. rewrite (MapMeasurement_row_none _ _ _ _ _ T X). exact IH.
Qed.

Lemma MapMeasurement_row_added signalIDColumnIndex columnIndex mappingValue row p :
  exists returned p' signalIDs rows,
    MapMeasurement_row signalIDColumnIndex columnIndex mappingValue row p
    = Ok returned p'
    /\ added p p' signalIDs rows
    /\ (rows = [] \/ rows = [row])
    /\ (signalIDs = [] \/ (returned = true /\ length signalIDs = 1%nat)).
Proof.
  unfold MapMeasurement_row, added.
  destruct (ValueAsString row columnIndex) as [field |];
    [| exists false, p, [], []; rewrite !app_nil_r; auto].
  destruct (IsEqual mappingValue field true);
    [| exists false, p, [], []; rewrite !app_nil_r; auto].
  run. destruct (m_trackFilteredSignalIDs p).
  - destruct (ValueAsGuid row signalIDColumnIndex) as [g |];
      [| exists false, p, [], []; rewrite !app_nil_r; auto].
    destruct (bool_decide (g ≠ Empty.Guid));
      [| exists false, p, [], []; rewrite !app_nil_r; auto].
    run. unfold insertSignalID.
    destruct (bool_decide (g ∈ m_filteredSignalIDSet p));
      [exists false, p, [], []; rewrite !app_nil_r; auto |].
    run. unfold push_filteredSignalID, push_filteredRow. run.
    destruct (m_trackFilteredRows p); run.
    + eexists true, _, [g], [row].
      split; [reflexivity | cbn; repeat split; auto].
    + eexists true, _, [g], [].
      split; [reflexivity | cbn; rewrite app_nil_r; repeat split; auto].
  - destruct (m_trackFilteredRows p).
    + unfold push_filteredRow. run. eexists false, _, [], [row].
      split; [reflexivity | cbn; rewrite app_nil_r; repeat split; auto].
    + exists false, p, [], []. rewrite !app_nil_r. auto.
Qed.

Lemma MapMeasurement_rows_added signalIDColumnIndex columnIndex mappingValue rows p :
  exists p' signalIDs contributed,
    MapMeasurement_rows signalIDColumnIndex columnIndex mappingValue rows p = Ok tt p'
    /\ added p p' signalIDs contributed
    /\ (length signalIDs <= 1)%nat
    /\ contributed `sublist_of` omap id rows.
Proof.
  revert p. induction rows as [| x rows IH]; intros p; simpl.
  - exists p, [], []. unfold added. rewrite !app_nil_r. repeat split; auto.
  - destruct x as [row |]; [| apply IH].
    destruct (MapMeasurement_row_added signalIDColumnIndex columnIndex mappingValue row p)
      as (returned & p1 & ids1 & rs1 & E & [A1 A2] & R & S).
    run. rewrite E. destruct returned.
    + exists p1, ids1, rs1. repeat split; auto.
      * destruct S as [-> | [_ ->]]; simpl; lia.
      * cbn. destruct R as [-> | ->].
        -- apply sublist_nil_l.
        -- apply sublist_skip, sublist_nil_l.
    + destruct S as [-> | [? _]]; [| discriminate].
      destruct (IH p1) as (p' & ids & rs & E' & [B1 B2] & L & SL).
      exists p', ids, (rs1 ++ rs). repeat split; auto.
      * rewrite B1, A1, app_nil_r. reflexivity.
      * rewrite B2, A2, app_assoc. reflexivity.
      * cbn. destruct R as [-> | ->]; simpl.
        -- now apply sublist_cons.
        -- now apply sublist_skip.
Qed.

(** C3, as amended.  When signal IDs are tracked, [MapMeasurement] scans
    the table up to the first matching row that yields a new signal ID
    (present, not the empty GUID, not in the set yet), records that signal
    ID, and the row as well when rows are tracked, and stops; matching rows
    before it add nothing, and without such a row nothing is added.
    Whatever the mode flags are, the call adds at most one signal ID, and
    the rows it adds are table rows in table order, each row of the table
    at most once. *)
Theorem MapMeasurement_scan (measurements : DataTable) (signalIDColumnIndex : Z)
    (columnName mappingValue : string) (column : DataColumn)
    (p : FilterExpressionParser) :
  DataTable_Column measurements columnName = Some column ->
  (m_trackFilteredSignalIDs p = true ->
   forall pre row post signalID,
     Table_Rows measurements = pre ++ Some row :: post ->
     Forall (fun x => newSignalID signalIDColumnIndex (Column_Index column)
                                  mappingValue p x = None) pre ->
     newSignalID signalIDColumnIndex (Column_Index column) mappingValue p (Some row)
     = Some signalID ->
     MapMeasurement measurements signalIDColumnIndex columnName mappingValue p
     = Ok tt (recordMeasurement p signalID row))
  /\ (m_trackFilteredSignalIDs p = true ->
      Forall (fun x => newSignalID signalIDColumnIndex (Column_Index column)
                                   mappingValue p x = None)
             (Table_Rows measurements) ->
      MapMeasurement measurements signalIDColumnIndex columnName mappingValue p
      = Ok tt p)
  /\ (exists p' signalIDs contributed,
         MapMeasurement measurements signalIDColumnIndex columnName mappingValue p
         = Ok tt p'
         /\ added p p' signalIDs contributed
         /\ (length signalIDs <= 1)%nat
         /\ contributed `sublist_of` omap id (Table_Rows measurements)).
Proof.
  intros C. unfold MapMeasurement. rewrite C. repeat split.
  - intros T pre row post signalID R F N. rewrite R.
    now apply MapMeasurement_rows_stops.
  - intros T F. now apply MapMeasurement_rows_nothing.
  - apply MapMeasurement_rows_added.
Qed.

Lemma MapMeasurement_scan_witness :
  MapMeasurement (tableOf [Some unidentifiedRow; Some identifiedRow; Some sampleRow0])
                 0 "ID" "PPA:1" sampleParser
  = Ok tt (recordMeasurement sampleParser 2%N identifiedRow).
Proof.
  refine (proj1 (MapMeasurement_scan
                   (tableOf [Some unidentifiedRow; Some identifiedRow; Some sampleRow0])
                   0 "ID" "PPA:1" keyColumn sampleParser eq_refl)
                eq_refl [Some unidentifiedRow] identifiedRow [Some sampleRow0] 2%N
                eq_refl _ eq_refl).
  repeat constructor.
Defined.

(** With signal IDs not tracked and rows tracked, the branch of
    [MapMeasurement] that appends the row does not return: both rows with
    the key PPA:1 are appended. *)
Example MapMeasurement_rows_only :
  m_filteredRows
    (finalState
       (MapMeasurement (tableOf [Some unidentifiedRow; Some identifiedRow])
                       0 "ID" "PPA:1"
                       (SetTrackFilteredRows true
                          (SetTrackFilteredSignalIDs false sampleParser))))
  = [unidentifiedRow; identifiedRow].
Proof. vm_compute. reflexivity. Qed.

(** C3, counterexample.  The claim has the scan stop at the first row
    whose key matches.  With the default flags and a first matching row
    without signal ID, the scan goes on to the second matching row and
    records its signal ID; on the table cut after the first matching row
    nothing is recorded. *)
Lemma MapMeasurement_passes_first_matching_row :
  ~ (forall (pre post : list (option DataRow)) (row : DataRow)
            (mappingValue : string) (p : FilterExpressionParser),
        Forall (fun x => rowMatches 1 mappingValue x = false) pre ->
        rowMatches 1 mappingValue (Some row) = true ->
        MapMeasurement (tableOf (pre ++ Some row :: post)) 0 "ID" mappingValue p
        = MapMeasurement (tableOf (pre ++ [Some row])) 0 "ID" mappingValue p).
Proof.
  intros claim.
  specialize (claim [] [Some identifiedRow] unidentifiedRow "PPA:1"%string sampleParser
                (List.Forall_nil _) eq_refl).
  vm_compute in claim. discriminate claim.
Qed.

(** ** Evaluate: the TOP limit *)

Lemma Evaluate_matched_grows signalIDColumnIndex row matchedRows p matchedRows' p' :
  Evaluate_matched signalIDColumnIndex row matchedRows p = Ok matchedRows' p' ->
  matchedRows' = matchedRows \/ matchedRows' = matchedRows ++ [row].
Proof.
  unfold Evaluate_matched. run. destruct (m_trackFilteredSignalIDs p).
  - destruct (ValueAsGuid row signalIDColumnIndex) as [g |]; run;
      [| intros [= <- <-]; auto].
    destruct (bool_decide (g ≠ Empty.Guid)); run; [| intros [= <- <-]; auto].
    unfold insertSignalID.
    destruct (bool_decide (g ∈ m_filteredSignalIDSet p)); run; intros [= <- <-]; auto.
  - intros [= <- <-]; auto.
Qed.

Lemma Evaluate_row_grows (external : External) expressionTree signalIDColumnIndex
    row matchedRows p matchedRows' p' :
  Evaluate_row expressionTree signalIDColumnIndex row matchedRows p = Ok matchedRows' p' ->
  matchedRows' = matchedRows \/ matchedRows' = matchedRows ++ [row].
Proof.
  unfold Evaluate_row. run.
  destruct (ExpressionTree_Evaluate expressionTree row) as [value | message]; run;
    [| discriminate].
  destruct (negb (ExpressionValueType.eqb (ValueType value) ExpressionValueType.Boolean));
    run; [discriminate |].
  destruct (ValueExpression_ValueAsBoolean value).
  - apply Evaluate_matched_grows.
  - run. intros [= <- <-]; auto.
Qed.

Lemma Evaluate_rows_unlimited (external : External) expressionTree signalIDColumnIndex
    rows matchedRows p :
  TopLimit expressionTree = -1 ->
  Evaluate_rows expressionTree signalIDColumnIndex rows matchedRows p
  = scanEvery external expressionTree signalIDColumnIndex rows matchedRows p.
Proof.
  intros L. revert matchedRows p.
  induction rows as [| x rows IH]; intros matchedRows p; [reflexivity |].
  rewrite Evaluate_rows_cons by (unfold topLimitReached; rewrite L; reflexivity).
  destruct x as [row |]; simpl; [| apply IH].
  run. destruct (Evaluate_row expressionTree signalIDColumnIndex row matchedRows p);
    [apply IH | reflexivity].
Qed.

Lemma Evaluate_rows_limited (external : External) expressionTree signalIDColumnIndex
    rows matchedRows p :
  0 <= TopLimit expressionTree ->
  Z.of_nat (length matchedRows) <= TopLimit expressionTree ->
  exists pre post,
    rows = pre ++ post
    /\ Evaluate_rows expressionTree signalIDColumnIndex rows matchedRows p
       = scanEvery external expressionTree signalIDColumnIndex pre matchedRows p
    /\ (post <> [] ->
        exists matchedRows' p',
          scanEvery external expressionTree signalIDColumnIndex pre matchedRows p
          = Ok matchedRows' p'
          /\ Z.of_nat (length matchedRows') = TopLimit expressionTree)
    /\ (forall pre1 pre2, pre = pre1 ++ pre2 -> pre2 <> [] ->
        forall matchedRows1 p1,
          scanEvery external expressionTree signalIDColumnIndex pre1 matchedRows p
          = Ok matchedRows1 p1 ->
          Z.of_nat (length matchedRows1) < TopLimit expressionTree).
Proof.
  intros L0. revert matchedRows p.
  induction rows as [| x rows IH]; intros matchedRows p B.
  - exists [], []. repeat split; try congruence.
    intros pre1 pre2 E N. destruct pre1, pre2; simpl in E; congruence.
  - destruct (topLimitReached expressionTree matchedRows) eqn:R.
    + exists [], (x :: rows). repeat split.
      * now apply Evaluate_rows_reached.
      * intros _. exists matchedRows, p. split; [reflexivity |].
        unfold topLimitReached in R. apply andb_true_iff in R as [_ R].
        apply Z.leb_le in R. lia.
      * intros pre1 pre2 E N. destruct pre1, pre2; simpl in E; congruence.
    + assert (Z.of_nat (length matchedRows) < TopLimit expressionTree) as Lt.
      { unfold topLimitReached in R. apply andb_false_iff in R as [R | R].
        - apply Z.ltb_ge in R. lia.
        - apply Z.leb_gt in R. lia. }
      rewrite Evaluate_rows_cons by exact R.
      destruct x as [row |].
      * destruct (Evaluate_row expressionTree signalIDColumnIndex row matchedRows p)
          as [matchedRows' p' | message p'] eqn:E.
        -- assert (Z.of_nat (length matchedRows') <= TopLimit expressionTree) as B'.
           { destruct (Evaluate_row_grows _ _ _ _ _ _ _ _ E) as [-> | ->];
               [lia | rewrite length_app; simpl; lia]. }
           destruct (IH matchedRows' p' B') as (pre & post & S & E1 & E2 & E3).
           exists (Some row :: pre), post. simpl. rewrite bind_run, E.
           repeat split; auto.
           ++ now rewrite S.
           ++ intros pre1 pre2 C N m1 p1.
              destruct pre1 as [| y pre1]; simpl in C |- *.
              ** run. intros [= <- <-]. exact Lt.
              ** injection C as <- C. rewrite bind_run, E. now apply E3 with pre2.
        -- exists (Some row :: rows), []. simpl. rewrite bind_run, E.
           repeat split; try congruence.
           ++ now rewrite app_nil_r.
           ++ intros pre1 pre2 C N m1 p1.
              destruct pre1 as [| y pre1]; simpl in C |- *.
              ** run. intros [= <- <-]. exact Lt.
              ** injection C as <- C. rewrite bind_run, E. discriminate.
      * destruct (IH matchedRows p B) as (pre & post & S & E1 & E2 & E3).
        exists (None :: pre), post. simpl. repeat split; auto.
        -- now rewrite S.
        -- intros pre1 pre2 C N m1 p1.
           destruct pre1 as [| y pre1]; simpl in C |- *.
           ++ run. intros [= <- <-]. exact Lt.
           ++ injection C as <- C. now apply E3 with pre2.
Qed.

Lemma Evaluate_rows_sublist (external : External) expressionTree signalIDColumnIndex
    rows matchedRows p matchedRows' p' :
  Evaluate_rows expressionTree signalIDColumnIndex rows matchedRows p
  = Ok matchedRows' p' ->
  exists new, matchedRows' = matchedRows ++ new /\ new `sublist_of` omap id rows.
Proof.
  revert matchedRows p. induction rows as [| x rows IH]; intros matchedRows p.
  - simpl. run. intros [= <- <-]. exists []. now rewrite app_nil_r.
  - destruct (topLimitReached expressionTree matchedRows) eqn:R.
    + rewrite Evaluate_rows_reached by exact R. intros [= <- <-].
      exists []. rewrite app_nil_r. split; [reflexivity | apply sublist_nil_l].
    + rewrite Evaluate_rows_cons by exact R. destruct x as [row |].
      * destruct (Evaluate_row expressionTree signalIDColumnIndex row matchedRows p)
          as [m1 p1 | message p1] eqn:E; [| discriminate].
        intros S. destruct (IH _ _ S) as (new & -> & SL).
        destruct (Evaluate_row_grows _ _ _ _ _ _ _ _ E) as [-> | ->].
        -- exists new. split; [reflexivity |]. cbn. now apply sublist_cons.
        -- exists (row :: new). rewrite <- app_assoc. split; [reflexivity |].
           cbn. now apply sublist_skip.
      * intros S. destruct (IH _ _ S) as (new & -> & SL). now exists new.
Qed.

Lemma Evaluate_rows_bound (external : External) expressionTree signalIDColumnIndex
    rows matchedRows p matchedRows' p' :
  0 <= TopLimit expressionTree ->
  Z.of_nat (length matchedRows) <= TopLimit expressionTree ->
  Evaluate_rows expressionTree signalIDColumnIndex rows matchedRows p
  = Ok matchedRows' p' ->
  Z.of_nat (length matchedRows') <= TopLimit expressionTree.
Proof.
  intros L0. revert matchedRows p.
  induction rows as [| x rows IH]; intros matchedRows p B.
  - simpl. run. now intros [= <- <-].
  - destruct (topLimitReached expressionTree matchedRows) eqn:R.
    + rewrite Evaluate_rows_reached by exact R. now intros [= <- <-].
    + rewrite Evaluate_rows_cons by exact R.
      assert (Z.of_nat (length matchedRows) < TopLimit expressionTree) as Lt.
      { unfold topLimitReached in R. apply andb_false_iff in R as [R | R].
        - apply Z.ltb_ge in R. lia.
        - apply Z.leb_gt in R. lia. }
      destruct x as [row |]; [| now apply IH].
      destruct (Evaluate_row expressionTree signalIDColumnIndex row matchedRows p)
        as [m1 p1 | message p1] eqn:E; [| discriminate].
      apply IH.
      destruct (Evaluate_row_grows _ _ _ _ _ _ _ _ E) as [-> | ->];
        [lia | rewrite length_app; simpl; lia].
Qed.

(** C4.  With a TOP limit of zero or more, the row loop takes the rows of
    the table in turn only up to the point where the number of matched
    rows has reached the limit: the rows behind that point are not
    evaluated, and before that point the number was below the limit.  The
    rows that are then sorted and handed to the accumulators are these
    matched rows, no more than the limit and in table order before the
    sort.  With the limit [-1] every row of the table is taken. *)
Theorem Evaluate_TopLimit (external : External) (sorting : StdSort)
    (expressionTree : ExpressionTree) (signalIDColumnIndex : Z)
    (p : FilterExpressionParser) :
  let rows := Table_Rows (Measurements expressionTree) in
  (0 <= TopLimit expressionTree ->
   (exists pre post,
       rows = pre ++ post
       /\ Evaluate_rows expressionTree signalIDColumnIndex rows [] p
          = scanEvery external expressionTree signalIDColumnIndex pre [] p
       /\ (post <> [] ->
           exists matchedRows p',
             scanEvery external expressionTree signalIDColumnIndex pre [] p
             = Ok matchedRows p'
             /\ Z.of_nat (length matchedRows) = TopLimit expressionTree)
       /\ (forall pre1 pre2, pre = pre1 ++ pre2 -> pre2 <> [] ->
           forall matchedRows1 p1,
             scanEvery external expressionTree signalIDColumnIndex pre1 [] p
             = Ok matchedRows1 p1 ->
             Z.of_nat (length matchedRows1) < TopLimit expressionTree))
   /\ (forall p0 matchedRows p',
         Evaluate_signalIDColumnIndex (Measurements expressionTree) p0
         = Ok signalIDColumnIndex p ->
         Evaluate_rows expressionTree signalIDColumnIndex rows [] p
         = Ok matchedRows p' ->
         Z.of_nat (length matchedRows) <= TopLimit expressionTree
         /\ matchedRows `sublist_of` omap id rows
         /\ Permutation matchedRows (Evaluate_sort expressionTree matchedRows)
         /\ Evaluate_tree expressionTree p0
            = match matchedRows with
              | [] => Ok tt p'
              | _ :: _ =>
                  Evaluate_push signalIDColumnIndex
                                (Evaluate_sort expressionTree matchedRows) p'
              end))
  /\ (TopLimit expressionTree = -1 ->
      forall matchedRows,
        Evaluate_rows expressionTree signalIDColumnIndex rows matchedRows p
        = scanEvery external expressionTree signalIDColumnIndex rows matchedRows p).
Proof.
  intros rows. split.
  - intros L0. split.
    + apply Evaluate_rows_limited; simpl; lia.
    + intros p0 matchedRows p' C S. repeat split.
      * apply (Evaluate_rows_bound _ _ _ _ _ _ _ _ L0) in S; simpl; lia.
      * destruct (Evaluate_rows_sublist _ _ _ _ _ _ _ _ S) as (new & -> & SL).
        exact SL.
      * apply Evaluate_sort_Permutation.
      * unfold Evaluate_tree. rewrite bind_run, C. run. fold rows. rewrite S.
        destruct matchedRows; reflexivity.
  - intros L matchedRows. now apply Evaluate_rows_unlimited.
Qed.

Lemma Evaluate_TopLimit_witness :
  Z.of_nat (length [sampleRow0]) <= 1
  /\ @Evaluate_rows (Sample.external []) (NewExpressionTree sampleTable) 0
       (Table_Rows sampleTable) [] sampleParser
     = scanEvery (Sample.external []) (NewExpressionTree sampleTable) 0
         (Table_Rows sampleTable) [] sampleParser.
Proof.
  split.
  - refine (proj1 (proj2 (proj1 (Evaluate_TopLimit (Sample.external []) stableSort
                                    topOneTree 0 sampleParser) _)
                           sampleParser [sampleRow0] _ eq_refl _)).
    + simpl. lia.
    + vm_compute. reflexivity.
  - apply (proj2 (Evaluate_TopLimit (Sample.external []) stableSort
                    (NewExpressionTree sampleTable) 0 sampleParser)).
    reflexivity.
Defined.

(** ** Evaluate: the signal ID accumulators *)

#[local] Set Warnings "-clear-no-such-hyp".

Lemma Pending_nil signalIDColumnIndex p : Pending signalIDColumnIndex [] p <-> Exact p.
Proof.
  unfold Pending, Exact, pending, signalIDsOf. simpl.
  destruct (m_trackFilteredSignalIDs p); rewrite app_nil_r; reflexivity.
Qed.

Lemma Pending_Consistent signalIDColumnIndex matchedRows p :
  Pending signalIDColumnIndex matchedRows p -> Consistent p.
Proof.
  intros (N & E & S). repeat split.
  - now apply NoDup_app in N as [N _].
  - set_solver.
  - set_solver.
  - intros g I. apply S. set_solver.
Qed.

Lemma Evaluate_matched_Pending signalIDColumnIndex row matchedRows p :
  Pending signalIDColumnIndex matchedRows p ->
  exists matchedRows' p',
    Evaluate_matched signalIDColumnIndex row matchedRows p = Ok matchedRows' p'
    /\ Pending signalIDColumnIndex matchedRows' p'.
Proof.
  intros H. unfold Evaluate_matched. run.
  destruct (m_trackFilteredSignalIDs p) eqn:T.
  - destruct (ValueAsGuid row signalIDColumnIndex) as [g |] eqn:G;
      [| run; eauto].
    destruct (bool_decide (g ≠ Empty.Guid)) eqn:NE; run; [| eauto].
    unfold insertSignalID.
    destruct (bool_decide (g ∈ m_filteredSignalIDSet p)) eqn:IN; run; [eauto |].
    eexists _, _. split; [reflexivity |].
    apply bool_decide_eq_true in NE. apply bool_decide_eq_false in IN.
    destruct H as (N & E & S). unfold Pending, pending in *. cbn. rewrite T in *.
    unfold signalIDsOf in *. rewrite map_app. cbn. rewrite G. cbn.
    rewrite app_assoc. repeat split.
    + apply NoDup_app. repeat split; [exact N | | apply NoDup_singleton].
      intros x I. apply S in I. set_solver.
    + set_solver.
    + intros I. set_solver.
    + intros I. set_solver.
  - eexists _, _. split; [reflexivity |].
    unfold Pending, pending in *. rewrite T in *. exact H.
Qed.

Lemma Evaluate_row_Pending (external : External) expressionTree signalIDColumnIndex
    row matchedRows p :
  Pending signalIDColumnIndex matchedRows p ->
  match Evaluate_row expressionTree signalIDColumnIndex row matchedRows p with
  | Ok matchedRows' p' => Pending signalIDColumnIndex matchedRows' p'
  | Throw _ p' => Pending signalIDColumnIndex matchedRows p'
  end.
Proof.
  intros H. unfold Evaluate_row. run.
  destruct (ExpressionTree_Evaluate expressionTree row) as [value | message]; run;
    [| exact H].
  destruct (negb (ExpressionValueType.eqb (ValueType value) ExpressionValueType.Boolean));
    run; [exact H |].
  destruct (ValueExpression_ValueAsBoolean value); run; [| exact H].
  destruct (Evaluate_matched_Pending signalIDColumnIndex row matchedRows p H)
    as (m' & p' & -> & H'). exact H'.
Qed.

(** A row that the row loop takes is a row on which the root is true. *)
Lemma Evaluate_row_selected (external : External) expressionTree signalIDColumnIndex
    row matchedRows p matchedRows' p' :
  Evaluate_row expressionTree signalIDColumnIndex row matchedRows p = Ok matchedRows' p' ->
  matchedRows' = matchedRows
  \/ (matchedRows' = matchedRows ++ [row]
      /\ rowSelected external expressionTree row = true).
Proof.
  unfold Evaluate_row, rowSelected. run.
  destruct (ExpressionTree_Evaluate expressionTree row) as [value | message]; run;
    [| discriminate].
  destruct (ExpressionValueType.eqb (ValueType value) ExpressionValueType.Boolean);
    cbn [negb]; run; [| discriminate].
  destruct (ValueExpression_ValueAsBoolean value).
  - intros E. apply Evaluate_matched_grows in E as [-> | ->]; auto.
  - run. intros [= <- <-]; auto.
Qed.

(** The row loop keeps the invariant; when it throws, the rows matched
    until then are rows of the table on which the root is true, in table
    order. *)
Lemma Evaluate_rows_Pending (external : External) expressionTree signalIDColumnIndex
    rows matchedRows p :
  Pending signalIDColumnIndex matchedRows p ->
  match Evaluate_rows expressionTree signalIDColumnIndex rows matchedRows p with
  | Ok matchedRows' p' => Pending signalIDColumnIndex matchedRows' p'
  | Throw _ p' =>
      exists scanned,
        scanned `sublist_of` List.filter (rowSelected external expressionTree) (omap id rows)
        /\ Pending signalIDColumnIndex (matchedRows ++ scanned) p'
  end.
Proof.
  revert matchedRows p. induction rows as [| x rows IH]; intros matchedRows p H.
  - exact H.
  - destruct (topLimitReached expressionTree matchedRows) eqn:R.
    + rewrite Evaluate_rows_reached by exact R. exact H.
    + rewrite Evaluate_rows_cons by exact R. destruct x as [row |]; [| now apply IH].
      change (omap id (Some row :: rows)) with (row :: omap id rows).
      pose proof (Evaluate_row_Pending external expressionTree signalIDColumnIndex
                    row matchedRows p H) as H'.
      destruct (Evaluate_row expressionTree signalIDColumnIndex row matchedRows p)
        as [m1 p1 | message p1] eqn:E.
      * apply Evaluate_row_selected in E. specialize (IH m1 p1 H').
        destruct (Evaluate_rows expressionTree signalIDColumnIndex rows m1 p1)
          as [m2 p2 | message p2]; [exact IH |].
        destruct IH as (scanned & SL & P). cbn [List.filter].
        destruct E as [-> | [-> S]].
        -- exists scanned. split; [| exact P].
           destruct (rowSelected external expressionTree row);
             [now apply sublist_cons | exact SL].
        -- exists (row :: scanned). rewrite S. split; [now apply sublist_skip |].
           now rewrite <- app_assoc in P.
      * exists []. split; [apply sublist_nil_l | now rewrite app_nil_r].
Qed.

Lemma Evaluate_push_run signalIDColumnIndex matchedRows p :
  exists p',
    Evaluate_push signalIDColumnIndex matchedRows p = Ok tt p'
    /\ m_filteredSignalIDs p'
       = m_filteredSignalIDs p ++ pending signalIDColumnIndex matchedRows p
    /\ m_filteredSignalIDSet p' = m_filteredSignalIDSet p.
Proof.
  revert p. induction matchedRows as [| row rest IH]; intros p.
  - exists p. unfold pending, signalIDsOf. cbn.
    destruct (m_trackFilteredSignalIDs p); rewrite app_nil_r; auto.
  - cbn [Evaluate_push]. run. unfold push_filteredSignalID, push_filteredRow.
    destruct (m_trackFilteredSignalIDs p) eqn:T, (m_trackFilteredRows p) eqn:R; run;
      match goal with |- context [Evaluate_push _ rest ?q] =>
        destruct (IH q) as (p' & E & I & S) end;
      exists p'; rewrite E, I, S; unfold pending; cbn; rewrite T; cbn;
      rewrite <- ?app_assoc; auto.
Qed.

Lemma Pending_Permutation signalIDColumnIndex matchedRows sorted p p' :
  Pending signalIDColumnIndex matchedRows p ->
  Permutation matchedRows sorted ->
  m_filteredSignalIDs p'
  = m_filteredSignalIDs p ++ pending signalIDColumnIndex sorted p ->
  m_filteredSignalIDSet p' = m_filteredSignalIDSet p ->
  Exact p'.
Proof.
  intros (N & E & S) P I M. unfold Exact. rewrite I, M.
  assert (Permutation (pending signalIDColumnIndex matchedRows p)
                      (pending signalIDColumnIndex sorted p)) as PP.
  { unfold pending, signalIDsOf. destruct (m_trackFilteredSignalIDs p);
      [now apply Permutation_map | reflexivity]. }
  split; [| split].
  - rewrite <- PP. exact N.
  - rewrite <- PP. exact E.
  - intros g. rewrite <- PP. apply S.
Qed.

Lemma Exact_Consistent p : Exact p -> Consistent p.
Proof. intros H. apply (Pending_Consistent 0 []), Pending_nil, H. Qed.

(** The evaluation of the expression trees leaves the settings as they
    are. *)
Lemma keepsSettings_ret {A : Type} (a : A) : keepsSettings (mret a : M A).
Proof. intros p. reflexivity. Qed.

Lemma keepsSettings_throw {A : Type} message : keepsSettings (@throw A message).
Proof. intros p. reflexivity. Qed.

Lemma keepsSettings_gets {A : Type} (f : FilterExpressionParser -> A) :
  keepsSettings (gets f).
Proof. intros p. reflexivity. Qed.

Lemma keepsSettings_lift {A : Type} (e : Except A) : keepsSettings (lift e).
Proof. intros p. destruct e; reflexivity. Qed.

Lemma keepsSettings_bind {A B : Type} (m : M A) (f : A -> M B) :
  keepsSettings m -> (forall a, keepsSettings (f a)) -> keepsSettings (m ≫= f).
Proof.
  intros Hm Hf p. rewrite bind_run. specialize (Hm p).
  destruct (m p) as [a p' | message p']; [| exact Hm].
  cbn [finalState] in Hm. rewrite <- Hm. apply Hf.
Qed.

Lemma keepsSettings_Evaluate_matched signalIDColumnIndex row matchedRows :
  keepsSettings (Evaluate_matched signalIDColumnIndex row matchedRows).
Proof.
  unfold Evaluate_matched. apply keepsSettings_bind; [apply keepsSettings_gets |].
  intros [|]; [| apply keepsSettings_ret].
  destruct (ValueAsGuid row signalIDColumnIndex) as [g |]; [| apply keepsSettings_ret].
  destruct (bool_decide (g ≠ Empty.Guid)); [| apply keepsSettings_ret].
  apply keepsSettings_bind; [| intros inserted; apply keepsSettings_ret].
  intros p. unfold insertSignalID.
  destruct (bool_decide (g ∈ m_filteredSignalIDSet p)); reflexivity.
Qed.

Lemma keepsSettings_Evaluate_row (external : External) expressionTree signalIDColumnIndex
    row matchedRows :
  keepsSettings (Evaluate_row expressionTree signalIDColumnIndex row matchedRows).
Proof.
  unfold Evaluate_row. apply keepsSettings_bind; [apply keepsSettings_lift |].
  intros value.
  destruct (negb (ExpressionValueType.eqb (ValueType value) ExpressionValueType.Boolean));
    [apply keepsSettings_throw |].
  destruct (ValueExpression_ValueAsBoolean value);
    [apply keepsSettings_Evaluate_matched | apply keepsSettings_ret].
Qed.

Lemma keepsSettings_Evaluate_rows (external : External) expressionTree
    signalIDColumnIndex rows matchedRows :
  keepsSettings (Evaluate_rows expressionTree signalIDColumnIndex rows matchedRows).
Proof.
  revert matchedRows. induction rows as [| x rows IH]; intros matchedRows.
  - apply keepsSettings_ret.
  - destruct (topLimitReached expressionTree matchedRows) eqn:R; intros p.
    + rewrite Evaluate_rows_reached by exact R. reflexivity.
    + rewrite Evaluate_rows_cons by exact R. destruct x as [row |]; [| apply IH].
      revert p. apply keepsSettings_bind;
        [apply keepsSettings_Evaluate_row | intros m; apply IH].
Qed.

Lemma keepsSettings_Evaluate_push signalIDColumnIndex matchedRows :
  keepsSettings (Evaluate_push signalIDColumnIndex matchedRows).
Proof.
  induction matchedRows as [| row rest IH]; [apply keepsSettings_ret |].
  cbn [Evaluate_push].
  apply keepsSettings_bind; [apply keepsSettings_gets | intros trackSignalIDs].
  apply keepsSettings_bind; [apply keepsSettings_gets | intros trackRows].
  apply keepsSettings_bind;
    [destruct trackSignalIDs; [intros p; reflexivity | apply keepsSettings_ret]
    | intros _].
  apply keepsSettings_bind;
    [destruct trackRows; [intros p; reflexivity | apply keepsSettings_ret] | intros _].
  exact IH.
Qed.

Lemma Evaluate_signalIDColumnIndex_frame measurements p :
  match Evaluate_signalIDColumnIndex measurements p with
  | Ok _ p' => p' = p
  | Throw _ p' => p' = p
  end.
Proof.
  unfold Evaluate_signalIDColumnIndex. run.
  destruct (m_trackFilteredSignalIDs p); run; [| reflexivity].
  destruct (GetMeasurementTableIDFields _ p) as [fields |]; run; [| reflexivity].
  destruct (DataTable_Column _ _); reflexivity.
Qed.

Lemma keepsSettings_Evaluate_tree (external : External) (sorting : StdSort)
    expressionTree :
  keepsSettings (Evaluate_tree expressionTree).
Proof.
  unfold Evaluate_tree. apply keepsSettings_bind.
  - intros p. pose proof (Evaluate_signalIDColumnIndex_frame (Measurements expressionTree) p) as F.
    destruct (Evaluate_signalIDColumnIndex (Measurements expressionTree) p);
      cbn [finalState]; now subst.
  - intros signalIDColumnIndex.
    apply keepsSettings_bind; [apply keepsSettings_Evaluate_rows |].
    intros [| row matchedRows];
      [apply keepsSettings_ret | apply keepsSettings_Evaluate_push].
Qed.

Lemma keepsSettings_Evaluate_trees (external : External) (sorting : StdSort)
    expressionTrees :
  keepsSettings (Evaluate_trees expressionTrees).
Proof.
  induction expressionTrees as [| tree rest IH]; [apply keepsSettings_ret |].
  cbn [Evaluate_trees].
  apply keepsSettings_bind; [apply keepsSettings_Evaluate_tree | intros []; exact IH].
Qed.

(** The signal ID column of a table depends on the settings only. *)
Lemma Evaluate_signalIDColumnIndex_settings measurements signalIDColumnIndex p p' :
  evaluationSettings p' = evaluationSettings p ->
  Evaluate_signalIDColumnIndex measurements p = Ok signalIDColumnIndex p ->
  Evaluate_signalIDColumnIndex measurements p' = Ok signalIDColumnIndex p'.
Proof.
  unfold evaluationSettings. intros S. injection S as _ T F.
  unfold Evaluate_signalIDColumnIndex, GetMeasurementTableIDFields. run.
  rewrite T. destruct (m_trackFilteredSignalIDs p); run.
  - rewrite F.
    destruct (m_measurementTableIDFields p !! Table_Name measurements) as [fields |];
      run; [| discriminate].
    destruct (DataTable_Column _ _); [| discriminate]. intros [= ->]. reflexivity.
  - intros [= <-]. reflexivity.
Qed.

(** The evaluation of one expression tree: when it returns, sequence and
    set hold the same GUIDs again; when it throws, the set is ahead by the
    signal IDs of rows of the table of the tree. *)
Lemma Evaluate_tree_Exact (external : External) (sorting : StdSort) expressionTree p :
  Exact p ->
  match Evaluate_tree expressionTree p with
  | Ok _ p' => Exact p'
  | Throw _ p' =>
      Exact p'
      \/ exists signalIDColumnIndex matchedRows,
           Evaluate_signalIDColumnIndex (Measurements expressionTree) p'
           = Ok signalIDColumnIndex p'
           /\ matchedRows `sublist_of`
                List.filter (rowSelected external expressionTree)
                            (omap id (Table_Rows (Measurements expressionTree)))
           /\ Pending signalIDColumnIndex matchedRows p'
  end.
Proof.
  intros H. unfold Evaluate_tree. run.
  pose proof (Evaluate_signalIDColumnIndex_frame (Measurements expressionTree) p) as F.
  destruct (Evaluate_signalIDColumnIndex (Measurements expressionTree) p)
    as [signalIDColumnIndex p0 | message p0] eqn:I; subst p0; [| now left].
  run.
  pose proof (Evaluate_rows_Pending external expressionTree signalIDColumnIndex
                (Table_Rows (Measurements expressionTree)) [] p
                (proj2 (Pending_nil signalIDColumnIndex p) H)) as S.
  pose proof (keepsSettings_Evaluate_rows external expressionTree signalIDColumnIndex
                (Table_Rows (Measurements expressionTree)) [] p) as K.
  destruct (Evaluate_rows expressionTree signalIDColumnIndex
              (Table_Rows (Measurements expressionTree)) [] p)
    as [matchedRows p1 | message p1]; cbn [finalState] in K.
  2: { destruct S as (scanned & SL & P). right. exists signalIDColumnIndex, scanned.
       split; [now apply (Evaluate_signalIDColumnIndex_settings _ _ p) | now split]. }
  destruct matchedRows as [| row matchedRows]; [now apply Pending_nil in S |].
  destruct (Evaluate_push_run signalIDColumnIndex
              (Evaluate_sort expressionTree (row :: matchedRows)) p1)
    as (p2 & -> & J & M).
  apply (Pending_Permutation signalIDColumnIndex (row :: matchedRows)
           (Evaluate_sort expressionTree (row :: matchedRows)) p1 p2 S); auto.
  apply Evaluate_sort_Permutation.
Qed.

Lemma Exact_Ahead (external : External) p : Exact p -> Ahead external p.
Proof. intros H. now left. Qed.

Lemma Ahead_Consistent (external : External) p : Ahead external p -> Consistent p.
Proof.
  intros [H | (tree & i & m & _ & _ & _ & P)];
    [now apply Exact_Consistent | now apply (Pending_Consistent i m)].
Qed.

(** The loop over the expression trees, likewise. *)
Lemma Evaluate_trees_Exact (external : External) (sorting : StdSort) expressionTrees p :
  Exact p ->
  match Evaluate_trees expressionTrees p with
  | Ok _ p' => Exact p'
  | Throw _ p' =>
      Exact p'
      \/ exists expressionTree signalIDColumnIndex matchedRows,
           expressionTree ∈ expressionTrees
           /\ Evaluate_signalIDColumnIndex (Measurements expressionTree) p'
              = Ok signalIDColumnIndex p'
           /\ matchedRows `sublist_of`
                List.filter (rowSelected external expressionTree)
                            (omap id (Table_Rows (Measurements expressionTree)))
           /\ Pending signalIDColumnIndex matchedRows p'
  end.
Proof.
  revert p. induction expressionTrees as [| tree rest IH]; intros p H.
  - exact H.
  - cbn [Evaluate_trees]. run.
    pose proof (Evaluate_tree_Exact external sorting tree p H) as T.
    destruct (Evaluate_tree tree p) as [[] p1 | message p1].
    + specialize (IH p1 T).
      destruct (Evaluate_trees rest p1) as [[] p2 | message p2]; [exact IH |].
      destruct IH as [IH | (t & i & m & I & C & SL & P)]; [now left |].
      right. exists t, i, m. split; [apply elem_of_cons; now right | auto].
    + destruct T as [T | (i & m & C & SL & P)]; [now left |].
      right. exists tree, i, m. split; [apply elem_of_cons; now left | auto].
Qed.

Lemma Exact_frame p p' :
  m_filteredSignalIDs p' = m_filteredSignalIDs p ->
  m_filteredSignalIDSet p' = m_filteredSignalIDSet p ->
  Exact p -> Exact p'.
Proof. intros E1 E2 H. unfold Exact in *. rewrite E1, E2. exact H. Qed.

Lemma Exact_record p p' signalID :
  Exact p -> signalID <> Empty.Guid -> signalID ∉ m_filteredSignalIDSet p ->
  m_filteredSignalIDs p' = m_filteredSignalIDs p ++ [signalID] ->
  m_filteredSignalIDSet p' = {[signalID]} ∪ m_filteredSignalIDSet p ->
  Exact p'.
Proof.
  intros (N & E & S) NE NI E1 E2. unfold Exact. rewrite E1, E2. repeat split.
  - apply NoDup_app. repeat split; [exact N | | apply NoDup_singleton].
    intros x I. apply S in I. set_solver.
  - set_solver.
  - intros I. set_solver.
  - intros I. set_solver.
Qed.

Lemma keepsExact_ret {A : Type} (a : A) : keepsExact (mret a : M A).
Proof. intros p H. exact H. Qed.

Lemma keepsExact_throw {A : Type} message : keepsExact (@throw A message).
Proof. intros p H. exact H. Qed.

Lemma keepsExact_gets {A : Type} (f : FilterExpressionParser -> A) : keepsExact (gets f).
Proof. intros p H. exact H. Qed.

Lemma keepsExact_lift {A : Type} (e : Except A) : keepsExact (lift e).
Proof. intros p H. destruct e; exact H. Qed.

Lemma keepsExact_bind {A B : Type} (m : M A) (f : A -> M B) :
  keepsExact m -> (forall a, keepsExact (f a)) -> keepsExact (m ≫= f).
Proof.
  intros Hm Hf p H. rewrite bind_run. specialize (Hm p H).
  destruct (m p) as [a p' | message p']; [now apply Hf | exact Hm].
Qed.

Lemma keepsExact_modify f :
  (forall p, m_filteredSignalIDs (f p) = m_filteredSignalIDs p
             /\ m_filteredSignalIDSet (f p) = m_filteredSignalIDSet p) ->
  keepsExact (modify f).
Proof. intros F p H. destruct (F p). now apply (Exact_frame p). Qed.

Lemma keepsExact_push_filteredRow row : keepsExact (push_filteredRow row).
Proof. apply keepsExact_modify. intros p. split; reflexivity. Qed.

Lemma keepsExact_updateActiveExpressionTree f :
  keepsExact (updateActiveExpressionTree f).
Proof.
  intros p H. unfold updateActiveExpressionTree.
  destruct (m_activeExpressionTree p); [| exact H].
  now apply (Exact_frame p).
Qed.

Lemma Exact_guidContribution p signalID :
  Exact p -> Exact (guidContribution p signalID).
Proof.
  intros H. unfold guidContribution.
  destruct (m_trackFilteredSignalIDs p); [| exact H].
  destruct (bool_decide (signalID ≠ Empty.Guid)) eqn:NE; [| exact H].
  destruct (bool_decide (signalID ∈ m_filteredSignalIDSet p)) eqn:IN; [exact H |].
  apply bool_decide_eq_true in NE. apply bool_decide_eq_false in IN.
  now apply (Exact_record p _ signalID).
Qed.

Lemma newSignalID_Some signalIDColumnIndex columnIndex mappingValue p row signalID :
  newSignalID signalIDColumnIndex columnIndex mappingValue p row = Some signalID ->
  signalID <> Empty.Guid /\ signalID ∉ m_filteredSignalIDSet p.
Proof.
  unfold newSignalID. destruct row as [r |]; [| discriminate].
  destruct (rowMatches columnIndex mappingValue (Some r)); [| discriminate].
  destruct (ValueAsGuid r signalIDColumnIndex) as [g |]; [| discriminate].
  destruct (bool_decide (g ≠ Empty.Guid)) eqn:NE; [| discriminate].
  destruct (bool_decide (g ∈ m_filteredSignalIDSet p)) eqn:IN; [discriminate |].
  intros [= <-]. apply bool_decide_eq_true in NE. apply bool_decide_eq_false in IN.
  auto.
Qed.

Lemma keepsExact_MapMeasurement_row signalIDColumnIndex columnIndex mappingValue row :
  keepsExact (MapMeasurement_row signalIDColumnIndex columnIndex mappingValue row).
Proof.
  intros p H. destruct (m_trackFilteredSignalIDs p) eqn:T.
  - destruct (newSignalID signalIDColumnIndex columnIndex mappingValue p (Some row))
      as [g |] eqn:N.
    + rewrite (MapMeasurement_row_new _ _ _ _ _ _ T N). cbn.
      destruct (newSignalID_Some _ _ _ _ _ _ N) as [NE NI].
      apply (Exact_record p _ g H NE NI);
        unfold recordMeasurement; destruct (m_trackFilteredRows p); reflexivity.
    + rewrite (MapMeasurement_row_none _ _ _ _ _ T N). exact H.
  - unfold MapMeasurement_row.
    destruct (ValueAsString row columnIndex) as [field |]; [| exact H].
    destruct (IsEqual mappingValue field true); [| exact H].
    run. rewrite T. destruct (m_trackFilteredRows p); [| exact H].
    run. now apply (Exact_frame p).
Qed.

Lemma keepsExact_MapMeasurement_rows signalIDColumnIndex columnIndex mappingValue rows :
  keepsExact (MapMeasurement_rows signalIDColumnIndex columnIndex mappingValue rows).
Proof.
  induction rows as [| x rows IH]; simpl.
  - apply keepsExact_ret.
  - destruct x as [row |]; [| exact IH].
    apply keepsExact_bind; [apply keepsExact_MapMeasurement_row |].
    intros [|]; [apply keepsExact_ret | exact IH].
Qed.

Lemma keepsExact_MapMeasurement measurements signalIDColumnIndex columnName mappingValue :
  keepsExact (MapMeasurement measurements signalIDColumnIndex columnName mappingValue).
Proof.
  unfold MapMeasurement. destruct (DataTable_Column measurements columnName).
  - apply keepsExact_MapMeasurement_rows.
  - apply keepsExact_ret.
Qed.

Lemma keepsExact_exitIdentifierStatement_rows signalIDColumnIndex signalID rows :
  keepsExact (exitIdentifierStatement_rows signalIDColumnIndex signalID rows).
Proof.
  induction rows as [| x rows IH]; simpl.
  - apply keepsExact_ret.
  - destruct x as [row |]; [| exact IH].
    destruct (ValueAsGuid row signalIDColumnIndex) as [g |]; [| exact IH].
    destruct (bool_decide (g = signalID)); [apply keepsExact_push_filteredRow | exact IH].
Qed.

Lemma keepsExact_exitIdentifierStatement_lookup context signalID :
  keepsExact (exitIdentifierStatement_lookup context signalID).
Proof.
  unfold exitIdentifierStatement_lookup.
  apply keepsExact_bind; [apply keepsExact_gets | intros trackFilteredRows].
  apply keepsExact_bind; [apply keepsExact_gets | intros dataSet].
  apply keepsExact_bind; [apply keepsExact_gets | intros name].
  destruct dataSet as [dataSet |]; [| apply keepsExact_throw].
  destruct (DataSet_Table dataSet name) as [measurements |]; [| apply keepsExact_ret].
  apply keepsExact_bind; [apply keepsExact_gets | intros fields].
  destruct fields as [fields |]; [| apply keepsExact_ret].
  destruct (DataTable_Column measurements (SignalIDFieldName fields));
    [| apply keepsExact_ret].
  destruct (trackFilteredRows && bool_decide (signalID ≠ Empty.Guid)).
  - apply keepsExact_exitIdentifierStatement_rows.
  - destruct (MEASUREMENT_KEY_LITERAL context); [apply keepsExact_MapMeasurement |].
    destruct (POINT_TAG_LITERAL context);
      [apply keepsExact_MapMeasurement | apply keepsExact_ret].
Qed.

Lemma keepsExact_exitIdentifierStatement (external : External) context :
  keepsExact (exitIdentifierStatement context).
Proof.
  unfold exitIdentifierStatement. destruct (GUID_LITERAL context) as [text |].
  - apply keepsExact_bind.
    + intros p H. rewrite exitIdentifierStatement_guid_run.
      now apply Exact_guidContribution.
    + intros _. apply keepsExact_bind; [apply keepsExact_gets | intros trackFilteredRows].
      destruct (negb trackFilteredRows);
        [apply keepsExact_ret | apply keepsExact_exitIdentifierStatement_lookup].
  - apply keepsExact_exitIdentifierStatement_lookup.
Qed.

Lemma keepsExact_enterFilterStatement_orderingTerms measurements terms :
  keepsExact (enterFilterStatement_orderingTerms measurements terms).
Proof.
  induction terms as [| term rest IH]; simpl.
  - apply keepsExact_ret.
  - destruct (DataTable_Column measurements (orderByColumnName term));
      [| apply keepsExact_throw].
    apply keepsExact_bind; [apply keepsExact_updateActiveExpressionTree | intros _; exact IH].
Qed.

Lemma keepsExact_enterFilterStatement context : keepsExact (enterFilterStatement context).
Proof.
  unfold enterFilterStatement.
  apply keepsExact_bind; [apply keepsExact_gets | intros dataSet].
  destruct dataSet as [dataSet |]; [| apply keepsExact_throw].
  destruct (DataSet_Table dataSet (tableName context)) as [measurements |];
    [| apply keepsExact_throw].
  apply keepsExact_bind.
  { apply keepsExact_modify. intros p. split; reflexivity. }
  intros _. apply keepsExact_bind.
  { destruct (K_TOP context); [| apply keepsExact_ret].
    apply keepsExact_bind; [apply keepsExact_lift | intros limit].
    apply keepsExact_updateActiveExpressionTree. }
  intros _. destruct (K_ORDER context && K_BY context);
    [apply keepsExact_enterFilterStatement_orderingTerms | apply keepsExact_ret].
Qed.

Lemma keepsExact_walk (external : External) parseTree : keepsExact (walk parseTree).
Proof.
  induction parseTree as [| statement rest IH]; simpl.
  - apply keepsExact_ret.
  - apply keepsExact_bind; [| intros _; exact IH].
    destruct statement as [context | context]; simpl.
    + apply keepsExact_bind; [apply keepsExact_enterFilterStatement | intros _].
      unfold walk_expression.
      apply keepsExact_bind; [apply keepsExact_gets | intros active].
      destruct active as [tree |]; [| apply keepsExact_throw].
      apply keepsExact_bind; [apply keepsExact_lift | intros root].
      apply keepsExact_updateActiveExpressionTree.
    + apply keepsExact_exitIdentifierStatement.
Qed.

Lemma Exact_size p :
  Exact p -> length (m_filteredSignalIDs p) = size (m_filteredSignalIDSet p).
Proof.
  intros (N & _ & S).
  assert (m_filteredSignalIDSet p = list_to_set (m_filteredSignalIDs p)) as ->.
  { apply set_eq. intros g. rewrite S. set_solver. }
  symmetry. now apply size_list_to_set.
Qed.

(** C5, as amended.  After a call to [Evaluate] on a parser with a data
    set, whether it returned or failed partway through, the sequence of
    signal IDs has no duplicates, the empty GUID is neither in the sequence
    nor in the set, and every GUID of the sequence is in the set; the
    GUIDs that the set holds besides are the signal IDs of rows that one
    statement matched: rows of the table of one expression tree of the
    parser on which its root is true, read in the signal ID column of
    that table.  When the call returned, the set holds no other GUID and
    has as many elements as the sequence.  A call on a parser without data
    set fails and leaves the parser as it was. *)
Theorem Evaluate_signalIDs (external : External) (sorting : StdSort)
    (p : FilterExpressionParser) :
  (m_dataSet p <> None ->
   Consistent (finalState (Evaluate p))
   /\ Ahead external (finalState (Evaluate p))
   /\ (succeeded (Evaluate p) = true ->
       Exact (finalState (Evaluate p))
       /\ length (m_filteredSignalIDs (finalState (Evaluate p)))
          = size (m_filteredSignalIDSet (finalState (Evaluate p)))))
  /\ (m_dataSet p = None ->
      succeeded (Evaluate p) = false /\ finalState (Evaluate p) = p).
Proof.
  split.
  - intros D. rewrite (Evaluate_with_dataSet external sorting p D).
    assert (Exact (clearResults p)) as H.
    { repeat split; cbn; [apply NoDup_nil_2 | set_solver | set_solver | set_solver]. }
    rewrite bind_run.
    pose proof (keepsExact_walk external (parse (m_inputStream p)) _ H) as W.
    destruct (walk (parse (m_inputStream p)) (clearResults p))
      as [[] walked | message walked]; cbn in W.
    + run.
      pose proof (Evaluate_trees_Exact external sorting (m_expressionTrees walked)
                    walked W) as T.
      pose proof (keepsSettings_Evaluate_trees external sorting
                    (m_expressionTrees walked) walked) as K.
      destruct (Evaluate_trees (m_expressionTrees walked) walked)
        as [[] final | message final]; cbn [finalState succeeded] in K |- *.
      * split; [now apply Exact_Consistent |]. split; [now apply Exact_Ahead |].
        intros _. split; [exact T | now apply Exact_size].
      * assert (Ahead external final) as A.
        { destruct T as [T | (tree & i & m & I & C & SL & P)]; [now left |].
          right. exists tree, i, m. split; [| auto].
          apply (f_equal (fun s => fst (fst s))) in K. cbn in K. now rewrite K. }
        split; [now apply (Ahead_Consistent external) |]. split; [exact A | discriminate].
    + cbn. split; [now apply Exact_Consistent |].
      split; [now apply Exact_Ahead | discriminate].
  - intros D. unfold Evaluate. rewrite D. split; reflexivity.
Qed.

Lemma Evaluate_signalIDs_witness :
  (Exact (finalState (@Evaluate (Sample.external [guidStatement]) stableSort sampleParser))
   /\ length (m_filteredSignalIDs
                (finalState (@Evaluate (Sample.external [guidStatement]) stableSort
                               sampleParser)))
      = size (m_filteredSignalIDSet
                (finalState (@Evaluate (Sample.external [guidStatement]) stableSort
                               sampleParser))))
  /\ Ahead (Sample.external [coalesceStatement])
           (finalState (@Evaluate (Sample.external [coalesceStatement]) stableSort
                          sampleParser)).
Proof.
  split.
  - apply (proj1 (Evaluate_signalIDs (Sample.external [guidStatement]) stableSort
                    sampleParser)).
    + discriminate.
    + vm_compute. reflexivity.
  - apply (proj1 (Evaluate_signalIDs (Sample.external [coalesceStatement]) stableSort
                    sampleParser)).
    discriminate.
Defined.

(** C5, counterexample.  The claim covers a call that fails partway
    through.  For [FILTER ActiveMeasurements WHERE Coalesce(Enabled, 1)]
    the first row matches and its signal ID goes into the set; the second
    row evaluates to the Int32 value 1 and the call fails before the
    matched rows are appended to the sequence: the set holds one GUID, the
    sequence none. *)
Lemma Evaluate_failure_leaves_set_ahead :
  ~ (forall (external : External) (sorting : StdSort) (p : FilterExpressionParser),
        let p' := finalState (Evaluate p) in
        NoDup (m_filteredSignalIDs p')
        /\ (Empty.Guid ∉ m_filteredSignalIDs p')
        /\ (Empty.Guid ∉ m_filteredSignalIDSet p')
        /\ (forall g, g ∈ m_filteredSignalIDs p' <-> g ∈ m_filteredSignalIDSet p')
        /\ length (m_filteredSignalIDs p') = size (m_filteredSignalIDSet p')).
Proof.
  intros claim.
  destruct (claim (Sample.external [coalesceStatement]) stableSort sampleParser)
    as (_ & _ & _ & _ & L).
  vm_compute in L. discriminate L.
Qed.

(** * Further properties *)

(** ** Literals *)

Lemma substring_append_l (s t : string) :
  String.substring 0 (String.length s) (s +:+ t) = s.
Proof.
  induction s as [| c s IH].
  - destruct t; reflexivity.
  - change (String.substring 0 (String.length (String c s)) (String c s +:+ t))
      with (String c (String.substring 0 (String.length s) (s +:+ t))).
    now rewrite IH.
Qed.

Lemma length_append_one (s : string) (c : ascii) :
  (String.length (s +:+ String c EmptyString) - 1)%nat = String.length s.
Proof.
  assert (String.length (s +:+ String c EmptyString) = S (String.length s)) as ->.
  { induction s as [| d s IH]; [reflexivity |].
    change (S (String.length (s +:+ String c EmptyString)) = S (S (String.length s))).
    now rewrite IH. }
  lia.
Qed.

Lemma dropLast_append (s : string) (c : ascii) :
  dropLast (s +:+ String c EmptyString) = s.
Proof.
  unfold dropLast. rewrite length_append_one. apply substring_append_l.
Qed.

(** X1. The readers of literals strip the delimiters: a text between
    single quotes is read by [ParseStringLiteral] as the text between
    them and by [ParseGuidLiteral] as the GUID of that text, a text
    between double quotes is read by [ParsePointTagLiteral] as the text
    between them; a text that starts with another character is read as it
    is. *)
Theorem literal_delimiters (external : External) (s : string) :
  ParseStringLiteral (String "'" (s +:+ "'")) = s
  /\ ParsePointTagLiteral (quoted s) = s
  /\ ParseGuidLiteral (String "'" (s +:+ "'")) = ParseGuid s
  /\ (forall c rest, c <> "'"%char ->
        ParseStringLiteral (String c rest) = String c rest
        /\ ParseGuidLiteral (String c rest) = ParseGuid (String c rest))
  /\ (forall c rest, c <> "034"%char ->
        ParsePointTagLiteral (String c rest) = String c rest).
Proof.
  repeat split.
  - cbn. apply dropLast_append.
  - unfold quoted. cbn. apply dropLast_append.
  - cbn. now rewrite dropLast_append.
  - unfold ParseStringLiteral.
    destruct c as [[] [] [] [] [] [] [] []]; try reflexivity. congruence.
  - unfold ParseGuidLiteral.
    destruct c as [[] [] [] [] [] [] [] []]; try reflexivity. congruence.
  - unfold ParsePointTagLiteral.
    destruct c as [[] [] [] [] [] [] [] []]; try reflexivity. congruence.
Qed.

Lemma RoundToDouble_nearest (n : Z) :
  2 ^ 53 <= n < 2 ^ 63 - 512 ->
  Z.even (RoundToDouble n) = true
  /\ Z.abs (RoundToDouble n - n) <= 512
  /\ 2 ^ 53 <= RoundToDouble n < 2 ^ 63.
Proof.
  intros [L U]. unfold RoundToDouble.
  destruct (Z.ltb_spec n (2 ^ 53)); [lia |].
  assert (0 < n) as P by lia.
  pose proof (Z.log2_spec n P) as [K1 K2].
  assert (53 <= Z.log2 n <= 62) as [K3 K4].
  { split.
    - apply Z.log2_le_pow2; lia.
    - assert (Z.log2 n < 63); [| lia]. apply Z.log2_lt_pow2; lia. }
  set (e := Z.log2 n - 52).
  assert (e = 1 \/ e = 2 \/ e = 3 \/ e = 4 \/ e = 5 \/ e = 6 \/ e = 7 \/ e = 8
          \/ e = 9 \/ e = 10) as E by lia.
  assert (Z.log2 n = e + 52) as EL by lia. rewrite EL in K1, K2.
  clearbody e.
  assert (forall q, Z.even (q * 2 ^ e) = true) as EV.
  { intros q. rewrite Z.even_mul. apply orb_true_iff. right.
    replace e with (Z.succ (e - 1)) by lia. rewrite Z.pow_succ_r by lia.
    rewrite Z.even_mul. reflexivity. }
  repeat match goal with H : _ \/ _ |- _ => destruct H as [? | H] end; subst e;
    cbn [Z.sub Z.pos_sub Z.add Z.opp Z.pow Z.pow_pos Pos.iter Z.mul Pos.mul
         Z.succ_double Z.pred_double Pos.pred_double Z.double]
      in *;
    match goal with
    | |- context [n / ?d] =>
        pose proof (Z.div_mod n d ltac:(lia));
        pose proof (Z.mod_pos_bound n d ltac:(lia))
    end;
    repeat match goal with
           | |- context [if ?b then _ else _] =>
               match b with
               | Z.ltb ?x ?y => destruct (Z.ltb_spec x y)
               | Z.even ?x => destruct (Z.even x)
               end
           end;
    (split; [apply EV || (rewrite Z.even_mul; apply orb_true_iff; right; reflexivity)
            | split; lia]).
Qed.

Lemma DBL_MAX_above_Int64 : 2 ^ 63 <= DBL_MAX.
Proof. vm_compute. discriminate. Qed.

(** X2. The value of an INTEGER literal of digits that spell [n]: an
    Int32 of value [n] up to [Int32.MaxValue]; an Int64 of value [n] above
    it and below 2^53; from 2^53 on and below 2^63 - 512 an Int64 that
    need not be [n]: the literal goes through a double, so the value is
    [n] rounded to the nearest double, an even number at most 512 away
    from [n]. *)
Theorem exitLiteralValue_INTEGER_LITERAL_value (c : ascii) (rest : string) (n : Z) :
  ParseDigits (String c rest) 0 = Some n ->
  (n <= Int32.MaxValue ->
     exitLiteralValue_INTEGER_LITERAL (String c rest)
     = LiteralValue (NewValueExpression ExpressionValueType.Int32 (Some (PInt32 n))))
  /\ (Int32.MaxValue < n < 2 ^ 53 ->
      exitLiteralValue_INTEGER_LITERAL (String c rest)
      = LiteralValue (NewValueExpression ExpressionValueType.Int64 (Some (PInt64 n))))
  /\ (2 ^ 53 <= n < 2 ^ 63 - 512 ->
      exists v,
        exitLiteralValue_INTEGER_LITERAL (String c rest)
        = LiteralValue (NewValueExpression ExpressionValueType.Int64 (Some (PInt64 v)))
        /\ v = RoundToDouble n
        /\ Z.even v = true
        /\ Z.abs (v - n) <= 512).
Proof.
  intros P. split; [| split].
  - intros U. now apply exitLiteralValue_INTEGER_LITERAL_Int32.
  - intros U. now apply exitLiteralValue_INTEGER_LITERAL_Int64.
  - intros R. destruct (RoundToDouble_nearest n R) as (EV & AB & L & U).
    exists (RoundToDouble n). repeat split; try assumption.
    rewrite (exitLiteralValue_INTEGER_LITERAL_cases c rest n P). cbv zeta.
    pose proof DBL_MAX_above_Int64 as D.
    destruct (Z.ltb_spec DBL_MAX (RoundToDouble n)); [lia |].
    destruct (Z.ltb_spec (2 ^ 63) (RoundToDouble n)); [lia |].
    destruct (Z.ltb_spec 2147483647 (RoundToDouble n)); [| lia].
    destruct (Z.ltb_spec (RoundToDouble n) (2 ^ 63)); [reflexivity | lia].
Qed.

Lemma exitLiteralValue_INTEGER_LITERAL_value_witness :
  exitLiteralValue_INTEGER_LITERAL "2147483648"
  = LiteralValue (NewValueExpression ExpressionValueType.Int64 (Some (PInt64 2147483648)))
  /\ exists v,
       exitLiteralValue_INTEGER_LITERAL "9007199254740993"
       = LiteralValue (NewValueExpression ExpressionValueType.Int64 (Some (PInt64 v)))
       /\ v = RoundToDouble 9007199254740993
       /\ Z.even v = true
       /\ Z.abs (v - 9007199254740993) <= 512.
Proof.
  split.
  - apply (exitLiteralValue_INTEGER_LITERAL_value "2" "147483648" 2147483648 eq_refl).
    unfold Int32.MaxValue. lia.
  - apply (exitLiteralValue_INTEGER_LITERAL_value "9" "007199254740993"
             9007199254740993 eq_refl).
    lia.
Defined.

(** ** The order of the sorted rows *)

(** X3. The comparator that [Evaluate] hands to [std::sort] is
    irreflexive and asymmetric for every list of order-by terms.  On rows
    that have no NaN in the columns of the order-by terms it is a strict
    weak ordering: it is transitive, and being tied is transitive.  A NaN
    breaks that: in a Double column the values 1 and NaN tie and NaN and 2
    tie, but 1 and 2 do not, and with a second column behind it being
    ordered before is not transitive either.  [std::sort] is then called outside its
    contract. *)
Theorem orderByComparator_strict_weak :
  (forall orderByTerms : list (DataColumn * bool),
      (forall a, orderByComparator orderByTerms a a = false)
      /\ (forall a b, orderByComparator orderByTerms a b = true ->
                      orderByComparator orderByTerms b a = false)
      /\ (forall a b c,
            NaNFree orderByTerms a = true -> NaNFree orderByTerms b = true ->
            NaNFree orderByTerms c = true ->
            orderByComparator orderByTerms a b = true ->
            orderByComparator orderByTerms b c = true ->
            orderByComparator orderByTerms a c = true)
      /\ (forall a b c,
            NaNFree orderByTerms a = true -> NaNFree orderByTerms b = true ->
            NaNFree orderByTerms c = true ->
            tied orderByTerms a b = true -> tied orderByTerms b c = true ->
            tied orderByTerms a c = true))
  /\ (tied [(valueColumn, true)] (valueRow (Finite 1)) (valueRow NaN) = true
      /\ tied [(valueColumn, true)] (valueRow NaN) (valueRow (Finite 2)) = true
      /\ tied [(valueColumn, true)] (valueRow (Finite 1)) (valueRow (Finite 2)) = false)
  /\ (orderByComparator [(valueColumn, true); (countColumn, true)]
        [Some (CDouble (Finite 1)); Some (CInt32 1)]
        [Some (CDouble NaN); Some (CInt32 2)] = true
      /\ orderByComparator [(valueColumn, true); (countColumn, true)]
           [Some (CDouble NaN); Some (CInt32 2)]
           [Some (CDouble (Finite 0)); Some (CInt32 3)] = true
      /\ orderByComparator [(valueColumn, true); (countColumn, true)]
           [Some (CDouble (Finite 1)); Some (CInt32 1)]
           [Some (CDouble (Finite 0)); Some (CInt32 3)] = false).
Proof.
  split; [| split; repeat split; vm_compute; reflexivity].
  intros orderByTerms.
  pose proof (orderByComparator_StrictWeakOrdering orderByTerms) as SWO.
  repeat split.
  - apply orderByComparator_irreflexive.
  - apply orderByComparator_asymmetric.
  - apply (swo_transitive _ _ SWO).
  - intros a b c Na Nb Nc. unfold tied. rewrite !andb_true_iff, !negb_true_iff.
    intros [L1 L2] [L3 L4].
    exact (swo_incomparable _ _ SWO a b c Na Nb Nc L1 L2 L3 L4).
Qed.

Lemma orderByComparator_strict_weak_witness :
  tied [(valueColumn, true)] (valueRow (Finite 2)) (valueRow (Finite (6 # 3))) = true.
Proof.
  apply (proj2 (proj2 (proj2 (proj1 orderByComparator_strict_weak [(valueColumn, true)])))
           (valueRow (Finite 2)) (valueRow (Finite (4 # 2))) (valueRow (Finite (6 # 3))));
    reflexivity.
Defined.

Lemma bool_decide_is_Some {A : Type} (o : option A) :
  bool_decide (is_Some o) = match o with Some _ => true | None => false end.
Proof.
  destruct o.
  - apply bool_decide_eq_true. eauto.
  - apply bool_decide_eq_false. intros [x E]. discriminate.
Qed.

Lemma columnCompare_null (column : DataColumn) (a b : DataRow) :
  HasValue column a = false ->
  columnCompare column a b = (if HasValue column b then -1 else 0)
  /\ columnCompare column b a = (if HasValue column b then 1 else 0).
Proof.
  unfold HasValue, columnCompare, compareOrderByTerm. cbn [fst snd].
  destruct (Column_Type column); rewrite !bool_decide_is_Some;
    unfold CompareValues;
    repeat match goal with
           | |- context [match ?o with Some _ => _ | None => _ end] => destruct o
           end; intros; try discriminate; split; reflexivity.
Qed.

(** X4. Null sorts first: under an ascending order-by term a row whose
    cell is null is ordered before every row whose cell has a value and
    under a descending term after it, whatever the terms that follow; two
    rows whose cells are null are ordered by the terms that follow. *)
Theorem orderByComparator_nulls (column : DataColumn) (rest : list (DataColumn * bool))
    (a b : DataRow) :
  HasValue column a = false ->
  (HasValue column b = true ->
     orderByComparator ((column, true) :: rest) a b = true
     /\ orderByComparator ((column, true) :: rest) b a = false
     /\ orderByComparator ((column, false) :: rest) a b = false
     /\ orderByComparator ((column, false) :: rest) b a = true)
  /\ (HasValue column b = false ->
      forall ascending,
        orderByComparator ((column, ascending) :: rest) a b = orderByComparator rest a b
        /\ orderByComparator ((column, ascending) :: rest) b a = orderByComparator rest b a).
Proof.
  intros A. destruct (columnCompare_null column a b A) as [L R].
  split.
  - intros B. rewrite B in L, R. cbn [orderByComparator].
    rewrite !compareOrderByTerm_columnCompare, L, R. repeat split; reflexivity.
  - intros B ascending. rewrite B in L, R. cbn [orderByComparator].
    rewrite !compareOrderByTerm_columnCompare.
    destruct ascending; rewrite L, R; split; reflexivity.
Qed.

Lemma orderByComparator_nulls_witness :
  orderByComparator [(rankColumn, true)] [None; Some (CString "A")] tiedRowA = true
  /\ orderByComparator [(rankColumn, false)] tiedRowA [None; Some (CString "A")] = true.
Proof.
  destruct (proj1 (orderByComparator_nulls rankColumn [] [None; Some (CString "A")]
                     tiedRowA eq_refl) eq_refl) as (L1 & _ & _ & L4).
  split; [exact L1 | exact L4].
Defined.

(** ** Statements and their expression trees *)

Lemma updateActiveExpressionTree_last f trees tree p :
  m_expressionTrees p = trees ++ [tree] ->
  m_activeExpressionTree p = Some tree ->
  updateActiveExpressionTree f p
  = Ok tt (with_expressionTrees (trees ++ [f tree]) (Some (f tree)) p).
Proof.
  intros T A. unfold updateActiveExpressionTree. rewrite A, T.
  now rewrite removelast_last.
Qed.

Lemma enterFilterStatement_orderingTerms_run measurements terms trees tree p :
  m_expressionTrees p = trees ++ [tree] ->
  m_activeExpressionTree p = Some tree ->
  match resolveOrderingTerms measurements terms with
  | Some resolved =>
      enterFilterStatement_orderingTerms measurements terms p
      = Ok tt (with_expressionTrees (trees ++ [addOrderByTerms tree resolved])
                 (Some (addOrderByTerms tree resolved)) p)
  | None =>
      exists message p',
        enterFilterStatement_orderingTerms measurements terms p = Throw message p'
  end.
Proof.
  revert tree p. induction terms as [| term rest IH]; intros tree p T A.
  - destruct p, tree. cbn in T, A |- *. subst.
    unfold addOrderByTerms, with_expressionTrees. cbn. rewrite app_nil_r. reflexivity.
  - cbn [resolveOrderingTerms enterFilterStatement_orderingTerms].
    destruct (DataTable_Column measurements (orderByColumnName term)) as [column |];
      [| eexists _, _; reflexivity].
    rewrite bind_run.
    rewrite (updateActiveExpressionTree_last _ trees tree p T A). cbv beta iota.
    match goal with |- context [enterFilterStatement_orderingTerms _ rest ?q] =>
      specialize (IH (addOrderByTerms tree [(column, negb (K_DESC term))]) q
                     eq_refl eq_refl) end.
    destruct (resolveOrderingTerms measurements rest) as [resolved |].
    + etransitivity; [exact IH |]. unfold addOrderByTerms. cbn.
      rewrite <- app_assoc. reflexivity.
    + exact IH.
Qed.

Lemma enterFilterStatement_run context p dataSet :
  m_dataSet p = Some dataSet ->
  match DataSet_Table dataSet (tableName context) with
  | None => exists message, enterFilterStatement context p = Throw message p
  | Some measurements =>
      match statementLimit context with
      | Throws message => exists p', enterFilterStatement context p = Throw message p'
      | Returns limit =>
          match resolveOrderingTerms measurements (statementOrderingTerms context) with
          | None => exists message p', enterFilterStatement context p = Throw message p'
          | Some orderByTerms =>
              enterFilterStatement context p
              = Ok tt (pushExpressionTree
                         {| Measurements := measurements; TopLimit := limit;
                            OrderByTerms := orderByTerms; Root := None |} p)
          end
      end
  end.
Proof.
  intros D. unfold enterFilterStatement. run. rewrite D.
  destruct (DataSet_Table dataSet (tableName context)) as [measurements |];
    [| eexists; reflexivity].
  run. unfold statementLimit, statementOrderingTerms.
  set (p0 := with_expressionTrees _ _ p).
  assert (m_expressionTrees p0 = m_expressionTrees p ++ [NewExpressionTree measurements])
    as T0 by reflexivity.
  assert (m_activeExpressionTree p0 = Some (NewExpressionTree measurements))
    as A0 by reflexivity.
  assert (forall limit (p1 : FilterExpressionParser),
             p1 = with_expressionTrees
                    (m_expressionTrees p
                     ++ [{| Measurements := measurements; TopLimit := limit;
                            OrderByTerms := []; Root := None |}])
                    (Some {| Measurements := measurements; TopLimit := limit;
                             OrderByTerms := []; Root := None |}) p ->
             match resolveOrderingTerms measurements
                     (if K_ORDER context && K_BY context then orderingTerm context else [])
             with
             | Some orderByTerms =>
                 (if K_ORDER context && K_BY context
                  then enterFilterStatement_orderingTerms measurements (orderingTerm context)
                  else mret tt) p1
                 = Ok tt (pushExpressionTree
                            {| Measurements := measurements; TopLimit := limit;
                               OrderByTerms := orderByTerms; Root := None |} p)
             | None =>
                 exists message p',
                   (if K_ORDER context && K_BY context
                    then enterFilterStatement_orderingTerms measurements (orderingTerm context)
                    else mret tt) p1 = Throw message p'
             end) as O.
  { intros limit p1 ->. destruct (K_ORDER context && K_BY context).
    - match goal with |- context [enterFilterStatement_orderingTerms _ _ ?q] =>
        pose proof (enterFilterStatement_orderingTerms_run measurements
                      (orderingTerm context) (m_expressionTrees p)
                      {| Measurements := measurements; TopLimit := limit;
                         OrderByTerms := []; Root := None |} q eq_refl eq_refl) as R end.
      destruct (resolveOrderingTerms measurements (orderingTerm context)); exact R.
    - reflexivity. }
  destruct (K_TOP context).
  - destruct (stoi (topLimit context)) as [limit | message]; run.
    + rewrite (updateActiveExpressionTree_last _ (m_expressionTrees p)
                 (NewExpressionTree measurements) p0 T0 A0).
      cbv beta iota. apply O. reflexivity.
    + eexists. reflexivity.
  - run. apply O. reflexivity.
Qed.

(** X5. [enterFilterStatement] on a parser with a data set: when the
    table of the statement is in the data set, [std::stoi] reads a number
    in the text of the TOP limit (leading blanks, a sign, digits, whatever
    follows them) and every order-by column is a column of the table, it
    pushes an expression tree with that table, that limit (-1 without
    TOP), the order-by terms in order (ascending unless DESC) and no root,
    and makes it the active tree; it returns in no other case. *)
Theorem enterFilterStatement_expressionTree (context : FilterStatementContext)
    (p : FilterExpressionParser) (dataSet : DataSet) :
  m_dataSet p = Some dataSet ->
  (forall measurements limit orderByTerms,
      DataSet_Table dataSet (tableName context) = Some measurements ->
      statementLimit context = Returns limit ->
      resolveOrderingTerms measurements (statementOrderingTerms context)
      = Some orderByTerms ->
      enterFilterStatement context p
      = Ok tt (pushExpressionTree
                 {| Measurements := measurements; TopLimit := limit;
                    OrderByTerms := orderByTerms; Root := None |} p))
  /\ (forall p',
        enterFilterStatement context p = Ok tt p' ->
        exists measurements limit orderByTerms,
          DataSet_Table dataSet (tableName context) = Some measurements
          /\ statementLimit context = Returns limit
          /\ resolveOrderingTerms measurements (statementOrderingTerms context)
             = Some orderByTerms).
Proof.
  intros D. pose proof (enterFilterStatement_run context p dataSet D) as R. split.
  - intros measurements limit orderByTerms T L O. now rewrite T, L, O in R.
  - intros p' E.
    destruct (DataSet_Table dataSet (tableName context)) as [measurements |] eqn:T;
      [| destruct R as [message R]; congruence].
    destruct (statementLimit context) as [limit | message] eqn:L;
      [| destruct R as [q R]; congruence].
    destruct (resolveOrderingTerms measurements (statementOrderingTerms context))
      as [orderByTerms |] eqn:O; [| destruct R as (message & q & R); congruence].
    now exists measurements, limit, orderByTerms.
Qed.

Lemma walk_FilterStatement_run (external : External) context p dataSet p' :
  m_dataSet p = Some dataSet ->
  walk_statement (FilterStatement context) p = Ok tt p' ->
  exists tree, statementExpressionTree dataSet context tree
               /\ p' = pushExpressionTree tree p.
Proof.
  intros D. cbn [walk_statement]. rewrite bind_run.
  pose proof (enterFilterStatement_run context p dataSet D) as R.
  destruct (DataSet_Table dataSet (tableName context)) as [measurements |] eqn:T;
    [| destruct R as [message ->]; discriminate].
  destruct (statementLimit context) as [limit | message] eqn:L;
    [| destruct R as [q ->]; discriminate].
  destruct (resolveOrderingTerms measurements (statementOrderingTerms context))
    as [orderByTerms |] eqn:O; [| destruct R as (message & q & ->); discriminate].
  rewrite R. cbv beta iota. unfold walk_expression. run.
  cbn [m_activeExpressionTree pushExpressionTree with_expressionTrees Measurements].
  destruct (expression context measurements) as [root | message] eqn:X; run;
    [| discriminate].
  unfold AddExpr.
  match goal with |- context [updateActiveExpressionTree ?f ?q] =>
    rewrite (updateActiveExpressionTree_last f (m_expressionTrees p)
               {| Measurements := measurements; TopLimit := limit;
                  OrderByTerms := orderByTerms; Root := None |} q eq_refl eq_refl) end.
  intros [= <-].
  exists {| Measurements := measurements; TopLimit := limit;
            OrderByTerms := orderByTerms; Root := Some root |}.
  split; [| reflexivity].
  repeat split; cbn; try assumption. now exists root.
Qed.

Lemma treeBlind_ret {A : Type} (a : A) : treeBlind (mret a : M A).
Proof. intros p. split; reflexivity. Qed.

Lemma treeBlind_throw {A : Type} message : treeBlind (@throw A message).
Proof. intros p. split; reflexivity. Qed.

Lemma treeBlind_lift {A : Type} (e : Except A) : treeBlind (lift e).
Proof. intros p. destruct e; split; reflexivity. Qed.

Lemma treeBlind_gets {A : Type} (f : FilterExpressionParser -> A) :
  (forall trees active p, f (with_expressionTrees trees active p) = f p) ->
  treeBlind (gets f).
Proof. intros F p. split; [reflexivity |]. intros. unfold gets. now rewrite F. Qed.

Lemma treeBlind_modify f :
  (forall p, settings (f p) = settings p) ->
  (forall trees active p,
      f (with_expressionTrees trees active p) = with_expressionTrees trees active (f p)) ->
  treeBlind (modify f).
Proof.
  intros S F p. split; [apply S |]. intros. unfold modify. cbn. now rewrite F.
Qed.

Lemma treeBlind_bind {A B : Type} (m : M A) (f : A -> M B) :
  treeBlind m -> (forall a, treeBlind (f a)) -> treeBlind (m ≫= f).
Proof.
  intros Hm Hf p. destruct (Hm p) as [S C]. split.
  - rewrite bind_run. destruct (m p) as [a p1 | message p1]; cbn in S |- *.
    + destruct (Hf a p1) as [S1 _]. congruence.
    + exact S.
  - intros trees active. rewrite !bind_run, C.
    destruct (m p) as [a p1 | message p1]; cbn; [| reflexivity].
    apply (Hf a p1).
Qed.

Lemma treeBlind_insertSignalID signalID : treeBlind (insertSignalID signalID).
Proof.
  intros p. unfold insertSignalID. split.
  - destruct (bool_decide (signalID ∈ m_filteredSignalIDSet p)); reflexivity.
  - intros. cbn. destruct (bool_decide (signalID ∈ m_filteredSignalIDSet p)); reflexivity.
Qed.

Lemma treeBlind_push_filteredSignalID signalID : treeBlind (push_filteredSignalID signalID).
Proof. apply treeBlind_modify; reflexivity. Qed.

Lemma treeBlind_push_filteredRow row : treeBlind (push_filteredRow row).
Proof. apply treeBlind_modify; reflexivity. Qed.

Ltac blind :=
  repeat first
    [ apply treeBlind_ret | apply treeBlind_throw | apply treeBlind_lift
    | apply treeBlind_insertSignalID | apply treeBlind_push_filteredSignalID
    | apply treeBlind_push_filteredRow
    | apply treeBlind_gets; reflexivity
    | apply treeBlind_bind; [| intros ?]
    | match goal with
      | |- treeBlind (if ?b then _ else _) => destruct b
      | |- treeBlind (match ?o with Some _ => _ | None => _ end) => destruct o
      end ].

Lemma treeBlind_MapMeasurement_row signalIDColumnIndex columnIndex mappingValue row :
  treeBlind (MapMeasurement_row signalIDColumnIndex columnIndex mappingValue row).
Proof. unfold MapMeasurement_row. blind. Qed.

Lemma treeBlind_MapMeasurement_rows signalIDColumnIndex columnIndex mappingValue rows :
  treeBlind (MapMeasurement_rows signalIDColumnIndex columnIndex mappingValue rows).
Proof.
  induction rows as [| x rows IH]; cbn [MapMeasurement_rows].
  - blind.
  - destruct x as [row |]; [| exact IH].
    apply treeBlind_bind; [apply treeBlind_MapMeasurement_row |].
    intros [|]; [blind | exact IH].
Qed.

Lemma treeBlind_MapMeasurement measurements signalIDColumnIndex columnName mappingValue :
  treeBlind (MapMeasurement measurements signalIDColumnIndex columnName mappingValue).
Proof.
  unfold MapMeasurement. destruct (DataTable_Column measurements columnName).
  - apply treeBlind_MapMeasurement_rows.
  - blind.
Qed.

Lemma treeBlind_exitIdentifierStatement_rows signalIDColumnIndex signalID rows :
  treeBlind (exitIdentifierStatement_rows signalIDColumnIndex signalID rows).
Proof.
  induction rows as [| x rows IH]; cbn [exitIdentifierStatement_rows].
  - blind.
  - destruct x as [row |]; [| exact IH].
    destruct (ValueAsGuid row signalIDColumnIndex) as [g |]; [| exact IH].
    destruct (bool_decide (g = signalID)); [blind | exact IH].
Qed.

Lemma treeBlind_exitIdentifierStatement_lookup context signalID :
  treeBlind (exitIdentifierStatement_lookup context signalID).
Proof.
  unfold exitIdentifierStatement_lookup.
  apply treeBlind_bind; [blind | intros trackFilteredRows].
  apply treeBlind_bind; [blind | intros dataSet].
  apply treeBlind_bind; [blind | intros name].
  destruct dataSet as [dataSet |]; [| blind].
  destruct (DataSet_Table dataSet name) as [measurements |]; [| blind].
  apply treeBlind_bind; [blind | intros fields].
  destruct fields as [fields |]; [| blind].
  destruct (DataTable_Column measurements (SignalIDFieldName fields)); [| blind].
  destruct (trackFilteredRows && bool_decide (signalID ≠ Empty.Guid)).
  - apply treeBlind_exitIdentifierStatement_rows.
  - destruct (MEASUREMENT_KEY_LITERAL context); [apply treeBlind_MapMeasurement |].
    destruct (POINT_TAG_LITERAL context); [apply treeBlind_MapMeasurement | blind].
Qed.

Lemma treeBlind_exitIdentifierStatement (external : External) context :
  treeBlind (exitIdentifierStatement context).
Proof.
  unfold exitIdentifierStatement. destruct (GUID_LITERAL context) as [text |].
  - apply treeBlind_bind.
    + unfold exitIdentifierStatement_guid. blind.
    + intros _. apply treeBlind_bind; [blind | intros trackFilteredRows].
      destruct (negb trackFilteredRows);
        [blind | apply treeBlind_exitIdentifierStatement_lookup].
  - apply treeBlind_exitIdentifierStatement_lookup.
Qed.

Lemma with_expressionTrees_same p :
  with_expressionTrees (m_expressionTrees p) (m_activeExpressionTree p) p = p.
Proof. destruct p. reflexivity. Qed.

Lemma treeBlind_Ok {A : Type} (m : M A) p a p' :
  treeBlind m -> m p = Ok a p' ->
  settings p' = settings p
  /\ m_expressionTrees p' = m_expressionTrees p
  /\ m_activeExpressionTree p' = m_activeExpressionTree p
  /\ forall trees active,
       m (with_expressionTrees trees active p)
       = Ok a (with_expressionTrees trees active p').
Proof.
  intros B E. destruct (B p) as [S C]. rewrite E in S. cbn in S.
  pose proof (C (m_expressionTrees p) (m_activeExpressionTree p)) as I.
  rewrite with_expressionTrees_same, E in I. cbn in I. injection I as I.
  repeat split.
  - exact S.
  - now rewrite I.
  - now rewrite I.
  - intros trees active. now rewrite C, E.
Qed.

Lemma last_snoc_Some {A : Type} (l : list A) (x : A) : last (l ++ [x]) = Some x.
Proof. apply last_snoc. Qed.

(** The walk pushes one expression tree for each filter statement,
    in text order, and changes nothing else but what the identifier
    statements record. *)
Lemma walk_run (external : External) parseTree p dataSet p' :
  m_dataSet p = Some dataSet ->
  walk parseTree p = Ok tt p' ->
  exists trees,
    Forall2 (statementExpressionTree dataSet) (filterStatements parseTree) trees
    /\ m_expressionTrees p' = m_expressionTrees p ++ trees
    /\ m_activeExpressionTree p'
       = match last trees with
         | Some tree => Some tree
         | None => m_activeExpressionTree p
         end
    /\ settings p' = settings p.
Proof.
  revert p. induction parseTree as [| statement rest IH]; intros p D.
  - cbn. intros [= <-]. exists []. rewrite app_nil_r. repeat split. constructor.
  - cbn [walk]. rewrite bind_run.
    destruct (walk_statement statement p) as [[] p1 | message p1] eqn:W; [| discriminate].
    intros R. destruct statement as [context | context].
    + destruct (walk_FilterStatement_run external context p dataSet p1 D W)
        as (tree & T & ->).
      destruct (IH (pushExpressionTree tree p) D R) as (trees & F & E & A & S).
      exists (tree :: trees). cbn [filterStatements omap] in *. repeat split.
      * now constructor.
      * rewrite E. cbn. now rewrite <- app_assoc.
      * rewrite A. cbn [pushExpressionTree with_expressionTrees m_activeExpressionTree].
        destruct trees as [| t trees]; [reflexivity |].
        change (tree :: t :: trees) with ([tree] ++ t :: trees).
        rewrite last_app. cbn. destruct (last (t :: trees)) eqn:L; [reflexivity |].
        now apply last_None in L.
      * exact S.
    + destruct (treeBlind_Ok _ p tt p1 (treeBlind_exitIdentifierStatement external context) W)
        as (S1 & T1 & A1 & _).
      assert (m_dataSet p1 = Some dataSet) as D1.
      { unfold settings in S1. injection S1 as _ -> _ _ _ _. exact D. }
      destruct (IH _ D1 R) as (trees & F & E & A & S).
      exists trees. cbn [filterStatements omap]. repeat split; try congruence.
      * exact F.
      * now rewrite A, A1.
Qed.

Lemma Evaluate_push_pushed signalIDColumnIndex matchedRows p :
  Evaluate_push signalIDColumnIndex matchedRows p
  = Ok tt (pushed signalIDColumnIndex matchedRows p).
Proof.
  revert p. induction matchedRows as [| row rest IH]; intros p.
  - destruct p as [? ? trackSignalIDs trackRows ? ? ? ? ? ? ?]. unfold pushed. cbn.
    destruct trackRows, trackSignalIDs; rewrite !app_nil_r; reflexivity.
  - cbn [Evaluate_push]. run. unfold push_filteredSignalID, push_filteredRow.
    destruct p as [? ? trackSignalIDs trackRows ? ? ? ? ? ? ?]. cbn.
    destruct trackSignalIDs, trackRows; run; rewrite IH;
      unfold pushed; cbn; rewrite <- ?app_assoc; reflexivity.
Qed.

Lemma Evaluate_sort_nil (sorting : StdSort) expressionTree :
  Evaluate_sort expressionTree [] = [].
Proof.
  pose proof (Evaluate_sort_Permutation sorting expressionTree []) as P.
  now apply Permutation_nil in P.
Qed.

Lemma Evaluate_signalIDColumnIndex_state measurements p signalIDColumnIndex p' :
  Evaluate_signalIDColumnIndex measurements p = Ok signalIDColumnIndex p' -> p' = p.
Proof.
  unfold Evaluate_signalIDColumnIndex. run.
  destruct (m_trackFilteredSignalIDs p); run; [| congruence].
  destruct (GetMeasurementTableIDFields _ p) as [fields |]; run; [| discriminate].
  destruct (DataTable_Column _ _); run; [congruence | discriminate].
Qed.

(** A tree that evaluates without error runs the row loop, sorts
    the matched rows and appends them. *)
Lemma Evaluate_tree_run (external : External) (sorting : StdSort) expressionTree p p' :
  Evaluate_tree expressionTree p = Ok tt p' ->
  exists signalIDColumnIndex matchedRows p1,
    Evaluate_signalIDColumnIndex (Measurements expressionTree) p
    = Ok signalIDColumnIndex p
    /\ Evaluate_rows expressionTree signalIDColumnIndex
         (Table_Rows (Measurements expressionTree)) [] p = Ok matchedRows p1
    /\ p' = pushed signalIDColumnIndex (Evaluate_sort expressionTree matchedRows) p1.
Proof.
  unfold Evaluate_tree. rewrite bind_run.
  destruct (Evaluate_signalIDColumnIndex (Measurements expressionTree) p)
    as [signalIDColumnIndex p0 | message p0] eqn:C; [| discriminate].
  apply Evaluate_signalIDColumnIndex_state in C as E0. subst p0.
  cbv beta iota. rewrite bind_run.
  destruct (Evaluate_rows expressionTree signalIDColumnIndex
              (Table_Rows (Measurements expressionTree)) [] p)
    as [matchedRows p1 | message p1] eqn:R; [| discriminate].
  cbv beta iota. intros E. exists signalIDColumnIndex, matchedRows, p1.
  split; [reflexivity | split; [exact R |]].
  destruct matchedRows as [| row matchedRows].
  - injection E as <-. rewrite Evaluate_sort_nil. unfold pushed.
    destruct p1 as [? ? trackSignalIDs trackRows ? ? ? ? ? ? ?]. cbn.
    destruct trackRows, trackSignalIDs;
      rewrite !app_nil_r; reflexivity.
  - rewrite Evaluate_push_pushed in E. now injection E as <-.
Qed.

Lemma Evaluate_row_select (external : External) expressionTree signalIDColumnIndex
    row matchedRows p matchedRows' p' :
  m_trackFilteredSignalIDs p = false ->
  Evaluate_row expressionTree signalIDColumnIndex row matchedRows p = Ok matchedRows' p' ->
  p' = p
  /\ matchedRows' = matchedRows ++ (if rowSelected external expressionTree row
                                    then [row] else []).
Proof.
  intros T. unfold Evaluate_row, rowSelected. run.
  destruct (ExpressionTree_Evaluate expressionTree row) as [value | message]; run;
    [| discriminate].
  destruct (ExpressionValueType.eqb (ValueType value) ExpressionValueType.Boolean);
    cbn [negb andb]; run; [| discriminate].
  destruct (ValueExpression_ValueAsBoolean value).
  - unfold Evaluate_matched. run. rewrite T. run. intros [= <- <-]. auto.
  - run. intros [= <- <-]. now rewrite app_nil_r.
Qed.

Lemma Evaluate_rows_select (external : External) expressionTree signalIDColumnIndex
    rows matchedRows p matchedRows' p' :
  m_trackFilteredSignalIDs p = false ->
  (-1 < TopLimit expressionTree ->
   Z.of_nat (length matchedRows) <= TopLimit expressionTree) ->
  Evaluate_rows expressionTree signalIDColumnIndex rows matchedRows p
  = Ok matchedRows' p' ->
  p' = p
  /\ matchedRows'
     = takeTop (TopLimit expressionTree)
         (matchedRows ++ List.filter (rowSelected external expressionTree) (omap id rows)).
Proof.
  intros T. revert matchedRows matchedRows' p'.
  induction rows as [| x rows IH]; intros matchedRows matchedRows' p' B.
  - cbn. run. intros [= <- <-]. split; [reflexivity |]. rewrite app_nil_r.
    unfold takeTop. destruct (Z.ltb_spec (-1) (TopLimit expressionTree)); [| reflexivity].
    symmetry. apply take_ge. specialize (B ltac:(assumption)). lia.
  - destruct (topLimitReached expressionTree matchedRows) eqn:R.
    + rewrite Evaluate_rows_reached by exact R. intros [= <- <-].
      split; [reflexivity |]. unfold topLimitReached in R.
      apply andb_true_iff in R as [R1 R2]. unfold takeTop. rewrite R1.
      apply Z.ltb_lt in R1. apply Z.leb_le in R2. specialize (B R1).
      rewrite take_app_le by lia. symmetry. apply take_ge. lia.
    + rewrite Evaluate_rows_cons by exact R.
      assert (-1 < TopLimit expressionTree ->
              Z.of_nat (length matchedRows) < TopLimit expressionTree) as Lt.
      { intros L. unfold topLimitReached in R. apply andb_false_iff in R as [R | R].
        - apply Z.ltb_ge in R. lia.
        - apply Z.leb_gt in R. lia. }
      destruct x as [row |];
        [| change (omap id (None :: rows)) with (omap id rows); now apply IH].
      destruct (Evaluate_row expressionTree signalIDColumnIndex row matchedRows p)
        as [m1 p1 | message p1] eqn:E; [| discriminate].
      destruct (Evaluate_row_select external _ _ _ _ _ _ _ T E) as [-> ->].
      intros S. apply IH in S.
      * destruct S as [-> ->]. split; [reflexivity |].
        change (omap id (Some row :: rows)) with (row :: omap id rows).
        cbn [List.filter].
        destruct (rowSelected external expressionTree row); cbn [app];
          rewrite <- ?app_assoc, ?app_nil_r; reflexivity.
      * intros L. specialize (Lt L).
        destruct (rowSelected external expressionTree row);
          rewrite length_app; cbn; lia.
Qed.

Lemma with_filteredSignalIDSet_same p :
  with_filteredSignalIDSet (m_filteredSignalIDSet p) p = p.
Proof. destruct p. reflexivity. Qed.

(** The row loop writes nothing but the set of signal IDs, and a
    row it matches while signal IDs are tracked has a signal ID. *)
Lemma Evaluate_matched_state signalIDColumnIndex row matchedRows p matchedRows' p' :
  Evaluate_matched signalIDColumnIndex row matchedRows p = Ok matchedRows' p' ->
  p' = with_filteredSignalIDSet (m_filteredSignalIDSet p') p
  /\ (matchedRows' = matchedRows
      \/ (matchedRows' = matchedRows ++ [row]
          /\ (m_trackFilteredSignalIDs p = true ->
              is_Some (ValueAsGuid row signalIDColumnIndex)))).
Proof.
  unfold Evaluate_matched. run. destruct (m_trackFilteredSignalIDs p) eqn:T.
  - destruct (ValueAsGuid row signalIDColumnIndex) as [g |]; run.
    + destruct (bool_decide (g ≠ Empty.Guid)); run.
      * unfold insertSignalID.
        destruct (bool_decide (g ∈ m_filteredSignalIDSet p)); run; intros [= <- <-].
        -- split; [symmetry; apply with_filteredSignalIDSet_same | now left].
        -- split; [reflexivity | right; eauto].
      * intros [= <- <-].
        split; [symmetry; apply with_filteredSignalIDSet_same | now left].
    + intros [= <- <-].
      split; [symmetry; apply with_filteredSignalIDSet_same | now left].
  - intros [= <- <-].
    split; [symmetry; apply with_filteredSignalIDSet_same |]. right. split; [reflexivity |].
    discriminate.
Qed.

Lemma Evaluate_row_state (external : External) expressionTree signalIDColumnIndex
    row matchedRows p matchedRows' p' :
  Evaluate_row expressionTree signalIDColumnIndex row matchedRows p = Ok matchedRows' p' ->
  p' = with_filteredSignalIDSet (m_filteredSignalIDSet p') p
  /\ (matchedRows' = matchedRows
      \/ (matchedRows' = matchedRows ++ [row]
          /\ (m_trackFilteredSignalIDs p = true ->
              is_Some (ValueAsGuid row signalIDColumnIndex)))).
Proof.
  unfold Evaluate_row. run.
  destruct (ExpressionTree_Evaluate expressionTree row) as [value | message]; run;
    [| discriminate].
  destruct (negb (ExpressionValueType.eqb (ValueType value) ExpressionValueType.Boolean));
    run; [discriminate |].
  destruct (ValueExpression_ValueAsBoolean value).
  - apply Evaluate_matched_state.
  - run. intros [= <- <-].
    split; [symmetry; apply with_filteredSignalIDSet_same | now left].
Qed.

Lemma Evaluate_rows_state (external : External) expressionTree signalIDColumnIndex
    rows matchedRows p matchedRows' p' :
  Evaluate_rows expressionTree signalIDColumnIndex rows matchedRows p
  = Ok matchedRows' p' ->
  p' = with_filteredSignalIDSet (m_filteredSignalIDSet p') p
  /\ (m_trackFilteredSignalIDs p = true ->
      Forall (fun row => is_Some (ValueAsGuid row signalIDColumnIndex)) matchedRows ->
      Forall (fun row => is_Some (ValueAsGuid row signalIDColumnIndex)) matchedRows').
Proof.
  revert matchedRows p. induction rows as [| x rows IH]; intros matchedRows p.
  - cbn. run. intros [= <- <-].
    split; [symmetry; apply with_filteredSignalIDSet_same | auto].
  - destruct (topLimitReached expressionTree matchedRows) eqn:R.
    + rewrite Evaluate_rows_reached by exact R. intros [= <- <-].
      split; [symmetry; apply with_filteredSignalIDSet_same | auto].
    + rewrite Evaluate_rows_cons by exact R. destruct x as [row |]; [| apply IH].
      destruct (Evaluate_row expressionTree signalIDColumnIndex row matchedRows p)
        as [m1 p1 | message p1] eqn:E; [| discriminate].
      destruct (Evaluate_row_state external _ _ _ _ _ _ _ E) as [S1 G1].
      intros S. destruct (IH _ _ S) as [S2 G2]. split.
      * transitivity (with_filteredSignalIDSet (m_filteredSignalIDSet p') p1);
          [exact S2 |]. rewrite S1. reflexivity.
      * intros T F. apply G2.
        -- rewrite S1. exact T.
        -- destruct G1 as [-> | [-> H]]; [exact F |].
           apply Forall_app. split; [exact F |]. constructor; [now apply H | constructor].
Qed.

Lemma Evaluate_tree_rows_only (external : External) (sorting : StdSort)
    expressionTree p p' :
  m_trackFilteredSignalIDs p = false ->
  Evaluate_tree expressionTree p = Ok tt p' ->
  p' = with_filteredRows
         (m_filteredRows p
          ++ (if m_trackFilteredRows p
              then Evaluate_sort expressionTree (selectedRows external expressionTree)
              else []))
         p.
Proof.
  intros T E.
  destruct (Evaluate_tree_run external sorting expressionTree p p' E)
    as (signalIDColumnIndex & matchedRows & p1 & C & R & ->).
  apply Evaluate_rows_select in R as [-> ->]; [| exact T | cbn; lia].
  unfold pushed. rewrite T. cbn [app]. unfold selectedRows, tableRows.
  destruct p. cbn. rewrite app_nil_r. reflexivity.
Qed.

(** X6. With rows tracked and signal IDs not, the evaluation of one
    expression tree that returns appends to [filteredRows] the rows that
    the statement selects, sorted, and changes nothing else: the selection
    is the rows of the table on which the root is true, in table order and
    cut at the TOP limit (all of them without limit), and the sort
    permutes it (and leaves it as it is without order-by terms). *)
Theorem Evaluate_tree_selects (external : External) (sorting : StdSort)
    (expressionTree : ExpressionTree) (p p' : FilterExpressionParser) :
  m_trackFilteredSignalIDs p = false ->
  m_trackFilteredRows p = true ->
  Evaluate_tree expressionTree p = Ok tt p' ->
  p' = with_filteredRows
         (m_filteredRows p
          ++ Evaluate_sort expressionTree (selectedRows external expressionTree)) p
  /\ Permutation (selectedRows external expressionTree)
                 (Evaluate_sort expressionTree (selectedRows external expressionTree))
  /\ (OrderByTerms expressionTree = [] ->
      Evaluate_sort expressionTree (selectedRows external expressionTree)
      = selectedRows external expressionTree)
  /\ (TopLimit expressionTree = -1 ->
      selectedRows external expressionTree
      = List.filter (rowSelected external expressionTree)
                    (tableRows (Measurements expressionTree))).
Proof.
  intros T R E. repeat split.
  - rewrite (Evaluate_tree_rows_only external sorting expressionTree p p' T E), R.
    reflexivity.
  - apply Evaluate_sort_Permutation.
  - intros O. unfold Evaluate_sort. now rewrite O.
  - intros L. unfold selectedRows, takeTop. now rewrite L.
Qed.

Lemma Evaluate_tree_selects_witness :
  m_filteredRows
    (finalState (@Evaluate_tree (Sample.external []) stableSort topOneTree
                   (SetTrackFilteredRows true
                      (SetTrackFilteredSignalIDs false sampleParser))))
  = [] ++ @Evaluate_sort stableSort topOneTree
            (selectedRows (Sample.external []) topOneTree).
Proof.
  set (p := SetTrackFilteredRows true (SetTrackFilteredSignalIDs false sampleParser)).
  destruct (@Evaluate_tree (Sample.external []) stableSort topOneTree p)
    as [[] p' | message p'] eqn:E; [| vm_compute in E; discriminate E].
  destruct (Evaluate_tree_selects (Sample.external []) stableSort topOneTree p p'
              eq_refl eq_refl E) as [-> _].
  reflexivity.
Defined.

Lemma Forall2_signalIDsOf signalIDColumnIndex rows :
  Forall (fun row => is_Some (ValueAsGuid row signalIDColumnIndex)) rows ->
  Forall2 (fun signalID row => ValueAsGuid row signalIDColumnIndex = Some signalID)
          (signalIDsOf signalIDColumnIndex rows) rows.
Proof.
  induction 1 as [| row rows [g G] F IH]; cbn; constructor.
  - rewrite G. reflexivity.
  - exact IH.
Qed.

(** X7. With signal IDs tracked, the evaluation of one expression tree
    that returns appends signal IDs and rows in lockstep: the matched rows
    are rows of the table in table order, [std::sort] rearranges them, and
    sorts them by the order-by terms when none of their cells in the
    columns of these terms is a NaN; the signal IDs appended to
    [filteredSignalIDs] are those of the rearranged rows, row by row, and
    the rows appended to [filteredRows] are the rearranged rows when rows
    are tracked and none otherwise. *)
Theorem Evaluate_tree_lockstep (external : External) (sorting : StdSort)
    (expressionTree : ExpressionTree) (p p' : FilterExpressionParser) :
  m_trackFilteredSignalIDs p = true ->
  Evaluate_tree expressionTree p = Ok tt p' ->
  exists signalIDColumnIndex matchedRows sorted signalIDs,
    Evaluate_signalIDColumnIndex (Measurements expressionTree) p
    = Ok signalIDColumnIndex p
    /\ matchedRows `sublist_of` tableRows (Measurements expressionTree)
    /\ Permutation matchedRows sorted
    /\ (Forall (fun row => NaNFree (OrderByTerms expressionTree) row = true) matchedRows ->
        SortedBy (orderByComparator (OrderByTerms expressionTree)) sorted)
    /\ Forall2 (fun signalID row => ValueAsGuid row signalIDColumnIndex = Some signalID)
               signalIDs sorted
    /\ m_filteredSignalIDs p' = m_filteredSignalIDs p ++ signalIDs
    /\ m_filteredRows p'
       = m_filteredRows p ++ (if m_trackFilteredRows p then sorted else []).
Proof.
  intros T E.
  destruct (Evaluate_tree_run external sorting expressionTree p p' E)
    as (signalIDColumnIndex & matchedRows & p1 & C & R & ->).
  destruct (Evaluate_rows_state external _ _ _ _ _ _ _ R) as [S F].
  specialize (F T (List.Forall_nil _)).
  destruct (Evaluate_rows_sublist external _ _ _ _ _ _ _ R) as (new & N & SL).
  cbn in N. subst new.
  pose proof (Evaluate_sort_Permutation sorting expressionTree matchedRows) as P.
  exists signalIDColumnIndex, matchedRows, (Evaluate_sort expressionTree matchedRows),
    (signalIDsOf signalIDColumnIndex (Evaluate_sort expressionTree matchedRows)).
  split; [exact C |]. split; [exact SL |]. split; [exact P |]. split.
  { apply Evaluate_sort_SortedBy. }
  split.
  { apply Forall2_signalIDsOf. now rewrite <- P. }
  rewrite S. unfold pushed. cbn. rewrite T. split; reflexivity.
Qed.

Lemma Evaluate_tree_lockstep_witness :
  exists signalIDs sorted,
    SortedBy (orderByComparator (OrderByTerms topOneTree)) sorted
    /\ Forall2 (fun signalID row => ValueAsGuid row 0 = Some signalID) signalIDs sorted
    /\ m_filteredSignalIDs
         (finalState (@Evaluate_tree (Sample.external []) stableSort topOneTree
                        (SetTrackFilteredRows true sampleParser)))
       = [] ++ signalIDs
    /\ m_filteredRows
         (finalState (@Evaluate_tree (Sample.external []) stableSort topOneTree
                        (SetTrackFilteredRows true sampleParser)))
       = [] ++ sorted.
Proof.
  set (p := SetTrackFilteredRows true sampleParser).
  destruct (@Evaluate_tree (Sample.external []) stableSort topOneTree p)
    as [[] p' | message p'] eqn:E; [| vm_compute in E; discriminate E].
  destruct (Evaluate_tree_lockstep (Sample.external []) stableSort topOneTree p p'
              eq_refl E)
    as (signalIDColumnIndex & matchedRows & sorted & signalIDs
        & C & SL & _ & St & F & I & R).
  assert (signalIDColumnIndex = 0) as -> by (vm_compute in C; congruence).
  exists signalIDs, sorted. split; [| split; [exact F | split; [exact I | exact R]]].
  apply St. apply Forall_forall. intros row M.
  apply (elem_of_sublist _ _ _ M) in SL. clear M.
  revert row SL. apply Forall_forall. repeat constructor.
Defined.

Lemma treeBlind_walk_identifierStatements (external : External) parseTree :
  treeBlind (walk (identifierStatements parseTree)).
Proof.
  induction parseTree as [| statement rest IH]; cbn.
  - apply treeBlind_ret.
  - destruct statement as [context | context]; [exact IH |].
    cbn [walk walk_statement]. apply treeBlind_bind.
    + apply treeBlind_exitIdentifierStatement.
    + intros _. exact IH.
Qed.

(** Apart from the expression trees, a walk does what the walk of
    its identifier statements alone does. *)
Lemma walk_identifierStatements (external : External) parseTree p dataSet p' :
  m_dataSet p = Some dataSet ->
  walk parseTree p = Ok tt p' ->
  walk (identifierStatements parseTree) p
  = Ok tt (with_expressionTrees (m_expressionTrees p) (m_activeExpressionTree p) p').
Proof.
  revert p. induction parseTree as [| statement rest IH]; intros p D.
  - cbn. intros [= <-]. now rewrite with_expressionTrees_same.
  - cbn [walk]. rewrite bind_run.
    destruct (walk_statement statement p) as [[] p1 | message p1] eqn:W; [| discriminate].
    intros R. destruct statement as [context | context].
    + destruct (walk_FilterStatement_run external context p dataSet p1 D W)
        as (tree & T & ->).
      specialize (IH (pushExpressionTree tree p) D R).
      cbn [identifierStatements List.filter].
      destruct (treeBlind_Ok _ _ _ _ (treeBlind_walk_identifierStatements external rest) IH)
        as (_ & _ & _ & B).
      specialize (B (m_expressionTrees p) (m_activeExpressionTree p)).
      unfold pushExpressionTree in B.
      change (with_expressionTrees (m_expressionTrees p) (m_activeExpressionTree p)
                (with_expressionTrees (m_expressionTrees p ++ [tree]) (Some tree) p))
        with (with_expressionTrees (m_expressionTrees p) (m_activeExpressionTree p) p)
        in B.
      rewrite with_expressionTrees_same in B. exact B.
    + destruct (treeBlind_Ok _ p tt p1 (treeBlind_exitIdentifierStatement external context) W)
        as (S1 & T1 & A1 & _).
      assert (m_dataSet p1 = Some dataSet) as D1.
      { unfold settings in S1. injection S1 as _ -> _ _ _ _. exact D. }
      specialize (IH p1 D1 R).
      change (identifierStatements (IdentifierStatement context :: rest))
        with (IdentifierStatement context :: identifierStatements rest).
      cbn [walk]. rewrite bind_run, W. cbv beta iota.
      rewrite IH, T1, A1. reflexivity.
Qed.

(** The loop over the expression trees appends to the sequences
    of signal IDs and rows. *)
Lemma Evaluate_trees_appends (external : External) (sorting : StdSort)
    expressionTrees p p' :
  Evaluate_trees expressionTrees p = Ok tt p' ->
  m_filteredSignalIDs p `prefix_of` m_filteredSignalIDs p'
  /\ m_filteredRows p `prefix_of` m_filteredRows p'.
Proof.
  revert p. induction expressionTrees as [| tree rest IH]; intros p.
  - cbn. intros [= <-]. split; reflexivity.
  - cbn [Evaluate_trees]. rewrite bind_run.
    destruct (Evaluate_tree tree p) as [[] p1 | message p1] eqn:E; [| discriminate].
    intros R. destruct (IH _ R) as [I1 R1].
    destruct (Evaluate_tree_run external sorting tree p p1 E)
      as (signalIDColumnIndex & matchedRows & p0 & C & S & ->).
    destruct (Evaluate_rows_state external _ _ _ _ _ _ _ S) as [S0 _].
    rewrite S0 in I1, R1. unfold pushed in I1, R1. cbn in I1, R1. split.
    + etransitivity; [| exact I1]. now apply prefix_app_r.
    + etransitivity; [| exact R1]. now apply prefix_app_r.
Qed.

(** X8. The results of the identifier statements come first: when
    [Evaluate] returns, the signal IDs and rows that the identifier
    statements of the text record, in text order, are a prefix of
    [filteredSignalIDs] and [filteredRows]; what the filter statements
    select follows, wherever the statements stand in the text. *)
Theorem Evaluate_identifier_statements_first (external : External) (sorting : StdSort)
    (p p' : FilterExpressionParser) :
  Evaluate p = Ok tt p' ->
  exists q,
    walk (identifierStatements (parse (m_inputStream p))) (clearResults p) = Ok tt q
    /\ m_filteredSignalIDs q `prefix_of` m_filteredSignalIDs p'
    /\ m_filteredRows q `prefix_of` m_filteredRows p'.
Proof.
  unfold Evaluate. destruct (m_dataSet p) as [dataSet |] eqn:D; [| discriminate].
  rewrite bind_run, modify_run. cbv beta iota. rewrite bind_run.
  destruct (walk (parse (m_inputStream p)) (clearResults p))
    as [[] walked | message walked] eqn:W; [| discriminate].
  cbv beta iota. rewrite bind_run, gets_run. cbv beta iota. intros T.
  assert (m_dataSet (clearResults p) = Some dataSet) as D' by exact D.
  eexists. split.
  - exact (walk_identifierStatements external _ _ dataSet walked D' W).
  - apply (Evaluate_trees_appends external sorting) in T. exact T.
Qed.

Lemma Evaluate_identifier_statements_first_witness :
  m_filteredSignalIDs
    (finalState (@Evaluate (Sample.external filterThenGuid) stableSort sampleParser))
  = [4%N; 1%N; 3%N]
  /\ exists q,
       @walk (Sample.external filterThenGuid) (identifierStatements filterThenGuid)
         (clearResults sampleParser) = Ok tt q
       /\ m_filteredSignalIDs q
          `prefix_of` m_filteredSignalIDs
                        (finalState (@Evaluate (Sample.external filterThenGuid)
                                       stableSort sampleParser)).
Proof.
  split; [vm_compute; reflexivity |].
  destruct (@Evaluate (Sample.external filterThenGuid) stableSort sampleParser)
    as [[] p' | message p'] eqn:E; [| vm_compute in E; discriminate E].
  destruct (Evaluate_identifier_statements_first (Sample.external filterThenGuid)
              stableSort sampleParser p' E) as (q & W & I & _).
  exists q. split; [exact W | exact I].
Defined.

Lemma Evaluate_trees_rows_only (external : External) (sorting : StdSort)
    expressionTrees p p' :
  m_trackFilteredSignalIDs p = false ->
  m_trackFilteredRows p = true ->
  Evaluate_trees expressionTrees p = Ok tt p' ->
  p' = with_filteredRows
         (m_filteredRows p
          ++ flat_map (fun expressionTree =>
                         Evaluate_sort expressionTree
                           (selectedRows external expressionTree))
                      expressionTrees) p.
Proof.
  revert p. induction expressionTrees as [| tree rest IH]; intros p T R.
  - cbn. intros [= <-]. rewrite app_nil_r. destruct p. reflexivity.
  - cbn [Evaluate_trees]. rewrite bind_run.
    destruct (Evaluate_tree tree p) as [[] p1 | message p1] eqn:E; [| discriminate].
    apply (Evaluate_tree_rows_only external sorting) in E; [| exact T].
    rewrite R in E. subst p1. intros S. apply IH in S; [| exact T | exact R].
    rewrite S. cbn. rewrite <- app_assoc. reflexivity.
Qed.

(** X9. When [Select] returns, its rows are the rows of the identifier
    statements of the text followed, for each filter statement in text
    order, by the rows that the statement selects, sorted; each filter
    statement is evaluated as its own expression tree. *)
Theorem Select_rows_of_statements (external : External) (sorting : StdSort)
    (dataSet : DataSet) (dataTable : DataTable) (filterExpression : string)
    (rows : list DataRow) :
  Select (Some dataSet) dataTable filterExpression = Returns rows ->
  let parser := Select_parser (Some dataSet) dataTable filterExpression in
  let parseTree := parse (m_inputStream parser) in
  exists q expressionTrees,
    walk (identifierStatements parseTree) parser = Ok tt q
    /\ Forall2 (statementExpressionTree dataSet) (filterStatements parseTree)
               expressionTrees
    /\ rows = m_filteredRows q
              ++ flat_map (fun expressionTree =>
                             Evaluate_sort expressionTree
                               (selectedRows external expressionTree))
                          expressionTrees.
Proof.
  intros S parser parseTree. unfold Select in S. fold parser in S.
  destruct (Evaluate parser) as [[] p' | message p'] eqn:E; [| discriminate].
  injection S as <-. unfold Evaluate in E.
  change (m_dataSet parser) with (Some dataSet) in E. cbv beta iota in E.
  rewrite bind_run, modify_run in E. cbv beta iota in E. rewrite bind_run in E.
  fold parseTree in E.
  destruct (walk parseTree (clearResults parser)) as [[] walked | message walked] eqn:W;
    [| discriminate].
  cbv beta iota in E. rewrite bind_run, gets_run in E. cbv beta iota in E.
  destruct (walk_run external parseTree (clearResults parser) dataSet walked eq_refl W)
    as (expressionTrees & F & T & A & G).
  pose proof (walk_identifierStatements external parseTree (clearResults parser)
                dataSet walked eq_refl W) as I.
  cbn [app clearResults with_expressionTrees m_expressionTrees] in T. rewrite T in E.
  assert (m_trackFilteredSignalIDs walked = false /\ m_trackFilteredRows walked = true)
    as [TS TR].
  { unfold settings in G. injection G as _ _ -> -> _ _. split; reflexivity. }
  apply (Evaluate_trees_rows_only external sorting _ _ _ TS TR) in E. subst p'.
  eexists _, expressionTrees. split; [exact I |]. split; [exact F |]. reflexivity.
Qed.

Lemma Select_rows_of_statements_witness :
  let external := Sample.external
                    [enabledStatement None
                       [ {| orderByColumnName := "Rank"; K_DESC := true |} ]] in
  exists q expressionTrees,
    @walk external
      (identifierStatements
         (@parse external
            (m_inputStream
               (Select_parser (Some sampleDataSet) sampleTable
                  "FILTER ActiveMeasurements WHERE Enabled ORDER BY Rank DESC"))))
      (Select_parser (Some sampleDataSet) sampleTable
         "FILTER ActiveMeasurements WHERE Enabled ORDER BY Rank DESC")
    = Ok tt q
    /\ Forall2 (statementExpressionTree sampleDataSet)
         (filterStatements
            (@parse external
               (m_inputStream
                  (Select_parser (Some sampleDataSet) sampleTable
                     "FILTER ActiveMeasurements WHERE Enabled ORDER BY Rank DESC"))))
         expressionTrees
    /\ [sampleRow0; sampleRow (Some 3%N) "PPA:3" "GPA_TVA:FREQ" (Some true) 2]
       = m_filteredRows q
         ++ flat_map (fun expressionTree =>
                        @Evaluate_sort stableSort expressionTree
                          (selectedRows external expressionTree))
                     expressionTrees.
Proof.
  intros external.
  exact (Select_rows_of_statements external stableSort sampleDataSet sampleTable
           "FILTER ActiveMeasurements WHERE Enabled ORDER BY Rank DESC"
           [sampleRow0; sampleRow (Some 3%N) "PPA:3" "GPA_TVA:FREQ" (Some true) 2]
           Select_rows).
Defined.

(** X10. When [GenerateExpressionTree] returns, its result is the
    expression tree of the last filter statement of the text, and nothing
    when the text has no filter statement. *)
Theorem GenerateExpressionTree_last_statement (external : External)
    (dataSet : DataSet) (dataTable : DataTable) (filterExpression : string)
    (result : option ExpressionTree) :
  GenerateExpressionTree (Some dataSet) dataTable filterExpression = Returns result ->
  exists expressionTrees,
    Forall2 (statementExpressionTree dataSet)
      (filterStatements
         (parse (m_inputStream
                   (GenerateExpressionTree_parser (Some dataSet) dataTable
                      filterExpression))))
      expressionTrees
    /\ result = last expressionTrees.
Proof.
  unfold GenerateExpressionTree.
  set (parser := GenerateExpressionTree_parser (Some dataSet) dataTable filterExpression).
  destruct (walk (parse (m_inputStream parser)) parser) as [[] p' | message p'] eqn:W;
    [| discriminate].
  intros [= <-].
  destruct (walk_run external _ parser dataSet p' eq_refl W)
    as (expressionTrees & F & T & A & G).
  exists expressionTrees. split; [exact F |]. rewrite A.
  destruct (last expressionTrees); reflexivity.
Qed.

Lemma GenerateExpressionTree_last_statement_witness :
  exists expressionTrees,
    Forall2 (statementExpressionTree sampleDataSet)
      (filterStatements
         (@parse (Sample.external [enabledStatement (Some "1"%string) []; guidStatement])
            (m_inputStream
               (GenerateExpressionTree_parser (Some sampleDataSet) sampleTable
                  "FILTER TOP 1 ActiveMeasurements WHERE Enabled; '4'"))))
      expressionTrees
    /\ Some {| Measurements := sampleTable; TopLimit := 1; OrderByTerms := [];
               Root := Some (ColumnExpr enabledColumn) |}
       = last expressionTrees.
Proof.
  apply (GenerateExpressionTree_last_statement
           (Sample.external [enabledStatement (Some "1"%string) []; guidStatement])
           sampleDataSet sampleTable
           "FILTER TOP 1 ActiveMeasurements WHERE Enabled; '4'").
  vm_compute. reflexivity.
Defined.

Lemma exitIdentifierStatement_rows_run signalIDColumnIndex signalID rows p :
  exitIdentifierStatement_rows signalIDColumnIndex signalID rows p
  = Ok tt (with_filteredRows
             (m_filteredRows p
              ++ option_list
                   (find (fun row => bool_decide (ValueAsGuid row signalIDColumnIndex
                                                  = Some signalID))
                         (omap id rows))) p).
Proof.
  induction rows as [| x rows IH].
  - cbn. rewrite app_nil_r. destruct p. reflexivity.
  - cbn [exitIdentifierStatement_rows]. destruct x as [row |].
    + change (omap id (Some row :: rows)) with (row :: omap id rows). cbn [find].
      destruct (ValueAsGuid row signalIDColumnIndex) as [g |].
      * destruct (decide (g = signalID)) as [-> | N].
        -- rewrite !bool_decide_eq_true_2 by reflexivity. reflexivity.
        -- rewrite !bool_decide_eq_false_2 by congruence. exact IH.
      * rewrite bool_decide_eq_false_2 by discriminate. exact IH.
    + exact IH.
Qed.

(** X11. With rows tracked and the primary table, its ID fields and its
    signal ID column resolved, a GUID statement of a GUID other than the
    empty one records the GUID as it does without table and appends the
    first row of the primary table whose signal ID is that GUID, or no row
    when there is none. *)
Theorem exitIdentifierStatement_guid_row (external : External)
    (context : IdentifierStatementContext) (p : FilterExpressionParser)
    (text : string) (dataSet : DataSet) (measurements : DataTable)
    (fields : MeasurementTableIDFields) (signalIDColumn : DataColumn) :
  GUID_LITERAL context = Some text ->
  ParseGuidLiteral text <> Empty.Guid ->
  m_trackFilteredRows p = true ->
  m_dataSet p = Some dataSet ->
  DataSet_Table dataSet (m_primaryMeasurementTableName p) = Some measurements ->
  GetMeasurementTableIDFields (m_primaryMeasurementTableName p) p = Some fields ->
  DataTable_Column measurements (SignalIDFieldName fields) = Some signalIDColumn ->
  exitIdentifierStatement context p
  = Ok tt (with_filteredRows
             (m_filteredRows p
              ++ option_list (firstRowOfSignalID (Column_Index signalIDColumn)
                                (ParseGuidLiteral text) measurements))
             (guidContribution p (ParseGuidLiteral text))).
Proof.
  intros G N R D T F C. unfold exitIdentifierStatement. rewrite G.
  rewrite bind_run, exitIdentifierStatement_guid_run. cbv beta iota.
  destruct (guidContribution_frame p (ParseGuidLiteral text)) as (FD & FN & FF & FT & FR).
  rewrite bind_run, gets_run. cbv beta iota. rewrite FT, R. cbn [negb].
  unfold exitIdentifierStatement_lookup. run. rewrite FT, FD, FN, D, T.
  run. unfold GetMeasurementTableIDFields in F |- *. rewrite FF, F, C, R.
  rewrite bool_decide_eq_true_2 by exact N. cbn [andb].
  rewrite exitIdentifierStatement_rows_run, FR. reflexivity.
Qed.

Lemma exitIdentifierStatement_guid_row_witness :
  m_filteredRows
    (finalState
       (@exitIdentifierStatement (Sample.external [])
          {| GUID_LITERAL := Some "'00000000-0000-0000-0000-000000000004'";
             MEASUREMENT_KEY_LITERAL := None;
             POINT_TAG_LITERAL := None |}
          (SetTrackFilteredRows true sampleParser)))
  = [sampleRow (Some 4%N) "PPA:4" "GPA_TVA:VPHM" (Some false) 1].
Proof.
  rewrite (exitIdentifierStatement_guid_row (Sample.external [])
             {| GUID_LITERAL := Some "'00000000-0000-0000-0000-000000000004'";
                MEASUREMENT_KEY_LITERAL := None;
                POINT_TAG_LITERAL := None |}
             (SetTrackFilteredRows true sampleParser)
             "'00000000-0000-0000-0000-000000000004'" sampleDataSet sampleTable
             {| SignalIDFieldName := "SignalID"; MeasurementKeyFieldName := "ID";
                PointTagFieldName := "PointTag" |}
             {| Column_Name := "SignalID"; Column_Index := 0;
                Column_Type := DataType.Guid |}
             eq_refl ltac:(vm_compute; discriminate) eq_refl eq_refl eq_refl eq_refl eq_refl).
  vm_compute. reflexivity.
Defined.

(** ** Filter statements need the signal ID column *)

Lemma settings_pushed signalIDColumnIndex sorted p signalIDSet :
  settings (pushed signalIDColumnIndex sorted (with_filteredSignalIDSet signalIDSet p))
  = settings p.
Proof. destruct p. reflexivity. Qed.

(** The evaluation of an expression tree leaves the settings as they
    are. *)
Lemma Evaluate_tree_settings (external : External) (sorting : StdSort)
    expressionTree p p' :
  Evaluate_tree expressionTree p = Ok tt p' -> settings p' = settings p.
Proof.
  intros E.
  destruct (Evaluate_tree_run external sorting expressionTree p p' E)
    as (signalIDColumnIndex & matchedRows & p1 & _ & R & ->).
  destruct (Evaluate_rows_state external _ _ _ _ _ _ _ R) as [-> _].
  apply settings_pushed.
Qed.

(** The resolution of the signal ID column reads the settings only. *)
Lemma Evaluate_signalIDColumnIndex_resolved measurements p q signalIDColumnIndex :
  settings q = settings p ->
  m_trackFilteredSignalIDs p = true ->
  Evaluate_signalIDColumnIndex measurements q = Ok signalIDColumnIndex q ->
  exists fields signalIDColumn,
    GetMeasurementTableIDFields (Table_Name measurements) p = Some fields
    /\ DataTable_Column measurements (SignalIDFieldName fields) = Some signalIDColumn.
Proof.
  intros S T. unfold settings in S. injection S as _ _ S1 _ _ S2.
  unfold Evaluate_signalIDColumnIndex, GetMeasurementTableIDFields. run.
  rewrite S1, T. run. rewrite S2.
  destruct (m_measurementTableIDFields p !! Table_Name measurements) as [fields |];
    run; [| discriminate].
  destruct (DataTable_Column measurements (SignalIDFieldName fields))
    as [signalIDColumn |] eqn:C; run; [| discriminate].
  intros _. now exists fields, signalIDColumn.
Qed.

Lemma Evaluate_trees_resolved (external : External) (sorting : StdSort)
    expressionTrees p0 p p' :
  settings p = settings p0 ->
  m_trackFilteredSignalIDs p0 = true ->
  Evaluate_trees expressionTrees p = Ok tt p' ->
  Forall (fun expressionTree =>
            exists fields signalIDColumn,
              GetMeasurementTableIDFields (Table_Name (Measurements expressionTree)) p0
              = Some fields
              /\ DataTable_Column (Measurements expressionTree) (SignalIDFieldName fields)
                 = Some signalIDColumn)
         expressionTrees.
Proof.
  intros S T. revert p S. induction expressionTrees as [| tree rest IH]; intros p S.
  - constructor.
  - cbn [Evaluate_trees]. rewrite bind_run.
    destruct (Evaluate_tree tree p) as [[] p1 | message p1] eqn:E; [| discriminate].
    intros R. constructor.
    + destruct (Evaluate_tree_run external sorting tree p p1 E)
        as (signalIDColumnIndex & _ & _ & C & _).
      exact (Evaluate_signalIDColumnIndex_resolved _ p0 p _ S T C).
    + apply (IH p1); [| exact R].
      rewrite (Evaluate_tree_settings external sorting tree p p1 E). exact S.
Qed.

(** X12. While signal IDs are tracked, [Evaluate] returns only when every
    filter statement of the text can resolve its signal ID column: the
    table of the statement has an ID fields record in the parser and the
    signal ID field of the record is a column of the table, whether or not
    a row of the table matches. *)
Theorem Evaluate_resolves_signalID_columns (external : External) (sorting : StdSort)
    (p p' : FilterExpressionParser) (dataSet : DataSet) :
  m_dataSet p = Some dataSet ->
  m_trackFilteredSignalIDs p = true ->
  Evaluate p = Ok tt p' ->
  Forall (signalIDColumnResolved dataSet p) (filterStatements (parse (m_inputStream p))).
Proof.
  intros D T. unfold Evaluate. rewrite D.
  rewrite bind_run, modify_run. cbv beta iota. rewrite bind_run.
  destruct (walk (parse (m_inputStream p)) (clearResults p))
    as [[] walked | message walked] eqn:W; [| discriminate].
  cbv beta iota. rewrite bind_run, gets_run. cbv beta iota. intros R.
  assert (m_dataSet (clearResults p) = Some dataSet) as D' by exact D.
  destruct (walk_run external _ _ dataSet walked D' W) as (trees & F & E & _ & S).
  change (m_expressionTrees (clearResults p)) with (@nil ExpressionTree) in E.
  rewrite app_nil_l in E. rewrite E in R.
  assert (settings walked = settings p) as S' by (rewrite S; destruct p; reflexivity).
  pose proof (Evaluate_trees_resolved external sorting trees p walked p' S' T R) as H.
  clear - F H. induction F as [| context tree contexts trees (M & _) F IH].
  - constructor.
  - apply Forall_cons_1 in H. destruct H as [(fields & signalIDColumn & G & C) H].
    constructor; [| now apply IH].
    now exists (Measurements tree), fields, signalIDColumn.
Qed.

Lemma Evaluate_resolves_signalID_columns_witness :
  Forall (signalIDColumnResolved sampleDataSet sampleParser)
         (filterStatements [enabledStatement None []; guidStatement]).
Proof.
  destruct (@Evaluate (Sample.external filterThenGuid) stableSort sampleParser)
    as [[] p' | message p'] eqn:E; [| vm_compute in E; discriminate E].
  exact (Evaluate_resolves_signalID_columns (Sample.external filterThenGuid) stableSort
           sampleParser p' sampleDataSet eq_refl eq_refl E).
Defined.

(** ** The listeners of the WHERE subtree compute the denotation *)

Lemma L_bind_run {A B : Type} (m : Listener.L A) (f : A -> Listener.L B) s :
  (m ≫= f) s = match m s with
               | Listener.Done a s' => f a s'
               | Listener.Raised message s' => Listener.Raised message s'
               | Listener.Undefined => Listener.Undefined
               end.
Proof. reflexivity. Qed.

Lemma L_ret_run {A : Type} (a : A) s : (mret a : Listener.L A) s = Listener.Done a s.
Proof. reflexivity. Qed.

Lemma L_gets_run {A : Type} (f : Listener.State -> A) s :
  Listener.gets f s = Listener.Done (f s) s.
Proof. reflexivity. Qed.

Lemma L_modify_run f s : Listener.modify f s = Listener.Done tt (f s).
Proof. reflexivity. Qed.

Lemma L_throw_run {A : Type} message s :
  @Listener.throw A message s = Listener.Raised message s.
Proof. reflexivity. Qed.

Lemma L_undefined_run {A : Type} s : @Listener.undefined A s = Listener.Undefined.
Proof. reflexivity. Qed.

Lemma L_lift_Returns {A : Type} (a : A) s :
  Listener.lift (Returns a) s = Listener.Done a s.
Proof. reflexivity. Qed.

Lemma L_lift_Throws {A : Type} message s :
  @Listener.lift A (Throws message) s = Listener.Raised message s.
Proof. reflexivity. Qed.

Lemma L_TryGetExpr_run context s :
  Listener.TryGetExpr context s
  = Listener.Done (Listener.m_expressions s !! address context) s.
Proof. reflexivity. Qed.

Ltac lrun :=
  repeat first
    [ rewrite L_bind_run | rewrite L_gets_run | rewrite L_modify_run | rewrite L_ret_run
    | rewrite L_throw_run | rewrite L_undefined_run | rewrite L_lift_Returns
    | rewrite L_lift_Throws | rewrite L_TryGetExpr_run
    | progress cbv beta iota ].

Section WalkProofs.

Context {external : External} {readers : LiteralReaders}.

Lemma walk_RuleContext a r cs :
  Listener.walk a (RuleContext r cs)
  = (walkChildren a 0 cs;; Listener.exitRule {| address := a; node := RuleContext r cs |}).
Proof. reflexivity. Qed.

Lemma walkChildren_cons a i c cs :
  walkChildren a i (c :: cs) = (Listener.walk (a ++ [i]) c;; walkChildren a (S i) cs).
Proof. reflexivity. Qed.

Lemma walkChildren_nil a i : walkChildren a i [] = mret tt.
Proof. reflexivity. Qed.

Lemma walk_TerminalNode a symbol text s :
  Listener.walk a (TerminalNode symbol text) s = Listener.Done tt s.
Proof. reflexivity. Qed.

Lemma prefix_snoc_l (a k : list nat) (i : nat) :
  (a ++ [i]) `prefix_of` k -> a `prefix_of` k.
Proof. apply prefix_app_l. Qed.

Lemma prefix_snoc_ne (a k : list nat) (i j : nat) :
  i <> j -> (a ++ [i]) `prefix_of` k -> ~ (a ++ [j]) `prefix_of` k.
Proof.
  intros N [k1 ->] [k2 E]. rewrite <- !app_assoc in E.
  apply app_inv_head in E. cbn in E. congruence.
Qed.

Lemma prefix_snoc_self (a : list nat) (i : nat) : ~ (a ++ [i]) `prefix_of` a.
Proof.
  intros P. apply prefix_length in P. rewrite length_app in P. cbn in P. lia.
Qed.

Lemma prefix_snoc_snoc (a : list nat) (i j : nat) :
  i <> j -> ~ (a ++ [i]) `prefix_of` (a ++ [j]).
Proof.
  intros N P. apply (prefix_snoc_ne a (a ++ [j]) j i); [congruence | reflexivity | exact P].
Qed.

End WalkProofs.

Section WalkLowering.

Context {external : External} {readers : LiteralReaders}.

Variable measurements : DataTable.

Lemma Fresh_child a i s : Fresh a s -> Fresh (a ++ [i]) s.
Proof. intros F k P. apply F. now apply prefix_snoc_l in P. Qed.

Lemma Kept_Over s s' : Kept s s' -> Over measurements s -> Over measurements s'.
Proof. intros (M & _) O. unfold Over in *. congruence. Qed.

Lemma Below_Over a s s' : Below a s s' -> Over measurements s -> Over measurements s'.
Proof. intros (_ & K) O. now apply (Kept_Over s). Qed.

Lemma Below_Fresh_sibling a i j s s' :
  i <> j -> Below (a ++ [i]) s s' -> Fresh (a ++ [j]) s -> Fresh (a ++ [j]) s'.
Proof.
  intros N (B & _) F k P. rewrite B; [now apply F |].
  now apply (prefix_snoc_ne a k j i).
Qed.

Lemma Below_child_self a i s s' :
  Below (a ++ [i]) s s' ->
  Listener.m_expressions s' !! a = Listener.m_expressions s !! a.
Proof. intros (B & _). apply B, prefix_snoc_self. Qed.

Lemma Below_child_sibling a i j s s' :
  i <> j -> Below (a ++ [i]) s s' ->
  Listener.m_expressions s' !! (a ++ [j]) = Listener.m_expressions s !! (a ++ [j]).
Proof. intros N (B & _). apply B. now apply prefix_snoc_snoc. Qed.

Lemma Below_child a i s s' : Below (a ++ [i]) s s' -> Below a s s'.
Proof.
  intros (B & M). split; [| exact M]. intros k N. apply B.
  intros P. apply N. now apply prefix_snoc_l in P.
Qed.

Lemma Below_refl a s : Below a s s.
Proof. repeat split. Qed.

Lemma Below_trans a s1 s2 s3 : Below a s1 s2 -> Below a s2 s3 -> Below a s1 s3.
Proof.
  intros (B1 & M1 & T1 & O1) (B2 & M2 & T2 & O2). repeat split; try congruence.
  intros k N. rewrite B2, B1; auto.
Qed.

Lemma Kept_refl s : Kept s s.
Proof. repeat split. Qed.

(** [AddExpr] for a node without entry records the expression and makes
    it the root. *)
Lemma AddExpr_fresh a t e s0 s :
  Below a s0 s ->
  Listener.m_expressions s !! a = None ->
  LowersTo a s0 (Built e) (Listener.AddExpr {| address := a; node := t |} e s).
Proof.
  intros B N. unfold Listener.AddExpr. rewrite L_modify_run. cbn [address].
  rewrite N. eexists. split; [reflexivity |]. split; [| split].
  - apply (Below_trans a s0 s); [exact B |]. repeat split. cbn. intros k P.
    apply lookup_insert_ne. intros ->. now apply P.
  - cbn. apply lookup_insert_eq.
  - reflexivity.
Qed.


Lemma append_empty_r (t : string) : (t +:+ EmptyString)%string = t.
Proof.
  induction t as [| c t IH]; [reflexivity |].
  change (String c (t +:+ EmptyString) = String c t). now rewrite IH.
Qed.

Lemma walk_symbol a r text s :
  inertRule r = true ->
  Listener.walk a (RuleContext r [TerminalNode Token.Other text]) s = Listener.Done tt s.
Proof. destruct r; try discriminate; reflexivity. Qed.

Lemma walk_symbolNode a text s :
  Listener.walk a (symbolNode text) s = Listener.Done tt s.
Proof. reflexivity. Qed.

Lemma contextText_symbol a r text :
  contextText {| address := a; node := RuleContext r [TerminalNode Token.Other text] |}
  = text.
Proof. unfold contextText. cbn. apply append_empty_r. Qed.

Lemma contextText_TerminalNode a symbol text :
  contextText {| address := a; node := TerminalNode symbol text |} = text.
Proof. reflexivity. Qed.

(** What [LowersTo] says of a walk that was stopped by a child. *)
Lemma LowersTo_Fails a s message s' :
  LowersTo a s (Fails message) (Listener.Raised message s').
Proof. now exists s'. Qed.

Lemma exitFunctionExpression_arguments_found functionName i found es :
  Forall2 (fun f e => f.2 = Some e) found es ->
  exitFunctionExpression_arguments functionName i found = Returns es.
Proof.
  intros H. revert i. induction H as [| [text o] e found es E H IH]; intros i.
  - reflexivity.
  - cbn in E. subst o. cbn. now rewrite IH.
Qed.

Lemma exitPredicateExpression_arguments_found i found es :
  Forall2 (fun f e => f.2 = Some e) found es ->
  exitPredicateExpression_arguments i found = Returns es.
Proof.
  intros H. revert i. induction H as [| [text o] e found es E H IH]; intros i.
  - reflexivity.
  - cbn in E. subst o. cbn. now rewrite IH.
Qed.

Lemma TryGetExprs_found contexts es s :
  Forall2 (fun context e => Listener.m_expressions s !! address context = Some e)
          contexts es ->
  exists found,
    Listener.TryGetExprs contexts s = Listener.Done found s
    /\ Forall2 (fun f e => f.2 = Some e) found es
    /\ length contexts = length es.
Proof.
  intros H. eexists. split; [reflexivity |]. split.
  - induction H; cbn; constructor; auto.
  - now apply Forall2_length in H.
Qed.

Lemma lowerExpressionList_nonempty l es :
  lowerExpressionList measurements l = Built es -> (1 <= length es)%nat.
Proof.
  destruct l as [e | e rest]; simpl.
  - destruct (lowerExpression measurements e); simpl; [| discriminate | discriminate].
    intros [= <-]. simpl. lia.
  - destruct (lowerExpression measurements e); simpl; [| discriminate | discriminate].
    destruct (lowerExpressionList measurements rest); simpl;
      [| discriminate | discriminate].
    intros [= <-]. simpl. lia.
Qed.

Lemma walk_expressionList l b s :
  LowersExpressionList measurements l -> Fresh b s -> Over measurements s ->
  ListNodeLowersTo b s l (lowerExpressionList measurements l)
    (Listener.walk b (RuleContext Rule.expressionList (expressionListParseTrees l)) s).
Proof.
  intros IH F O. rewrite walk_RuleContext, L_bind_run.
  assert (forall j, (0 <= j)%nat -> Fresh (b ++ [j]) s) as FF
    by (intros j _; now apply Fresh_child).
  pose proof (IH b 0%nat s FF O) as H.
  pose proof (lowerExpressionList_nonempty l) as NE.
  destruct (lowerExpressionList measurements l) as [es | message |];
    cbn [ListLowersTo ListNodeLowersTo] in H |- *.
  - destruct H as (s' & -> & B & O' & K). cbv beta iota.
    destruct (TryGetExprs_found _ _ _ K) as (found & T & FS & LN).
    exists s', found. split; [reflexivity |]. split; [| split; [| split; [| split]]].
    + split; [| exact O'].
      intros k N. apply B. intros j _ P. apply N. now apply prefix_snoc_l in P.
    + apply B. intros j _. apply prefix_snoc_self.
    + exact T.
    + exact FS.
    + specialize (NE es eq_refl). unfold getRuleContexts, childContexts. cbn [node address].
      lia.
  - destruct H as (s' & ->). now exists s'.
  - now rewrite H.
Qed.

(** Closes the case of a child whose walk did not go through. *)
Ltac stopped H :=
  first [ destruct H as (? & ->); cbn [andThen]; cbv beta iota; apply LowersTo_Fails
        | rewrite H; reflexivity ].

(** Opens the walk of a rule context: the loop over its children. *)
Ltac open_walk :=
  unfold symbolNode;
  rewrite walk_RuleContext, L_bind_run, ?walkChildren_cons, ?walkChildren_nil;
  rewrite ?L_bind_run, ?walk_TerminalNode, ?walk_symbolNode, ?walk_symbol by reflexivity;
  cbv beta iota; rewrite ?L_bind_run.

(** Runs on over the children that no listener hears of. *)
Ltac lrun' :=
  repeat first
    [ progress lrun
    | rewrite walk_TerminalNode
    | rewrite walk_symbolNode
    | rewrite walk_symbol by reflexivity ].

(** Reads the children that an exit method asks its context for. *)
Ltac accessors :=
  cbn [Listener.exitRule getRuleContext getRuleContexts getToken childContexts contextsFrom
       node address List.filter isRule isToken Rule.eqb Rule.index Token.eqb Token.index
       Nat.eqb lookup list_lookup optionalNot app literalToken].

Ltac accessors_in H :=
  cbn [Listener.exitRule getRuleContext getRuleContexts getToken childContexts contextsFrom
       node address List.filter isRule isToken Rule.eqb Rule.index Token.eqb Token.index
       Nat.eqb lookup list_lookup optionalNot app literalToken] in H.

(** The state after the walk of two children still has no entry for the
    node itself. *)
Ltac no_entry F :=
  repeat match goal with
         | B : Below (?a ++ [_]) _ ?s |- Listener.m_expressions ?s !! ?a = None =>
             rewrite (Below_child_self _ _ _ _ B)
         end;
  apply F; reflexivity.

Lemma walk_literalValue c kind text s :
  Fresh c s ->
  LowersTo c s (andThen (lowerLiteral kind text) (fun value => Built (ValueExpr value)))
    (Listener.walk c (RuleContext Rule.literalValue [TerminalNode (literalToken kind) text])
       s).
Proof.
  intros F. open_walk. lrun'. accessors. unfold Listener.exitLiteralValue.
  destruct kind; accessors; unfold lowerLiteral; rewrite ?contextText_TerminalNode; lrun.
  - destruct (exitLiteralValue_INTEGER_LITERAL text) as [result | message | selected];
      cbn [andThen]; lrun.
    + apply AddExpr_fresh; [apply Below_refl | now apply F].
    + apply LowersTo_Fails.
    + reflexivity.
  - destruct (Listener.exitLiteralValue_NUMERIC_LITERAL text) as [result | message];
      cbn [ofExcept andThen]; lrun.
    + apply AddExpr_fresh; [apply Below_refl | now apply F].
    + apply LowersTo_Fails.
  - cbn [andThen]. apply AddExpr_fresh; [apply Below_refl | now apply F].
  - destruct (Listener.ParseDateTimeLiteral text) as [value | message];
      cbn [ofExcept andThen]; lrun.
    + apply AddExpr_fresh; [apply Below_refl | now apply F].
    + apply LowersTo_Fails.
  - cbn [andThen]. apply AddExpr_fresh; [apply Below_refl | now apply F].
  - cbn [andThen]. apply AddExpr_fresh; [apply Below_refl | now apply F].
  - cbn [andThen]. apply AddExpr_fresh; [apply Below_refl | now apply F].
Qed.

Lemma walk_columnName c identifier s :
  Fresh c s -> Over measurements s ->
  LowersTo c s
    (andThen (ofExcept (exitColumnName_dataColumn measurements identifier))
             (fun dataColumn => Built (ColumnExpr dataColumn)))
    (Listener.walk c (RuleContext Rule.columnName [TerminalNode Token.IDENTIFIER identifier])
       s).
Proof.
  intros F O. open_walk. lrun'. accessors. unfold Listener.exitColumnName. accessors. lrun.
  rewrite contextText_TerminalNode. unfold Over in O. rewrite O.
  destruct (exitColumnName_dataColumn measurements identifier) as [dataColumn | message];
    cbn [ofExcept andThen]; lrun.
  - apply AddExpr_fresh; [apply Below_refl | now apply F].
  - apply LowersTo_Fails.
Qed.

(** States the case of a rule context by its children and what it
    denotes. *)
Ltac restate trees lowered :=
  match goal with
  | |- LowersTo ?a ?s _ (Listener.walk _ (RuleContext ?r _) _) =>
      change (LowersTo a s lowered (Listener.walk a (RuleContext r trees) s))
  end.

Lemma walk_lowers :
  (forall e, LowersExpression measurements e)
  /\ (forall p, LowersPredicate measurements p)
  /\ (forall v, LowersValue measurements v)
  /\ (forall l, LowersExpressionList measurements l).
Proof.
  apply Syntax_mutual.
  - (* SyntaxNot *)
    intros notOperator operand IH a s F O.
    unfold expressionParseTree. cbn [expressionChildren lowerExpression].
    open_walk.
    pose proof (IH (a ++ [1%nat]) s (Fresh_child a 1 s F) O) as H.
    unfold expressionParseTree in H.
    destruct (lowerExpression measurements operand) as [value | message |];
      cbn [andThen LowersTo] in H; [| stopped H | stopped H].
    destruct H as (s1 & -> & B & K & R). lrun. cbn [andThen].
    accessors. unfold Listener.exitExpression. accessors. lrun. cbn [address].
    rewrite K. apply AddExpr_fresh.
    + now apply Below_child in B.
    + rewrite (Below_child_self _ _ _ _ B). now apply F.
  - (* SyntaxLogical *)
    intros leftOperand IHl logicalOperator rightOperand IHr a s F O.
    unfold expressionParseTree. cbn [expressionChildren lowerExpression].
    open_walk.
    pose proof (IHl (a ++ [0%nat]) s (Fresh_child a 0 s F) O) as H.
    unfold expressionParseTree in H.
    destruct (lowerExpression measurements leftOperand) as [leftValue | message |];
      cbn [andThen LowersTo] in H; [| stopped H | stopped H].
    destruct H as (s1 & -> & B1 & K1 & _). lrun.
    rewrite walk_symbol by reflexivity. lrun.
    pose proof (IHr (a ++ [2%nat]) s1
                  (Below_Fresh_sibling a 0 2 s s1 ltac:(lia) B1 (Fresh_child a 2 s F))
                  (Below_Over _ _ _ B1 O)) as H.
    unfold expressionParseTree in H.
    destruct (lowerExpression measurements rightOperand) as [rightValue | message |];
      cbn [andThen LowersTo] in H; [| stopped H | stopped H].
    destruct H as (s2 & -> & B2 & K2 & _). lrun. cbn [andThen].
    accessors. unfold Listener.exitExpression. accessors. lrun. cbn [address].
    rewrite (Below_child_sibling a 2 0 s1 s2 ltac:(lia) B2), K1. lrun. cbn [address].
    rewrite K2. lrun.
    rewrite contextText_symbol.
    destruct (exitExpression_operatorType logicalOperator) as [operatorType | message];
      cbn [ofExcept andThen]; lrun; [| apply LowersTo_Fails].
    apply AddExpr_fresh.
    + apply (Below_trans a s s1 s2);
        [exact (Below_child _ _ _ _ B1) | exact (Below_child _ _ _ _ B2)].
    + rewrite (Below_child_self _ _ _ _ B2), (Below_child_self _ _ _ _ B1). now apply F.
  - (* SyntaxPredicate *)
    intros predicate IH a s F O.
    unfold expressionParseTree.
    restate [RuleContext Rule.predicateExpression (predicateChildren predicate)]
            (lowerPredicate measurements predicate).
    open_walk.
    pose proof (IH (a ++ [0%nat]) s (Fresh_child a 0 s F) O) as H.
    unfold predicateParseTree in H.
    destruct (lowerPredicate measurements predicate) as [value | message |];
      cbn [LowersTo] in H; [| stopped H | stopped H].
    destruct H as (s1 & -> & B & K & R). lrun.
    accessors. unfold Listener.exitExpression. accessors. lrun. cbn [address].
    rewrite K. apply AddExpr_fresh; [exact (Below_child _ _ _ _ B) | no_entry F].
  - (* SyntaxIn *)
    intros value IHv negated list IHl a s F O.
    unfold predicateParseTree.
    restate (RuleContext Rule.predicateExpression (predicateChildren value)
             :: optionalNot negated
             ++ [TerminalNode Token.K_IN "IN"; symbolNode "(";
                 RuleContext Rule.expressionList (expressionListParseTrees list);
                 symbolNode ")"])
            (andThen (lowerPredicate measurements value) (fun value =>
             andThen (lowerExpressionList measurements list) (fun arguments =>
               Built (InListExpr value arguments negated)))).
    destruct negated; cbn [optionalNot app]; open_walk.
    + pose proof (IHv (a ++ [0%nat]) s (Fresh_child a 0 s F) O) as H.
      unfold predicateParseTree in H.
      destruct (lowerPredicate measurements value) as [v | message |];
        cbn [andThen LowersTo] in H; [| stopped H | stopped H].
      destruct H as (s1 & -> & B1 & K1 & _). lrun'.
      pose proof (walk_expressionList list (a ++ [4%nat]) s1 IHl
                    (Below_Fresh_sibling a 0 4 s s1 ltac:(lia) B1 (Fresh_child a 4 s F))
                    (Below_Over _ _ _ B1 O)) as H.
      destruct (lowerExpressionList measurements list) as [es | message |];
        cbn [andThen ListNodeLowersTo] in H; [| stopped H | stopped H].
      destruct H as (s2 & found & -> & B2 & K2 & T & FS & LN). lrun'. cbn [andThen].
      accessors. unfold Listener.exitPredicateExpression. accessors. lrun. cbn [address].
      rewrite (Below_child_sibling a 4 0 s1 s2 ltac:(lia) B2), K1. lrun.
      accessors_in LN. accessors_in T.
      match goal with |- context [Z.of_nat ?n <? 1] =>
        destruct (Z.ltb_spec (Z.of_nat n) 1) as [L | L]; [lia |] end.
      lrun. rewrite T. lrun.
      rewrite (exitPredicateExpression_arguments_found _ _ _ FS). lrun.
      rewrite bool_decide_is_Some.
      apply AddExpr_fresh.
      * apply (Below_trans a s s1 s2);
          [exact (Below_child _ _ _ _ B1) | exact (Below_child _ _ _ _ B2)].
      * no_entry F.
    + pose proof (IHv (a ++ [0%nat]) s (Fresh_child a 0 s F) O) as H.
      unfold predicateParseTree in H.
      destruct (lowerPredicate measurements value) as [v | message |];
        cbn [andThen LowersTo] in H; [| stopped H | stopped H].
      destruct H as (s1 & -> & B1 & K1 & _). lrun'.
      pose proof (walk_expressionList list (a ++ [3%nat]) s1 IHl
                    (Below_Fresh_sibling a 0 3 s s1 ltac:(lia) B1 (Fresh_child a 3 s F))
                    (Below_Over _ _ _ B1 O)) as H.
      destruct (lowerExpressionList measurements list) as [es | message |];
        cbn [andThen ListNodeLowersTo] in H; [| stopped H | stopped H].
      destruct H as (s2 & found & -> & B2 & K2 & T & FS & LN). lrun'. cbn [andThen].
      accessors. unfold Listener.exitPredicateExpression. accessors. lrun. cbn [address].
      rewrite (Below_child_sibling a 3 0 s1 s2 ltac:(lia) B2), K1. lrun.
      accessors_in LN. accessors_in T.
      match goal with |- context [Z.of_nat ?n <? 1] =>
        destruct (Z.ltb_spec (Z.of_nat n) 1) as [L | L]; [lia |] end.
      lrun. rewrite T. lrun.
      rewrite (exitPredicateExpression_arguments_found _ _ _ FS). lrun.
      rewrite bool_decide_is_Some.
      apply AddExpr_fresh.
      * apply (Below_trans a s s1 s2);
          [exact (Below_child _ _ _ _ B1) | exact (Below_child _ _ _ _ B2)].
      * no_entry F.
  - (* SyntaxIsNull *)
    intros value IHv negated a s F O.
    unfold predicateParseTree. cbn [predicateChildren lowerPredicate].
    pose proof (IHv (a ++ [0%nat]) s (Fresh_child a 0 s F) O) as H.
    unfold predicateParseTree in H.
    destruct negated; cbn [optionalNot app]; open_walk;
      (destruct (lowerPredicate measurements value) as [v | message |];
       cbn [andThen LowersTo] in H; [| stopped H | stopped H]);
      destruct H as (s1 & -> & B1 & K1 & _); lrun'; cbn [andThen];
      accessors; unfold Listener.exitPredicateExpression; accessors;
      rewrite !bool_decide_is_Some; cbn [andb]; lrun; cbn [address];
      rewrite K1; lrun;
      (apply AddExpr_fresh; [exact (Below_child _ _ _ _ B1) | no_entry F]).
  - (* SyntaxComparison *)
    intros leftOperand IHl comparisonOperator rightOperand IHr a s F O.
    unfold predicateParseTree. cbn [predicateChildren lowerPredicate].
    open_walk.
    pose proof (IHl (a ++ [0%nat]) s (Fresh_child a 0 s F) O) as H.
    unfold predicateParseTree in H.
    destruct (lowerPredicate measurements leftOperand) as [leftValue | message |];
      cbn [andThen LowersTo] in H; [| stopped H | stopped H].
    destruct H as (s1 & -> & B1 & K1 & _). lrun'.
    pose proof (IHr (a ++ [2%nat]) s1
                  (Below_Fresh_sibling a 0 2 s s1 ltac:(lia) B1 (Fresh_child a 2 s F))
                  (Below_Over _ _ _ B1 O)) as H.
    unfold predicateParseTree in H.
    destruct (lowerPredicate measurements rightOperand) as [rightValue | message |];
      cbn [andThen LowersTo] in H; [| stopped H | stopped H].
    destruct H as (s2 & -> & B2 & K2 & _). lrun. cbn [andThen].
    accessors. unfold Listener.exitPredicateExpression. accessors.
    rewrite !bool_decide_is_Some. cbn [andb]. lrun. cbn [address].
    rewrite (Below_child_sibling a 2 0 s1 s2 ltac:(lia) B2), K1. lrun. cbn [address].
    rewrite K2. lrun.
    rewrite contextText_symbol.
    destruct (exitPredicateExpression_operatorType comparisonOperator)
      as [operatorType | message];
      cbn [ofExcept andThen]; lrun; [| apply LowersTo_Fails].
    apply AddExpr_fresh.
    + apply (Below_trans a s s1 s2);
        [exact (Below_child _ _ _ _ B1) | exact (Below_child _ _ _ _ B2)].
    + no_entry F.
  - (* SyntaxLike *)
    intros leftOperand IHl negated rightOperand IHr a s F O.
    unfold predicateParseTree. cbn [predicateChildren lowerPredicate].
    destruct negated; cbn [optionalNot app]; open_walk.
    + pose proof (IHl (a ++ [0%nat]) s (Fresh_child a 0 s F) O) as H.
      unfold predicateParseTree in H.
      destruct (lowerPredicate measurements leftOperand) as [leftValue | message |];
        cbn [andThen LowersTo] in H; [| stopped H | stopped H].
      destruct H as (s1 & -> & B1 & K1 & _). lrun'.
      pose proof (IHr (a ++ [3%nat]) s1
                    (Below_Fresh_sibling a 0 3 s s1 ltac:(lia) B1 (Fresh_child a 3 s F))
                    (Below_Over _ _ _ B1 O)) as H.
      unfold predicateParseTree in H.
      destruct (lowerPredicate measurements rightOperand) as [rightValue | message |];
        cbn [andThen LowersTo] in H; [| stopped H | stopped H].
      destruct H as (s2 & -> & B2 & K2 & _). lrun. cbn [andThen].
      accessors. unfold Listener.exitPredicateExpression. accessors.
      rewrite !bool_decide_is_Some. cbn [andb]. lrun. cbn [address].
      rewrite (Below_child_sibling a 3 0 s1 s2 ltac:(lia) B2), K1. lrun. cbn [address].
      rewrite K2. lrun.
      apply AddExpr_fresh.
      * apply (Below_trans a s s1 s2);
          [exact (Below_child _ _ _ _ B1) | exact (Below_child _ _ _ _ B2)].
      * no_entry F.
    + pose proof (IHl (a ++ [0%nat]) s (Fresh_child a 0 s F) O) as H.
      unfold predicateParseTree in H.
      destruct (lowerPredicate measurements leftOperand) as [leftValue | message |];
        cbn [andThen LowersTo] in H; [| stopped H | stopped H].
      destruct H as (s1 & -> & B1 & K1 & _). lrun'.
      pose proof (IHr (a ++ [2%nat]) s1
                    (Below_Fresh_sibling a 0 2 s s1 ltac:(lia) B1 (Fresh_child a 2 s F))
                    (Below_Over _ _ _ B1 O)) as H.
      unfold predicateParseTree in H.
      destruct (lowerPredicate measurements rightOperand) as [rightValue | message |];
        cbn [andThen LowersTo] in H; [| stopped H | stopped H].
      destruct H as (s2 & -> & B2 & K2 & _). lrun. cbn [andThen].
      accessors. unfold Listener.exitPredicateExpression. accessors.
      rewrite !bool_decide_is_Some. cbn [andb]. lrun. cbn [address].
      rewrite (Below_child_sibling a 2 0 s1 s2 ltac:(lia) B2), K1. lrun. cbn [address].
      rewrite K2. lrun.
      apply AddExpr_fresh.
      * apply (Below_trans a s s1 s2);
          [exact (Below_child _ _ _ _ B1) | exact (Below_child _ _ _ _ B2)].
      * no_entry F.
  - (* SyntaxValue *)
    intros value IH a s F O.
    unfold predicateParseTree.
    restate [RuleContext Rule.valueExpression (valueChildren value)]
            (lowerValue measurements value).
    open_walk.
    pose proof (IH (a ++ [0%nat]) s (Fresh_child a 0 s F) O) as H.
    unfold valueParseTree in H.
    destruct (lowerValue measurements value) as [v | message |];
      cbn [LowersTo] in H; [| stopped H | stopped H].
    destruct H as (s1 & -> & B & K & R). lrun.
    accessors. unfold Listener.exitPredicateExpression. accessors. lrun. cbn [address].
    rewrite K. apply AddExpr_fresh; [exact (Below_child _ _ _ _ B) | no_entry F].
  - (* SyntaxLiteral *)
    intros kind text a s F O.
    unfold valueParseTree. cbn [valueChildren lowerValue].
    rewrite walk_RuleContext, L_bind_run, walkChildren_cons, walkChildren_nil, L_bind_run.
    pose proof (walk_literalValue (a ++ [0%nat]) kind text s (Fresh_child a 0 s F)) as H.
    destruct (lowerLiteral kind text) as [v | message |];
      cbn [andThen LowersTo] in H; cbn [andThen]; [| stopped H | stopped H].
    destruct H as (s1 & -> & B & K & R). lrun.
    accessors. unfold Listener.exitValueExpression, Listener.exitValueExpression_child.
    accessors. lrun. cbn [address].
    rewrite K. apply AddExpr_fresh; [exact (Below_child _ _ _ _ B) | no_entry F].
  - (* SyntaxColumn *)
    intros identifier a s F O.
    unfold valueParseTree. cbn [valueChildren lowerValue].
    rewrite walk_RuleContext, L_bind_run, walkChildren_cons, walkChildren_nil, L_bind_run.
    pose proof (walk_columnName (a ++ [0%nat]) identifier s (Fresh_child a 0 s F) O) as H.
    destruct (exitColumnName_dataColumn measurements identifier) as [v | message];
      cbn [ofExcept andThen LowersTo] in H; cbn [ofExcept andThen]; [| stopped H].
    destruct H as (s1 & -> & B & K & R). lrun.
    accessors. unfold Listener.exitValueExpression, Listener.exitValueExpression_child.
    accessors. lrun. cbn [address].
    rewrite K. apply AddExpr_fresh; [exact (Below_child _ _ _ _ B) | no_entry F].
  - (* SyntaxFunction *)
    intros functionName arguments IHl a s F O.
    unfold valueParseTree.
    restate [RuleContext Rule.functionExpression
               [RuleContext Rule.functionName [symbolNode functionName]; symbolNode "(";
                RuleContext Rule.expressionList (expressionListParseTrees arguments);
                symbolNode ")"]]
            (andThen (lowerExpressionList measurements arguments) (fun arguments =>
             andThen (ofExcept (exitFunctionExpression_functionType functionName))
                     (fun functionType => Built (FunctionExpr functionType arguments)))).
    open_walk. open_walk. lrun'.
    assert (Fresh (a ++ [0%nat]) s) as F0 by now apply Fresh_child.
    pose proof (walk_expressionList arguments ((a ++ [0%nat]) ++ [2%nat]) s IHl
                  (Fresh_child _ 2 s F0) O) as H.
    destruct (lowerExpressionList measurements arguments) as [es | message |];
      cbn [andThen ListNodeLowersTo] in H; [| stopped H | stopped H].
    destruct H as (s1 & found & -> & B1 & K1 & T & FS & LN). lrun'. cbn [andThen].
    accessors. unfold Listener.exitFunctionExpression. accessors.
    rewrite contextText_symbol.
    destruct (exitFunctionExpression_functionType functionName) as [functionType | message];
      cbn [ofExcept andThen]; lrun; [| apply LowersTo_Fails].
    accessors_in T. rewrite T. lrun.
    rewrite (exitFunctionExpression_arguments_found _ _ _ _ FS). lrun.
    match goal with
    | |- context [Listener.AddExpr {| address := _; node := ?t |} ?e s1] =>
        pose proof (AddExpr_fresh (a ++ [0%nat]) t e s s1 (Below_child _ _ _ _ B1)) as H
    end.
    cbn [LowersTo] in H.
    destruct H as (s2 & -> & B2 & K2 & _);
      [rewrite (Below_child_self _ _ _ _ B1); now apply F0 |].
    lrun. unfold Listener.exitValueExpression, Listener.exitValueExpression_child.
    accessors. lrun. cbn [address].
    rewrite K2. apply AddExpr_fresh; [exact (Below_child _ _ _ _ B2) | no_entry F].
  - (* SyntaxFunctionWithoutList *)
    intros functionName a s F O.
    unfold valueParseTree. cbn [valueChildren lowerValue].
    open_walk. open_walk. lrun'.
    accessors. unfold Listener.exitFunctionExpression. accessors.
    rewrite contextText_symbol.
    destruct (exitFunctionExpression_functionType functionName) as [functionType | message];
      cbn [ofExcept andThen]; lrun; [reflexivity | apply LowersTo_Fails].
  - (* SyntaxUnary *)
    intros unaryOperator operand IH a s F O.
    unfold valueParseTree. cbn [valueChildren lowerValue].
    open_walk.
    pose proof (IH (a ++ [1%nat]) s (Fresh_child a 1 s F) O) as H.
    unfold valueParseTree in H.
    destruct (lowerValue measurements operand) as [value | message |];
      cbn [andThen LowersTo] in H; [| stopped H | stopped H].
    destruct H as (s1 & -> & B & K & R). lrun. cbn [andThen].
    accessors. unfold Listener.exitValueExpression. accessors. lrun. cbn [address].
    rewrite K. lrun. rewrite contextText_symbol.
    destruct (exitValueExpression_unaryType unaryOperator) as [unaryType | message];
      cbn [ofExcept andThen]; lrun; [| apply LowersTo_Fails].
    apply AddExpr_fresh; [exact (Below_child _ _ _ _ B) | no_entry F].
  - (* SyntaxParenthesized *)
    intros inner IH a s F O.
    unfold valueParseTree.
    restate [symbolNode "("; RuleContext Rule.expression (expressionChildren inner);
             symbolNode ")"]
            (lowerExpression measurements inner).
    open_walk.
    pose proof (IH (a ++ [1%nat]) s (Fresh_child a 1 s F) O) as H.
    unfold expressionParseTree in H.
    destruct (lowerExpression measurements inner) as [value | message |];
      cbn [LowersTo] in H; [| stopped H | stopped H].
    destruct H as (s1 & -> & B & K & R). lrun'.
    accessors. unfold Listener.exitValueExpression, Listener.exitValueExpression_child.
    accessors. lrun. cbn [address].
    rewrite K. apply AddExpr_fresh; [exact (Below_child _ _ _ _ B) | no_entry F].
  - (* SyntaxMath *)
    intros leftOperand IHl mathOperator rightOperand IHr a s F O.
    unfold valueParseTree. cbn [valueChildren lowerValue].
    open_walk.
    pose proof (IHl (a ++ [0%nat]) s (Fresh_child a 0 s F) O) as H.
    unfold valueParseTree in H.
    destruct (lowerValue measurements leftOperand) as [leftValue | message |];
      cbn [andThen LowersTo] in H; [| stopped H | stopped H].
    destruct H as (s1 & -> & B1 & K1 & _). lrun'.
    pose proof (IHr (a ++ [2%nat]) s1
                  (Below_Fresh_sibling a 0 2 s s1 ltac:(lia) B1 (Fresh_child a 2 s F))
                  (Below_Over _ _ _ B1 O)) as H.
    unfold valueParseTree in H.
    destruct (lowerValue measurements rightOperand) as [rightValue | message |];
      cbn [andThen LowersTo] in H; [| stopped H | stopped H].
    destruct H as (s2 & -> & B2 & K2 & _). lrun. cbn [andThen].
    accessors. unfold Listener.exitValueExpression. accessors. lrun. cbn [address].
    rewrite (Below_child_sibling a 2 0 s1 s2 ltac:(lia) B2), K1. lrun. cbn [address].
    rewrite K2. lrun.
    rewrite contextText_symbol.
    destruct (exitValueExpression_mathOperatorType mathOperator) as [operatorType | message];
      cbn [ofExcept andThen]; lrun; [| apply LowersTo_Fails].
    apply AddExpr_fresh.
    + apply (Below_trans a s s1 s2);
        [exact (Below_child _ _ _ _ B1) | exact (Below_child _ _ _ _ B2)].
    + no_entry F.
  - (* SyntaxBitwise *)
    intros leftOperand IHl bitwiseOperator rightOperand IHr a s F O.
    unfold valueParseTree. cbn [valueChildren lowerValue].
    open_walk.
    pose proof (IHl (a ++ [0%nat]) s (Fresh_child a 0 s F) O) as H.
    unfold valueParseTree in H.
    destruct (lowerValue measurements leftOperand) as [leftValue | message |];
      cbn [andThen LowersTo] in H; [| stopped H | stopped H].
    destruct H as (s1 & -> & B1 & K1 & _). lrun'.
    pose proof (IHr (a ++ [2%nat]) s1
                  (Below_Fresh_sibling a 0 2 s s1 ltac:(lia) B1 (Fresh_child a 2 s F))
                  (Below_Over _ _ _ B1 O)) as H.
    unfold valueParseTree in H.
    destruct (lowerValue measurements rightOperand) as [rightValue | message |];
      cbn [andThen LowersTo] in H; [| stopped H | stopped H].
    destruct H as (s2 & -> & B2 & K2 & _). lrun. cbn [andThen].
    accessors. unfold Listener.exitValueExpression. accessors. lrun. cbn [address].
    rewrite (Below_child_sibling a 2 0 s1 s2 ltac:(lia) B2), K1. lrun. cbn [address].
    rewrite K2. lrun.
    rewrite contextText_symbol.
    destruct (exitValueExpression_bitwiseOperatorType bitwiseOperator) as [operatorType | message];
      cbn [ofExcept andThen]; lrun; [| apply LowersTo_Fails].
    apply AddExpr_fresh.
    + apply (Below_trans a s s1 s2);
        [exact (Below_child _ _ _ _ B1) | exact (Below_child _ _ _ _ B2)].
    + no_entry F.
  - (* SyntaxLast *)
    intros expression IH b i s FF O.
    change (ListLowersTo b i s [RuleContext Rule.expression (expressionChildren expression)]
              (andThen (lowerExpression measurements expression) (fun value => Built [value]))
              (walkChildren b i [RuleContext Rule.expression (expressionChildren expression)]
                 s)).
    rewrite walkChildren_cons, walkChildren_nil, L_bind_run.
    pose proof (IH (b ++ [i]) s (FF i (le_n i)) O) as H.
    unfold expressionParseTree in H.
    destruct (lowerExpression measurements expression) as [value | message |];
      cbn [andThen LowersTo ListLowersTo] in H |- *.
    + destruct H as (s1 & -> & (B & Kp) & K & R). lrun.
      exists s1. split; [reflexivity |]. split; [| split].
      * intros k N. apply B. apply N. lia.
      * exact Kp.
      * accessors. constructor; [exact K | constructor].
    + destruct H as (s' & ->). now exists s'.
    + now rewrite H.
  - (* SyntaxMore *)
    intros expression IH rest IHrest b i s FF O.
    change (ListLowersTo b i s
              (RuleContext Rule.expression (expressionChildren expression)
               :: symbolNode "," :: expressionListParseTrees rest)
              (andThen (lowerExpression measurements expression) (fun value =>
               andThen (lowerExpressionList measurements rest) (fun values =>
                 Built (value :: values))))
              (walkChildren b i
                 (RuleContext Rule.expression (expressionChildren expression)
                  :: symbolNode "," :: expressionListParseTrees rest) s)).
    rewrite !walkChildren_cons, L_bind_run.
    pose proof (IH (b ++ [i]) s (FF i (le_n i)) O) as H.
    unfold expressionParseTree in H.
    destruct (lowerExpression measurements expression) as [value | message |];
      cbn [andThen LowersTo] in H |- *.
    + destruct H as (s1 & -> & B1 & K1 & _). lrun'.
      assert (forall j, (S (S i) <= j)%nat -> Fresh (b ++ [j]) s1) as FF1.
      { intros j L. apply (Below_Fresh_sibling b i j s s1); [lia | exact B1 |].
        apply FF. lia. }
      pose proof (IHrest b (S (S i)) s1 FF1 (Below_Over _ _ _ B1 O)) as H.
      destruct (lowerExpressionList measurements rest) as [values | message |];
        cbn [andThen ListLowersTo] in H |- *.
      * destruct H as (s2 & -> & B2 & K2 & T).
        destruct B1 as (B1 & M1 & T1 & O1). destruct K2 as (M2 & T2 & O2).
        exists s2. split; [reflexivity |]. split; [| split].
        -- intros k N. rewrite B2 by (intros j L; apply N; lia). apply B1. apply N. lia.
        -- repeat split; congruence.
        -- accessors. constructor; [| exact T]. cbn [address].
           rewrite B2; [exact K1 |]. intros j L. apply prefix_snoc_snoc. lia.
      * destruct H as (s' & ->). now exists s'.
      * now rewrite H.
    + destruct H as (s' & ->). now exists s'.
    + now rewrite H.
Qed.

End WalkLowering.

Section WalkTheorems.

Context {external : External} {readers : LiteralReaders}.

Lemma Fresh_startState measurements : Fresh [] (startState measurements).
Proof. intros k _. apply lookup_empty. Qed.

(** X13. The listeners of the WHERE subtree compute the denotation of the
    sentence: after the walk of the parse tree of a sentence, from the
    state in which [enterFilterStatement] leaves the parser, the root of
    the active expression tree is the expression that [lowerExpression]
    gives.  The walk throws with the message of the first node, children
    before parents and left before right, whose listener throws, and it
    has no defined behaviour when the first node that does not return is
    a call of a known function without argument list or an integer
    literal whose conversion is out of range. *)
Theorem walk_lowers_expression (measurements : DataTable) (e : ExpressionSyntax) :
  walkRoot measurements (expressionParseTree e)
  = andThen (lowerExpression measurements e) (fun value => Built (Some value)).
Proof.
  destruct (walk_lowers measurements) as (H & _).
  specialize (H e [] (startState measurements) (Fresh_startState measurements) eq_refl).
  unfold walkRoot.
  destruct (lowerExpression measurements e) as [value | message |];
    cbn [LowersTo andThen] in H |- *.
  - destruct H as (s' & -> & _ & _ & R). now rewrite R.
  - destruct H as (s' & ->). reflexivity.
  - now rewrite H.
Qed.

(** X14. A walk of the WHERE subtree that returns leaves the table, the
    limit and the order-by terms of the active expression tree as they
    were, changes no entry of [m_expressions] but those of the nodes of
    the subtree, and records for the top node the expression that it
    leaves as root. *)
Theorem walk_expression_frame (e : ExpressionSyntax) (a : list nat)
    (s s' : Listener.State) :
  Fresh a s ->
  Listener.walk a (expressionParseTree e) s = Listener.Done tt s' ->
  Kept s s'
  /\ (forall k, ~ a `prefix_of` k ->
                Listener.m_expressions s' !! k = Listener.m_expressions s !! k)
  /\ is_Some (Root (Listener.m_activeExpressionTree s'))
  /\ Listener.m_expressions s' !! a = Root (Listener.m_activeExpressionTree s').
Proof.
  intros F W.
  destruct (walk_lowers (Measurements (Listener.m_activeExpressionTree s))) as (H & _).
  specialize (H e a s F eq_refl).
  destruct (lowerExpression _ e) as [value | message |]; cbn [LowersTo] in H.
  - destruct H as (s1 & E & (B & K) & M & R).
    rewrite E in W. injection W as <-.
    repeat split; try apply K; [exact B | rewrite R; eauto | congruence].
  - destruct H as (s1 & E). rewrite E in W. discriminate.
  - rewrite H in W. discriminate.
Qed.

End WalkTheorems.

(** ** The columns of the expression tree *)

Lemma andThen_Built {A B : Type} (r : Lowered A) (f : A -> Lowered B) (b : B) :
  andThen r f = Built b -> exists a, r = Built a /\ f a = Built b.
Proof. destruct r as [a | |]; cbn; [eauto | discriminate | discriminate]. Qed.

Lemma DataTable_Column_In measurements columnName dataColumn :
  DataTable_Column measurements columnName = Some dataColumn ->
  In dataColumn (Table_Columns measurements).
Proof. unfold DataTable_Column. intros H. now apply find_some in H. Qed.

(** Takes a chain of steps that built an expression apart. *)
Ltac built H :=
  repeat match type of H with
         | andThen _ _ = Built _ =>
             let a := fresh "a" in
             let E := fresh "E" in
             apply andThen_Built in H; destruct H as (a & E & H)
         end;
  try (injection H as <-).

Section ColumnsOfTable.

Context {external : External} {readers : LiteralReaders}.

Variable measurements : DataTable.

Lemma lower_columns :
  (forall e x, lowerExpression measurements e = Built x -> ofTable measurements (columnsOf x))
  /\ (forall p x, lowerPredicate measurements p = Built x -> ofTable measurements (columnsOf x))
  /\ (forall v x, lowerValue measurements v = Built x -> ofTable measurements (columnsOf x))
  /\ (forall l xs, lowerExpressionList measurements l = Built xs ->
                   ofTable measurements (flat_map columnsOf xs)).
Proof.
  unfold ofTable. apply Syntax_mutual.
  - intros notOperator operand IH x H. cbn [lowerExpression] in H. built H.
    cbn [columnsOf]. eauto.
  - intros leftOperand IHl logicalOperator rightOperand IHr x H.
    cbn [lowerExpression] in H. built H.
    cbn [columnsOf]. apply Forall_app. eauto.
  - intros predicate IH x H. apply IH. exact H.
  - intros value IHv negated list IHl x H.
    change (andThen (lowerPredicate measurements value) (fun value =>
            andThen (lowerExpressionList measurements list) (fun arguments =>
              Built (InListExpr value arguments negated))) = Built x) in H.
    built H. cbn [columnsOf]. apply Forall_app. eauto.
  - intros value IH negated x H. cbn [lowerPredicate] in H. built H.
    cbn [columnsOf]. apply Forall_app. split; [eauto | constructor].
  - intros leftOperand IHl comparisonOperator rightOperand IHr x H.
    cbn [lowerPredicate] in H. built H.
    cbn [columnsOf]. apply Forall_app. eauto.
  - intros leftOperand IHl negated rightOperand IHr x H.
    cbn [lowerPredicate] in H. built H.
    cbn [columnsOf]. apply Forall_app. eauto.
  - intros value IH x H. apply IH. exact H.
  - intros kind text x H. cbn [lowerValue] in H. built H. constructor.
  - intros identifier x H. cbn [lowerValue] in H. built H.
    cbn [columnsOf]. constructor; [| constructor].
    unfold exitColumnName_dataColumn in E.
    destruct (DataTable_Column measurements identifier) as [dataColumn |] eqn:C;
      [| discriminate].
    injection E as <-. now apply DataTable_Column_In in C.
  - intros functionName arguments IH x H.
    change (andThen (lowerExpressionList measurements arguments) (fun arguments =>
            andThen (ofExcept (exitFunctionExpression_functionType functionName))
                    (fun functionType => Built (FunctionExpr functionType arguments)))
            = Built x) in H.
    built H. cbn [columnsOf]. eauto.
  - intros functionName x H. cbn [lowerValue] in H. built H. discriminate.
  - intros unaryOperator operand IH x H. cbn [lowerValue] in H. built H.
    cbn [columnsOf]. eauto.
  - intros inner IH x H. apply IH. exact H.
  - intros leftOperand IHl mathOperator rightOperand IHr x H.
    cbn [lowerValue] in H. built H.
    cbn [columnsOf]. apply Forall_app. eauto.
  - intros leftOperand IHl bitwiseOperator rightOperand IHr x H.
    cbn [lowerValue] in H. built H.
    cbn [columnsOf]. apply Forall_app. eauto.
  - intros expression IH xs H.
    change (andThen (lowerExpression measurements expression)
                    (fun value => Built [value]) = Built xs) in H.
    built H. cbn [flat_map]. rewrite app_nil_r. eauto.
  - intros expression IH rest IHrest xs H.
    change (andThen (lowerExpression measurements expression) (fun value =>
            andThen (lowerExpressionList measurements rest) (fun values =>
              Built (value :: values))) = Built xs) in H.
    built H. cbn [flat_map]. apply Forall_app. eauto.
Qed.

End ColumnsOfTable.

(** X15. The expression tree that the walk of a WHERE subtree builds reads
    columns of the table of its filter statement only: every column of
    the root is one of the columns of the table. *)
Theorem walk_columns_of_table {external : External} {readers : LiteralReaders}
    (measurements : DataTable) (e : ExpressionSyntax) (root : Expression) :
  walkRoot measurements (expressionParseTree e) = Built (Some root) ->
  Forall (fun dataColumn => In dataColumn (Table_Columns measurements)) (columnsOf root).
Proof.
  intros W. destruct (lower_columns measurements) as (H & _). apply (H e).
  destruct (walk_lowers measurements) as (L & _).
  specialize (L e [] (startState measurements) (Fresh_startState measurements) eq_refl).
  unfold walkRoot in W.
  destruct (lowerExpression measurements e) as [value | message |]; cbn [LowersTo] in L.
  - destruct L as (s' & E & _ & _ & R). rewrite E, R in W. congruence.
  - destruct L as (s' & E). rewrite E in W. discriminate.
  - rewrite L in W. discriminate.
Qed.

Lemma walk_columns_of_table_witness :
  Forall (fun dataColumn => In dataColumn (Table_Columns sampleTable))
         (columnsOf sampleRoot).
Proof.
  apply (@walk_columns_of_table (Sample.external []) SampleReaders.readers
           sampleTable sampleSentence sampleRoot).
  vm_compute. reflexivity.
Defined.

(** ** Operator spellings *)

Lemma IsEqual_exact (a b : string) : IsEqual a b false = String.eqb a b.
Proof.
  revert b; induction a as [| x a IH]; intros [| y b];
    cbn [IsEqual String.eqb]; try reflexivity.
  rewrite IH. unfold CharEquals.
  destruct (Ascii.eqb_spec x y) as [E | N].
  - rewrite bool_decide_eq_true_2 by exact E. reflexivity.
  - rewrite bool_decide_eq_false_2 by exact N. reflexivity.
Qed.

(** Follows a chain of tests to the branch that was taken. *)
Ltac taken H :=
  repeat match type of H with
         | (if ?b || ?c then _ else _) = _ => destruct b eqn:?; cbn [orb] in H
         | (if ?b then _ else _) = _ => destruct b eqn:?
         end;
  try discriminate H; injection H as <-;
  repeat match goal with
         | E : _ || _ = true |- _ => apply orb_true_iff in E; destruct E as [E | E]
         | E : String.eqb _ _ = true |- _ => apply String.eqb_eq in E
         end;
  subst;
  repeat match goal with
         | E : ToUpper _ = _ |- _ => rewrite E; clear E
         end;
  cbn [In]; auto 12.

(** Reads a row of a table of spellings. *)
Ltac row H :=
  cbn [In] in H;
  repeat match type of H with
         | _ \/ _ => destruct H as [H | H]
         | (_, _) = (_, _) => injection H as ? ?
         | False => destruct H
         end;
  subst.

(** Takes the tests of a chain for a text in upper case that is known. *)
Ltac folded :=
  repeat match goal with
         | E : _ = ToUpper _ |- _ => rewrite <- E
         | |- context [String.eqb ?a ?b] =>
             destruct (String.eqb_spec a b);
             [ subst;
               try match goal with
                   | E : _ = ToUpper _ |- _ => vm_compute in E; discriminate E
                   end;
               try discriminate
             | try congruence; cbn [orb] ]
         end;
  try reflexivity.

(** X16. The listeners read an operator by its text: AND, OR and NOT
    without regard to case, every operator written in symbols exactly as
    tabled, and every other text raises the exception of the listener. *)
Theorem operator_spellings (text : string) :
  (forall op, exitExpression_operatorType text = Returns op <->
     In (ToUpper text, op)
        [("AND"%string, ExpressionOperatorType.And); ("OR"%string, ExpressionOperatorType.Or)]
     \/ In (text, op)
           [("&&"%string, ExpressionOperatorType.And);
            ("||"%string, ExpressionOperatorType.Or)])
  /\ (forall op, exitPredicateExpression_operatorType text = Returns op <->
        In (text, op)
           [("<"%string, ExpressionOperatorType.LessThan);
            ("<="%string, ExpressionOperatorType.LessThanOrEqual);
            (">"%string, ExpressionOperatorType.GreaterThan);
            (">="%string, ExpressionOperatorType.GreaterThanOrEqual);
            ("="%string, ExpressionOperatorType.Equal);
            ("=="%string, ExpressionOperatorType.Equal);
            ("<>"%string, ExpressionOperatorType.NotEqual);
            ("!="%string, ExpressionOperatorType.NotEqual)])
  /\ (forall op, exitValueExpression_unaryType text = Returns op <->
        In (text, op)
           [("+"%string, ExpressionUnaryType.Plus); ("-"%string, ExpressionUnaryType.Minus);
            ("~"%string, ExpressionUnaryType.Not); ("!"%string, ExpressionUnaryType.Not)]
        \/ In (ToUpper text, op) [("NOT"%string, ExpressionUnaryType.Not)])
  /\ (forall op, exitValueExpression_mathOperatorType text = Returns op <->
        In (text, op)
           [("*"%string, ExpressionOperatorType.Multiply);
            ("/"%string, ExpressionOperatorType.Divide);
            ("%"%string, ExpressionOperatorType.Modulus);
            ("+"%string, ExpressionOperatorType.Add);
            ("-"%string, ExpressionOperatorType.Subtract)])
  /\ (forall op, exitValueExpression_bitwiseOperatorType text = Returns op <->
        In (text, op)
           [("<<"%string, ExpressionOperatorType.BitShiftLeft);
            (">>"%string, ExpressionOperatorType.BitShiftRight);
            ("&"%string, ExpressionOperatorType.BitwiseAnd);
            ("|"%string, ExpressionOperatorType.BitwiseOr)]).
Proof.
  unfold exitExpression_operatorType, exitPredicateExpression_operatorType,
    exitValueExpression_unaryType, exitValueExpression_mathOperatorType,
    exitValueExpression_bitwiseOperatorType.
  rewrite !IsEqual_ToUpper, !IsEqual_exact.
  change (ToUpper "AND") with "AND"%string.
  change (ToUpper "OR") with "OR"%string.
  change (ToUpper "NOT") with "NOT"%string.
  repeat split; intros H.
  - taken H.
  - row H; folded.
  - taken H.
  - row H; reflexivity.
  - taken H.
  - row H; folded.
  - taken H.
  - row H; reflexivity.
  - taken H.
  - row H; reflexivity.
Qed.

(** ** The table of ID fields *)

(** X17. [SetMeasurementTableIDFields] followed by
    [GetMeasurementTableIDFields] for the same table gives the fields that
    were set, also when the table had fields before, and leaves those of
    every other table as they were; a new parser has fields for
    ActiveMeasurements only: SignalID, ID and PointTag. *)
Theorem MeasurementTableIDFields_round_trip (measurementTableName : string)
    (fields : MeasurementTableIDFields) (p : FilterExpressionParser) :
  GetMeasurementTableIDFields measurementTableName
    (SetMeasurementTableIDFields measurementTableName fields p) = Some fields
  /\ (forall other, other <> measurementTableName ->
        GetMeasurementTableIDFields other
          (SetMeasurementTableIDFields measurementTableName fields p)
        = GetMeasurementTableIDFields other p)
  /\ (forall filterExpression,
        GetMeasurementTableIDFields measurementTableName
          (NewFilterExpressionParser filterExpression)
        = if String.eqb measurementTableName "ActiveMeasurements"
          then Some {| SignalIDFieldName := "SignalID";
                       MeasurementKeyFieldName := "ID";
                       PointTagFieldName := "PointTag" |}
          else None).
Proof.
  unfold GetMeasurementTableIDFields, SetMeasurementTableIDFields. cbn. repeat split.
  - apply lookup_insert_eq.
  - intros other N. now apply lookup_insert_ne.
  - intros _. destruct (String.eqb_spec measurementTableName "ActiveMeasurements") as [-> | N].
    + apply lookup_singleton_eq.
    + now apply lookup_singleton_ne.
Qed.

(** ** The walk and the filter statement on the sample data *)

Lemma walk_expression_frame_witness :
  Kept (startState sampleTable) sampleWalked
  /\ (forall k, ~ [] `prefix_of` k ->
                Listener.m_expressions sampleWalked !! k
                = Listener.m_expressions (startState sampleTable) !! k)
  /\ is_Some (Root (Listener.m_activeExpressionTree sampleWalked))
  /\ Listener.m_expressions sampleWalked !! []
     = Root (Listener.m_activeExpressionTree sampleWalked).
Proof.
  apply (@walk_expression_frame (Sample.external []) SampleReaders.readers
           sampleSentence [] (startState sampleTable) sampleWalked).
  - apply Fresh_startState.
  - vm_compute. reflexivity.
Defined.

Lemma enterFilterStatement_expressionTree_witness :
  enterFilterStatement topOneContext sampleParser
  = Ok tt (pushExpressionTree
             {| Measurements := sampleTable; TopLimit := 1;
                OrderByTerms := [(sampleRankColumn, true)]; Root := None |}
             sampleParser)
  /\ enterFilterStatement negativeTopContext sampleParser
     = Ok tt (pushExpressionTree
                {| Measurements := sampleTable; TopLimit := -5;
                   OrderByTerms := []; Root := None |}
                sampleParser).
Proof.
  split.
  - destruct (enterFilterStatement_expressionTree topOneContext sampleParser sampleDataSet
                eq_refl) as [H _].
    apply H; reflexivity.
  - destruct (enterFilterStatement_expressionTree negativeTopContext sampleParser
                sampleDataSet eq_refl) as [H _].
    apply H; reflexivity.
Defined.
